(** * Brogue tile renderer (tiles.c): a shallow embedding and its properties

    The development follows the SDL tile engine of Brogue CE: the atlas
    analysis ([getPadding], [isTileEmpty]), the pseudo-random generator
    ([xorshift64s], [noise]), the rasterizer ([prepareTile]), the shift
    optimizer ([optimizeTiles]), the shift cache of [init] and the texture
    selection of [updateScreen] / [getTexture].

    Machine integers are [Z] with their wrap-around written out; the
    malloc'ed accumulator, the index array and the surfaces are lists updated
    by index; a [double] is the rational it stands for, and every operation
    on doubles is the exact operation followed by the rounding of IEEE 754
    binary64 ([rnd]); the two quantities that go through [sin] (the wave
    brightness and the blur term) are variables of the section that holds
    the rasterizer. *)

From Stdlib Require Import ZArith QArith Qround Qminmax Qabs Qpower Lia Lqa List Bool Ascii String.
From stdpp Require Import base list.

Local Open Scope Z_scope.

(** ** Constants of the atlas *)

Definition PNG_WIDTH : Z := 2048.
Definition PNG_HEIGHT : Z := 5568.
Definition TILE_WIDTH : Z := 128.
Definition TILE_HEIGHT : Z := 232.
Definition TILE_ROWS : Z := 24.
Definition TILE_COLS : Z := 16.
Definition TEXT_X_HEIGHT : Z := 100.
Definition TEXT_BASELINE : Z := 46.
Definition MAX_TILE_SIZE : Z := 64.

(** ** Arrays indexed by C integers *)

(** A read of [l[i]]; the model yields 0 outside the array. *)
Definition zget (l : list Z) (i : Z) : Z :=
  if i <? 0 then 0 else default 0 (l !! Z.to_nat i).

(** A write [l[i] = v]; the model leaves the array alone outside its bounds. *)
Definition zset (l : list Z) (i v : Z) : list Z :=
  if i <? 0 then l else <[Z.to_nat i := v]> l.

(** The indices visited by [for (i = start; i < stop; i += step)]. *)
Definition range_step (start stop step : Z) : list Z :=
  map (fun k => start + step * Z.of_nat k)
      (seq 0 (Z.to_nat ((stop - start + step - 1) / step))).

Definition range (start stop : Z) : list Z := range_step start stop 1.

(** ** The pseudo-random generator *)

Definition u64 (x : Z) : Z := x mod 2 ^ 64.

(** [xorshift64s]: the new state and the returned value. *)
Definition xorshift64s (state : Z) : Z * Z :=
  let x := state in
  let x := Z.lxor x (Z.shiftr x 12) in
  let x := Z.lxor x (u64 (Z.shiftl x 25)) in
  let x := Z.lxor x (Z.shiftr x 27) in
  (x, u64 (x * 0x2545f4914f6cdd1d)).

Definition noise (state : Z) : Z * Z :=
  let '(state', r) := xorshift64s state in
  (state', u64 (Z.shiftr r 54 + 0x100000280)).

(** ** Floor dust *)

(** The state threaded through the floor-dust code: the generator's state
    and the accumulator. *)
Record Dust := mkDust { dust_state : Z; dust_values : list Z }.

Definition put_noise (p : Z) (d : Dust) : Dust :=
  let '(s, n) := noise (dust_state d) in
  mkDust s (zset (dust_values d) p n).

(** The four loops that stitch the edges of the tile. *)
Definition stitchEdges (tileWidth w h : Z) (d : Dust) : Dust :=
  let d := fold_left (fun d x => put_noise x d) (range_step 0 w 4) d in
  let d := fold_left (fun d y => put_noise (y * tileWidth) d) (range_step 0 h 4) d in
  let d := fold_left (fun d x => put_noise ((h + 1) * tileWidth + x) d) (range_step 2 w 4) d in
  fold_left (fun d y => put_noise (y * tileWidth + (w + 1)) d) (range_step 2 h 4) d.

(** The Fisher-Yates shuffle of the array of indexes. *)
Definition shuffleStep (n : Z) (si : Z * list Z) (i : Z) : Z * list Z :=
  let '(state, idx) := si in
  let '(state', r) := xorshift64s state in
  let j := r mod (n - i) + i in
  let t := zget idx i in
  (state', zset (zset idx i (zget idx j)) j t).

Definition shuffle (n : Z) (state : Z) : Z * list Z :=
  fold_left (shuffleStep n) (range 0 (n - 1)) (state, range 0 n).

(** The eight offsets tested around the flat position [p]. *)
Definition neighbours (tileWidth : Z) : list Z :=
  [1; -1; tileWidth; tileWidth + 1; tileWidth - 1;
   - tileWidth; - tileWidth + 1; - tileWidth - 1].

Definition isolated (tileWidth : Z) (values : list Z) (p : Z) : bool :=
  forallb (fun d => zget values (p + d) =? 0) (neighbours tileWidth).

(** The same test as the older variant of the renderer writes it, on the
    pixel [(x, y)] of an accumulator whose lines are [stride] entries apart:
    the neighbours come in another order and two of the negations are joined
    by [&] instead of [&&]. *)
Definition isolated_older (stride : Z) (values : list Z) (x y : Z) : bool :=
  let dark dx dy := zget values ((x + dx) + (y + dy) * stride) =? 0 in
  dark 1 0 && dark (-1) 0 && dark 1 1 && dark (-1) (-1) && dark 0 1
  && negb (Z.land (Z.b2z (dark 0 (-1))) (Z.b2z (dark (-1) 1)) =? 0)
  && dark 1 (-1).

Definition dustStep (tileWidth w : Z) (d : Dust) (k : Z) : Dust :=
  let x := 1 + k mod w in
  let y := 1 + k / w in
  let p := x + y * tileWidth in
  if isolated tileWidth (dust_values d) p then put_noise p d else d.

Definition fillCenter (tileWidth w : Z) (idx : list Z) (d : Dust) : Dust :=
  fold_left (dustStep tileWidth w) idx d.

Definition floorDust (tileWidth tileHeight : Z) (values : list Z) : list Z :=
  let w := tileWidth - 2 in
  let h := tileHeight - 2 in
  let d := stitchEdges tileWidth w h (mkDust 1234567 values) in
  let '(state, idx) := shuffle (w * h) (dust_state d) in
  dust_values (fillCenter tileWidth w idx (mkDust state (dust_values d))).

(** The blank accumulator that [malloc] and [memset] produce. *)
Definition blank (tileWidth tileHeight : Z) : list Z :=
  replicate (Z.to_nat (tileWidth * tileHeight)) 0.


(** ** Doubles *)

(** [(double)z] for an [int] [z]: every [int] is a double. *)
Definition iq (z : Z) : Q := inject_Z z.

(** [2^e] as a rational. *)
Definition pow2 (e : Z) : Q := (2 ^ e)%Q.

(** The integer part of the binary logarithm of a positive rational: the
    exponent of the double that stands for it. *)
Definition ilog2 (x : Q) : Z :=
  let k := Z.log2 (Qnum x) - Z.log2 (Z.pos (Qden x)) in
  if Qle_bool (pow2 k) x then k else k - 1.

(** The nearest integer, halves to the even one. *)
Definition rne (m : Q) : Z :=
  let f := Qfloor m in
  match (m - iq f ?= 1 # 2)%Q with
  | Lt => f
  | Gt => f + 1
  | Eq => if Z.even f then f else f + 1
  end.

(** The rounding of binary64 in its default mode: a positive rational goes
    to the nearest multiple of [2^(e - 52)], where [2^e] is the largest power
    of two that it reaches; this leaves a mantissa of 53 bits.  The exponent
    is not bounded: the quantities of the renderer (pixel coordinates,
    ratios of sizes) stay far from the overflow and underflow thresholds of
    the format. *)
Definition rndPos (x : Q) : Q :=
  let u := pow2 (ilog2 x - 52) in Qred (iq (rne (x / u)) * u).

Definition rnd (x : Q) : Q :=
  match Qnum x with
  | Z0 => 0%Q
  | Zpos _ => rndPos x
  | Zneg _ => Qopp (rndPos (Qopp x))
  end.

(** The four operations of C on doubles.  A quotient by zero is not finite
    in C.  Where the program can divide by zero the definitions say what
    becomes of the quotient ([glyphSize], [chooseTileSize]); the other
    divisors are constants of the atlas, differences of stops inside loops
    that run only when the difference is positive, and the span
    [stop4 - stop0] of the vertical stops, which is zero only for a padding
    of [TILE_HEIGHT / 2], where no line of the tile is mapped. *)
Definition dadd (x y : Q) : Q := rnd (x + y).
Definition dsub (x y : Q) : Q := rnd (x - y).
Definition dmul (x y : Q) : Q := rnd (x * y).
Definition ddiv (x y : Q) : Q := rnd (x / y).

(** The literals [0.1], [1.2] and [1.4]. *)
Definition d0_1 : Q := rnd (1 # 10).
Definition d1_2 : Q := rnd (12 # 10).
Definition d1_4 : Q := rnd (14 # 10).

(** An [int] after an overflow of its arithmetic: the low 32 bits, signed. *)
Definition i32 (z : Z) : Z := (z + 2 ^ 31) mod 2 ^ 32 - 2 ^ 31.

(** ** Conversions of doubles to integers *)

(** [(int)d]: a [double] converted to [int] is truncated toward zero. *)
Definition truncQ (q : Q) : Z := Z.quot (Qnum q) (Z.pos (Qden q)).

(** [round(d)] of math.h: to the nearest integer, halves away from zero. *)
Definition roundQ (q : Q) : Z :=
  if Qle_bool 0 q then Qfloor (q + (1 # 2))%Q else - Qfloor (- q + (1 # 2))%Q.

(** [round(sqrt(v))] for an integer [v]: the square root of an integer is
    never half way between two integers, so the nearest integer is decided
    by comparing [v] with [r * r + r]. *)
Definition roundSqrt (v : Z) : Z :=
  let r := Z.sqrt v in if r * r + r <? v then r + 1 else r.

(** ** The global state of the renderer *)

(** [TileProcessing]: how each tile is processed. *)
Definition TileProcessingRows : list string :=
  [ "ffffffffffffffff"; "ffffffffffffffff"; "#t##########t#t#"; "tttttttttttt###t";
    "#ttttttttttttttt"; "ttttttttttt#####"; "#ttttttttttttttt"; "ttttttttttt#####";
    "################"; "################"; "################"; "################";
    "tttttttttttttttt"; "ttttttt#tttttttt"; "tttttttttttttttt"; "ttttttt#tttttttt";
    "ffsfsfsffsssssss"; "ssfsfsffffffffff"; "fffffffffffffsff"; "ffffffffffffffff";
    "fsssfffffffffffs"; "fsffffffffffffff"; "ffffssssffssffff"; "ffffsfffffssssff" ]%string.

Definition TileProcessing (row column : Z) : ascii :=
  match TileProcessingRows !! Z.to_nat row with
  | Some s => match String.get (Z.to_nat column) s with
              | Some c => c
              | None => zero
              end
  | None => zero
  end.

Definition is_s (c : ascii) : bool := Ascii.eqb c "s"%char.
Definition is_f (c : ascii) : bool := Ascii.eqb c "f"%char.
Definition is_t (c : ascii) : bool := Ascii.eqb c "t"%char.
Definition is_hash (c : ascii) : bool := Ascii.eqb c "#"%char.

(** The static variables of tiles.c.  The atlas is read-only memory, given
    by the 32-bit word at each pixel index; [tilePadding] and [tileEmpty]
    are the tables filled once by [init]; [tileShifts] holds, for each of the
    24 * 16 tiles, its block [2][MAX_TILE_SIZE][3] of signed bytes. *)
Record Tiles := mkTiles {
  TilesPNG : Z -> Z;
  tilePadding : Z -> Z -> Z;
  tileShifts : list (list Z);
  tileEmpty : Z -> Z -> bool;
  baseTileWidth : Z;
  baseTileHeight : Z;
  numTextures : Z
}.

Definition set_tileShifts (g : Tiles) (t : list (list Z)) : Tiles :=
  mkTiles (TilesPNG g) (tilePadding g) t (tileEmpty g)
          (baseTileWidth g) (baseTileHeight g) (numTextures g).

Definition set_base (g : Tiles) (w h : Z) : Tiles :=
  mkTiles (TilesPNG g) (tilePadding g) (tileShifts g) (tileEmpty g) w h (numTextures g).

Definition set_numTextures (g : Tiles) (n : Z) : Tiles :=
  mkTiles (TilesPNG g) (tilePadding g) (tileShifts g) (tileEmpty g)
          (baseTileWidth g) (baseTileHeight g) n.

(** Position of [tileShifts[row][column]] in the table, and of
    [[axis][size][k]] inside a tile's block. *)
Definition cellIndex (row column : Z) : Z := row * TILE_COLS + column.
Definition slotIndex (axis size k : Z) : Z := (axis * MAX_TILE_SIZE + size) * 3 + k.

Definition cellBlock (t : list (list Z)) (row column : Z) : list Z :=
  if cellIndex row column <? 0 then []
  else default [] (t !! Z.to_nat (cellIndex row column)).

Definition getShift (t : list (list Z)) (row column axis size k : Z) : Z :=
  zget (cellBlock t row column) (slotIndex axis size k).

Definition setShift (t : list (list Z)) (row column axis size k v : Z) : list (list Z) :=
  if cellIndex row column <? 0 then t
  else <[Z.to_nat (cellIndex row column) :=
           zset (cellBlock t row column) (slotIndex axis size k) v]> t.

(** ** Atlas analysis *)

(** Whether the pixel index [i] of the atlas lies in tile [row], [column]. *)
Definition tilePixelOf (row column i : Z) : bool :=
  let x := i mod PNG_WIDTH in
  let y := i / PNG_WIDTH in
  (column * TILE_WIDTH <=? x) && (x <? (column + 1) * TILE_WIDTH)
  && (row * TILE_HEIGHT <=? y) && (y <? (row + 1) * TILE_HEIGHT).

(** The low byte of the pixel at column [x], line [y] of tile [row], [column]. *)
Definition tilePixel (png : Z -> Z) (row column x y : Z) : Z :=
  Z.land (png ((x + column * TILE_WIDTH) + (y + row * TILE_HEIGHT) * PNG_WIDTH)) 0xff.

Definition inkAt (png : Z -> Z) (row column padding : Z) : bool :=
  existsb (fun x =>
             let y1 := padding in
             let y2 := TILE_HEIGHT - padding - 1 in
             negb (tilePixel png row column x y1 =? 0)
             || negb (tilePixel png row column x y2 =? 0))
          (range 0 TILE_WIDTH).

(** The outer loop of [getPadding], [n] iterations left, now at [padding]. *)
Fixpoint getPadding_loop (png : Z -> Z) (row column : Z) (n : nat) (padding : Z) : Z :=
  match n with
  | O => padding
  | S n' => if inkAt png row column padding then padding
            else getPadding_loop png row column n' (padding + 1)
  end.

Definition getPadding (png : Z -> Z) (row column : Z) : Z :=
  getPadding_loop png row column (Z.to_nat (TILE_HEIGHT / 4)) 0.

Definition isTileEmpty (png : Z -> Z) (row column : Z) : bool :=
  forallb (fun y => forallb (fun x => tilePixel png row column x y =? 0)
                            (range 0 TILE_WIDTH))
          (range 0 TILE_HEIGHT).

(** ** The rasterizer *)

Record Surface := mkSurface { surf_w : Z; surf_pixels : list Z }.

Record Maps := mkMaps { map0 : Q; map1 : Q; map2 : Q; map3 : Q; map4 : Q }.
Record Stops := mkStops { stop0 : Z; stop1 : Z; stop2 : Z; stop3 : Z; stop4 : Z }.

(** [shifts[k]] for the glyph size at hand: [noShifts] above MAX_TILE_SIZE. *)
Definition shiftsAt (g : Tiles) (row column axis glyphSize k : Z) : Z :=
  if glyphSize >? MAX_TILE_SIZE then 0
  else getShift (tileShifts g) row column axis (glyphSize - 1) k.

(** Size of the area the glyph must fit into and of the downscaled glyph:
    [(fitWidth, fitHeight, glyphWidth, glyphHeight)].  The two products of
    the stretch are computed in [int] and wrap around; the other operations
    are on doubles.  A divisor that is zero gives an infinite quotient, which
    the clamps [min] and [max] take to a bound: the stretch is then 1.2 for a
    positive numerator and 1.0 for a negative one, and the glyph width is the
    fit width.  (The quotient 0 / 0 of the stretch is not a number and the
    height derived from it is not defined in C; the model has the stretch 1.0
    there.) *)
Definition glyphSize (g : Tiles) (tileWidth tileHeight row column : Z) (optimizing : bool)
  : Z * Z * Z * Z :=
  let padding := tilePadding g row column in
  let processing := TileProcessing row column in
  let fitWidth := Z.max 1 (baseTileWidth g) in
  let fitHeight := Z.max 1 (baseTileHeight g) in
  if is_s processing || optimizing then
    (tileWidth, tileHeight, tileWidth, tileHeight)
  else if is_f processing then
    let num := i32 (fitWidth * TILE_HEIGHT) in
    let den := i32 (fitHeight * TILE_WIDTH) in
    let stretch :=
      if den =? 0 then (if 0 <? num then d1_2 else 1%Q)
      else Qmax 1 (Qmin d1_2 (ddiv (iq num) (iq den))) in
    (fitWidth, fitHeight,
     (if TILE_HEIGHT - 2 * padding =? 0 then fitWidth
      else Z.max 1 (Z.min fitWidth
             (roundQ (ddiv (dmul (dmul d1_2 (iq fitHeight)) (iq TILE_WIDTH))
                           (iq (TILE_HEIGHT - 2 * padding)))))),
     Z.max 1 (Z.min fitHeight
        (roundQ (ddiv (dmul (dmul stretch (iq fitWidth)) (iq (TILE_HEIGHT - 2 * padding)))
                      (iq TILE_WIDTH)))))
  else
    (fitWidth, fitHeight,
     Z.max 1 (Z.min fitWidth
        (roundQ (ddiv (dmul (dmul d1_4 (iq fitHeight)) (iq TILE_WIDTH)) (iq TILE_HEIGHT)))),
     Z.max 1 (Z.min fitHeight
        (roundQ (ddiv (dmul (dmul d1_4 (iq fitWidth)) (iq TILE_HEIGHT)) (iq TILE_WIDTH))))).

Definition horizStops : Stops :=
  mkStops 0 (TILE_WIDTH ÷ 5) (TILE_WIDTH ÷ 2) (TILE_WIDTH * 4 ÷ 5) TILE_WIDTH.

Definition horizMaps (g : Tiles) (row column fitWidth glyphWidth : Z) : Maps :=
  let s := horizStops in
  let sh := shiftsAt g row column 0 glyphWidth in
  let m0 := iq ((fitWidth - glyphWidth + (if sh 0 + sh 1 <? 0 then 1 else 0)) ÷ 2) in
  let at_ st k :=
    dadd (dadd m0 (ddiv (dmul (iq glyphWidth) (iq (st - stop0 s)))
                        (iq (stop4 s - stop0 s))))
         (dmul (iq (sh k)) d0_1) in
  mkMaps m0 (at_ (stop1 s) 0) (at_ (stop2 s) 2) (at_ (stop3 s) 1) (dadd m0 (iq glyphWidth)).

Definition vertStops (g : Tiles) (row column : Z) : Stops :=
  if is_t (TileProcessing row column) then
    let s4 := TILE_HEIGHT in
    let s3 := s4 - TEXT_BASELINE in
    let s2 := s3 - TEXT_X_HEIGHT in
    mkStops 0 (s2 ÷ 3) s2 s3 s4
  else
    let s0 := tilePadding g row column in
    let s4 := TILE_HEIGHT - tilePadding g row column in
    mkStops s0 (s0 + (s4 - s0) ÷ 5) (s0 + (s4 - s0) ÷ 2) (s0 + (s4 - s0) * 4 ÷ 5) s4.

(** The vertical stops before the shifts are added: proportional, then, for
    text, aligned with the output pixels. *)
Definition vertMapsAligned (g : Tiles) (row column fitHeight glyphHeight : Z) : Maps :=
  let s := vertStops g row column in
  let m0 := iq ((fitHeight - glyphHeight) ÷ 2) in
  let at_ st :=
    dadd m0 (ddiv (dmul (iq glyphHeight) (iq (st - stop0 s))) (iq (stop4 s - stop0 s))) in
  let m1 := at_ (stop1 s) in
  let m2 := at_ (stop2 s) in
  let m3 := at_ (stop3 s) in
  let m4 := dadd m0 (iq glyphHeight) in
  if is_t (TileProcessing row column) then
    let m3 := dadd m3 (dsub (iq (roundQ m2)) m2) in
    let m2 := iq (roundQ m2) in
    let m3 := Qmax (dadd m2 1) (iq (roundQ m3)) in
    let m1 := dadd m0 (ddiv (dsub m2 m0) 3) in
    mkMaps m0 m1 m2 m3 m4
  else mkMaps m0 m1 m2 m3 m4.

Definition vertMaps (g : Tiles) (row column fitHeight glyphHeight : Z) : Maps :=
  let m := vertMapsAligned g row column fitHeight glyphHeight in
  let sh := shiftsAt g row column 1 glyphHeight in
  mkMaps (map0 m)
         (dadd (map1 m) (dmul (iq (sh 0)) d0_1))
         (dadd (map2 m) (dmul (iq (sh 2)) d0_1))
         (dadd (map3 m) (dmul (iq (sh 1)) d0_1))
         (map4 m).

(** [ma + (mb - ma) * (i - sa) / (sb - sa)] as the code evaluates it: the
    difference, its product by the [int], the quotient and the sum, each
    rounded to a double. *)
Definition lerpD (ma mb : Q) (sa sb i : Z) : Q :=
  dadd ma (ddiv (dmul (dsub mb ma) (iq (i - sa))) (iq (sb - sa))).

(** The same, stored in an [int]. *)
Definition lerp (ma mb : Q) (sa sb i : Z) : Z := truncQ (lerpD ma mb sa sb i).

(** [for (i = a; i < b; i++) l[i] = f(i);] *)
Definition fill (l : list Z) (a b : Z) (f : Z -> Z) : list Z :=
  fold_left (fun l i => zset l i (f i)) (range a b) l.

Definition fillSegments (l : list Z) (s : Stops) (m : Maps) : list Z :=
  let l := fill l (stop0 s) (stop1 s) (lerp (map0 m) (map1 m) (stop0 s) (stop1 s)) in
  let l := fill l (stop1 s) (stop2 s) (lerp (map1 m) (map2 m) (stop1 s) (stop2 s)) in
  let l := fill l (stop2 s) (stop3 s) (lerp (map2 m) (map3 m) (stop2 s) (stop3 s)) in
  fill l (stop3 s) (stop4 s) (lerp (map3 m) (map4 m) (stop3 s) (stop4 s)).

Definition scaledX (m : Maps) : list Z :=
  fillSegments (replicate (Z.to_nat TILE_WIDTH) 0) horizStops m.

Definition scaledY (s : Stops) (m : Maps) : list Z :=
  let l := fill (replicate (Z.to_nat TILE_HEIGHT) 0) 0 (stop0 s) (fun _ => -1) in
  let l := fillSegments l s m in
  fill l (stop4 s) TILE_HEIGHT (fun _ => -1).

Section Rasterizer.

(** [wave tileWidth tileHeight numHorizWaves numVertWaves x y] stands for
    [(uint64_t)round(255 * 255 * value * value)] of the wall-top pattern and
    [blurTerm v] for [sin(PI / (255 * 255) * v)]; [stackWord] is the [int]
    that a read of [scaledY[-1]] finds in the frame. *)
Variable wave : Z -> Z -> Z -> Z -> Z -> Z -> Z.
Variable blurTerm : Z -> Q.
Variable stackWord : Z.

(** The inner loop of the downscaling: one line of the source tile. *)
Definition accumulate (png : Z -> Z) (row column tileWidth : Z) (sx : list Z)
    (y0 y1 : Z) (values : list Z) : list Z :=
  fold_left (fun values x0 =>
               let value := tilePixel png row column x0 y0 in
               let p := y1 * tileWidth + zget sx x0 in
               zset values p (u64 (zget values p + Z.lor (value * value) 0x100000000)))
            (range 0 TILE_WIDTH) values.

(** The line skipped between [y1 - 2] and [y1]. *)
Definition interpolate (tileWidth y1 : Z) (values : list Z) : list Z :=
  fold_left (fun values x1 =>
               let p := y1 * tileWidth + x1 in
               zset values (p - tileWidth)
                    (u64 (zget values (p - 2 * tileWidth) + zget values p)))
            (range 0 tileWidth) values.

Definition previousY (sy : list Z) (y0 : Z) : Z :=
  if y0 =? 0 then stackWord else zget sy (y0 - 1).

Definition downscaleRow (png : Z -> Z) (row column tileWidth tileHeight : Z)
    (sx sy : list Z) (values : list Z) (y0 : Z) : list Z :=
  let y1 := zget sy y0 in
  if (y1 <? 0) || (y1 >=? tileHeight) then values
  else
    let values := accumulate png row column tileWidth sx y0 y1 values in
    if (y1 >=? 2) && (previousY sy y0 =? y1 - 2)
    then interpolate tileWidth y1 values
    else values.

Definition downscale (g : Tiles) (tileWidth tileHeight row column : Z)
    (optimizing : bool) (values : list Z) : list Z :=
  let '(fitWidth, fitHeight, glyphWidth, glyphHeight) :=
    glyphSize g tileWidth tileHeight row column optimizing in
  let sx := scaledX (horizMaps g row column fitWidth glyphWidth) in
  let sy := scaledY (vertStops g row column)
                    (vertMaps g row column fitHeight glyphHeight) in
  fold_left (downscaleRow (TilesPNG g) row column tileWidth tileHeight sx sy)
            (range 0 TILE_HEIGHT) values.

(** Wall tops: the lines are painted until the [break]. *)
Definition paintLine (tileWidth tileHeight nh nv y : Z) (values : list Z) : list Z :=
  fold_left (fun values x =>
               zset values (y * tileWidth + x)
                    (Z.lor (wave tileWidth tileHeight nh nv x y) 0x100000000))
            (range 0 tileWidth) values.

Fixpoint wallTops_loop (tileWidth tileHeight nh nv row : Z) (ys : list Z)
    (values : list Z) : list Z :=
  match ys with
  | [] => values
  | y :: ys' =>
      if negb (row =? 21)
         && ((y >? tileHeight ÷ 2)
             || negb (Z.land (zget values (y * tileWidth)) 0xffffffff =? 0))
      then values
      else wallTops_loop tileWidth tileHeight nh nv row ys'
                         (paintLine tileWidth tileHeight nh nv y values)
  end.

Definition isWallTop (row column : Z) : bool :=
  (row =? 16) && (column =? 2) || (row =? 21) && (column =? 1)
  || (row =? 22) && (column =? 4).

Definition isFloor (row column : Z) : bool := (row =? 20) && (column =? 2).

(** Conversion of one accumulator entry. *)
Definition average (value : Z) : Z :=
  if negb (Z.shiftr value 32 =? 0)
  then Z.land value 0xffffffff ÷ Z.shiftr value 32
  else 0.

Definition thin (processing : ascii) (value : Z) : Z :=
  if is_t processing || is_hash processing then
    if value <? 255 * 255 ÷ 2 then value ÷ 2
    else u64 (value * 3 ÷ 2 - 255 * 255 ÷ 2)
  else value.

Definition opacity (value : Z) : Z :=
  if value =? 0 then 0 else if value >? 64770 then 255 else roundSqrt value.

Definition alphaOf (processing : ascii) (entry : Z) : Z :=
  opacity (thin processing (average entry)).

Definition pixelIndex (surface_w tileWidth tileHeight row column x y : Z) : Z :=
  (column * tileWidth) + (row * tileHeight + y) * surface_w + x.

Definition convertPixel (surface_w tileWidth tileHeight row column : Z)
    (optimizing : bool) (values : list Z) (y : Z) (acc : list Z * Q) (x : Z)
    : list Z * Q :=
  let '(pixels, blur) := acc in
  let value := average (zget values (y * tileWidth + x)) in
  let blur := if optimizing then dadd blur (blurTerm value) else blur in
  let alpha := opacity (thin (TileProcessing row column) value) in
  (zset pixels (pixelIndex surface_w tileWidth tileHeight row column x y)
        (Z.lor (Z.shiftl alpha 24) 0xffffff),
   blur).

Definition convert (surface : Surface) (tileWidth tileHeight row column : Z)
    (optimizing : bool) (values : list Z) : Surface * Q :=
  let '(pixels, blur) :=
    fold_left (fun acc y =>
                 fold_left (convertPixel (surf_w surface) tileWidth tileHeight
                                         row column optimizing values y)
                           (range 0 tileWidth) acc)
              (range 0 tileHeight) (surf_pixels surface, 0%Q) in
  (mkSurface (surf_w surface) pixels, blur).

(** The accumulator just before its conversion to transparency. *)
Definition prepareValues (g : Tiles) (tileWidth tileHeight row column : Z)
    (optimizing : bool) : list Z :=
  let fitWidth := Z.max 1 (baseTileWidth g) in
  let fitHeight := Z.max 1 (baseTileHeight g) in
  let numHorizWaves := Z.max 2 (Z.min 6 (roundQ (iq fitWidth * (25 # 100)))) in
  let numVertWaves := Z.max 2 (Z.min 11 (roundQ (iq fitHeight * (25 # 100)))) in
  let values := blank tileWidth tileHeight in
  let values :=
    if tileEmpty g row column then values
    else downscale g tileWidth tileHeight row column optimizing values in
  let values :=
    if isFloor row column && tileEmpty g row column
       && (tileWidth >? 2) && (tileHeight >? 2) && negb optimizing
    then floorDust tileWidth tileHeight values else values in
  if isWallTop row column && negb optimizing
  then wallTops_loop tileWidth tileHeight numHorizWaves numVertWaves row
                     (range 0 tileHeight) values
  else values.

Definition prepareTile (g : Tiles) (surface : Surface)
    (tileWidth tileHeight row column : Z) (optimizing : bool) : Surface * Q :=
  convert surface tileWidth tileHeight row column optimizing
          (prepareValues g tileWidth tileHeight row column optimizing).

End Rasterizer.

(** ** Texture variants and their selection *)

(** Tile size of [Textures[i]] as [loadTiles] builds it. *)
Definition variantTileWidth (g : Tiles) (i : Z) : Z :=
  baseTileWidth g + (if (i =? 1) || (i =? 3) then 1 else 0).

Definition variantTileHeight (g : Tiles) (i : Z) : Z :=
  baseTileHeight g + (if (i =? 2) || (i =? 3) then 1 else 0).

(** [getTexture]: the index into [Textures]. *)
Definition getTexture (g : Tiles) (tileWidth tileHeight : Z) : Z :=
  (if tileWidth >? baseTileWidth g then 1 else 0)
  + (if tileHeight >? baseTileHeight g then 2 else 0).

(** The texture and the source rectangle size [updateScreen] draws a cell
    from: [(index, src.w, src.h)]. *)
Definition selectTexture (g : Tiles) (tileWidth tileHeight : Z) : Z * Z * Z :=
  if numTextures g =? 4
  then (getTexture g tileWidth tileHeight, tileWidth, tileHeight)
  else (0, baseTileWidth g, baseTileHeight g).

Section Grid.
(** The size of the screen grid, COLS x ROWS of Rogue.h. *)
Variable COLS ROWS : Z.

(** The integer grid division of [updateScreen]. *)
Definition cellWidth (outputWidth x : Z) : Z :=
  ((x + 1) * outputWidth ÷ COLS) - (x * outputWidth ÷ COLS).

Definition cellHeight (outputHeight y : Z) : Z :=
  ((y + 1) * outputHeight ÷ ROWS) - (y * outputHeight ÷ ROWS).

(** The tile size chosen by [loadTiles].  The two products are computed in
    [int] and wrap around; the aspect ratio is their quotient as doubles.
    Where a product is zero the ratio or its inverse is not finite in C and
    the conversion of the rounded size to [int] is not defined: the model has
    the value 0 for such a quotient. *)
Definition chooseTileSize (outputWidth outputHeight : Z) : Z * Z :=
  let w := outputWidth ÷ COLS in
  let h := outputHeight ÷ ROWS in
  let tileAspectRatio :=
    ddiv (iq (i32 (outputWidth * ROWS))) (iq (i32 (outputHeight * COLS))) in
  let '(w, h) :=
    if h >=? MAX_TILE_SIZE
    then (roundQ (dmul (iq TILE_HEIGHT) tileAspectRatio), TILE_HEIGHT) else (w, h) in
  let '(w, h) :=
    if w >=? MAX_TILE_SIZE
    then (TILE_WIDTH, roundQ (ddiv (iq TILE_WIDTH) tileAspectRatio)) else (w, h) in
  (if w =? 0 then 1 else w, if h =? 0 then 1 else h).

(** The part of [loadTiles] that picks the base size and the number of
    textures (it returns early when the size has not changed). *)
Definition loadTiles (g : Tiles) (outputWidth outputHeight : Z) : Tiles :=
  let '(w, h) := chooseTileSize outputWidth outputHeight in
  if (baseTileWidth g =? w) && (baseTileHeight g =? h) then g
  else
    set_numTextures (set_base g w h)
      (if (w >=? MAX_TILE_SIZE) || (h >=? MAX_TILE_SIZE) then 1 else 4).
End Grid.

(** ** The shift cache *)

(** The object representation of an [int8_t] and back. *)
Definition toByte (v : Z) : Z := v mod 256.
Definition toInt8 (b : Z) : Z := if b <? 128 then b else b - 256.

(** Number of tiles, and of shifts in the block of one tile. *)
Definition TILE_COUNT : nat := Z.to_nat (TILE_ROWS * TILE_COLS).
Definition BLOCK_SIZE : nat := Z.to_nat (2 * MAX_TILE_SIZE * 3).

(** [fwrite(tileShifts, 1, sizeof(tileShifts), file)]: the bytes of the
    table in memory order. *)
Definition fwriteShifts (t : list (list Z)) : list Z := map toByte (concat t).

Fixpoint chunk (n count : nat) (l : list Z) : list (list Z) :=
  match count with
  | O => []
  | S count' => take n l :: chunk n count' (drop n l)
  end.

(** [fread(tileShifts, 1, sizeof(tileShifts), file)]: the bytes that the
    file has, at most the size of the table, overwrite the table from its
    start. *)
Definition freadShifts (t : list (list Z)) (file : list Z) : list (list Z) :=
  let mem := concat t in
  let got := take (length mem) file in
  chunk BLOCK_SIZE (length t) (map toInt8 got ++ drop (length got) mem).

(** The end of [init]: the table is read from the cache file when there is
    one; otherwise it is computed and the file is written. *)
Definition loadShifts (optimize : Tiles -> Tiles) (g : Tiles) (file : option (list Z))
  : Tiles * option (list Z) :=
  match file with
  | Some bytes => (set_tileShifts g (freadShifts (tileShifts g) bytes), Some bytes)
  | None => let g' := optimize g in (g', Some (fwriteShifts (tileShifts g')))
  end.

(** The values of type [int8_t tileShifts[TILE_ROWS][TILE_COLS][2][MAX_TILE_SIZE][3]]. *)
Definition int8 (v : Z) : Prop := -128 <= v <= 127.

Definition shiftTable (t : list (list Z)) : Prop :=
  length t = TILE_COUNT
  /\ Forall (fun block => length block = BLOCK_SIZE /\ Forall int8 block) t.

(** ** The shift optimizer *)

Section Optimizer.

(** [calibrate g tileWidth tileHeight row column] stands for the blur
    returned by [prepareTile(surface, tileWidth, tileHeight, row, column,
    true)] in the state [g]. *)
Variable calibrate : Tiles -> Z -> Z -> Z -> Z -> Q.

Definition textLike (processing : ascii) : bool :=
  is_t processing || is_hash processing.

(** [(shifts[0] + shifts[1]) / 2] for the triple at [axis], [size]. *)
Definition midOf (t : list (list Z)) (row column axis size : Z) : Z :=
  (getShift t row column axis size 0 + getShift t row column axis size 1) ÷ 2.

(** [shifts[idx] = shift], followed, where the code has it, by
    [shifts[2] = (shifts[0] + shifts[1]) / 2]. *)
Definition tryShift (derive : bool) (g : Tiles) (row column axis size idx shift : Z)
  : Tiles :=
  let t := setShift (tileShifts g) row column axis size idx shift in
  let t := if derive then setShift t row column axis size 2 (midOf t row column axis size)
           else t in
  set_tileShifts g t.

Definition bestResult0 : Q := 100000000000000000000.

(** One pass of the inner loop over the candidate shifts: the state, the
    best result and the best shift so far. *)
Definition trial (derive : bool) (row column axis size idx : Z)
    (acc : Tiles * Q * Z) (shift : Z) : Tiles * Q * Z :=
  let '(g, bestResult, bestShift) := acc in
  let g := tryShift derive g row column axis size idx shift in
  let blur := calibrate g (baseTileWidth g) (baseTileHeight g) row column in
  if negb (Qle_bool bestResult blur) then (g, blur, shift)
  else (g, bestResult, bestShift).

(** The search for [shifts[idx]]: the body of the loop over [idx].  The
    candidates and the stored shifts are [int8_t] in tiles.c; they are
    written here without wrap-around, which is what the code does as long as
    the window [midShift - 5, midShift + 5] lies within [-128, 127]: it
    does in every search of a run that starts from the table of zeros,
    where every shift stays within [-10, 10]. *)
Definition searchStep (derive : bool) (g : Tiles) (row column axis size idx : Z) : Tiles :=
  let midShift :=
    if idx =? 2 then midOf (tileShifts g) row column axis size else 0 in
  let '(g, _, bestShift) :=
    fold_left (trial derive row column axis size idx)
              (range (midShift - 5) (midShift + 5 + 1))
              (g, bestResult0, 0) in
  tryShift derive g row column axis size idx bestShift.

(** The three passes over the free parameters. *)
Definition searchShifts (derive : bool) (params : Z) (g : Tiles)
    (row column axis size : Z) : Tiles :=
  fold_left (fun g _ =>
               fold_left (fun g idx => searchStep derive g row column axis size idx)
                         (range 0 params) g)
            (range 0 3) g.

Definition optimizeHoriz (g : Tiles) (row column : Z) : Tiles :=
  let processing := TileProcessing row column in
  let g := set_base g (baseTileWidth g) MAX_TILE_SIZE in
  let g :=
    fold_left (fun g width =>
                 let g := set_base g width (baseTileHeight g) in
                 searchShifts (textLike processing)
                              (if textLike processing then 2 else 3)
                              g row column 0 (width - 1))
              (range 5 (MAX_TILE_SIZE + 1)) g in
  set_base g (MAX_TILE_SIZE + 1) (baseTileHeight g).

Definition optimizeVert (g : Tiles) (row column : Z) : Tiles :=
  let processing := TileProcessing row column in
  let g := set_base g MAX_TILE_SIZE (baseTileHeight g) in
  let g :=
    fold_left (fun g height =>
                 let g := set_base g (baseTileWidth g) height in
                 searchShifts false (if is_t processing then 1 else 3)
                              g row column 1 (height - 1))
              (range 7 (MAX_TILE_SIZE + 1)) g in
  set_base g (baseTileWidth g) (MAX_TILE_SIZE + 1).

Definition optimizeTile (g : Tiles) (row column : Z) : Tiles :=
  if tileEmpty g row column then g
  else optimizeVert (optimizeHoriz g row column) row column.

Definition optimizeTiles (g : Tiles) : Tiles :=
  fold_left (fun g row =>
               fold_left (fun g column => optimizeTile g row column)
                         (range 0 TILE_COLS) g)
            (range 0 TILE_ROWS) g.

End Optimizer.

(** The optimizer as tiles.c runs it: the blur comes from [prepareTile] in
    calibration mode, on a fresh surface of 16 x 24 tiles. *)
Definition calibration wave blurTerm stackWord
    (g : Tiles) (tileWidth tileHeight row column : Z) : Q :=
  snd (prepareTile wave blurTerm stackWord g
         (mkSurface (tileWidth * TILE_COLS)
                    (replicate (Z.to_nat (tileWidth * TILE_COLS * (tileHeight * TILE_ROWS))) 0))
         tileWidth tileHeight row column true).

(** The start of [init]: the emptiness and the padding of every tile are
    measured on the atlas; the shifts and the base size have the values of
    their static initializers. *)
Definition measure (png : Z -> Z) : Tiles :=
  mkTiles png
          (fun row column =>
             if is_f (TileProcessing row column) then getPadding png row column else 0)
          (replicate TILE_COUNT (replicate BLOCK_SIZE 0))
          (isTileEmpty png) (-1) (-1) 0.

(** [init], with the blur of the calibration renders as a parameter. *)
Definition init (calibrate : Tiles -> Z -> Z -> Z -> Z -> Q) (png : Z -> Z)
    (file : option (list Z)) : Tiles * option (list Z) :=
  loadShifts (optimizeTiles calibrate) (measure png) file.

(** ** The surfaces of the textures *)

(** [while (size < target) size *= 2;] with [fuel] tests at most. *)
Fixpoint growSize (fuel : nat) (size target : Z) : option Z :=
  match fuel with
  | O => None
  | S fuel' => if size <? target then growSize fuel' (size * 2) target else Some size
  end.

(** The loop started at 1, as [loadTiles] starts it for a width and for a
    height: 31 tests let an [int] double up to 2^30 and no further. *)
Definition surfaceSize (target : Z) : option Z := growSize 31 1 target.

(** [SDL_CreateRGBSurfaceWithFormat(0, surfaceWidth, surfaceHeight, 32, ...)]
    for tiles of the given size: a surface of zeros. *)
Definition createSurface (tileWidth tileHeight : Z) : option Surface :=
  match surfaceSize (tileWidth * TILE_COLS), surfaceSize (tileHeight * TILE_ROWS) with
  | Some w, Some h => Some (mkSurface w (replicate (Z.to_nat (w * h)) 0))
  | _, _ => None
  end.

(** The two loops of [loadTiles] that render every tile into a surface. *)
Definition renderTiles wave blurTerm stackWord (g : Tiles) (surface : Surface)
    (tileWidth tileHeight : Z) : Surface :=
  fold_left (fun s row =>
               fold_left (fun s column =>
                            fst (prepareTile wave blurTerm stackWord g s
                                             tileWidth tileHeight row column false))
                         (range 0 TILE_COLS) s)
            (range 0 TILE_ROWS) surface.

(** The surface from which [loadTiles] makes [Textures[i]]. *)
Definition textureSurface wave blurTerm stackWord (g : Tiles) (i : Z) : option Surface :=
  match createSurface (variantTileWidth g i) (variantTileHeight g i) with
  | Some s => Some (renderTiles wave blurTerm stackWord g s
                                (variantTileWidth g i) (variantTileHeight g i))
  | None => None
  end.

(** * Properties *)

(** Linear arithmetic with divisions by constants. *)
Ltac lia_div := Z.to_euclidean_division_equations; lia.

(** Closed arithmetic facts are settled by evaluation. *)
Ltac by_compute :=
  vm_compute; repeat split; first [reflexivity | discriminate | congruence].

(** ** Doubles *)

Lemma iq_le (a b : Z) : a <= b -> (iq a <= iq b)%Q.
Proof. intros H. unfold iq. rewrite <- Zle_Qle. exact H. Qed.

Lemma iq_lt (a b : Z) : a < b -> (iq a < iq b)%Q.
Proof. intros H. unfold iq. rewrite <- Zlt_Qlt. exact H. Qed.

Lemma iq_mult (a b : Z) : (iq (a * b) == iq a * iq b)%Q.
Proof. unfold iq. rewrite inject_Z_mult. reflexivity. Qed.

Lemma iq_plus (a b : Z) : (iq (a + b) == iq a + iq b)%Q.
Proof. unfold iq. rewrite inject_Z_plus. reflexivity. Qed.

(** ** Powers of two *)

Lemma pow2_pos (e : Z) : (0 < pow2 e)%Q.
Proof. apply Qpower_0_lt. reflexivity. Qed.

Lemma pow2_plus (a b : Z) : (pow2 (a + b) == pow2 a * pow2 b)%Q.
Proof. apply Qpower_plus. discriminate. Qed.

Lemma pow2_le (a b : Z) : a <= b -> (pow2 a <= pow2 b)%Q.
Proof. intros H. apply Qpower_le_compat_l; [exact H|discriminate]. Qed.

Lemma pow2_lt (a b : Z) : a < b -> (pow2 a < pow2 b)%Q.
Proof. intros H. apply Qpower_lt_compat_l; [exact H|reflexivity]. Qed.

Lemma pow2_iq (n : Z) : 0 <= n -> (pow2 n == iq (2 ^ n))%Q.
Proof. intros H. unfold pow2, iq. rewrite Zpower_Qpower by exact H. reflexivity. Qed.

Lemma pow2_succ (e : Z) : (pow2 (e + 1) == 2 * pow2 e)%Q.
Proof. rewrite pow2_plus. change (pow2 1) with 2%Q. ring. Qed.

Lemma pow2_pred (e : Z) : (pow2 (e - 1) == pow2 e / 2)%Q.
Proof.
  pose proof (pow2_succ (e - 1)) as H.
  replace (e - 1 + 1) with e in H by lia. rewrite H. field.
Qed.

Lemma pow2_inv (e : Z) : (pow2 e * pow2 (- e) == 1)%Q.
Proof. rewrite <- pow2_plus. replace (e + - e) with 0 by lia. reflexivity. Qed.

(** ** The binary logarithm *)

Lemma ilog2_spec (x : Q) :
  (0 < x)%Q -> (pow2 (ilog2 x) <= x)%Q /\ (x < pow2 (ilog2 x + 1))%Q.
Proof.
  intros Hx. destruct x as [n d].
  assert (Hn : 0 < n) by (unfold Qlt in Hx; simpl in Hx; lia).
  unfold ilog2. cbn [Qnum Qden].
  set (a := Z.log2 n). set (b := Z.log2 (Z.pos d)).
  destruct (Z.log2_spec n Hn) as [La Ua]. fold a in La, Ua.
  destruct (Z.log2_spec (Z.pos d) ltac:(lia)) as [Lb Ub]. fold b in Lb, Ub.
  assert (Ha : 0 <= a) by apply Z.log2_nonneg.
  assert (Hb : 0 <= b) by apply Z.log2_nonneg.
  assert (Hxd : (n # d == iq n / iq (Z.pos d))%Q) by (unfold iq; apply Qmake_Qdiv).
  assert (Hd : (0 < iq (Z.pos d))%Q) by (change 0%Q with (iq 0); apply iq_lt; lia).
  assert (Hmul : ((n # d) * iq (Z.pos d) == iq n)%Q).
  { rewrite Hxd. field. intros E. rewrite E in Hd. discriminate Hd. }
  assert (Qa : (pow2 a <= iq n)%Q /\ (iq n < pow2 (a + 1))%Q).
  { rewrite !pow2_iq by lia. split; [apply iq_le, La|apply iq_lt].
    replace (a + 1) with (Z.succ a) by lia. exact Ua. }
  assert (Qb : (pow2 b <= iq (Z.pos d))%Q /\ (iq (Z.pos d) < pow2 (b + 1))%Q).
  { rewrite !pow2_iq by lia. split; [apply iq_le, Lb|apply iq_lt].
    replace (b + 1) with (Z.succ b) by lia. exact Ub. }
  destruct Qa as [Qa1 Qa2], Qb as [Qb1 Qb2].
  pose proof (pow2_pos b) as Pb.
  assert (Hlow : (pow2 (a - b - 1) < n # d)%Q).
  { apply (Qmult_lt_r _ _ (pow2 (b + 1))); [apply pow2_pos|].
    rewrite <- pow2_plus. replace (a - b - 1 + (b + 1)) with a by lia.
    apply (Qle_lt_trans _ (iq n)); [exact Qa1|].
    rewrite <- Hmul. apply Qmult_lt_l; assumption. }
  assert (Hupp : (n # d < pow2 (a - b + 1))%Q).
  { apply (Qmult_lt_r _ _ (pow2 b)); [exact Pb|].
    rewrite <- pow2_plus. replace (a - b + 1 + b) with (a + 1) by lia.
    apply (Qle_lt_trans _ (iq n)); [|exact Qa2].
    rewrite <- Hmul. apply Qmult_le_l; assumption. }
  destruct (Qle_bool (pow2 (a - b)) (n # d)) eqn:E.
  - apply Qle_bool_iff in E. split; assumption.
  - split; [apply Qlt_le_weak; exact Hlow|].
    replace (a - b - 1 + 1) with (a - b) by lia.
    apply Qnot_le_lt. intros H. apply Qle_bool_iff in H. congruence.
Qed.

Lemma ilog2_unique (x : Q) (e : Z) :
  (pow2 e <= x)%Q -> (x < pow2 (e + 1))%Q -> ilog2 x = e.
Proof.
  intros L U.
  assert (Hx : (0 < x)%Q) by (apply (Qlt_le_trans _ (pow2 e)); [apply pow2_pos|exact L]).
  destruct (ilog2_spec x Hx) as [L' U'].
  destruct (Z.lt_trichotomy (ilog2 x) e) as [H|[H|H]]; [|exact H|].
  - exfalso. pose proof (pow2_le (ilog2 x + 1) e ltac:(lia)). lra.
  - exfalso. pose proof (pow2_le (e + 1) (ilog2 x) ltac:(lia)). lra.
Qed.

Lemma ilog2_comp (x y : Q) : (0 < x)%Q -> (x == y)%Q -> ilog2 x = ilog2 y.
Proof.
  intros Hx E. symmetry. destruct (ilog2_spec x Hx) as [L U].
  apply ilog2_unique; rewrite <- E; assumption.
Qed.

Lemma ilog2_mono (x y : Q) : (0 < x)%Q -> (x <= y)%Q -> ilog2 x <= ilog2 y.
Proof.
  intros Hx Hxy.
  destruct (ilog2_spec x Hx) as [L U].
  destruct (ilog2_spec y ltac:(lra)) as [L' U'].
  destruct (Z_le_gt_dec (ilog2 x) (ilog2 y)) as [H|H]; [exact H|].
  exfalso. pose proof (pow2_le (ilog2 y + 1) (ilog2 x) ltac:(lia)). lra.
Qed.

(** ** Rounding to an integer, halves to even *)

Lemma Qfloor_bounds (m : Q) : (iq (Qfloor m) <= m)%Q /\ (m < iq (Qfloor m) + 1)%Q.
Proof.
  split; [apply Qfloor_le|].
  pose proof (Qlt_floor m) as H. unfold iq. rewrite inject_Z_plus in H. exact H.
Qed.

Lemma Qfloor_unique (m : Q) (z : Z) : (iq z <= m)%Q -> (m < iq z + 1)%Q -> Qfloor m = z.
Proof.
  intros L U. destruct (Qfloor_bounds m) as [L' U'].
  assert (H1 : (iq z < iq (Qfloor m) + 1)%Q) by lra.
  assert (H2 : (iq (Qfloor m) < iq z + 1)%Q) by lra.
  change 1%Q with (iq 1) in H1, H2. rewrite <- iq_plus in H1, H2.
  unfold iq in H1, H2. rewrite <- Zlt_Qlt in H1, H2. lia.
Qed.

Lemma rne_comp (x y : Q) : (x == y)%Q -> rne x = rne y.
Proof.
  intros E. unfold rne. rewrite (Qfloor_comp x y E).
  assert (Ec : (x - iq (Qfloor y) ?= 1 # 2)%Q = (y - iq (Qfloor y) ?= 1 # 2)%Q)
    by (rewrite E; reflexivity).
  rewrite Ec. reflexivity.
Qed.

Lemma rne_cases (m : Q) :
  let f := Qfloor m in
  rne m = f /\ (m - iq f <= 1 # 2)%Q \/ rne m = f + 1 /\ (1 # 2 <= m - iq f)%Q.
Proof.
  intros f. unfold rne. fold f.
  destruct (m - iq f ?= 1 # 2)%Q eqn:E.
  - apply Qeq_alt in E. destruct (Z.even f); [left|right]; split; try reflexivity; lra.
  - apply Qlt_alt in E. left. split; [reflexivity|lra].
  - apply Qgt_alt in E. right. split; [reflexivity|lra].
Qed.

Lemma rne_err (m : Q) : (m - (1 # 2) <= iq (rne m))%Q /\ (iq (rne m) <= m + (1 # 2))%Q.
Proof.
  destruct (Qfloor_bounds m) as [L U].
  destruct (rne_cases m) as [[-> H]|[-> H]].
  - split; lra.
  - rewrite iq_plus. change (iq 1) with 1%Q. split; lra.
Qed.

Lemma rne_iq (z : Z) : rne (iq z) = z.
Proof.
  unfold rne. change (Qfloor (iq z)) with (Qfloor (inject_Z z)). rewrite Qfloor_Z.
  assert (E : (iq z - iq z ?= 1 # 2)%Q = Lt).
  { apply Qlt_alt. assert (E0 : (iq z - iq z == 0)%Q) by ring.
    rewrite E0. reflexivity. }
  rewrite E. reflexivity.
Qed.

Lemma rne_mono (x y : Q) : (x <= y)%Q -> rne x <= rne y.
Proof.
  intros Hxy.
  pose proof (Qfloor_resp_le x y Hxy) as Hf.
  destruct (Qfloor_bounds x) as [Lx Ux]. destruct (Qfloor_bounds y) as [Ly Uy].
  destruct (Z.eq_dec (Qfloor x) (Qfloor y)) as [Ef|Nf].
  - unfold rne. rewrite Ef.
    set (F := iq (Qfloor y)) in *.
    destruct (x - F ?= 1 # 2)%Q eqn:Ex;
      [apply Qeq_alt in Ex|apply Qlt_alt in Ex|apply Qgt_alt in Ex];
      (destruct (y - F ?= 1 # 2)%Q eqn:Ey;
       [apply Qeq_alt in Ey|apply Qlt_alt in Ey|apply Qgt_alt in Ey]);
      try (destruct (Z.even (Qfloor y))); try lia; exfalso; clear - Ex Ey Hxy; lra.
  - destruct (rne_cases x) as [[-> _]|[-> _]], (rne_cases y) as [[-> _]|[-> _]]; lia.
Qed.

Lemma rne_ge (m : Q) (z : Z) : (iq z <= m)%Q -> z <= rne m.
Proof. intros H. rewrite <- (rne_iq z). apply rne_mono, H. Qed.

Lemma rne_le (m : Q) (z : Z) : (m <= iq z)%Q -> rne m <= z.
Proof. intros H. rewrite <- (rne_iq z). apply rne_mono, H. Qed.

(** Replacing a rational by an equal one. *)
Ltac qreplace a b :=
  let E := fresh "E" in
  assert (E : (a == b)%Q) by (first [ring | field]); rewrite E; clear E.

(** ** Rounding a positive rational to 53 bits *)

Lemma rndPos_eq (x : Q) :
  (rndPos x == iq (rne (x / pow2 (ilog2 x - 52))) * pow2 (ilog2 x - 52))%Q.
Proof. unfold rndPos. apply Qred_correct. Qed.

Lemma pow2_nonzero (e : Z) : ~ (pow2 e == 0)%Q.
Proof. pose proof (pow2_pos e). lra. Qed.

Lemma scaled_bounds (x : Q) :
  (0 < x)%Q ->
  (pow2 52 <= x / pow2 (ilog2 x - 52))%Q /\ (x / pow2 (ilog2 x - 52) < pow2 53)%Q.
Proof.
  intros Hx. destruct (ilog2_spec x Hx) as [L U].
  set (e := ilog2 x) in *. pose proof (pow2_pos (e - 52)) as Pu.
  assert (E1 : (pow2 e == pow2 52 * pow2 (e - 52))%Q)
    by (rewrite <- pow2_plus; replace (52 + (e - 52)) with e by lia; reflexivity).
  assert (E2 : (pow2 (e + 1) == pow2 53 * pow2 (e - 52))%Q)
    by (rewrite <- pow2_plus; replace (53 + (e - 52)) with (e + 1) by lia; reflexivity).
  split.
  - apply Qle_shift_div_l; [exact Pu|]. rewrite <- E1. exact L.
  - apply Qlt_shift_div_r; [exact Pu|]. rewrite <- E2. exact U.
Qed.

Lemma mantissa_bounds (x : Q) :
  (0 < x)%Q -> 2 ^ 52 <= rne (x / pow2 (ilog2 x - 52)) <= 2 ^ 53.
Proof.
  intros Hx. destruct (scaled_bounds x Hx) as [L U].
  rewrite (pow2_iq 52) in L by lia. rewrite (pow2_iq 53) in U by lia. split.
  - apply rne_ge, L.
  - apply rne_le, Qlt_le_weak, U.
Qed.

Lemma rndPos_bounds (x : Q) :
  (0 < x)%Q ->
  (pow2 (ilog2 x) <= rndPos x)%Q /\ (rndPos x <= pow2 (ilog2 x + 1))%Q.
Proof.
  intros Hx. destruct (mantissa_bounds x Hx) as [L U].
  rewrite rndPos_eq. set (e := ilog2 x) in *.
  set (r := rne (x / pow2 (e - 52))) in *.
  pose proof (pow2_pos (e - 52)) as Pu.
  assert (E1 : (pow2 e == iq (2 ^ 52) * pow2 (e - 52))%Q).
  { rewrite <- pow2_iq by lia. rewrite <- pow2_plus.
    replace (52 + (e - 52)) with e by lia. reflexivity. }
  assert (E2 : (pow2 (e + 1) == iq (2 ^ 53) * pow2 (e - 52))%Q).
  { rewrite <- pow2_iq by lia. rewrite <- pow2_plus.
    replace (53 + (e - 52)) with (e + 1) by lia. reflexivity. }
  rewrite E1, E2. split; apply Qmult_le_compat_r; try lra; apply iq_le; assumption.
Qed.

Lemma rndPos_pos (x : Q) : (0 < x)%Q -> (0 < rndPos x)%Q.
Proof.
  intros Hx. destruct (rndPos_bounds x Hx) as [L _].
  pose proof (pow2_pos (ilog2 x)). lra.
Qed.

(** The error of the rounding is at most half a unit in the last place. *)
Lemma rndPos_ulp (x : Q) :
  (0 < x)%Q ->
  (x - pow2 (ilog2 x - 53) <= rndPos x)%Q /\ (rndPos x <= x + pow2 (ilog2 x - 53))%Q.
Proof.
  intros Hx. rewrite rndPos_eq. set (e := ilog2 x) in *.
  pose proof (pow2_pos (e - 52)) as Pu.
  destruct (rne_err (x / pow2 (e - 52))) as [L U].
  set (r := iq (rne (x / pow2 (e - 52)))) in *.
  assert (Ex : (x == x / pow2 (e - 52) * pow2 (e - 52))%Q)
    by (field; apply pow2_nonzero).
  assert (Eh : (pow2 (e - 53) == (1 # 2) * pow2 (e - 52))%Q).
  { replace (e - 53) with (e - 52 - 1) by lia. rewrite pow2_pred. field. }
  set (m := (x / pow2 (e - 52))%Q) in *. set (u := pow2 (e - 52)) in *.
  rewrite Eh. clearbody m u r. rewrite Ex. split.
  - qreplace (m * u - (1 # 2) * u)%Q ((m - (1 # 2)) * u)%Q.
    apply Qmult_le_compat_r; lra.
  - qreplace (m * u + (1 # 2) * u)%Q ((m + (1 # 2)) * u)%Q.
    apply Qmult_le_compat_r; lra.
Qed.

Lemma half_ulp_rel (x : Q) :
  (0 < x)%Q -> (pow2 (ilog2 x - 53) <= x * pow2 (-53))%Q.
Proof.
  intros Hx. destruct (ilog2_spec x Hx) as [L _].
  replace (ilog2 x - 53) with (ilog2 x + -53) by lia. rewrite pow2_plus.
  apply Qmult_le_compat_r; [exact L|]. apply Qlt_le_weak, pow2_pos.
Qed.

Lemma rndPos_mono (x y : Q) : (0 < x)%Q -> (x <= y)%Q -> (rndPos x <= rndPos y)%Q.
Proof.
  intros Hx Hxy. assert (Hy : (0 < y)%Q) by lra.
  pose proof (ilog2_mono x y Hx Hxy) as He.
  destruct (Z.eq_dec (ilog2 x) (ilog2 y)) as [E|N].
  - rewrite !rndPos_eq, E. pose proof (pow2_pos (ilog2 y - 52)) as Pu.
    apply Qmult_le_compat_r; [|lra]. apply iq_le, rne_mono.
    unfold Qdiv. apply Qmult_le_compat_r; [exact Hxy|].
    apply Qinv_le_0_compat. lra.
  - destruct (rndPos_bounds x Hx) as [_ U]. destruct (rndPos_bounds y Hy) as [L _].
    pose proof (pow2_le (ilog2 x + 1) (ilog2 y) ltac:(lia)). lra.
Qed.

Lemma rndPos_comp (x y : Q) : (0 < x)%Q -> (x == y)%Q -> rndPos x = rndPos y.
Proof.
  intros Hx E. unfold rndPos. rewrite (ilog2_comp x y Hx E).
  rewrite (rne_comp (x / pow2 (ilog2 y - 52)) (y / pow2 (ilog2 y - 52)))
    by (rewrite E; reflexivity).
  reflexivity.
Qed.

(** A mantissa of 53 bits with any exponent is left as it is. *)
Lemma rndPos_fix (z t : Z) :
  2 ^ 52 <= z <= 2 ^ 53 -> (rndPos (iq z * pow2 t) == iq z * pow2 t)%Q.
Proof.
  intros Hz. pose proof (pow2_pos t) as Pt.
  assert (Hzq : (iq (2 ^ 52) <= iq z)%Q /\ (iq z <= iq (2 ^ 53))%Q)
    by (split; apply iq_le; lia).
  destruct Hzq as [Lz Uz].
  rewrite <- (pow2_iq 52) in Lz by lia. rewrite <- (pow2_iq 53) in Uz by lia.
  destruct (Z.eq_dec z (2 ^ 53)) as [E|N].
  - assert (Hx : (iq z * pow2 t == pow2 (53 + t))%Q)
      by (rewrite E, <- pow2_iq by lia; rewrite pow2_plus; reflexivity).
    assert (He : ilog2 (iq z * pow2 t) = 53 + t).
    { apply ilog2_unique; rewrite Hx; [lra|]. apply pow2_lt. lia. }
    rewrite rndPos_eq, He. replace (53 + t - 52) with (t + 1) by lia.
    assert (Hm : (iq z * pow2 t / pow2 (t + 1) == iq (2 ^ 52))%Q).
    { rewrite Hx. replace (53 + t) with (52 + (t + 1)) by lia.
      rewrite pow2_plus, <- pow2_iq by lia. field. apply pow2_nonzero. }
    rewrite (rne_comp _ _ Hm), rne_iq, Hx, <- pow2_iq by lia.
    rewrite <- pow2_plus. replace (52 + (t + 1)) with (53 + t) by lia. reflexivity.
  - assert (Hlt : (iq z < pow2 53)%Q) by (rewrite pow2_iq by lia; apply iq_lt; lia).
    assert (He : ilog2 (iq z * pow2 t) = 52 + t).
    { apply ilog2_unique.
      - rewrite pow2_plus. apply Qmult_le_compat_r; lra.
      - replace (52 + t + 1) with (53 + t) by lia. rewrite pow2_plus.
        apply Qmult_lt_compat_r; lra. }
    rewrite rndPos_eq, He. replace (52 + t - 52) with t by lia.
    assert (Hm : (iq z * pow2 t / pow2 t == iq z)%Q) by (field; apply pow2_nonzero).
    rewrite (rne_comp _ _ Hm), rne_iq. reflexivity.
Qed.

Lemma normalize_mantissa (z t : Z) :
  0 < z <= 2 ^ 53 ->
  exists z' t', 2 ^ 52 <= z' <= 2 ^ 53 /\ (iq z * pow2 t == iq z' * pow2 t')%Q.
Proof.
  intros Hz. destruct (Z.eq_dec z (2 ^ 53)) as [E|N].
  - exists z, t. split; [lia|reflexivity].
  - destruct (Z.log2_spec z ltac:(lia)) as [L U].
    assert (H52 : Z.log2 z < 53).
    { apply Z.log2_lt_pow2; lia. }
    pose proof (Z.log2_nonneg z) as H0.
    set (s := 52 - Z.log2 z).
    exists (z * 2 ^ s), (t - s). split.
    + assert (E1 : 2 ^ 52 = 2 ^ Z.log2 z * 2 ^ s)
        by (rewrite <- Z.pow_add_r by lia; f_equal; lia).
      assert (E2 : 2 ^ 53 = 2 ^ Z.succ (Z.log2 z) * 2 ^ s)
        by (rewrite <- Z.pow_add_r by lia; f_equal; lia).
      assert (Ps : 0 < 2 ^ s) by (apply Z.pow_pos_nonneg; lia).
      rewrite E1, E2. split; nia.
    + rewrite iq_mult, <- pow2_iq by lia.
      replace (t - s) with (t + - s) by lia. rewrite pow2_plus.
      pose proof (pow2_inv s) as Hi.
      qreplace (iq z * pow2 s * (pow2 t * pow2 (- s)))%Q (iq z * pow2 t * (pow2 s * pow2 (- s)))%Q.
      rewrite Hi. ring.
Qed.

Lemma rndPos_dyadic (z t : Z) :
  0 < z <= 2 ^ 53 -> (rndPos (iq z * pow2 t) == iq z * pow2 t)%Q.
Proof.
  intros Hz. destruct (normalize_mantissa z t Hz) as (z' & t' & Hz' & E).
  assert (Hx : (0 < iq z * pow2 t)%Q).
  { apply Qmult_lt_0_compat; [change 0%Q with (iq 0); apply iq_lt; lia|apply pow2_pos]. }
  rewrite (rndPos_comp _ _ Hx E), E. apply rndPos_fix, Hz'.
Qed.

(** ** Rounding to a double *)

Lemma rnd_zero (x : Q) : (x == 0)%Q -> rnd x = 0%Q.
Proof.
  destruct x as [n d]. unfold Qeq. simpl. intros H.
  assert (E : n = 0) by lia. subst n. reflexivity.
Qed.

Lemma rnd_pos (x : Q) : (0 < x)%Q -> rnd x = rndPos x.
Proof.
  destruct x as [[|p|p] d]; unfold Qlt; simpl; intros H; try lia. reflexivity.
Qed.

Lemma rnd_neg (x : Q) : (x < 0)%Q -> rnd x = Qopp (rndPos (Qopp x)).
Proof.
  destruct x as [[|p|p] d]; unfold Qlt; simpl; intros H; try lia. reflexivity.
Qed.

Lemma rnd_comp (x y : Q) : (x == y)%Q -> rnd x = rnd y.
Proof.
  intros E. destruct (Q_dec x 0) as [[H|H]|H].
  - rewrite (rnd_neg x H), (rnd_neg y) by (rewrite <- E; exact H).
    f_equal. apply rndPos_comp; [lra|]. rewrite E. reflexivity.
  - rewrite (rnd_pos x H), (rnd_pos y) by (rewrite <- E; exact H).
    apply rndPos_comp; assumption.
  - rewrite (rnd_zero x H), (rnd_zero y) by (rewrite <- E; exact H). reflexivity.
Qed.

#[global] Instance rnd_proper : Proper (Qeq ==> Qeq) rnd.
Proof. intros x y E. rewrite (rnd_comp x y E). reflexivity. Qed.

#[global] Instance dadd_proper : Proper (Qeq ==> Qeq ==> Qeq) dadd.
Proof. intros x x' Ex y y' Ey. unfold dadd. rewrite Ex, Ey. reflexivity. Qed.

#[global] Instance dsub_proper : Proper (Qeq ==> Qeq ==> Qeq) dsub.
Proof. intros x x' Ex y y' Ey. unfold dsub. rewrite Ex, Ey. reflexivity. Qed.

#[global] Instance dmul_proper : Proper (Qeq ==> Qeq ==> Qeq) dmul.
Proof. intros x x' Ex y y' Ey. unfold dmul. rewrite Ex, Ey. reflexivity. Qed.

#[global] Instance ddiv_proper : Proper (Qeq ==> Qeq ==> Qeq) ddiv.
Proof. intros x x' Ex y y' Ey. unfold ddiv. rewrite Ex, Ey. reflexivity. Qed.

Lemma rnd_opp (x : Q) : (rnd (- x) == - rnd x)%Q.
Proof.
  destruct (Q_dec x 0) as [[H|H]|H].
  - rewrite (rnd_neg x H), (rnd_pos (- x)) by lra. ring.
  - rewrite (rnd_pos x H), (rnd_neg (- x)) by lra.
    rewrite (rndPos_comp (- - x) x) by (lra || ring). reflexivity.
  - rewrite (rnd_zero x H), (rnd_zero (- x)) by lra. reflexivity.
Qed.

Lemma rnd_nonneg (x : Q) : (0 <= x)%Q -> (0 <= rnd x)%Q.
Proof.
  intros Hx. destruct (Qle_lt_or_eq _ _ Hx) as [H|H].
  - rewrite (rnd_pos x H). apply Qlt_le_weak, rndPos_pos, H.
  - rewrite (rnd_zero x) by (symmetry; exact H). lra.
Qed.

Lemma rnd_nonpos (x : Q) : (x <= 0)%Q -> (rnd x <= 0)%Q.
Proof.
  intros Hx. pose proof (rnd_nonneg (- x) ltac:(lra)) as H.
  rewrite rnd_opp in H. lra.
Qed.

(** Rounding keeps the order. *)
Lemma rnd_mono (x y : Q) : (x <= y)%Q -> (rnd x <= rnd y)%Q.
Proof.
  intros Hxy. destruct (Qlt_le_dec 0 x) as [Hx|Hx].
  - rewrite (rnd_pos x Hx), (rnd_pos y) by lra. apply rndPos_mono; assumption.
  - destruct (Qlt_le_dec 0 y) as [Hy|Hy].
    + pose proof (rnd_nonpos x Hx). pose proof (rnd_nonneg y ltac:(lra)). lra.
    + destruct (Qle_lt_or_eq _ _ Hy) as [Hy'|Hy'].
      * assert (Hx' : (x < 0)%Q) by lra.
        rewrite (rnd_neg x Hx'), (rnd_neg y Hy').
        pose proof (rndPos_mono (- y) (- x) ltac:(lra) ltac:(lra)). lra.
      * rewrite (rnd_zero y Hy'). apply rnd_nonpos, Hx.
Qed.

(** The relative error of a rounding is at most 2^-53. *)
Definition eps : Q := pow2 (-53).

Lemma eps_val : (eps == 1 # 9007199254740992)%Q.
Proof. reflexivity. Qed.

Lemma rnd_rel_pos (x : Q) :
  (0 <= x)%Q -> (x - x * eps <= rnd x)%Q /\ (rnd x <= x + x * eps)%Q.
Proof.
  intros Hx. destruct (Qle_lt_or_eq _ _ Hx) as [H|H].
  - rewrite (rnd_pos x H). destruct (rndPos_ulp x H) as [L U].
    pose proof (half_ulp_rel x H). unfold eps. split; lra.
  - rewrite (rnd_zero x) by (symmetry; exact H). rewrite <- H. split; lra.
Qed.

Lemma rnd_rel_neg (x : Q) :
  (x <= 0)%Q -> (x + x * eps <= rnd x)%Q /\ (rnd x <= x - x * eps)%Q.
Proof.
  intros Hx. destruct (rnd_rel_pos (- x) ltac:(lra)) as [L U].
  rewrite rnd_opp in L, U. split; lra.
Qed.

(** The absolute error for a bounded magnitude. *)
Lemma rnd_abs (B x : Q) :
  (- B <= x)%Q -> (x <= B)%Q -> (x - B * eps <= rnd x)%Q /\ (rnd x <= x + B * eps)%Q.
Proof.
  intros L U. assert (He : (0 < eps)%Q) by apply pow2_pos.
  destruct (Qlt_le_dec x 0) as [Hx|Hx].
  - destruct (rnd_rel_neg x ltac:(lra)) as [L' U'].
    assert (H1 : (- x * eps <= B * eps)%Q) by (apply Qmult_le_compat_r; lra).
    split; lra.
  - destruct (rnd_rel_pos x Hx) as [L' U'].
    assert (H1 : (x * eps <= B * eps)%Q) by (apply Qmult_le_compat_r; lra).
    split; lra.
Qed.

(** The doubles: the rationals that a rounding leaves as they are. *)
Definition dbl (x : Q) : Prop := (rnd x == x)%Q.

Lemma rnd_dyadic (z t : Z) :
  Z.abs z <= 2 ^ 53 -> (rnd (iq z * pow2 t) == iq z * pow2 t)%Q.
Proof.
  intros Hz. pose proof (pow2_pos t) as Pt.
  destruct (Z.lt_trichotomy z 0) as [H|[H|H]].
  - assert (Hx : (iq z * pow2 t < 0)%Q).
    { assert (Hq : (iq z < 0)%Q) by (change 0%Q with (iq 0); apply iq_lt; lia).
      assert (H0 : (0 < - iq z * pow2 t)%Q) by (apply Qmult_lt_0_compat; lra). lra. }
    rewrite (rnd_neg _ Hx).
    assert (E : (- (iq z * pow2 t) == iq (- z) * pow2 t)%Q).
    { unfold iq. rewrite inject_Z_opp. ring. }
    assert (Hp : (0 < - (iq z * pow2 t))%Q) by lra.
    rewrite (rndPos_comp _ _ Hp E), rndPos_dyadic by lia.
    unfold iq. rewrite inject_Z_opp. ring.
  - subst z. rewrite (rnd_zero (iq 0 * pow2 t)) by (change (iq 0) with 0%Q; ring).
    change (iq 0) with 0%Q. ring.
  - assert (Hx : (0 < iq z * pow2 t)%Q).
    { apply Qmult_lt_0_compat; [change 0%Q with (iq 0); apply iq_lt; lia|exact Pt]. }
    rewrite (rnd_pos _ Hx). apply rndPos_dyadic. lia.
Qed.

Lemma dbl_dyadic (z t : Z) : Z.abs z <= 2 ^ 53 -> dbl (iq z * pow2 t).
Proof. apply rnd_dyadic. Qed.

Lemma dbl_iq (z : Z) : Z.abs z <= 2 ^ 53 -> dbl (iq z).
Proof.
  intros Hz. unfold dbl.
  assert (E : (iq z == iq z * pow2 0)%Q) by (change (pow2 0) with 1%Q; ring).
  rewrite E at 1. rewrite (rnd_dyadic z 0 Hz). symmetry. exact E.
Qed.

Lemma dbl_rnd (x : Q) : dbl (rnd x).
Proof.
  assert (Hpos : forall y, (0 < y)%Q -> dbl (rndPos y)).
  { intros y Hy. unfold dbl. rewrite rndPos_eq.
    apply rnd_dyadic. pose proof (mantissa_bounds y Hy). lia. }
  destruct (Q_dec x 0) as [[H|H]|H].
  - rewrite (rnd_neg x H). unfold dbl. rewrite rnd_opp.
    assert (Hp : (0 < - x)%Q) by lra.
    pose proof (Hpos (- x)%Q Hp) as Hd. unfold dbl in Hd. rewrite Hd. reflexivity.
  - rewrite (rnd_pos x H). apply Hpos, H.
  - rewrite (rnd_zero x H). reflexivity.
Qed.

Lemma dbl_comp (x y : Q) : (x == y)%Q -> dbl x -> dbl y.
Proof. unfold dbl. intros E H. rewrite <- E. exact H. Qed.

Lemma dbl_opp (x : Q) : dbl x -> dbl (- x).
Proof. unfold dbl. intros H. rewrite rnd_opp, H. reflexivity. Qed.

Lemma rnd_ge (a x : Q) : dbl a -> (a <= x)%Q -> (a <= rnd x)%Q.
Proof.
  unfold dbl. intros Ha H. apply (Qle_trans _ (rnd a)); [rewrite Ha; apply Qle_refl|].
  apply rnd_mono, H.
Qed.

Lemma rnd_le (b x : Q) : dbl b -> (x <= b)%Q -> (rnd x <= b)%Q.
Proof.
  unfold dbl. intros Hb H. apply (Qle_trans _ (rnd b)); [|rewrite Hb; apply Qle_refl].
  apply rnd_mono, H.
Qed.

(** ** Conversions of doubles to integers *)

Lemma Qfloor_shift (z : Z) (q : Q) : Qfloor (iq z + q) = z + Qfloor q.
Proof.
  destruct q as [n d]. unfold iq, Qplus, Qfloor. simpl.
  rewrite Z.mul_1_r. rewrite Z.div_add_l by lia. reflexivity.
Qed.

Lemma roundQ_nonneg (q : Q) : (0 <= q)%Q -> roundQ q = Qfloor (q + (1 # 2)).
Proof.
  intros Hq. unfold roundQ. apply Qle_bool_iff in Hq. rewrite Hq. reflexivity.
Qed.

Lemma roundQ_neg (q : Q) : (q < 0)%Q -> roundQ q = - Qfloor (- q + (1 # 2)).
Proof.
  intros Hq. unfold roundQ.
  destruct (Qle_bool 0 q) eqn:E; [|reflexivity].
  apply Qle_bool_iff in E. lra.
Qed.

Lemma roundQ_comp (q q' : Q) : (q == q')%Q -> roundQ q = roundQ q'.
Proof.
  intros H. destruct (Qlt_le_dec q 0) as [Hq|Hq].
  - rewrite (roundQ_neg q Hq), (roundQ_neg q') by (rewrite <- H; exact Hq).
    f_equal. apply Qfloor_comp. rewrite H. reflexivity.
  - rewrite (roundQ_nonneg q Hq), (roundQ_nonneg q') by (rewrite <- H; exact Hq).
    apply Qfloor_comp. rewrite H. reflexivity.
Qed.

#[global] Instance roundQ_proper : Proper (Qeq ==> eq) roundQ.
Proof. intros q q' E. apply roundQ_comp, E. Qed.

#[global] Instance dbl_proper : Proper (Qeq ==> iff) dbl.
Proof. intros x y E. split; apply dbl_comp; [exact E|symmetry; exact E]. Qed.

(** [round] is within a half of its argument. *)
Lemma roundQ_bounds (q : Q) :
  (q - (1 # 2) <= iq (roundQ q))%Q /\ (iq (roundQ q) <= q + (1 # 2))%Q.
Proof.
  destruct (Qlt_le_dec q 0) as [Hq|Hq].
  - rewrite (roundQ_neg q Hq). destruct (Qfloor_bounds (- q + (1 # 2))) as [L U].
    unfold iq at 1 2. rewrite inject_Z_opp. fold (iq (Qfloor (- q + (1 # 2)))).
    split; lra.
  - rewrite (roundQ_nonneg q Hq). destruct (Qfloor_bounds (q + (1 # 2))) as [L U].
    split; lra.
Qed.

Lemma roundQ_iq (z : Z) : roundQ (iq z) = z.
Proof.
  destruct (roundQ_bounds (iq z)) as [L U].
  assert (H1 : (iq (z - 1) < iq (roundQ (iq z)))%Q).
  { replace (z - 1) with (z + -1) by lia. rewrite iq_plus. change (iq (-1)) with (-1)%Q. lra. }
  assert (H2 : (iq (roundQ (iq z)) < iq (z + 1))%Q).
  { rewrite iq_plus. change (iq 1) with 1%Q. lra. }
  unfold iq in *. rewrite <- Zlt_Qlt in H1, H2. lia.
Qed.

Lemma roundQ_mono (q q' : Q) : (q <= q')%Q -> roundQ q <= roundQ q'.
Proof.
  intros H. destruct (Qlt_le_dec q 0) as [Hq|Hq]; destruct (Qlt_le_dec q' 0) as [Hq'|Hq'].
  - rewrite (roundQ_neg q Hq), (roundQ_neg q' Hq').
    assert (Hf : Qfloor (- q' + (1 # 2)) <= Qfloor (- q + (1 # 2)))
      by (apply Qfloor_resp_le; lra).
    lia.
  - rewrite (roundQ_neg q Hq), (roundQ_nonneg q' Hq').
    assert (H1 : Qfloor 0 <= Qfloor (- q + (1 # 2))) by (apply Qfloor_resp_le; lra).
    assert (H2 : Qfloor 0 <= Qfloor (q' + (1 # 2))) by (apply Qfloor_resp_le; lra).
    change (Qfloor 0) with 0 in H1, H2. lia.
  - lra.
  - rewrite (roundQ_nonneg q Hq), (roundQ_nonneg q' Hq'). apply Qfloor_resp_le. lra.
Qed.

Lemma roundQ_ge (q : Q) (z : Z) : (iq z <= q)%Q -> z <= roundQ q.
Proof. intros H. rewrite <- (roundQ_iq z). apply roundQ_mono, H. Qed.

Lemma roundQ_le (q : Q) (z : Z) : (q <= iq z)%Q -> roundQ q <= z.
Proof. intros H. rewrite <- (roundQ_iq z). apply roundQ_mono, H. Qed.

(** Below a half-integer, [round] stays below the integer under it. *)
Lemma roundQ_lt_half (q : Q) (z : Z) : (q < iq z + (1 # 2))%Q -> roundQ q <= z.
Proof.
  intros H. destruct (roundQ_bounds q) as [L U].
  destruct (Qlt_le_dec q 0) as [Hq|Hq].
  - rewrite (roundQ_neg q Hq). destruct (Qfloor_bounds (- q + (1 # 2))) as [L' U'].
    assert (H1 : (iq (- z - 1) < iq (Qfloor (- q + (1 # 2))))%Q).
    { replace (- z - 1) with (- z + -1) by lia. rewrite iq_plus.
      unfold iq at 1. rewrite inject_Z_opp. fold (iq z). change (iq (-1)) with (-1)%Q.
      lra. }
    unfold iq in H1. rewrite <- Zlt_Qlt in H1. lia.
  - rewrite (roundQ_nonneg q Hq). destruct (Qfloor_bounds (q + (1 # 2))) as [L' U'].
    assert (H1 : (iq (Qfloor (q + (1 # 2))) < iq (z + 1))%Q).
    { rewrite iq_plus. change (iq 1) with 1%Q. lra. }
    unfold iq in H1. rewrite <- Zlt_Qlt in H1. lia.
Qed.

(** From a half-integer on, [round] reaches the integer above it. *)
Lemma roundQ_ge_half (q : Q) (z : Z) : (0 <= q)%Q -> (iq z - (1 # 2) <= q)%Q -> z <= roundQ q.
Proof.
  intros Hq H. rewrite (roundQ_nonneg q Hq).
  assert (H1 : Qfloor (iq z) <= Qfloor (q + (1 # 2))) by (apply Qfloor_resp_le; lra).
  change (Qfloor (iq z)) with (Qfloor (inject_Z z)) in H1. rewrite Qfloor_Z in H1. exact H1.
Qed.

(** A double of magnitude 2^52 or more is an integer. *)
Lemma dbl_large_int (v : Q) : dbl v -> (pow2 52 <= v)%Q -> exists z, (v == iq z)%Q.
Proof.
  intros Hv Hl. pose proof (pow2_pos 52) as P.
  assert (Hpos : (0 < v)%Q) by lra.
  unfold dbl in Hv. rewrite (rnd_pos v Hpos), rndPos_eq in Hv.
  destruct (ilog2_spec v Hpos) as [_ U].
  assert (He : 52 <= ilog2 v).
  { destruct (Z_le_gt_dec 52 (ilog2 v)) as [H|H]; [exact H|].
    pose proof (pow2_le (ilog2 v + 1) 52 ltac:(lia)). lra. }
  exists (rne (v / pow2 (ilog2 v - 52)) * 2 ^ (ilog2 v - 52)).
  rewrite iq_mult, <- pow2_iq by lia. symmetry. exact Hv.
Qed.

Lemma dbl_round (v : Q) : dbl v -> dbl (iq (roundQ v)).
Proof.
  intros Hv.
  assert (Hpos : forall w, dbl w -> (0 <= w)%Q -> dbl (iq (roundQ w))).
  { intros w Hw H0. destruct (Qlt_le_dec w (pow2 52)) as [Hs|Hl].
    - apply dbl_iq. destruct (roundQ_bounds w) as [L U].
      rewrite (pow2_iq 52) in Hs by lia.
      assert (H1 : roundQ w <= 2 ^ 52) by (apply roundQ_lt_half; lra).
      assert (H2 : 0 <= roundQ w) by (apply roundQ_ge; exact H0).
      lia.
    - destruct (dbl_large_int w Hw Hl) as [z Ez].
      rewrite (roundQ_comp _ _ Ez), roundQ_iq. apply (dbl_comp w); assumption. }
  destruct (Qlt_le_dec v 0) as [Hn|Hp]; [|apply Hpos; assumption].
  pose proof (Hpos (- v)%Q (dbl_opp v Hv) ltac:(lra)) as H.
  assert (E : roundQ (- v) = - roundQ v).
  { rewrite (roundQ_neg v Hn), (roundQ_nonneg (- v)) by lra. lia. }
  rewrite E in H. apply dbl_opp in H.
  assert (E' : (- iq (- roundQ v) == iq (roundQ v))%Q)
    by (unfold iq; rewrite inject_Z_opp; ring).
  exact (dbl_comp _ _ E' H).
Qed.

(** The rounding of an integer is an integer. *)
Lemma rnd_iq_round (z : Z) : (rnd (iq z) == iq (roundQ (rnd (iq z))))%Q.
Proof.
  assert (Hpos : forall y, 0 <= y -> (rnd (iq y) == iq (roundQ (rnd (iq y))))%Q).
  { intros y Hy. destruct (Z_le_gt_dec y (2 ^ 53)) as [Hs|Hl].
    - pose proof (dbl_iq y ltac:(lia)) as Hd. unfold dbl in Hd.
      rewrite (roundQ_comp _ _ Hd), roundQ_iq. exact Hd.
    - assert (Hge : (pow2 52 <= rnd (iq y))%Q).
      { apply rnd_ge.
        - apply (dbl_comp (iq (2 ^ 52))); [symmetry; apply pow2_iq; lia|].
          apply dbl_iq. lia.
        - rewrite (pow2_iq 52) by lia. apply iq_le. lia. }
      destruct (dbl_large_int _ (dbl_rnd (iq y)) Hge) as [z' Ez].
      rewrite (roundQ_comp _ _ Ez), roundQ_iq. exact Ez. }
  destruct (Z_le_gt_dec 0 z) as [H|H]; [apply Hpos, H|].
  assert (E : (iq z == - iq (- z))%Q) by (unfold iq; rewrite inject_Z_opp; ring).
  rewrite E, rnd_opp.
  pose proof (Hpos (- z) ltac:(lia)) as Hp.
  set (v := rnd (iq (- z))) in *.
  assert (Hv : (0 <= v)%Q).
  { subst v. apply rnd_nonneg. change 0%Q with (iq 0). apply iq_le. lia. }
  destruct (Qle_lt_or_eq _ _ Hv) as [Hlt|Heq].
  - rewrite (roundQ_neg (- v)) by lra.
    assert (Ev : (- - v + (1 # 2) == v + (1 # 2))%Q) by ring.
    rewrite (Qfloor_comp _ _ Ev), <- roundQ_nonneg by exact Hv.
    unfold iq at 1. rewrite inject_Z_opp. fold (iq (roundQ v)). rewrite <- Hp. reflexivity.
  - rewrite <- Heq. reflexivity.
Qed.

(** ** Arrays and loops *)

Lemma zget_zset_ne (l : list Z) (i j v : Z) :
  i <> j -> zget (zset l i v) j = zget l j.
Proof.
  intros Hij. unfold zget, zset.
  destruct (Z.ltb_spec i 0); [reflexivity|].
  destruct (Z.ltb_spec j 0); [reflexivity|].
  rewrite list_lookup_insert_ne by lia. reflexivity.
Qed.

Lemma zget_zset_eq (l : list Z) (i v : Z) :
  0 <= i < Z.of_nat (length l) -> zget (zset l i v) i = v.
Proof.
  intros Hi. unfold zget, zset.
  destruct (Z.ltb_spec i 0); [lia|].
  rewrite list_lookup_insert_eq by lia. reflexivity.
Qed.

Lemma zget_zset (l : list Z) (i j v : Z) :
  zget (zset l i v) j = v /\ i = j \/ zget (zset l i v) j = zget l j.
Proof.
  destruct (Z.eq_dec i j) as [->|Hne].
  - destruct (Z.ltb_spec j 0) as [Hneg|Hpos].
    + right. unfold zset. destruct (Z.ltb_spec j 0); [reflexivity|lia].
    + destruct (Z_lt_dec j (Z.of_nat (length l))).
      * left. split; [apply zget_zset_eq; lia|reflexivity].
      * right. unfold zset. destruct (Z.ltb_spec j 0); [lia|].
        rewrite list_insert_ge by lia. reflexivity.
  - right. apply zget_zset_ne, Hne.
Qed.

Lemma length_zset (l : list Z) (i v : Z) : length (zset l i v) = length l.
Proof. unfold zset. destruct (i <? 0); [reflexivity|apply length_insert]. Qed.

Lemma zget_outside (l : list Z) (i : Z) :
  i < 0 \/ Z.of_nat (length l) <= i -> zget l i = 0.
Proof.
  intros Hi. unfold zget. destruct (Z.ltb_spec i 0); [reflexivity|].
  rewrite (proj2 (lookup_ge_None l (Z.to_nat i))) by lia. reflexivity.
Qed.

Lemma zget_replicate (n : nat) (i : Z) : zget (replicate n 0) i = 0.
Proof.
  unfold zget. destruct (i <? 0); [reflexivity|].
  destruct (replicate n 0 !! Z.to_nat i) eqn:E; [|reflexivity].
  apply lookup_replicate in E. simpl. tauto.
Qed.

Lemma in_range_step (a b s i : Z) :
  0 < s -> In i (range_step a b s) -> a <= i < b /\ (i - a) mod s = 0.
Proof.
  intros Hs Hin. unfold range_step in Hin.
  apply in_map_iff in Hin as (k & <- & Hk). apply in_seq in Hk.
  assert (Hq : Z.of_nat k < (b - a + s - 1) / s) by lia.
  assert (Hm : s * ((b - a + s - 1) / s) <= b - a + s - 1)
    by (apply Z.mul_div_le; lia).
  split; [nia|].
  replace (a + s * Z.of_nat k - a) with (Z.of_nat k * s) by lia.
  apply Z_mod_mult.
Qed.

Lemma in_range (a b i : Z) : In i (range a b) <-> a <= i < b.
Proof.
  unfold range. split.
  - intros H. apply in_range_step in H; lia.
  - intros H. unfold range_step. apply in_map_iff.
    exists (Z.to_nat (i - a)). split; [lia|].
    apply in_seq. rewrite Z.div_1_r. lia.
Qed.

Lemma length_range (a b : Z) : length (range a b) = Z.to_nat (b - a).
Proof.
  unfold range, range_step. rewrite length_map, length_seq, Z.div_1_r.
  f_equal. lia.
Qed.

(** ** The generator *)

Lemma noise_lit (state : Z) : 0x100000280 <= snd (noise state) < 0x100000680.
Proof.
  unfold noise. destruct (xorshift64s state) as [s r] eqn:E. simpl.
  assert (Hr : 0 <= r < 2 ^ 64).
  { unfold xorshift64s in E. inversion E. unfold u64. apply Z.mod_pos_bound. lia. }
  assert (Hs : 0 <= Z.shiftr r 54 < 1024).
  { rewrite Z.shiftr_div_pow2 by lia. split.
    - apply Z.div_pos; lia.
    - apply Z.div_lt_upper_bound; lia. }
  unfold u64. rewrite Z.mod_small; lia.
Qed.

Lemma noise_nonzero (state : Z) : snd (noise state) <> 0.
Proof. pose proof (noise_lit state). lia. Qed.

(** ** Floor dust: isolated specks *)

Definition speckFree (tileWidth : Z) (P : Z -> Prop) (values : list Z) : Prop :=
  forall p d, P p -> In d (neighbours tileWidth) ->
              zget values p <> 0 -> zget values (p + d) = 0.

Lemma neighbours_opp (tileWidth d : Z) :
  In d (neighbours tileWidth) -> In (- d) (neighbours tileWidth).
Proof.
  unfold neighbours. simpl. intros H.
  repeat (destruct H as [<-|H]; [auto 10 with zarith|]);
    [contradiction].
Qed.

Lemma neighbours_nonzero (tileWidth d : Z) :
  2 < tileWidth -> In d (neighbours tileWidth) -> d <> 0.
Proof.
  unfold neighbours. simpl. intros Hw H.
  repeat (destruct H as [<-|H]; [lia|]). contradiction.
Qed.

Lemma isolated_spec (tileWidth : Z) (values : list Z) (p : Z) :
  isolated tileWidth values p = true <->
  forall d, In d (neighbours tileWidth) -> zget values (p + d) = 0.
Proof.
  unfold isolated. rewrite forallb_forall. split; intros H d Hd.
  - apply Z.eqb_eq, H, Hd.
  - apply Z.eqb_eq, H, Hd.
Qed.

Lemma dustStep_speckFree (tileWidth w : Z) (P : Z -> Prop) (d : Dust) (k : Z) :
  2 < tileWidth ->
  speckFree tileWidth P (dust_values d) ->
  speckFree tileWidth P (dust_values (dustStep tileWidth w d k)).
Proof.
  intros Hw Hinv. unfold dustStep.
  set (q := 1 + k mod w + (1 + k / w) * tileWidth).
  destruct (isolated tileWidth (dust_values d) q) eqn:Hiso; [|exact Hinv].
  pose proof (proj1 (isolated_spec _ _ _) Hiso) as Hfree. clear Hiso.
  rename Hfree into Hiso.
  unfold put_noise. destruct (noise (dust_state d)) as [s n]. simpl.
  intros p e HP He Hlit.
  pose proof (neighbours_nonzero _ _ Hw He) as Hne.
  destruct (Z.eq_dec (p + e) q) as [Heq|Hneq].
  - exfalso. apply Hlit. rewrite zget_zset_ne by lia.
    replace p with (q + - e) by lia. apply Hiso, neighbours_opp, He.
  - rewrite zget_zset_ne by lia.
    destruct (Z.eq_dec p q) as [->|Hpq].
    + apply Hiso, He.
    + rewrite zget_zset_ne in Hlit by lia. apply Hinv; assumption.
Qed.

(** X10. The older variant of the renderer spells the test of the eight
    neighbours with the bitwise [&] between two of its negations and takes
    the neighbours in another order; it accepts exactly the pixels that the
    newer test accepts. *)
Lemma isolated_older_same (tileWidth : Z) (values : list Z) (x y : Z) :
  isolated_older tileWidth values x y = isolated tileWidth values (x + y * tileWidth).
Proof.
  unfold isolated_older, isolated, neighbours. cbn [forallb].
  replace (x + 1 + (y + 0) * tileWidth) with (x + y * tileWidth + 1) by lia.
  replace (x + -1 + (y + 0) * tileWidth) with (x + y * tileWidth + -1) by lia.
  replace (x + 1 + (y + 1) * tileWidth) with (x + y * tileWidth + (tileWidth + 1)) by lia.
  replace (x + -1 + (y + -1) * tileWidth)
    with (x + y * tileWidth + (- tileWidth - 1)) by lia.
  replace (x + 0 + (y + 1) * tileWidth) with (x + y * tileWidth + tileWidth) by lia.
  replace (x + 0 + (y + -1) * tileWidth) with (x + y * tileWidth + - tileWidth) by lia.
  replace (x + -1 + (y + 1) * tileWidth)
    with (x + y * tileWidth + (tileWidth - 1)) by lia.
  replace (x + 1 + (y + -1) * tileWidth)
    with (x + y * tileWidth + (- tileWidth + 1)) by lia.
  set (p := x + y * tileWidth).
  destruct (zget values (p + 1) =? 0), (zget values (p + -1) =? 0),
    (zget values (p + tileWidth) =? 0), (zget values (p + (tileWidth + 1)) =? 0),
    (zget values (p + (tileWidth - 1)) =? 0), (zget values (p + - tileWidth) =? 0),
    (zget values (p + (- tileWidth + 1)) =? 0),
    (zget values (p + (- tileWidth - 1)) =? 0); reflexivity.
Qed.

Lemma fillCenter_speckFree (tileWidth w : Z) (P : Z -> Prop) (idx : list Z) (d : Dust) :
  2 < tileWidth ->
  speckFree tileWidth P (dust_values d) ->
  speckFree tileWidth P (dust_values (fillCenter tileWidth w idx d)).
Proof.
  intros Hw. unfold fillCenter. revert d.
  induction idx as [|k idx IH]; intros d Hinv; simpl; [exact Hinv|].
  apply IH, dustStep_speckFree; assumption.
Qed.

(** The edge loops write only where they say. *)
Lemma put_noise_fold_other (f : Z -> Z) (ks : list Z) (d : Dust) (p : Z) :
  (forall k, In k ks -> f k <> p) ->
  zget (dust_values (fold_left (fun d k => put_noise (f k) d) ks d)) p
  = zget (dust_values d) p.
Proof.
  revert d. induction ks as [|k ks IH]; intros d Hf; simpl; [reflexivity|].
  rewrite IH by (intros; apply Hf; right; assumption).
  unfold put_noise. destruct (noise (dust_state d)) as [s n]. simpl.
  apply zget_zset_ne, Hf. left. reflexivity.
Qed.

Definition interior (tileWidth tileHeight p : Z) : Prop :=
  exists x y, 1 <= x <= tileWidth - 2 /\ 1 <= y <= tileHeight - 2
              /\ p = x + y * tileWidth.

Lemma stitchEdges_interior (tileWidth tileHeight : Z) (d : Dust) (p : Z) :
  interior tileWidth tileHeight p ->
  zget (dust_values (stitchEdges tileWidth (tileWidth - 2) (tileHeight - 2) d)) p
  = zget (dust_values d) p.
Proof.
  intros (x & y & Hx & Hy & ->). unfold stitchEdges.
  rewrite (put_noise_fold_other (fun y0 => y0 * tileWidth + (tileWidth - 2 + 1))).
  2:{ intros k Hk. apply in_range_step in Hk; [|lia].
      destruct (Z.lt_trichotomy k y) as [Hlt|[Heq|Hgt]]; nia. }
  rewrite (put_noise_fold_other (fun x0 => (tileHeight - 2 + 1) * tileWidth + x0)).
  2:{ intros k Hk. apply in_range_step in Hk; [|lia].
      destruct (Z.lt_trichotomy k y) as [Hlt|[Heq|Hgt]]; nia. }
  rewrite (put_noise_fold_other (fun y0 => y0 * tileWidth)).
  2:{ intros k Hk. apply in_range_step in Hk; [|lia].
      destruct (Z.lt_trichotomy k y) as [Hlt|[Heq|Hgt]]; nia. }
  rewrite (put_noise_fold_other (fun x0 => x0)).
  2:{ intros k Hk. apply in_range_step in Hk; [|lia].
      destruct (Z.lt_trichotomy k y) as [Hlt|[Heq|Hgt]]; nia. }
  reflexivity.
Qed.

Lemma neighbour_offset (tileWidth dx dy : Z) :
  -1 <= dx <= 1 -> -1 <= dy <= 1 -> (dx =? 0) && (dy =? 0) = false ->
  In (dx + dy * tileWidth) (neighbours tileWidth).
Proof.
  intros Hx Hy Hne. unfold neighbours.
  assert (Hdx : dx = -1 \/ dx = 0 \/ dx = 1) by lia.
  assert (Hdy : dy = -1 \/ dy = 0 \/ dy = 1) by lia.
  destruct Hdx as [-> | [-> | ->]]; destruct Hdy as [-> | [-> | ->]];
    try discriminate Hne; simpl.
  all: repeat first [left; lia | right].
Qed.

Lemma stitchEdges_speckFree (tileWidth tileHeight : Z) :
  speckFree tileWidth (interior tileWidth tileHeight)
    (dust_values (stitchEdges tileWidth (tileWidth - 2) (tileHeight - 2)
                              (mkDust 1234567 (blank tileWidth tileHeight)))).
Proof.
  intros p d HP _ Hlit. exfalso. apply Hlit.
  rewrite stitchEdges_interior by exact HP. apply zget_replicate.
Qed.

(** C5. After the floor-dust fill of a blank accumulator, an interior pixel
    [(x, y)] is dark when the edges have been stitched, so it is lit only by
    the interior phase; and if it is lit at the end, each of its eight
    neighbours [(x + dx, y + dy)], on the edge lattice or in the interior, is
    dark: the lit interior pixels are isolated specks. *)
Theorem floorDust_specks_isolated (tileWidth tileHeight x y dx dy : Z) :
  2 < tileWidth -> 2 < tileHeight ->
  1 <= x <= tileWidth - 2 -> 1 <= y <= tileHeight - 2 ->
  -1 <= dx <= 1 -> -1 <= dy <= 1 -> (dx =? 0) && (dy =? 0) = false ->
  zget (dust_values (stitchEdges tileWidth (tileWidth - 2) (tileHeight - 2)
                       (mkDust 1234567 (blank tileWidth tileHeight))))
       (x + y * tileWidth) = 0
  /\ (zget (floorDust tileWidth tileHeight (blank tileWidth tileHeight))
           (x + y * tileWidth) <> 0 ->
      zget (floorDust tileWidth tileHeight (blank tileWidth tileHeight))
           ((x + dx) + (y + dy) * tileWidth) = 0).
Proof.
  intros Hw Hh Hx Hy Hdx Hdy Hne.
  assert (Hint : interior tileWidth tileHeight (x + y * tileWidth)).
  { exists x, y. repeat split; lia. }
  split.
  - rewrite stitchEdges_interior by exact Hint. apply zget_replicate.
  - unfold floorDust.
    set (e := stitchEdges tileWidth (tileWidth - 2) (tileHeight - 2)
                          (mkDust 1234567 (blank tileWidth tileHeight))).
    destruct (shuffle ((tileWidth - 2) * (tileHeight - 2)) (dust_state e))
      as [state idx].
    intros Hlit.
    replace (x + dx + (y + dy) * tileWidth)
      with (x + y * tileWidth + (dx + dy * tileWidth)) by lia.
    apply (fillCenter_speckFree tileWidth (tileWidth - 2)
             (interior tileWidth tileHeight) idx (mkDust state (dust_values e)) Hw).
    + apply stitchEdges_speckFree.
    + exact Hint.
    + apply neighbour_offset; assumption.
    + exact Hlit.
Qed.

Lemma floorDust_specks_isolated_witness :
  zget (floorDust 5 5 (blank 5 5)) (1 + 2 * 5) <> 0
  /\ zget (floorDust 5 5 (blank 5 5)) ((1 + 1) + (2 + 0) * 5) = 0.
Proof.
  assert (Hlit : zget (floorDust 5 5 (blank 5 5)) (1 + 2 * 5) <> 0)
    by (vm_compute; discriminate).
  split; [exact Hlit|].
  pose proof (floorDust_specks_isolated 5 5 1 2 1 0 ltac:(lia) ltac:(lia)
                ltac:(lia) ltac:(lia) ltac:(lia) ltac:(lia) eq_refl) as [_ H].
  exact (H Hlit).
Defined.

(** ** The conversion loop: what a render leaves in the surface *)

Section Conversion.
Variable wave : Z -> Z -> Z -> Z -> Z -> Z -> Z.
Variable blurTerm : Z -> Q.
Variable stackWord : Z.

(** The word written for an accumulator entry: 0xAAffffff. *)
Definition pixelWord (processing : ascii) (entry : Z) : Z :=
  Z.lor (Z.shiftl (alphaOf processing entry) 24) 0xffffff.

(** The alpha channel of a surface word. *)
Definition alphaChannel (word : Z) : Z := Z.shiftr word 24.

Lemma convertPixel_fst sw tw th row column opt values y acc x :
  fst (convertPixel blurTerm sw tw th row column opt values y acc x)
  = zset (fst acc) (pixelIndex sw tw th row column x y)
         (pixelWord (TileProcessing row column) (zget values (y * tw + x))).
Proof. destruct acc as [pixels blur]. reflexivity. Qed.

Lemma convert_line_length sw tw th row column opt values y xs acc :
  length (fst (fold_left (convertPixel blurTerm sw tw th row column opt values y) xs acc))
  = length (fst acc).
Proof.
  revert acc. induction xs as [|x xs IH]; intros acc; simpl; [reflexivity|].
  rewrite IH, convertPixel_fst. apply length_zset.
Qed.

(** One line of the conversion: if every write of the line to position [j]
    carries the word [v], and [j] either holds [v] already or is written
    by the line, then [j] holds [v] after the line. *)
Lemma convert_line sw tw th row column opt values y xs acc j v :
  0 <= j < Z.of_nat (length (fst acc)) ->
  (forall x, In x xs -> pixelIndex sw tw th row column x y = j ->
             pixelWord (TileProcessing row column) (zget values (y * tw + x)) = v) ->
  zget (fst acc) j = v
  \/ (exists x, In x xs /\ pixelIndex sw tw th row column x y = j) ->
  zget (fst (fold_left (convertPixel blurTerm sw tw th row column opt values y) xs acc)) j
  = v.
Proof.
  revert acc. induction xs as [|x xs IH]; intros acc Hj Hv Hor; simpl.
  - destruct Hor as [H|(x & [] & _)]. exact H.
  - apply IH.
    + rewrite convertPixel_fst, length_zset. exact Hj.
    + intros x' Hx'. apply Hv. right. exact Hx'.
    + rewrite convertPixel_fst.
      destruct (Z.eq_dec (pixelIndex sw tw th row column x y) j) as [Heq|Hne].
      * left. rewrite Heq, zget_zset_eq by exact Hj.
        apply Hv; [left; reflexivity|exact Heq].
      * rewrite zget_zset_ne by exact Hne.
        destruct Hor as [H|(x' & [->|Hin] & Hx')].
        -- left. exact H.
        -- contradiction.
        -- right. exists x'. split; assumption.
Qed.

Lemma convert_lines sw tw th row column opt values xs ys acc j v :
  0 <= j < Z.of_nat (length (fst acc)) ->
  (forall x y, In x xs -> In y ys -> pixelIndex sw tw th row column x y = j ->
               pixelWord (TileProcessing row column) (zget values (y * tw + x)) = v) ->
  zget (fst acc) j = v
  \/ (exists x y, In x xs /\ In y ys /\ pixelIndex sw tw th row column x y = j) ->
  zget (fst (fold_left
               (fun acc y =>
                  fold_left (convertPixel blurTerm sw tw th row column opt values y) xs acc)
               ys acc)) j
  = v.
Proof.
  revert acc. induction ys as [|y ys IH]; intros acc Hj Hv Hor; simpl.
  - destruct Hor as [H|(x & y & _ & [] & _)]. exact H.
  - apply IH.
    + rewrite convert_line_length. exact Hj.
    + intros x y' Hx Hy'. apply Hv; [exact Hx|right; exact Hy'].
    + destruct Hor as [H|(x & y' & Hx & [->|Hy'] & Hxy)].
      * left. apply convert_line; [exact Hj| |left; exact H].
        intros x Hx. apply Hv; [exact Hx|left; reflexivity].
      * left. apply convert_line; [exact Hj| |right; exists x; split; assumption].
        intros x' Hx'. apply Hv; [exact Hx'|left; reflexivity].
      * right. exists x, y'. repeat split; assumption.
Qed.
End Conversion.

Lemma pixelIndex_inj (sw tw th row column x y x' y' : Z) :
  tw <= sw -> 0 <= x < tw -> 0 <= x' < tw ->
  pixelIndex sw tw th row column x' y' = pixelIndex sw tw th row column x y ->
  x' = x /\ y' = y.
Proof.
  unfold pixelIndex. intros Hsw Hx Hx' Heq.
  assert (Hy : y' = y).
  { destruct (Z.lt_trichotomy y' y) as [Hlt|[Heq'|Hgt]]; [nia|exact Heq'|nia]. }
  subst y'. split; [lia|reflexivity].
Qed.

(** Every pixel of the tile holds, after the render, the word computed from
    its accumulator entry. *)
Lemma prepareTile_pixel wave blurTerm stackWord (g : Tiles) (surface : Surface)
    (tileWidth tileHeight row column : Z) (optimizing : bool) (x y : Z) :
  0 <= x < tileWidth -> 0 <= y < tileHeight ->
  tileWidth <= surf_w surface ->
  0 <= pixelIndex (surf_w surface) tileWidth tileHeight row column x y
    < Z.of_nat (length (surf_pixels surface)) ->
  zget (surf_pixels (fst (prepareTile wave blurTerm stackWord g surface
                            tileWidth tileHeight row column optimizing)))
       (pixelIndex (surf_w surface) tileWidth tileHeight row column x y)
  = pixelWord (TileProcessing row column)
      (zget (prepareValues wave stackWord g tileWidth tileHeight row column optimizing)
            (y * tileWidth + x)).
Proof.
  intros Hx Hy Hsw Hj. unfold prepareTile, convert.
  set (values := prepareValues wave stackWord g tileWidth tileHeight row column optimizing).
  destruct (fold_left _ (range 0 tileHeight) (surf_pixels surface, 0%Q))
    as [pixels blur] eqn:E.
  change pixels with (fst (pixels, blur)). rewrite <- E. simpl fst at 1.
  apply convert_lines.
  - exact Hj.
  - intros x' y' Hx' Hy' Heq. apply in_range in Hx'.
    apply pixelIndex_inj in Heq as [-> ->]; [reflexivity|lia|lia|lia].
  - right. exists x, y. repeat split; [apply in_range; lia|apply in_range; lia].
Qed.

Lemma pixelWord_dark (processing : ascii) : pixelWord processing 0 = 0xffffff.
Proof.
  unfold pixelWord, alphaOf, thin, average.
  destruct (is_t processing || is_hash processing); reflexivity.
Qed.

Lemma prepareValues_empty wave stackWord (g : Tiles) (tileWidth tileHeight row column : Z) :
  tileEmpty g row column = true ->
  isFloor row column = false -> isWallTop row column = false ->
  prepareValues wave stackWord g tileWidth tileHeight row column false
  = blank tileWidth tileHeight.
Proof.
  intros He Hf Hw. unfold prepareValues. rewrite He, Hf, Hw. reflexivity.
Qed.

(** C1 (amended). For an empty cell that is neither the floor cell (row 20,
    column 2) nor one of the three wall-top cells, a non-calibrating render
    writes alpha 0, the word 0x00ffffff, at every destination pixel of the
    cell. *)
Theorem prepareTile_empty_transparent wave blurTerm stackWord
    (g : Tiles) (surface : Surface) (tileWidth tileHeight row column x y : Z) :
  tileEmpty g row column = true ->
  isFloor row column = false -> isWallTop row column = false ->
  0 <= x < tileWidth -> 0 <= y < tileHeight ->
  tileWidth <= surf_w surface ->
  0 <= pixelIndex (surf_w surface) tileWidth tileHeight row column x y
    < Z.of_nat (length (surf_pixels surface)) ->
  let word :=
    zget (surf_pixels (fst (prepareTile wave blurTerm stackWord g surface
                              tileWidth tileHeight row column false)))
         (pixelIndex (surf_w surface) tileWidth tileHeight row column x y) in
  word = 0xffffff /\ alphaChannel word = 0.
Proof.
  intros He Hf Hw Hx Hy Hsw Hj word. subst word.
  rewrite prepareTile_pixel by assumption.
  rewrite prepareValues_empty by assumption.
  unfold blank. rewrite zget_replicate, pixelWord_dark. split; reflexivity.
Qed.

(** An atlas without any ink, in which every tile is empty, at the base
    size 3 x 3, and a 48 x 72 surface for its 16 x 24 tiles.  The padding
    plays no part in the render of an empty tile. *)
Definition blankAtlas : Tiles :=
  mkTiles (fun _ => 0xff000000) (fun _ _ => 0)
          (replicate 384 (replicate 384 0)) (fun _ _ => true) 3 3 4.

Definition smallSurface : Surface := mkSurface 48 (replicate (48 * 72) 0).

Lemma prepareTile_empty_transparent_witness :
  alphaChannel
    (zget (surf_pixels (fst (prepareTile (fun _ _ _ _ _ _ => 0) (fun _ => 0%Q) 0
                               blankAtlas smallSurface 3 3 0 0 false)))
          (pixelIndex 48 3 3 0 0 1 1)) = 0.
Proof.
  apply (prepareTile_empty_transparent (fun _ _ _ _ _ _ => 0) (fun _ => 0%Q) 0
           blankAtlas smallSurface 3 3 0 0 1 1);
    by_compute.
Defined.

(** C1, as stated, fails on the floor cell: it is empty, it is not a
    wall-top cell, and its first pixel comes out with alpha 36. *)
Lemma prepareTile_empty_floor_lit :
  tileEmpty blankAtlas 20 2 = true
  /\ isWallTop 20 2 = false
  /\ alphaChannel
       (zget (surf_pixels (fst (prepareTile (fun _ _ _ _ _ _ => 0) (fun _ => 0%Q) 0
                                  blankAtlas smallSurface 3 3 20 2 false)))
             (pixelIndex 48 3 3 20 2 0 0)) = 36.
Proof. vm_compute. repeat split. Qed.

(** ** Floor dust is reproducible *)

Lemma prepareValues_floor wave stackWord (g : Tiles) (tileWidth tileHeight : Z) :
  tileEmpty g 20 2 = true -> 2 < tileWidth -> 2 < tileHeight ->
  prepareValues wave stackWord g tileWidth tileHeight 20 2 false
  = floorDust tileWidth tileHeight (blank tileWidth tileHeight).
Proof.
  intros He Hw Hh. unfold prepareValues. rewrite He.
  replace (tileWidth >? 2) with true by (symmetry; apply Z.gtb_lt; lia).
  replace (tileHeight >? 2) with true by (symmetry; apply Z.gtb_lt; lia).
  reflexivity.
Qed.

(** A render of the blank floor cell writes words that depend on the tile
    size alone. *)
Lemma prepareTile_floor_pixel wave blurTerm stackWord (g : Tiles) (surface : Surface)
    (tileWidth tileHeight x y : Z) :
  tileEmpty g 20 2 = true -> 2 < tileWidth -> 2 < tileHeight ->
  0 <= x < tileWidth -> 0 <= y < tileHeight ->
  tileWidth <= surf_w surface ->
  0 <= pixelIndex (surf_w surface) tileWidth tileHeight 20 2 x y
    < Z.of_nat (length (surf_pixels surface)) ->
  zget (surf_pixels (fst (prepareTile wave blurTerm stackWord g surface
                            tileWidth tileHeight 20 2 false)))
       (pixelIndex (surf_w surface) tileWidth tileHeight 20 2 x y)
  = pixelWord "s" (zget (floorDust tileWidth tileHeight (blank tileWidth tileHeight))
                        (y * tileWidth + x)).
Proof.
  intros He Hw Hh Hx Hy Hsw Hj.
  rewrite prepareTile_pixel by assumption.
  rewrite prepareValues_floor by assumption. reflexivity.
Qed.

Lemma convert_lines_length blurTerm sw tw th row column opt values xs ys acc :
  length (fst (fold_left
                 (fun acc y =>
                    fold_left (convertPixel blurTerm sw tw th row column opt values y) xs acc)
                 ys acc))
  = length (fst acc).
Proof.
  revert acc. induction ys as [|y ys IH]; intros acc; simpl; [reflexivity|].
  rewrite IH. apply convert_line_length.
Qed.

Lemma prepareTile_surface_shape wave blurTerm stackWord (g : Tiles) (surface : Surface)
    (tileWidth tileHeight row column : Z) (optimizing : bool) :
  let s := fst (prepareTile wave blurTerm stackWord g surface
                  tileWidth tileHeight row column optimizing) in
  surf_w s = surf_w surface /\ length (surf_pixels s) = length (surf_pixels surface).
Proof.
  unfold prepareTile, convert.
  destruct (fold_left _ (range 0 tileHeight) (surf_pixels surface, 0%Q))
    as [pixels blur] eqn:E.
  simpl. split; [reflexivity|].
  change pixels with (fst (pixels, blur)). rewrite <- E.
  apply convert_lines_length.
Qed.

(** C4. Two successive non-calibrating renders of the blank floor cell (row
    20, column 2) at the same tile size, both dimensions above 2, leave the
    same word in every destination pixel of the cell, whatever happened to
    the rest of the state between them (atlas, shift table, base tile size,
    the surface's previous content): the generator restarts from the
    constant 1234567 in each render. *)
Theorem floorDust_deterministic wave1 blurTerm1 stackWord1 wave2 blurTerm2 stackWord2
    (g1 g2 : Tiles) (surface : Surface) (tileWidth tileHeight x y : Z) :
  tileEmpty g1 20 2 = true -> tileEmpty g2 20 2 = true ->
  2 < tileWidth -> 2 < tileHeight ->
  0 <= x < tileWidth -> 0 <= y < tileHeight ->
  tileWidth <= surf_w surface ->
  0 <= pixelIndex (surf_w surface) tileWidth tileHeight 20 2 x y
    < Z.of_nat (length (surf_pixels surface)) ->
  let first := fst (prepareTile wave1 blurTerm1 stackWord1 g1 surface
                      tileWidth tileHeight 20 2 false) in
  let second := fst (prepareTile wave2 blurTerm2 stackWord2 g2 first
                       tileWidth tileHeight 20 2 false) in
  zget (surf_pixels second) (pixelIndex (surf_w surface) tileWidth tileHeight 20 2 x y)
  = zget (surf_pixels first) (pixelIndex (surf_w surface) tileWidth tileHeight 20 2 x y).
Proof.
  intros He1 He2 Hw Hh Hx Hy Hsw Hj first second.
  destruct (prepareTile_surface_shape wave1 blurTerm1 stackWord1 g1 surface
              tileWidth tileHeight 20 2 false) as [Hsw1 Hlen1].
  fold first in Hsw1, Hlen1.
  subst second. rewrite <- Hsw1 at 1.
  rewrite prepareTile_floor_pixel; try assumption; try lia.
  - subst first. rewrite prepareTile_floor_pixel by assumption. reflexivity.
  - rewrite Hsw1, Hlen1. exact Hj.
Qed.

(** A state that differs from [blankAtlas] in everything a floor render
    could look at by mistake. *)
Definition otherAtlas : Tiles :=
  mkTiles (fun i => if (20 * TILE_HEIGHT * PNG_WIDTH <=? i)
                       && (i <? 21 * TILE_HEIGHT * PNG_WIDTH)
                    then 0xff000000 else 0xffffffff)
          (fun _ _ => 7) (replicate 384 (replicate 384 3))
          (fun row column => (row =? 20) && (column =? 2)) 9 5 4.

Lemma floorDust_deterministic_witness :
  zget (surf_pixels
          (fst (prepareTile (fun _ _ _ _ _ _ => 1) (fun _ => 1%Q) 5 otherAtlas
                  (fst (prepareTile (fun _ _ _ _ _ _ => 0) (fun _ => 0%Q) 0 blankAtlas
                          smallSurface 3 3 20 2 false))
                  3 3 20 2 false)))
       (pixelIndex 48 3 3 20 2 0 0)
  = zget (surf_pixels
            (fst (prepareTile (fun _ _ _ _ _ _ => 0) (fun _ => 0%Q) 0 blankAtlas
                    smallSurface 3 3 20 2 false)))
         (pixelIndex 48 3 3 20 2 0 0).
Proof.
  apply (floorDust_deterministic (fun _ _ _ _ _ _ => 0) (fun _ => 0%Q) 0
           (fun _ _ _ _ _ _ => 1) (fun _ => 1%Q) 5
           blankAtlas otherAtlas smallSurface 3 3 0 0);
    by_compute.
Defined.

(** ** Padding *)

(** Line [y] of the tile holds a pixel that is not transparent. *)
Definition lineHasInk (png : Z -> Z) (row column y : Z) : Prop :=
  exists x, 0 <= x < TILE_WIDTH /\ tilePixel png row column x y <> 0.

Lemma inkAt_spec (png : Z -> Z) (row column padding : Z) :
  inkAt png row column padding = true <->
  lineHasInk png row column padding
  \/ lineHasInk png row column (TILE_HEIGHT - padding - 1).
Proof.
  unfold inkAt, lineHasInk. rewrite existsb_exists. split.
  - intros (x & Hx & Hink). apply in_range in Hx.
    apply orb_true_iff in Hink as [H|H]; apply negb_true_iff, Z.eqb_neq in H;
      [left|right]; exists x; split; assumption.
  - intros [(x & Hx & H)|(x & Hx & H)]; exists x;
      (split; [apply in_range; exact Hx|]); apply orb_true_iff; [left|right];
      apply negb_true_iff, Z.eqb_neq; exact H.
Qed.

Lemma getPadding_loop_spec (png : Z -> Z) (row column : Z) (n : nat) (start : Z) :
  let p := getPadding_loop png row column n start in
  start <= p <= start + Z.of_nat n
  /\ (forall q, start <= q < p -> inkAt png row column q = false)
  /\ (p < start + Z.of_nat n -> inkAt png row column p = true).
Proof.
  revert start. induction n as [|n IH]; intros start; simpl.
  - repeat split; intros; lia.
  - destruct (inkAt png row column start) eqn:Hink.
    + repeat split; intros; first [lia | exact Hink].
    + destruct (IH (start + 1)) as (Hr & Hbefore & Hat).
      repeat split; try lia.
      * intros q Hq. destruct (Z.eq_dec q start) as [->|Hne]; [exact Hink|].
        apply Hbefore. lia.
      * intros Hlt. apply Hat. lia.
Qed.

(** C9. [getPadding] scans the top and the bottom line in lock-step: its
    result [p] lies in [0, TILE_HEIGHT / 4] = [0, 58]; no line [q] or
    [TILE_HEIGHT - q - 1] with [q < p] holds a non-transparent pixel; and
    when [p] is below the cap, line [p] or line [TILE_HEIGHT - p - 1] holds
    one, so [p] is the smallest such offset; when no offset below the cap
    qualifies the result is the cap itself. *)
Theorem getPadding_smallest_inked_offset (png : Z -> Z) (row column : Z) :
  let p := getPadding png row column in
  0 <= p <= TILE_HEIGHT / 4
  /\ TILE_HEIGHT / 4 = 58
  /\ (forall q, 0 <= q < p ->
        ~ lineHasInk png row column q
        /\ ~ lineHasInk png row column (TILE_HEIGHT - q - 1))
  /\ (p < TILE_HEIGHT / 4 ->
        lineHasInk png row column p
        \/ lineHasInk png row column (TILE_HEIGHT - p - 1))
  /\ ((forall q, 0 <= q < TILE_HEIGHT / 4 ->
         ~ lineHasInk png row column q
         /\ ~ lineHasInk png row column (TILE_HEIGHT - q - 1)) ->
      p = TILE_HEIGHT / 4).
Proof.
  intros p. subst p. unfold getPadding.
  destruct (getPadding_loop_spec png row column (Z.to_nat (TILE_HEIGHT / 4)) 0)
    as (Hr & Hbefore & Hat).
  set (p := getPadding_loop png row column (Z.to_nat (TILE_HEIGHT / 4)) 0) in *.
  change (TILE_HEIGHT / 4) with 58 in *.
  change (Z.of_nat (Z.to_nat 58)) with 58 in *.
  split; [lia|]. split; [reflexivity|]. split; [|split].
  - intros q Hq. specialize (Hbefore q Hq).
    split; intros Hink; apply not_true_iff_false in Hbefore; apply Hbefore;
      apply inkAt_spec; [left|right]; exact Hink.
  - intros Hlt. apply inkAt_spec, Hat. lia.
  - intros Hnone. destruct (Z.eq_dec p 58) as [Heq|Hne]; [exact Heq|].
    exfalso. assert (Hlt : p < 0 + 58) by lia.
    apply Hat, inkAt_spec in Hlt.
    destruct (Hnone p ltac:(lia)) as [H1 H2]. tauto.
Qed.

(** ** Texture selection *)

(** The grid division hands out cells of the base size or one pixel more. *)
Lemma cellWidth_base (COLS outputWidth x : Z) :
  0 < COLS -> 0 <= outputWidth -> 0 <= x ->
  cellWidth COLS outputWidth x = outputWidth ÷ COLS
  \/ cellWidth COLS outputWidth x = outputWidth ÷ COLS + 1.
Proof.
  intros Hc Hw Hx. unfold cellWidth.
  rewrite !Z.quot_div_nonneg by nia.
  pose proof (Z.div_mod ((x + 1) * outputWidth) COLS ltac:(lia)) as H1.
  pose proof (Z.div_mod (x * outputWidth) COLS ltac:(lia)) as H2.
  pose proof (Z.div_mod outputWidth COLS ltac:(lia)) as H3.
  pose proof (Z.mod_pos_bound ((x + 1) * outputWidth) COLS Hc).
  pose proof (Z.mod_pos_bound (x * outputWidth) COLS Hc).
  pose proof (Z.mod_pos_bound outputWidth COLS Hc).
  nia.
Qed.

Lemma variant_size_unique (g : Tiles) (i j : Z) :
  0 <= i < 4 -> 0 <= j < 4 ->
  variantTileWidth g i = variantTileWidth g j ->
  variantTileHeight g i = variantTileHeight g j -> i = j.
Proof.
  unfold variantTileWidth, variantTileHeight. intros Hi Hj.
  assert (Hi' : i = 0 \/ i = 1 \/ i = 2 \/ i = 3) by lia.
  assert (Hj' : j = 0 \/ j = 1 \/ j = 2 \/ j = 3) by lia.
  destruct Hi' as [-> | [-> | [-> | ->]]]; destruct Hj' as [-> | [-> | [-> | ->]]];
    simpl; lia.
Qed.

(** C2 (amended). When the four variants are in use ([numTextures] is 4),
    for a destination cell whose width and height each equal the base tile
    dimension or that dimension plus one, the selection picks one of the
    four variants, the tile size of that variant equals the destination
    width and height, the source rectangle has that size too, and no other
    variant has that tile size. *)
Theorem selectTexture_exact (g : Tiles) (tileWidth tileHeight : Z) :
  numTextures g = 4 ->
  tileWidth = baseTileWidth g \/ tileWidth = baseTileWidth g + 1 ->
  tileHeight = baseTileHeight g \/ tileHeight = baseTileHeight g + 1 ->
  let '(i, w, h) := selectTexture g tileWidth tileHeight in
  0 <= i < 4
  /\ i = getTexture g tileWidth tileHeight
  /\ variantTileWidth g i = tileWidth /\ variantTileHeight g i = tileHeight
  /\ w = tileWidth /\ h = tileHeight
  /\ (forall j, 0 <= j < 4 -> variantTileWidth g j = tileWidth ->
                variantTileHeight g j = tileHeight -> j = i).
Proof.
  intros Hn Hw Hh. unfold selectTexture. rewrite Hn. simpl.
  assert (Hi : 0 <= getTexture g tileWidth tileHeight < 4
               /\ variantTileWidth g (getTexture g tileWidth tileHeight) = tileWidth
               /\ variantTileHeight g (getTexture g tileWidth tileHeight) = tileHeight).
  { unfold getTexture, variantTileWidth, variantTileHeight.
    destruct Hw as [-> | ->]; destruct Hh as [-> | ->];
      repeat match goal with
             | |- context [?a >? ?b] => destruct (Z.gtb_spec a b); try lia
             end; simpl; lia. }
  destruct Hi as (Hi & Hvw & Hvh).
  repeat split; try lia; try assumption.
  intros j Hj Hjw Hjh. apply (variant_size_unique g); congruence || assumption.
Qed.

Lemma selectTexture_exact_witness :
  let g := set_numTextures (set_base blankAtlas 9 17) 4 in
  selectTexture g 10 17 = (1, 10, 17)
  /\ variantTileWidth g 1 = 10 /\ variantTileHeight g 1 = 17.
Proof.
  intros g.
  pose proof (selectTexture_exact g 10 17 eq_refl
                (or_intror eq_refl) (or_introl eq_refl)) as H.
  destruct (selectTexture g 10 17) as [[i w] h].
  destruct H as (_ & Hi & Hvw & Hvh & Hw & Hh & _).
  subst i w h. repeat split; assumption.
Defined.

(** C2, as stated, fails in the single-texture mode, with the 100 x 34
    grid of Brogue.  On a 6000 x 7889 output [loadTiles] keeps one texture
    of 60 x 232 tiles; the cell of the last screen row is 60 x 233, the base
    width and the base height plus one, and it is drawn from that texture,
    whose tiles are 232 high.  On a 2160 x 3840 output the one texture has
    44 x 232 tiles and the first cell is 21 x 112: the grid division does
    not even yield the base size or one more. *)
Lemma selectTexture_single_texture :
  let g := loadTiles 100 34 blankAtlas 6000 7889 in
  let tw := cellWidth 100 6000 0 in
  let th := cellHeight 34 7889 33 in
  let g' := loadTiles 100 34 blankAtlas 2160 3840 in
  (numTextures g = 1 /\ baseTileWidth g = 60 /\ baseTileHeight g = 232
   /\ tw = baseTileWidth g /\ th = baseTileHeight g + 1
   /\ selectTexture g tw th = (0, 60, 232)
   /\ variantTileHeight g 0 <> th)
  /\ (numTextures g' = 1 /\ baseTileWidth g' = 44 /\ baseTileHeight g' = 232
      /\ cellWidth 100 2160 0 = 21 /\ cellHeight 34 3840 0 = 112
      /\ selectTexture g' 21 112 = (0, 44, 232)).
Proof. vm_compute. repeat split; discriminate. Qed.

(** ** The cache file *)

Lemma toInt8_toByte (v : Z) : int8 v -> toInt8 (toByte v) = v.
Proof.
  unfold int8, toInt8, toByte. intros Hv.
  destruct (Z_lt_dec v 0) as [Hneg|Hpos].
  - replace (v mod 256) with (v + 256)
      by (apply Z.mod_unique with (q := -1); lia).
    destruct (Z.ltb_spec (v + 256) 128); lia.
  - rewrite Z.mod_small by lia. destruct (Z.ltb_spec v 128); lia.
Qed.

Lemma map_toInt8_toByte (l : list Z) :
  Forall int8 l -> map toInt8 (map toByte l) = l.
Proof.
  induction 1 as [|v l Hv _ IH]; simpl; [reflexivity|].
  rewrite toInt8_toByte by exact Hv. f_equal. exact IH.
Qed.

Lemma chunk_concat (n : nat) (t : list (list Z)) :
  Forall (fun block => length block = n) t ->
  chunk n (length t) (concat t) = t.
Proof.
  induction 1 as [|block t Hb _ IH]; simpl; [reflexivity|].
  replace (take n (block ++ concat t)) with block
    by (rewrite <- Hb; symmetry; apply take_app_length).
  replace (drop n (block ++ concat t)) with (concat t)
    by (rewrite <- Hb; symmetry; apply drop_app_length).
  f_equal. exact IH.
Qed.

Lemma Forall_int8_concat (t : list (list Z)) :
  Forall (fun block => length block = BLOCK_SIZE /\ Forall int8 block) t ->
  Forall int8 (concat t).
Proof.
  induction 1 as [|block t [_ Hb] _ IH]; simpl; [constructor|].
  apply Forall_app. split; assumption.
Qed.

Lemma length_concat_blocks (n : nat) (t : list (list Z)) :
  Forall (fun block => length block = n) t ->
  length (concat t) = (length t * n)%nat.
Proof.
  induction 1 as [|block t Hb _ IH]; simpl; [reflexivity|].
  rewrite length_app, IH, Hb. reflexivity.
Qed.

Lemma shiftTable_blocks (t : list (list Z)) :
  shiftTable t -> Forall (fun block => length block = BLOCK_SIZE) t.
Proof. intros [_ H]. eapply Forall_impl; [exact H|]. intros b [Hb _]. exact Hb. Qed.

(** A file as long as the table replaces the whole table. *)
Lemma freadShifts_full (t0 : list (list Z)) (file : list Z) :
  length file = length (concat t0) ->
  freadShifts t0 file = chunk BLOCK_SIZE (length t0) (map toInt8 file).
Proof.
  intros Hlen. unfold freadShifts.
  rewrite <- Hlen, firstn_all, Hlen, skipn_all, app_nil_r. reflexivity.
Qed.

Lemma length_fwriteShifts (t : list (list Z)) :
  shiftTable t -> length (fwriteShifts t) = (TILE_COUNT * BLOCK_SIZE)%nat.
Proof.
  intros Ht. unfold fwriteShifts.
  rewrite length_map, (length_concat_blocks BLOCK_SIZE t (shiftTable_blocks t Ht)).
  destruct Ht as [-> _]. reflexivity.
Qed.

(** C6. Whatever shift table the program holds, writing it wholesale to the
    cache file and reading the file back wholesale, into a table of any
    content, gives the table that was written, shift for shift. *)
Theorem shift_cache_roundtrip (t t0 : list (list Z)) :
  shiftTable t -> shiftTable t0 ->
  freadShifts t0 (fwriteShifts t) = t.
Proof.
  intros Ht Ht0.
  pose proof (shiftTable_blocks t Ht) as Hb.
  pose proof (shiftTable_blocks t0 Ht0) as Hb0.
  rewrite freadShifts_full.
  - unfold fwriteShifts.
    rewrite map_toInt8_toByte by (apply Forall_int8_concat; apply Ht).
    replace (length t0) with (length t)
      by (destruct Ht as [-> _], Ht0 as [-> _]; reflexivity).
    apply chunk_concat, Hb.
  - rewrite (length_fwriteShifts t Ht), (length_concat_blocks BLOCK_SIZE t0 Hb0).
    destruct Ht0 as [-> _]. reflexivity.
Qed.

(** The table after a first start without a cache file is the table found by
    the next start, which reads the file. *)
Lemma loadShifts_second_start (optimize : Tiles -> Tiles) (g g2 : Tiles) :
  shiftTable (tileShifts (optimize g)) -> shiftTable (tileShifts g2) ->
  let '(g1, file) := loadShifts optimize g None in
  tileShifts (fst (loadShifts optimize g2 file)) = tileShifts g1.
Proof.
  intros H1 H2. cbn [loadShifts fst set_tileShifts tileShifts].
  rewrite freadShifts_full.
  - unfold fwriteShifts.
    rewrite map_toInt8_toByte by (apply Forall_int8_concat; apply H1).
    replace (length (tileShifts g2)) with (length (tileShifts (optimize g)))
      by (destruct H1 as [-> _], H2 as [-> _]; reflexivity).
    apply chunk_concat, shiftTable_blocks, H1.
  - rewrite (length_fwriteShifts _ H1),
      (length_concat_blocks BLOCK_SIZE _ (shiftTable_blocks _ H2)).
    destruct H2 as [-> _]. reflexivity.
Qed.

Definition sampleTable : list (list Z) :=
  replicate 384 (map (fun i => Z.of_nat i mod 21 - 10) (seq 0 384)).

Lemma sampleTable_ok : shiftTable sampleTable.
Proof.
  split; [reflexivity|]. apply Forall_forall. intros block Hin.
  apply elem_of_replicate_inv in Hin. subst block.
  split; [reflexivity|]. apply Forall_forall. intros v Hv.
  apply (proj1 (list_elem_of_In _ _)), in_map_iff in Hv as (i & <- & _).
  unfold int8. pose proof (Z.mod_pos_bound (Z.of_nat i) 21 ltac:(lia)). lia.
Qed.

Lemma zeroTable_ok : shiftTable (replicate 384 (replicate 384 0)).
Proof.
  split; [reflexivity|]. apply Forall_forall. intros block Hin.
  apply elem_of_replicate_inv in Hin. subst block.
  split; [reflexivity|]. apply Forall_forall. intros v Hv.
  apply elem_of_replicate_inv in Hv. subst v.
  unfold int8. lia.
Qed.

Lemma shift_cache_roundtrip_witness :
  freadShifts (replicate 384 (replicate 384 0)) (fwriteShifts sampleTable)
  = sampleTable.
Proof.
  apply (shift_cache_roundtrip sampleTable (replicate 384 (replicate 384 0))
           sampleTable_ok zeroTable_ok).
Defined.

(** ** The vertical map of text cells *)

Lemma Qmax_integers (a b : Z) : Qmax (iq a) (iq b) == iq (Z.max a b).
Proof.
  unfold iq.
  destruct (Q.max_spec (inject_Z a) (inject_Z b)) as [[Hlt ->]|[Hle ->]].
  - rewrite <- Zlt_Qlt in Hlt. rewrite Z.max_r by lia. reflexivity.
  - rewrite <- Zle_Qle in Hle. rewrite Z.max_l by lia. reflexivity.
Qed.

Lemma Qmax_comp (a a' b b' : Q) : a == a' -> b == b' -> Qmax a b == Qmax a' b'.
Proof.
  intros Ea Eb.
  destruct (Q.max_spec a b) as [[H ->]|[H ->]], (Q.max_spec a' b') as [[H' ->]|[H' ->]];
    try assumption; rewrite Ea, Eb in H; lra.
Qed.

(** The values of type [int]. *)
Definition int (z : Z) : Prop := - 2 ^ 31 <= z < 2 ^ 31.

(** The x-height stop and the baseline stop of a text cell, in pixels, as
    the alignment computes them. *)
Definition xHeightRow (fitHeight glyphHeight : Z) : Z :=
  roundQ (dadd (iq ((fitHeight - glyphHeight) ÷ 2))
               (ddiv (dmul (iq glyphHeight)
                           (iq (TILE_HEIGHT - TEXT_BASELINE - TEXT_X_HEIGHT)))
                     (iq TILE_HEIGHT))).

Definition baselineRow (fitHeight glyphHeight : Z) : Z :=
  let m0 := iq ((fitHeight - glyphHeight) ÷ 2) in
  let m2 := dadd m0 (ddiv (dmul (iq glyphHeight)
                                (iq (TILE_HEIGHT - TEXT_BASELINE - TEXT_X_HEIGHT)))
                          (iq TILE_HEIGHT)) in
  let m3 := dadd m0 (ddiv (dmul (iq glyphHeight) (iq (TILE_HEIGHT - TEXT_BASELINE)))
                          (iq TILE_HEIGHT)) in
  Z.max (roundQ (dadd (iq (roundQ m2)) 1))
        (roundQ (dadd m3 (dsub (iq (roundQ m2)) m2))).

Lemma vertMapsAligned_text (g : Tiles) (row column fitHeight glyphHeight : Z) :
  is_t (TileProcessing row column) = true ->
  let a := vertMapsAligned g row column fitHeight glyphHeight in
  map0 a = iq ((fitHeight - glyphHeight) ÷ 2)
  /\ map2 a = iq (xHeightRow fitHeight glyphHeight)
  /\ map3 a == iq (baselineRow fitHeight glyphHeight)
  /\ map1 a = dadd (map0 a) (ddiv (dsub (map2 a) (map0 a)) 3).
Proof.
  intros Ht. unfold vertMapsAligned, vertStops. rewrite Ht.
  cbn [stop0 stop1 stop2 stop3 stop4 map0 map1 map2 map3 map4].
  split; [reflexivity|]. split; [reflexivity|]. split; [|reflexivity].
  set (x := xHeightRow fitHeight glyphHeight).
  match goal with
  | |- Qmax _ (iq (roundQ ?Y)) == _ =>
      change (Qmax (dadd (iq x) 1) (iq (roundQ Y))
              == iq (Z.max (roundQ (dadd (iq x) 1)) (roundQ Y)))
  end.
  rewrite <- Qmax_integers. apply Qmax_comp; [|reflexivity].
  unfold dadd.
  assert (E : (iq x + 1 == iq (x + 1))%Q) by (rewrite iq_plus; reflexivity).
  rewrite E. apply rnd_iq_round.
Qed.

(** The rows of the text landmarks are doubles. *)
Lemma dbl_xHeightRow (fitHeight glyphHeight : Z) : dbl (iq (xHeightRow fitHeight glyphHeight)).
Proof. unfold xHeightRow. apply dbl_round, dbl_rnd. Qed.

Lemma dbl_baselineRow (fitHeight glyphHeight : Z) :
  dbl (iq (baselineRow fitHeight glyphHeight)).
Proof.
  unfold baselineRow. cbv zeta.
  match goal with
  | |- dbl (iq (Z.max ?a ?b)) =>
      destruct (Z.max_spec a b) as [[_ ->]|[_ ->]]
  end; apply dbl_round, dbl_rnd.
Qed.

(** A shift of zero leaves a stop where it is. *)
Lemma dadd_zero_shift (v : Q) : dbl v -> (dadd v (dmul (iq 0) d0_1) == v)%Q.
Proof.
  intros Hv. unfold dadd, dmul.
  rewrite (rnd_zero (iq 0 * d0_1)) by (change (iq 0) with 0%Q; ring).
  assert (E : (v + 0 == v)%Q) by ring. rewrite E. exact Hv.
Qed.

(** Sums, differences and quotients of bounded integers. *)
Lemma quotient_bounds (a d lo hi : Z) :
  0 < d -> lo * d <= a <= hi * d ->
  (iq lo <= iq a / iq d)%Q /\ (iq a / iq d <= iq hi)%Q.
Proof.
  intros Hd [L U].
  assert (Pd : (0 < iq d)%Q) by (change 0%Q with (iq 0); apply iq_lt, Hd).
  split.
  - apply Qle_shift_div_l; [exact Pd|]. rewrite <- iq_mult. apply iq_le, L.
  - apply Qle_shift_div_r; [exact Pd|]. rewrite <- iq_mult. apply iq_le, U.
Qed.

Lemma quot2_int (a b : Z) : int a -> int b -> - 2 ^ 32 <= (a - b) ÷ 2 <= 2 ^ 32.
Proof. unfold int. intros Ha Hb. lia_div. Qed.

Lemma xHeightRow_bound (fitHeight glyphHeight : Z) :
  int fitHeight -> int glyphHeight ->
  - 2 ^ 34 <= xHeightRow fitHeight glyphHeight <= 2 ^ 34.
Proof.
  intros Hf Hg. unfold xHeightRow.
  pose proof (quot2_int fitHeight glyphHeight Hf Hg) as Hz.
  set (z0 := (fitHeight - glyphHeight) ÷ 2) in *.
  change (TILE_HEIGHT - TEXT_BASELINE - TEXT_X_HEIGHT) with 86.
  change TILE_HEIGHT with 232.
  assert (Hq : (- iq (2 ^ 31) <= ddiv (dmul (iq glyphHeight) (iq 86)) (iq 232))%Q
               /\ (ddiv (dmul (iq glyphHeight) (iq 86)) (iq 232) <= iq (2 ^ 31))%Q).
  { unfold ddiv, dmul. rewrite <- iq_mult.
    assert (Hp : dbl (iq (glyphHeight * 86))) by (apply dbl_iq; unfold int in Hg; lia).
    unfold dbl in Hp. rewrite Hp.
    assert (Hb : (iq (- 2 ^ 31) <= iq (glyphHeight * 86) / iq 232)%Q
                 /\ (iq (glyphHeight * 86) / iq 232 <= iq (2 ^ 31))%Q)
      by (apply quotient_bounds; unfold int in Hg; lia).
    change (iq (- 2 ^ 31)) with (- iq (2 ^ 31))%Q in Hb.
    destruct Hb as [L U]. split.
    - apply rnd_ge; [apply dbl_opp, dbl_iq; lia|exact L].
    - apply rnd_le; [apply dbl_iq; lia|exact U]. }
  destruct Hq as [Lq Uq].
  set (q := ddiv (dmul (iq glyphHeight) (iq 86)) (iq 232)) in *.
  assert (Hz1 : (iq (- 2 ^ 32) <= iq z0)%Q) by (apply iq_le; lia).
  assert (Hz2 : (iq z0 <= iq (2 ^ 32))%Q) by (apply iq_le; lia).
  change (iq (- 2 ^ 32)) with (- (4294967296))%Q in Hz1.
  change (iq (2 ^ 32)) with 4294967296%Q in Hz2.
  change (iq (2 ^ 31)) with 2147483648%Q in Lq, Uq.
  split.
  - apply roundQ_ge. unfold dadd. apply rnd_ge; [apply dbl_iq; lia|].
    change (iq (- 2 ^ 34)) with (- (17179869184))%Q. lra.
  - apply roundQ_le. unfold dadd. apply rnd_le; [apply dbl_iq; lia|].
    change (iq (2 ^ 34)) with 17179869184%Q. lra.
Qed.

(** The difference of two integers that are doubles is exact when it is a
    double. *)
Lemma dsub_iq (a b : Z) : Z.abs (a - b) <= 2 ^ 53 -> (dsub (iq a) (iq b) == iq (a - b))%Q.
Proof.
  intros H. unfold dsub.
  assert (E : (iq a - iq b == iq (a - b))%Q).
  { replace (a - b) with (a + - b) by lia. rewrite iq_plus.
    unfold iq. rewrite inject_Z_opp. ring. }
  rewrite E. apply dbl_iq, H.
Qed.

Lemma dadd_iq (a b : Z) : Z.abs (a + b) <= 2 ^ 53 -> (dadd (iq a) (iq b) == iq (a + b))%Q.
Proof.
  intros H. unfold dadd. rewrite <- iq_plus. apply dbl_iq, H.
Qed.

Lemma dmul_iq (a b : Z) : Z.abs (a * b) <= 2 ^ 53 -> (dmul (iq a) (iq b) == iq (a * b))%Q.
Proof.
  intros H. unfold dmul. rewrite <- iq_mult. apply dbl_iq, H.
Qed.

(** The third of the way from [z0] to [x], computed in doubles, is within
    2^-16 of the exact third. *)
Lemma third_accuracy (z0 x : Z) :
  - 2 ^ 32 <= z0 <= 2 ^ 32 -> - 2 ^ 34 <= x <= 2 ^ 34 ->
  (Qabs (dadd (iq z0) (ddiv (dsub (iq x) (iq z0)) 3) - (iq z0 + (iq x - iq z0) / 3))
   <= 1 # 65536)%Q.
Proof.
  intros Hz Hx. rewrite dsub_iq by lia.
  assert (E : (iq x - iq z0 == iq (x - z0))%Q).
  { replace (x - z0) with (x + - z0) by lia. rewrite iq_plus.
    unfold iq. rewrite inject_Z_opp. ring. }
  rewrite E. clear E.
  assert (Hv : (iq (- 2 ^ 35) <= iq (x - z0))%Q /\ (iq (x - z0) <= iq (2 ^ 35))%Q)
    by (split; apply iq_le; lia).
  assert (Hm : (iq (- 2 ^ 32) <= iq z0)%Q /\ (iq z0 <= iq (2 ^ 32))%Q)
    by (split; apply iq_le; lia).
  change (iq (- 2 ^ 35)) with (- (34359738368))%Q in Hv.
  change (iq (2 ^ 35)) with 34359738368%Q in Hv.
  change (iq (- 2 ^ 32)) with (- (4294967296))%Q in Hm.
  change (iq (2 ^ 32)) with 4294967296%Q in Hm.
  set (v := iq (x - z0)) in *. set (m0 := iq z0) in *.
  destruct Hv as [Lv Uv], Hm as [Lm Um].
  pose proof eps_val as He.
  unfold dadd, ddiv. clearbody v m0.
  assert (E3 : (v / 3 == v * (1 # 3))%Q) by field.
  assert (E3' : ((m0 + v) / 3 == (m0 + v) * (1 # 3))%Q) by field.
  rewrite E3.
  destruct (rnd_abs 34359738368 (v * (1 # 3))) as [L1 U1]; [lra|lra|].
  set (t := rnd (v * (1 # 3))) in *.
  destruct (rnd_abs 68719476736 (m0 + t)) as [L2 U2]; [lra|lra|].
  apply Qabs_Qle_condition. split; lra.
Qed.

(** C8 (amended). For a Text-mode ('t') cell and every destination size, the
    vertical map, before the shifts are added, has its x-height stop and its
    baseline stop on integer rows, the baseline at least one row below the
    x-height, and its top-of-ascender stop one third of the way from the top
    stop to the x-height stop: the third as the doubles give it, which is
    within 2^-16 of the exact third.  The map used for downsampling adds the
    cell's three vertical shifts, in tenths of a pixel, to these stops: the
    x-height and baseline stops stay on integer rows when their two shifts
    are zero, and the top-of-ascender stop lies one third of the way plus
    its shift. *)
Theorem text_stops_aligned (g : Tiles) (row column fitHeight glyphHeight : Z) :
  is_t (TileProcessing row column) = true ->
  int fitHeight -> int glyphHeight ->
  let a := vertMapsAligned g row column fitHeight glyphHeight in
  let m := vertMaps g row column fitHeight glyphHeight in
  let sh := shiftsAt g row column 1 glyphHeight in
  let x := xHeightRow fitHeight glyphHeight in
  let b := baselineRow fitHeight glyphHeight in
  x + 1 <= b
  /\ map2 a == iq x /\ map3 a == iq b
  /\ map1 a == dadd (map0 a) (ddiv (dsub (iq x) (map0 a)) 3)
  /\ (Qabs (map1 a - (map0 a + (iq x - map0 a) / 3)) <= 1 # 65536)%Q
  /\ map0 m == map0 a
  /\ map2 m == dadd (iq x) (dmul (iq (sh 2)) d0_1)
  /\ map3 m == dadd (iq b) (dmul (iq (sh 1)) d0_1)
  /\ map1 m == dadd (map1 a) (dmul (iq (sh 0)) d0_1)
  /\ (sh 2 = 0 -> map2 m == iq x)
  /\ (sh 1 = 0 -> map3 m == iq b)
  /\ (sh 0 = 0 -> sh 2 = 0 ->
      map1 m == dadd (map0 m) (ddiv (dsub (map2 m) (map0 m)) 3)).
Proof.
  intros Ht Hf Hg a m sh x b.
  destruct (vertMapsAligned_text g row column fitHeight glyphHeight Ht)
    as (H0 & H2 & H3 & H1).
  fold a in H0, H2, H3, H1. fold x in H2. fold b in H3.
  pose proof (xHeightRow_bound fitHeight glyphHeight Hf Hg) as Hx. fold x in Hx.
  pose proof (quot2_int fitHeight glyphHeight Hf Hg) as Hz.
  assert (Hm0 : map0 m = map0 a) by reflexivity.
  assert (Hm2 : map2 m = dadd (map2 a) (dmul (iq (sh 2)) d0_1)) by reflexivity.
  assert (Hm3 : map3 m = dadd (map3 a) (dmul (iq (sh 1)) d0_1)) by reflexivity.
  assert (Hm1 : map1 m = dadd (map1 a) (dmul (iq (sh 0)) d0_1)) by reflexivity.
  assert (Hb : x + 1 <= b).
  { subst b. unfold baselineRow. cbv zeta. fold x.
    match goal with |- _ <= Z.max ?p _ => assert (Hp : p = x + 1) end.
    { change (roundQ (dadd (iq x) (iq 1)) = x + 1).
      rewrite dadd_iq by lia. apply roundQ_iq. }
    lia. }
  assert (H2' : map2 m == dadd (iq x) (dmul (iq (sh 2)) d0_1))
    by (rewrite Hm2, H2; reflexivity).
  assert (H3' : map3 m == dadd (iq b) (dmul (iq (sh 1)) d0_1))
    by (rewrite Hm3; unfold dadd; rewrite H3; reflexivity).
  split; [exact Hb|]. split; [rewrite H2; reflexivity|]. split; [exact H3|].
  split; [rewrite H1, H2; reflexivity|].
  split; [rewrite H1, H2, H0; apply third_accuracy; assumption|].
  split; [rewrite Hm0; reflexivity|].
  split; [exact H2'|]. split; [exact H3'|]. split; [rewrite Hm1; reflexivity|].
  split; [|split].
  - intros Hz2. rewrite H2', Hz2. apply dadd_zero_shift, dbl_xHeightRow.
  - intros Hz1. rewrite H3', Hz1. apply dadd_zero_shift, dbl_baselineRow.
  - intros Hz0 Hz2. rewrite Hm1, Hz0, Hm2, Hz2, Hm0.
    rewrite dadd_zero_shift by (rewrite H1; apply dbl_rnd).
    unfold ddiv, dsub.
    rewrite dadd_zero_shift by (rewrite H2; apply dbl_xHeightRow).
    rewrite H1. reflexivity.
Qed.

(** At destination height 20 the x-height stop is row 7 and the baseline
    stop row 16. *)
Lemma text_stops_aligned_witness :
  let m := vertMaps blankAtlas 2 1 20 20 in
  map2 m == 7 /\ map3 m == 16.
Proof.
  intros m.
  destruct (text_stops_aligned blankAtlas 2 1 20 20 eq_refl)
    as (_ & _ & _ & _ & _ & _ & _ & _ & _ & H2 & H3 & _);
    [unfold int; lia|unfold int; lia|].
  split; [apply (H2 eq_refl)|apply (H3 eq_refl)].
Defined.

(** C8, as stated, fails once the optimizer has moved the first vertical
    stop of a text cell: with the shifts (3, 0, 0) at height 20 the
    top-of-ascender stop is near 2.633, three tenths below the third of the
    way from the top stop 0 to the x-height stop 7. *)
Definition nudgedAtlas : Tiles :=
  set_tileShifts blankAtlas
    (setShift (tileShifts blankAtlas) 2 1 1 19 0 3).

Lemma text_ascender_not_one_third :
  let m := vertMaps nudgedAtlas 2 1 20 20 in
  let third := dadd (map0 m) (ddiv (dsub (map2 m) (map0 m)) 3) in
  is_t (TileProcessing 2 1) = true
  /\ map0 m == 0 /\ map2 m == 7
  /\ (2633 # 1000 < map1 m)%Q /\ (map1 m < 2634 # 1000)%Q
  /\ (2333 # 1000 < third)%Q /\ (third < 2334 # 1000)%Q
  /\ ~ map1 m == third.
Proof. vm_compute. repeat split; discriminate. Qed.

(** ** The shift optimizer: writes into the table *)

Lemma zset_zset_eq (l : list Z) (i a b : Z) : zset (zset l i a) i b = zset l i b.
Proof.
  unfold zset. destruct (i <? 0); [reflexivity|]. apply list_insert_insert_eq.
Qed.

Lemma zset_zset_ne (l : list Z) (i j a b : Z) :
  i <> j -> zset (zset l i a) j b = zset (zset l j b) i a.
Proof.
  intros Hne. unfold zset.
  destruct (Z.ltb_spec i 0), (Z.ltb_spec j 0); try reflexivity.
  apply list_insert_insert_ne. lia.
Qed.

Lemma zset_same (l : list Z) (i : Z) : zset l i (zget l i) = l.
Proof.
  unfold zset, zget. destruct (i <? 0); [reflexivity|].
  apply list_insert_id'. intros Hlt.
  destruct (lookup_lt_is_Some_2 l (Z.to_nat i) Hlt) as [v ->]. reflexivity.
Qed.

(** The cell exists in the table and its block has the size of the C type. *)
Definition cellOK (t : list (list Z)) (row column : Z) : Prop :=
  0 <= cellIndex row column < Z.of_nat (length t)
  /\ length (cellBlock t row column) = BLOCK_SIZE.

Definition slotOK (axis size : Z) : Prop := 0 <= axis < 2 /\ 0 <= size < MAX_TILE_SIZE.

Lemma slotIndex_bounds (axis size k : Z) :
  slotOK axis size -> 0 <= k < 3 ->
  0 <= slotIndex axis size k < Z.of_nat BLOCK_SIZE.
Proof.
  unfold slotOK, slotIndex, BLOCK_SIZE, MAX_TILE_SIZE. intros [Ha Hs] Hk.
  change (Z.of_nat (Z.to_nat (2 * 64 * 3))) with 384. nia.
Qed.

Lemma slotIndex_inj (axis size k k' : Z) :
  slotIndex axis size k = slotIndex axis size k' -> k = k'.
Proof. unfold slotIndex. lia. Qed.

Lemma cellBlock_insert (t : list (list Z)) (row column : Z) (block : list Z) :
  0 <= cellIndex row column < Z.of_nat (length t) ->
  cellBlock (<[Z.to_nat (cellIndex row column) := block]> t) row column = block.
Proof.
  intros Hc. unfold cellBlock. destruct (Z.ltb_spec (cellIndex row column) 0); [lia|].
  rewrite list_lookup_insert_eq by lia. reflexivity.
Qed.

Lemma cellBlock_insert_ne (t : list (list Z)) (row column : Z) (n : nat) (block : list Z) :
  0 <= cellIndex row column -> n <> Z.to_nat (cellIndex row column) ->
  cellBlock (<[n := block]> t) row column = cellBlock t row column.
Proof.
  intros Hc Hn. unfold cellBlock. destruct (Z.ltb_spec (cellIndex row column) 0); [lia|].
  rewrite list_lookup_insert_ne by lia. reflexivity.
Qed.

Lemma setShift_insert (t : list (list Z)) (row column axis size k v : Z) :
  0 <= cellIndex row column ->
  setShift t row column axis size k v
  = <[Z.to_nat (cellIndex row column) :=
        zset (cellBlock t row column) (slotIndex axis size k) v]> t.
Proof.
  intros Hc. unfold setShift. destruct (Z.ltb_spec (cellIndex row column) 0); [lia|].
  reflexivity.
Qed.

(** What [tryShift] does to the block of its tile. *)
Definition tryBlock (derive : bool) (axis size idx shift : Z) (block : list Z) : list Z :=
  let b := zset block (slotIndex axis size idx) shift in
  if derive
  then zset b (slotIndex axis size 2)
            ((zget b (slotIndex axis size 0) + zget b (slotIndex axis size 1)) ÷ 2)
  else b.

Lemma tryShift_table (derive : bool) (g : Tiles) (row column axis size idx shift : Z) :
  0 <= cellIndex row column < Z.of_nat (length (tileShifts g)) ->
  tileShifts (tryShift derive g row column axis size idx shift)
  = <[Z.to_nat (cellIndex row column) :=
        tryBlock derive axis size idx shift (cellBlock (tileShifts g) row column)]>
      (tileShifts g).
Proof.
  intros Hc. unfold tryShift, tryBlock, midOf, getShift. simpl.
  rewrite !setShift_insert by lia.
  destruct derive; [|reflexivity].
  rewrite cellBlock_insert by exact Hc.
  rewrite list_insert_insert_eq. reflexivity.
Qed.

Lemma length_tryBlock (derive : bool) (axis size idx shift : Z) (block : list Z) :
  length (tryBlock derive axis size idx shift block) = length block.
Proof.
  unfold tryBlock. destruct derive; rewrite ?length_zset; reflexivity.
Qed.

(** A later trial of the same parameter erases an earlier one. *)
Lemma tryBlock_tryBlock (derive : bool) (axis size idx v1 v2 : Z) (block : list Z) :
  length block = BLOCK_SIZE -> slotOK axis size ->
  (derive = true -> idx = 0 \/ idx = 1) -> 0 <= idx < 3 ->
  tryBlock derive axis size idx v2 (tryBlock derive axis size idx v1 block)
  = tryBlock derive axis size idx v2 block.
Proof.
  intros Hlen Hslot Hidx Hk. unfold tryBlock.
  destruct derive; [|apply zset_zset_eq].
  specialize (Hidx eq_refl).
  assert (Hne : slotIndex axis size idx <> slotIndex axis size 2).
  { intros H. apply slotIndex_inj in H. lia. }
  set (i := slotIndex axis size idx) in *.
  set (s0 := slotIndex axis size 0). set (s1 := slotIndex axis size 1).
  set (s2 := slotIndex axis size 2) in *.
  set (m1 := (zget (zset block i v1) s0 + zget (zset block i v1) s1) ÷ 2).
  assert (Hb : zset (zset (zset block i v1) s2 m1) i v2 = zset (zset block i v2) s2 m1).
  { rewrite (zset_zset_ne _ s2 i) by congruence. rewrite zset_zset_eq. reflexivity. }
  rewrite Hb.
  assert (Hs0 : s0 <> s2) by (intros H; apply slotIndex_inj in H; lia).
  assert (Hs1 : s1 <> s2) by (intros H; apply slotIndex_inj in H; lia).
  rewrite !(zget_zset_ne _ s2) by congruence.
  apply zset_zset_eq.
Qed.

(** Trying the value already in place, in a consistent triple, changes
    nothing. *)
Lemma tryBlock_same (derive : bool) (axis size idx : Z) (block : list Z) :
  (derive = true ->
   zget block (slotIndex axis size 2)
   = (zget block (slotIndex axis size 0) + zget block (slotIndex axis size 1)) ÷ 2) ->
  tryBlock derive axis size idx (zget block (slotIndex axis size idx)) block = block.
Proof.
  intros Hmid. unfold tryBlock. rewrite zset_same.
  destruct derive; [|reflexivity].
  rewrite <- (Hmid eq_refl). apply zset_same.
Qed.

Lemma tryShift_tryShift (derive : bool) (g : Tiles) (row column axis size idx v1 v2 : Z) :
  cellOK (tileShifts g) row column -> slotOK axis size ->
  (derive = true -> idx = 0 \/ idx = 1) -> 0 <= idx < 3 ->
  tryShift derive (tryShift derive g row column axis size idx v1)
           row column axis size idx v2
  = tryShift derive g row column axis size idx v2.
Proof.
  intros [Hc Hlen] Hslot Hidx Hk.
  assert (Ht : tileShifts (tryShift derive (tryShift derive g row column axis size idx v1)
                             row column axis size idx v2)
               = tileShifts (tryShift derive g row column axis size idx v2)).
  { rewrite (tryShift_table derive (tryShift derive g row column axis size idx v1)).
    - rewrite !tryShift_table by exact Hc.
      rewrite cellBlock_insert by exact Hc.
      rewrite list_insert_insert_eq, tryBlock_tryBlock by assumption. reflexivity.
    - rewrite tryShift_table by exact Hc. rewrite length_insert. exact Hc. }
  unfold tryShift in *. simpl in *. unfold set_tileShifts. simpl. f_equal. exact Ht.
Qed.

Lemma tryShift_cellOK (derive : bool) (g : Tiles) (row column axis size idx v : Z) :
  cellOK (tileShifts g) row column ->
  cellOK (tileShifts (tryShift derive g row column axis size idx v)) row column.
Proof.
  intros [Hc Hlen]. rewrite tryShift_table by exact Hc. split.
  - rewrite length_insert. exact Hc.
  - rewrite cellBlock_insert by exact Hc. rewrite length_tryBlock. exact Hlen.
Qed.

Lemma tryShift_same (derive : bool) (g : Tiles) (row column axis size idx : Z) :
  cellOK (tileShifts g) row column ->
  (derive = true ->
   getShift (tileShifts g) row column axis size 2
   = midOf (tileShifts g) row column axis size) ->
  tryShift derive g row column axis size idx
           (getShift (tileShifts g) row column axis size idx) = g.
Proof.
  intros [Hc Hlen] Hmid.
  assert (Ht : tileShifts (tryShift derive g row column axis size idx
                             (getShift (tileShifts g) row column axis size idx))
               = tileShifts g).
  { rewrite tryShift_table by exact Hc. unfold getShift.
    rewrite tryBlock_same by exact Hmid.
    apply list_insert_id. unfold cellBlock.
    destruct (Z.ltb_spec (cellIndex row column) 0); [lia|].
    destruct (lookup_lt_is_Some_2 (tileShifts g) (Z.to_nat (cellIndex row column))
                ltac:(lia)) as [b ->]. reflexivity. }
  destruct g. unfold tryShift, set_tileShifts in *. simpl in *. f_equal. exact Ht.
Qed.

Lemma getShift_tryShift (derive : bool) (g : Tiles) (row column axis size idx v : Z) :
  cellOK (tileShifts g) row column -> slotOK axis size -> 0 <= idx < 3 ->
  (derive = true -> idx = 0 \/ idx = 1) ->
  getShift (tileShifts (tryShift derive g row column axis size idx v))
           row column axis size idx = v.
Proof.
  intros [Hc Hlen] Hslot Hk Hidx. unfold getShift.
  rewrite tryShift_table, cellBlock_insert by exact Hc.
  pose proof (slotIndex_bounds axis size idx Hslot Hk) as Hb.
  unfold tryBlock. destruct derive.
  - rewrite zget_zset_ne.
    + apply zget_zset_eq. rewrite Hlen. exact Hb.
    + intros H. apply slotIndex_inj in H. specialize (Hidx eq_refl). lia.
  - apply zget_zset_eq. rewrite Hlen. exact Hb.
Qed.

(** ** The shift optimizer: each search picks the minimum of its window *)

Section Search.
Variable calibrate : Tiles -> Z -> Z -> Z -> Z -> Q.
Variables (derive : bool) (g0 : Tiles) (row column axis size idx : Z).
Hypothesis cell_ok : cellOK (tileShifts g0) row column.
Hypothesis slot_ok : slotOK axis size.
Hypothesis idx_ok : 0 <= idx < 3.
Hypothesis derive_ok : derive = true -> idx = 0 \/ idx = 1.

(** The blur measured with [shifts[idx]] set to [v]. *)
Definition blurAt (v : Z) : Q :=
  calibrate (tryShift derive g0 row column axis size idx v)
            (baseTileWidth g0) (baseTileHeight g0) row column.

Definition sameTrials (g : Tiles) : Prop :=
  forall v, tryShift derive g row column axis size idx v
            = tryShift derive g0 row column axis size idx v.

Lemma trial_step (g : Tiles) (bestResult : Q) (bestShift w : Z) :
  sameTrials g ->
  trial calibrate derive row column axis size idx (g, bestResult, bestShift) w
  = if negb (Qle_bool bestResult (blurAt w))
    then (tryShift derive g row column axis size idx w, blurAt w, w)
    else (tryShift derive g row column axis size idx w, bestResult, bestShift).
Proof.
  intros Hsame. unfold trial, blurAt. rewrite !(Hsame w). reflexivity.
Qed.

Lemma trial_fold (W : list Z) (g : Tiles) (bestResult : Q) (bestShift : Z) :
  sameTrials g ->
  exists g' bestResult' bestShift',
    fold_left (trial calibrate derive row column axis size idx) W
              (g, bestResult, bestShift) = (g', bestResult', bestShift')
    /\ sameTrials g'
    /\ (forall v, In v W -> bestResult' <= blurAt v)%Q
    /\ (bestResult' <= bestResult)%Q
    /\ (bestResult' = bestResult /\ bestShift' = bestShift
        \/ In bestShift' W /\ bestResult' = blurAt bestShift').
Proof.
  revert g bestResult bestShift.
  induction W as [|w W IH]; intros g bestResult bestShift Hsame.
  - exists g, bestResult, bestShift. repeat split; try assumption.
    + intros v [].
    + apply Qle_refl.
    + left. split; reflexivity.
  - assert (Hnext : sameTrials (tryShift derive g row column axis size idx w)).
    { intros v. rewrite (Hsame w). apply tryShift_tryShift; assumption. }
    cbn [fold_left]. rewrite trial_step by exact Hsame.
    destruct (Qle_bool bestResult (blurAt w)) eqn:Hcmp; cbn [negb].
    + apply Qle_bool_iff in Hcmp.
      destruct (IH _ bestResult bestShift Hnext)
        as (g' & br & bs & -> & Hs & Hmin & Hle & Hor).
      exists g', br, bs. repeat split; try assumption.
      * intros v [<-|Hv]; [apply (Qle_trans _ bestResult); assumption|apply Hmin, Hv].
      * destruct Hor as [Hkeep|[Hin Heq]]; [left; exact Hkeep|].
        right. split; [right; exact Hin|exact Heq].
    + assert (Hlt : (blurAt w < bestResult)%Q).
      { apply Qnot_le_lt. intros Hle. apply Qle_bool_iff in Hle. congruence. }
      destruct (IH _ (blurAt w) w Hnext)
        as (g' & br & bs & -> & Hs & Hmin & Hle & Hor).
      exists g', br, bs. repeat split; try assumption.
      * intros v [<-|Hv]; [exact Hle|apply Hmin, Hv].
      * apply (Qle_trans _ (blurAt w)); [exact Hle|apply Qlt_le_weak, Hlt].
      * right. destruct Hor as [[-> ->]|[Hin Heq]].
        -- split; [left; reflexivity|reflexivity].
        -- split; [right; exact Hin|exact Heq].
Qed.

Definition midShift : Z :=
  if idx =? 2 then midOf (tileShifts g0) row column axis size else 0.

Hypothesis bounded :
  forall v, midShift - 5 <= v <= midShift + 5 -> (blurAt v < bestResult0)%Q.

(** The search leaves in [shifts[idx]] a value of the window whose blur is
    the least of the window. *)
Lemma searchStep_minimum :
  exists best,
    searchStep calibrate derive g0 row column axis size idx
    = tryShift derive g0 row column axis size idx best
    /\ midShift - 5 <= best <= midShift + 5
    /\ forall v, midShift - 5 <= v <= midShift + 5 -> (blurAt best <= blurAt v)%Q.
Proof.
  unfold searchStep. fold midShift.
  destruct (trial_fold (range (midShift - 5) (midShift + 5 + 1)) g0 bestResult0 0)
    as (g' & br & bs & -> & Hs & Hmin & Hle & Hor); [intros v; reflexivity|].
  exists bs. rewrite (Hs bs).
  assert (Hfirst : (br <= blurAt (midShift - 5))%Q) by (apply Hmin, in_range; lia).
  destruct Hor as [[-> _]|[Hin ->]].
  - exfalso. apply (Qlt_not_le _ _ (bounded (midShift - 5) ltac:(lia))). exact Hfirst.
  - apply in_range in Hin. split; [reflexivity|]. split; [lia|].
    intros v Hv. apply Hmin, in_range. lia.
Qed.
End Search.

(** C3 (amended). In a coordinate-descent step of the Shift Optimizer,
    whose eleven candidate shifts fit the [int8_t] variable of its loop, the
    value left in the searched parameter lies in the window of these eleven
    shifts around the step's centre and has the least blur of that window.
    For the two edge parameters (0 and 1) the centre is 0, the window
    [-5, 5] holds the value that the previous step for that parameter left,
    and so the step does not increase the blur.  For the mid-stop parameter
    (2) the window is centred on the current (shifts[0] + shifts[1]) / 2 and
    the step guarantees the minimum over that window only. *)
Theorem searchStep_never_worse (calibrate : Tiles -> Z -> Z -> Z -> Z -> Q)
    (derive : bool) (g : Tiles) (row column axis size idx : Z) :
  cellOK (tileShifts g) row column -> slotOK axis size ->
  0 <= idx < 3 -> (derive = true -> idx = 0 \/ idx = 1) ->
  -128 <= midShift g row column axis size idx - 5 ->
  midShift g row column axis size idx + 5 <= 127 ->
  (forall v, midShift g row column axis size idx - 5 <= v
             <= midShift g row column axis size idx + 5 ->
             (blurAt calibrate derive g row column axis size idx v < bestResult0)%Q) ->
  let g' := searchStep calibrate derive g row column axis size idx in
  let blur s := calibrate s (baseTileWidth g) (baseTileHeight g) row column in
  let centre := midShift g row column axis size idx in
  centre - 5 <= getShift (tileShifts g') row column axis size idx <= centre + 5
  /\ (forall v, centre - 5 <= v <= centre + 5 ->
        (blur g' <= blur (tryShift derive g row column axis size idx v))%Q)
  /\ (idx <> 2 ->
      -5 <= getShift (tileShifts g) row column axis size idx <= 5 ->
      (derive = true ->
       getShift (tileShifts g) row column axis size 2
       = midOf (tileShifts g) row column axis size) ->
      (blur g' <= blur g)%Q).
Proof.
  intros Hcell Hslot Hidx Hderive _ _ Hbound g' blur centre.
  destruct (searchStep_minimum calibrate derive g row column axis size idx
              Hcell Hslot Hidx Hderive Hbound) as (best & Hg' & Hwin & Hmin).
  subst g'. rewrite Hg'. fold centre in Hwin, Hmin.
  split; [|split].
  - rewrite getShift_tryShift by assumption. exact Hwin.
  - intros v Hv. apply (Hmin v Hv).
  - intros Hne Hprev Hmid.
    assert (Hc : centre = 0).
    { subst centre. unfold midShift. destruct (Z.eqb_spec idx 2); [lia|reflexivity]. }
    pose proof (Hmin (getShift (tileShifts g) row column axis size idx)
                  ltac:(lia)) as Hle.
    unfold blurAt in Hle.
    rewrite (tryShift_same derive g row column axis size idx Hcell Hmid) in Hle.
    exact Hle.
Qed.

(** A blur landscape over the horizontal shifts of the first tile at width
    5: any positive numbers would do for the blur of a tile. *)
Definition landscape (g : Tiles) (tileWidth tileHeight row column : Z) : Q :=
  let s k := getShift (tileShifts g) 0 0 0 4 k in
  iq (Z.min 1000
        (100 + (if s 2 =? 10 then s 0 + s 1 - 50 else - (s 0 + s 1) - s 2))).

Lemma landscape_bounded g tw th row column :
  (landscape g tw th row column < bestResult0)%Q.
Proof.
  unfold landscape, bestResult0, iq.
  apply (Qle_lt_trans _ (inject_Z 1000)); [|reflexivity].
  rewrite <- Zle_Qle. apply Z.le_min_l.
Qed.

(** The state after [init] on an atlas that has ink everywhere, and the
    state in which the optimizer starts on the first tile at width 5. *)
Definition inkedAtlas : Tiles :=
  mkTiles (fun _ => 0xffffffff) (fun _ _ => 0)
          (replicate 384 (replicate 384 0)) (fun _ _ => false) (-1) (-1) 0.

Definition startState : Tiles := set_base inkedAtlas 5 MAX_TILE_SIZE.

Lemma startState_cellOK : cellOK (tileShifts startState) 0 0.
Proof. split; [by_compute|reflexivity]. Qed.

Lemma searchStep_never_worse_witness :
  (landscape (searchStep landscape false startState 0 0 0 4 0) 5 64 0 0
   <= landscape startState 5 64 0 0)%Q.
Proof.
  assert (Hslot : slotOK 0 4) by by_compute.
  assert (Hidx : 0 <= 0 < 3) by lia.
  assert (Hderive : false = true -> 0 = 0 \/ 0 = 1) by discriminate.
  assert (Hbound : forall v, midShift startState 0 0 0 4 0 - 5 <= v
                             <= midShift startState 0 0 0 4 0 + 5 ->
                     (blurAt landscape false startState 0 0 0 4 0 v < bestResult0)%Q)
    by (intros v _; apply landscape_bounded).
  destruct (searchStep_never_worse landscape false startState 0 0 0 4 0
              startState_cellOK Hslot Hidx Hderive ltac:(by_compute) ltac:(by_compute)
              Hbound) as (_ & _ & Hle).
  apply Hle; [discriminate|by_compute|discriminate].
Defined.

(** C3, as stated, fails for the mid-stop parameter.  On the landscape
    above, the first pass leaves the shifts (5, 5, 10) with blur 60; the
    second pass moves the edges to (-5, -5) with blur 40, then searches the
    mid stop in [-10, 0], which no longer holds the previous best 10, and
    leaves 0 with blur 110. *)
Definition afterEdges : Tiles :=
  let step g idx := searchStep landscape false g 0 0 0 4 idx in
  step (step (step (step (step startState 0) 1) 2) 0) 1.

Lemma searchStep_mid_stop_worse :
  let before := afterEdges in
  let after := searchStep landscape false before 0 0 0 4 2 in
  getShift (tileShifts before) 0 0 0 4 2 = 10
  /\ landscape before 5 64 0 0 == 40
  /\ getShift (tileShifts after) 0 0 0 4 2 = 0
  /\ landscape after 5 64 0 0 == 110
  /\ ~ (landscape after 5 64 0 0 <= landscape before 5 64 0 0)%Q.
Proof. vm_compute. repeat split. intros H. apply H. reflexivity. Qed.

(** ** The shift optimizer: which tiles it touches *)

Lemma cellIndex_inj (row column row' column' : Z) :
  0 <= column < TILE_COLS -> 0 <= column' < TILE_COLS ->
  cellIndex row column = cellIndex row' column' -> row = row' /\ column = column'.
Proof. unfold cellIndex, TILE_COLS. lia. Qed.


Section Frame.
Variable calibrate : Tiles -> Z -> Z -> Z -> Z -> Q.
Variables (row column : Z) (empty : Z -> Z -> bool) (block : list Z).
Hypothesis row_ok : 0 <= row < TILE_ROWS.
Hypothesis column_ok : 0 <= column < TILE_COLS.




Variables (row' column' : Z).
Hypothesis other : cellIndex row' column' <> cellIndex row column.






End Frame.



(** An atlas in which one Stretch tile (row 16, column 2) has ink, uniformly
    white, so that every calibration render of it has the same blur. *)
Definition stretchAtlas : Tiles :=
  mkTiles (fun i => if tilePixelOf 16 2 i then 0xffffffff else 0xff000000)
          (fun _ _ => 0) (replicate 384 (replicate 384 0))
          (fun row column => negb ((row =? 16) && (column =? 2))) (-1) (-1) 0.



(** ** The accumulator: counts and sums of squares *)

(** Most samples that a render can take: the pixels of a source tile. *)
Definition MAX_SAMPLES : Z := TILE_WIDTH * TILE_HEIGHT.

(** An accumulator entry 0xCCCCCCCCSSSSSSSS that stands for at most [n]
    samples: a count [c <= n] in the upper half and a sum [s] of [c] squares
    of bytes in the lower half. *)
Definition entryOK (n : Z) (e : Z) : Prop :=
  exists c s, e = c * 2 ^ 32 + s /\ 0 <= c <= n /\ 0 <= s <= 255 * 255 * c.

Lemma entryOK_weaken (n m e : Z) : n <= m -> entryOK n e -> entryOK m e.
Proof. intros Hnm (c & s & He & Hc & Hs). exists c, s. repeat split; lia. Qed.

Lemma entryOK_zero (n : Z) : 0 <= n -> entryOK n 0.
Proof. intros Hn. exists 0, 0. repeat split; lia. Qed.

Lemma entryOK_0_inv (e : Z) : entryOK 0 e -> e = 0.
Proof. intros (c & s & He & Hc & Hs). lia. Qed.

Lemma entryOK_add (n m a b : Z) :
  n + m <= MAX_SAMPLES -> entryOK n a -> entryOK m b ->
  u64 (a + b) = a + b /\ entryOK (n + m) (a + b).
Proof.
  unfold MAX_SAMPLES, TILE_WIDTH, TILE_HEIGHT.
  intros Hnm (c & s & -> & Hc & Hs) (c' & s' & -> & Hc' & Hs'). split.
  - unfold u64. apply Z.mod_small. lia.
  - exists (c + c'), (s + s'). repeat split; lia.
Qed.

(** The two fields of a well-formed entry are its count and its sum: the
    sum stays below 2^32 and leaves the count alone. *)
Lemma entryOK_fields (n e : Z) :
  n <= MAX_SAMPLES -> entryOK n e ->
  0 <= Z.shiftr e 32 <= n
  /\ 0 <= Z.land e 0xffffffff <= 255 * 255 * Z.shiftr e 32
  /\ Z.land e 0xffffffff < 2 ^ 32
  /\ e = Z.shiftr e 32 * 2 ^ 32 + Z.land e 0xffffffff.
Proof.
  unfold MAX_SAMPLES, TILE_WIDTH, TILE_HEIGHT.
  intros Hn (c & s & -> & Hc & Hs).
  assert (Hs32 : 0 <= s < 2 ^ 32) by lia.
  assert (Hhi : Z.shiftr (c * 2 ^ 32 + s) 32 = c).
  { rewrite Z.shiftr_div_pow2 by lia. symmetry.
    apply Z.div_unique with (r := s); lia. }
  assert (Hlo : Z.land (c * 2 ^ 32 + s) 0xffffffff = s).
  { change 0xffffffff with (Z.ones 32). rewrite Z.land_ones by lia. symmetry.
    apply Z.mod_unique with (q := c); lia. }
  rewrite Hhi, Hlo. repeat split; lia.
Qed.

Lemma tilePixel_byte (png : Z -> Z) (row column x y : Z) :
  0 <= tilePixel png row column x y <= 255.
Proof.
  unfold tilePixel. change 0xff with (Z.ones 8). rewrite Z.land_ones by lia.
  change (Z.ones 8) with 255.
  match goal with
  | |- context [?a mod ?b] => pose proof (Z.mod_pos_bound a b ltac:(lia))
  end.
  lia.
Qed.

(** Setting the count bit of a word below 2^32 adds 2^32 to it. *)
Lemma lor_count_bit (w : Z) :
  0 <= w < 2 ^ 32 -> Z.lor w 0x100000000 = 2 ^ 32 + w.
Proof.
  intros Hw. change 0x100000000 with (2 ^ 32).
  assert (Hland : Z.land w (2 ^ 32) = 0).
  { apply Z.bits_inj'. intros n Hn.
    rewrite Z.land_spec, Z.bits_0, Z.pow2_bits_eqb by lia.
    destruct (Z.eqb_spec 32 n) as [<-|Hne]; [|apply andb_false_r].
    rewrite andb_true_r.
    destruct (Z.eq_dec w 0) as [->|Hnz]; [apply Z.bits_0|].
    apply Z.bits_above_log2; [lia|]. apply Z.log2_lt_pow2; lia. }
  rewrite <- Z.lxor_lor, <- Z.add_nocarry_lxor by exact Hland. lia.
Qed.

(** The term added for one sample: its square with the count bit set. *)
Lemma sample_term (v : Z) :
  0 <= v <= 255 -> Z.lor (v * v) 0x100000000 = 2 ^ 32 + v * v.
Proof. intros Hv. apply lor_count_bit. nia. Qed.

Lemma sample_entry (v : Z) : 0 <= v <= 255 -> entryOK 1 (Z.lor (v * v) 0x100000000).
Proof.
  intros Hv. rewrite sample_term by exact Hv.
  exists 1, (v * v). repeat split; nia.
Qed.

Section Accumulator.
Variable stackWord : Z.
Variables (png : Z -> Z) (row column tileWidth tileHeight : Z) (sx sy : list Z).
Hypothesis width_pos : 0 < tileWidth.
Hypothesis sx_inside :
  forall x0, 0 <= x0 < TILE_WIDTH -> 0 <= zget sx x0 < tileWidth.

(** The flat positions of line [y] of the accumulator. *)
Definition inLine (y p : Z) : Prop := y * tileWidth <= p < (y + 1) * tileWidth.

Lemma accumulate_samples (xs : list Z) (y0 y1 n : Z) (values : list Z) :
  (forall x0, In x0 xs -> 0 <= x0 < TILE_WIDTH) ->
  0 <= n -> n + Z.of_nat (length xs) <= MAX_SAMPLES ->
  (forall p, inLine y1 p -> entryOK n (zget values p)) ->
  let values' :=
    fold_left (fun values x0 =>
                 let value := tilePixel png row column x0 y0 in
                 let p := y1 * tileWidth + zget sx x0 in
                 zset values p (u64 (zget values p + Z.lor (value * value) 0x100000000)))
              xs values in
  (forall p, inLine y1 p -> entryOK (n + Z.of_nat (length xs)) (zget values' p))
  /\ (forall p, ~ inLine y1 p -> zget values' p = zget values p).
Proof.
  revert n values. induction xs as [|x0 xs IH]; intros n values Hxs Hn Hmax Hline; simpl.
  - split; [|reflexivity]. intros p Hp. rewrite Z.add_0_r. apply Hline, Hp.
  - set (p0 := y1 * tileWidth + zget sx x0).
    set (term := Z.lor (tilePixel png row column x0 y0 * tilePixel png row column x0 y0)
                       0x100000000).
    assert (Hp0 : inLine y1 p0).
    { unfold inLine, p0. pose proof (sx_inside x0 (Hxs x0 (or_introl eq_refl))). lia. }
    simpl length in Hmax. rewrite Nat2Z.inj_succ in Hmax.
    destruct (entryOK_add n 1 (zget values p0) term) as [Hwrap Hsum];
      [lia|apply Hline, Hp0|apply sample_entry, tilePixel_byte|].
    destruct (IH (n + 1) (zset values p0 (u64 (zget values p0 + term)))) as [Hin Hout].
    + intros x Hx. apply Hxs. right. exact Hx.
    + lia.
    + lia.
    + intros p Hp. rewrite Hwrap.
      destruct (zget_zset values p0 p (zget values p0 + term)) as [[-> _]| ->].
      * exact Hsum.
      * apply (entryOK_weaken n); [lia|apply Hline, Hp].
    + split.
      * intros p Hp. rewrite Nat2Z.inj_succ.
        replace (n + Z.succ (Z.of_nat (length xs))) with (n + 1 + Z.of_nat (length xs))
          by lia.
        apply Hin, Hp.
      * intros p Hp. rewrite Hout by exact Hp. apply zget_zset_ne.
        intros ->. apply Hp, Hp0.
Qed.

Lemma accumulate_line (y0 y1 n : Z) (values : list Z) :
  0 <= n -> n + TILE_WIDTH <= MAX_SAMPLES ->
  (forall p, inLine y1 p -> entryOK n (zget values p)) ->
  (forall p, inLine y1 p ->
     entryOK (n + TILE_WIDTH) (zget (accumulate png row column tileWidth sx y0 y1 values) p))
  /\ (forall p, ~ inLine y1 p ->
        zget (accumulate png row column tileWidth sx y0 y1 values) p = zget values p).
Proof.
  intros Hn Hmax Hline. unfold accumulate.
  pose proof (accumulate_samples (range 0 TILE_WIDTH) y0 y1 n values) as H.
  rewrite length_range in H. change (Z.of_nat (Z.to_nat (TILE_WIDTH - 0))) with TILE_WIDTH in H.
  apply H; try assumption. intros x0 Hx0. apply in_range, Hx0.
Qed.

Lemma interpolate_samples (xs : list Z) (y1 n m : Z) (values0 values : list Z) :
  (forall x1, In x1 xs -> 0 <= x1 < tileWidth) ->
  n + m <= MAX_SAMPLES ->
  (forall p, ~ inLine y1 p -> entryOK n (zget values0 p)) ->
  (forall p, inLine y1 p -> entryOK m (zget values0 p)) ->
  (forall p, ~ inLine (y1 - 1) p -> zget values p = zget values0 p) ->
  (forall p, inLine (y1 - 1) p -> entryOK (n + m) (zget values p)) ->
  let values' :=
    fold_left (fun values x1 =>
                 let p := y1 * tileWidth + x1 in
                 zset values (p - tileWidth)
                      (u64 (zget values (p - 2 * tileWidth) + zget values p)))
              xs values in
  (forall p, ~ inLine (y1 - 1) p -> zget values' p = zget values0 p)
  /\ (forall p, inLine (y1 - 1) p -> entryOK (n + m) (zget values' p)).
Proof.
  revert values. induction xs as [|x1 xs IH];
    intros values Hxs Hmax Hout0 Hin0 Hsame Hline; simpl.
  - split; assumption.
  - pose proof (Hxs x1 (or_introl eq_refl)) as Hx1.
    set (q := y1 * tileWidth + x1).
    assert (Hq : inLine y1 q) by (unfold inLine, q; lia).
    assert (Hq2 : ~ inLine y1 (q - 2 * tileWidth)) by (unfold inLine, q; lia).
    assert (Hq1 : inLine (y1 - 1) (q - tileWidth)) by (unfold inLine, q; lia).
    assert (Ha : zget values (q - 2 * tileWidth) = zget values0 (q - 2 * tileWidth))
      by (apply Hsame; unfold inLine, q; lia).
    assert (Hb : zget values q = zget values0 q)
      by (apply Hsame; unfold inLine, q; lia).
    destruct (entryOK_add n m (zget values (q - 2 * tileWidth)) (zget values q))
      as [Hwrap Hsum]; [exact Hmax|rewrite Ha; apply Hout0, Hq2|rewrite Hb; apply Hin0, Hq|].
    apply IH; try assumption.
    + intros x Hx. apply Hxs. right. exact Hx.
    + intros p Hp. rewrite zget_zset_ne; [apply Hsame, Hp|].
      intros <-. apply Hp, Hq1.
    + intros p Hp. rewrite Hwrap.
      destruct (zget_zset values (q - tileWidth) p
                  (zget values (q - 2 * tileWidth) + zget values q)) as [[-> _]| ->].
      * exact Hsum.
      * apply Hline, Hp.
Qed.

Lemma interpolate_line (y1 n m : Z) (values : list Z) :
  0 <= n -> 0 <= m -> n + m <= MAX_SAMPLES ->
  (forall p, ~ inLine y1 p -> entryOK n (zget values p)) ->
  (forall p, inLine y1 p -> entryOK m (zget values p)) ->
  (forall p, ~ inLine (y1 - 1) p ->
     zget (interpolate tileWidth y1 values) p = zget values p)
  /\ (forall p, entryOK (n + m) (zget (interpolate tileWidth y1 values) p)).
Proof.
  intros Hn Hm Hmax Hout Hin. unfold interpolate.
  destruct (interpolate_samples (range 0 tileWidth) y1 n m values values) as [Hsame Hline];
    try assumption; try reflexivity.
  - intros x1 Hx1. apply in_range, Hx1.
  - intros p Hp. apply (entryOK_weaken n); [lia|]. apply Hout.
    unfold inLine in *. lia.
  - split; [exact Hsame|]. intros p.
    destruct (Z_le_dec ((y1 - 1) * tileWidth) p) as [Hlo|Hlo];
      [destruct (Z_lt_dec p (y1 * tileWidth)) as [Hhi|Hhi]|].
    + apply Hline. unfold inLine. lia.
    + rewrite Hsame by (unfold inLine; lia).
      destruct (Z_lt_dec p ((y1 + 1) * tileWidth)).
      * apply (entryOK_weaken m); [lia|]. apply Hin. unfold inLine. lia.
      * apply (entryOK_weaken n); [lia|]. apply Hout. unfold inLine. lia.
    + rewrite Hsame by (unfold inLine; lia).
      apply (entryOK_weaken n); [lia|]. apply Hout. unfold inLine. lia.
Qed.

(** The destination line of the last source line that was mapped into the
    tile, among the first [k] source lines; -1 when there is none. *)
Fixpoint lastMapped (k : nat) : Z :=
  match k with
  | O => -1
  | S k' =>
      let y := zget sy (Z.of_nat k') in
      if (y <? 0) || (y >=? tileHeight) then lastMapped k' else y
  end.

(** The vertical map never steps back to an earlier destination line. *)
Hypothesis sy_monotone :
  forall i j, 0 <= i < j -> j < TILE_HEIGHT ->
              0 <= zget sy i < tileHeight -> 0 <= zget sy j < tileHeight ->
              zget sy i <= zget sy j.

Lemma lastMapped_spec (k : nat) :
  lastMapped k = -1
  \/ exists i, 0 <= i < Z.of_nat k /\ 0 <= zget sy i < tileHeight
               /\ lastMapped k = zget sy i.
Proof.
  induction k as [|k IH]; simpl; [left; reflexivity|].
  destruct (Z.ltb_spec (zget sy (Z.of_nat k)) 0) as [Hneg|Hpos]; simpl.
  - destruct IH as [Hl|(i & Hi & Hr & Hl)]; [left; exact Hl|].
    right. exists i. repeat split; try lia.
  - destruct (Z.geb_spec (zget sy (Z.of_nat k)) tileHeight) as [Hbig|Hin].
    + destruct IH as [Hl|(i & Hi & Hr & Hl)]; [left; exact Hl|].
      right. exists i. repeat split; try lia.
    + right. exists (Z.of_nat k). repeat split; try lia.
Qed.

(** The invariant of the downscaling loop after [k] source lines: every
    entry stands for at most [TILE_WIDTH * k] samples, and nothing has been
    written below the last mapped line. *)
Definition linesDone (k : nat) (values : list Z) : Prop :=
  (forall p, entryOK (TILE_WIDTH * Z.of_nat k) (zget values p))
  /\ (forall p, (lastMapped k + 1) * tileWidth <= p -> zget values p = 0).

Lemma downscaleRow_linesDone (k : nat) (values : list Z) :
  Z.of_nat k < TILE_HEIGHT ->
  linesDone k values ->
  linesDone (S k) (downscaleRow stackWord png row column tileWidth tileHeight
                                sx sy values (Z.of_nat k)).
Proof.
  intros Hk [Hall Hfresh]. unfold downscaleRow, linesDone.
  assert (Hbudget : TILE_WIDTH * Z.of_nat k + TILE_WIDTH <= MAX_SAMPLES)
    by (unfold MAX_SAMPLES, TILE_WIDTH, TILE_HEIGHT in *; lia).
  assert (Hgrow : TILE_WIDTH * Z.of_nat (S k) = TILE_WIDTH * Z.of_nat k + TILE_WIDTH)
    by lia.
  set (y1 := zget sy (Z.of_nat k)).
  cbn [lastMapped]. fold y1.
  destruct ((y1 <? 0) || (y1 >=? tileHeight)) eqn:Hskip.
  { split; [|exact Hfresh]. intros p.
    apply (entryOK_weaken (TILE_WIDTH * Z.of_nat k));
      [unfold TILE_WIDTH; lia|apply Hall]. }
  apply orb_false_iff in Hskip as [Hlo Hhi].
  apply Z.ltb_ge in Hlo. rewrite Z.geb_leb in Hhi. apply Z.leb_gt in Hhi.
  assert (Hcur : lastMapped k <= y1).
  { destruct (lastMapped_spec k) as [->|(i & Hi & Hr & ->)]; [lia|].
    apply sy_monotone; lia. }
  destruct (Z.eq_dec (lastMapped k) y1) as [Hsame|Hnew].
  - (* more samples for the line in progress *)
    destruct (accumulate_line (Z.of_nat k) y1 (TILE_WIDTH * Z.of_nat k) values)
      as [Hin Hout]; [unfold TILE_WIDTH; lia|exact Hbudget|intros p _; apply Hall|].
    assert (Hno : (y1 >=? 2) && (previousY stackWord sy (Z.of_nat k) =? y1 - 2) = false).
    { apply andb_false_iff.
      destruct (Z.geb_spec y1 2) as [Hge|]; [right|left; reflexivity].
      apply Z.eqb_neq. intros Hprev. unfold previousY in Hprev.
      destruct k as [|k']; [simpl in Hsame; lia|].
      replace (Z.of_nat (S k') =? 0) with false in Hprev
        by (symmetry; apply Z.eqb_neq; lia).
      replace (Z.of_nat (S k') - 1) with (Z.of_nat k') in Hprev by lia.
      cbn [lastMapped] in Hsame. rewrite Hprev in Hsame.
      replace ((y1 - 2 <? 0) || (y1 - 2 >=? tileHeight)) with false in Hsame; [lia|].
      symmetry. apply orb_false_iff. split; [apply Z.ltb_ge; lia|].
      rewrite Z.geb_leb. apply Z.leb_gt. lia. }
    rewrite Hno. split.
    + intros p. rewrite Hgrow.
      destruct (Z_le_dec (y1 * tileWidth) p) as [Ha|Ha];
        [destruct (Z_lt_dec p ((y1 + 1) * tileWidth)) as [Hb|Hb]|].
      * apply Hin. unfold inLine. lia.
      * rewrite Hout by (unfold inLine; lia).
        apply (entryOK_weaken (TILE_WIDTH * Z.of_nat k));
          [unfold TILE_WIDTH; lia|apply Hall].
      * rewrite Hout by (unfold inLine; lia).
        apply (entryOK_weaken (TILE_WIDTH * Z.of_nat k));
          [unfold TILE_WIDTH; lia|apply Hall].
    + intros p Hp. rewrite Hout by (unfold inLine; lia). apply Hfresh. lia.
  - (* a new line *)
    assert (Hzero : forall p, inLine y1 p -> entryOK 0 (zget values p)).
    { intros p Hp. rewrite Hfresh; [apply entryOK_zero; lia|]. unfold inLine in Hp. nia. }
    destruct (accumulate_line (Z.of_nat k) y1 0 values)
      as [Hin Hout]; [lia|unfold MAX_SAMPLES, TILE_WIDTH, TILE_HEIGHT; lia|exact Hzero|].
    set (values1 := accumulate png row column tileWidth sx (Z.of_nat k) y1 values) in *.
    assert (Hout1 : forall p, ~ inLine y1 p ->
                              entryOK (TILE_WIDTH * Z.of_nat k) (zget values1 p))
      by (intros p Hp; rewrite Hout by exact Hp; apply Hall).
    assert (Hfresh1 : forall p, (y1 + 1) * tileWidth <= p -> zget values1 p = 0).
    { intros p Hp. rewrite Hout by (unfold inLine; lia). apply Hfresh. nia. }
    destruct ((y1 >=? 2) && (previousY stackWord sy (Z.of_nat k) =? y1 - 2)).
    + destruct (interpolate_line y1 (TILE_WIDTH * Z.of_nat k) TILE_WIDTH values1)
        as [Hsame Hok]; [unfold TILE_WIDTH; lia|unfold TILE_WIDTH; lia|exact Hbudget
                        |exact Hout1|exact Hin|].
      split.
      * intros p. rewrite Hgrow. apply Hok.
      * intros p Hp. rewrite Hsame by (unfold inLine; lia). apply Hfresh1, Hp.
    + split; [|exact Hfresh1]. intros p. rewrite Hgrow.
      destruct (Z_le_dec (y1 * tileWidth) p) as [Ha|Ha];
        [destruct (Z_lt_dec p ((y1 + 1) * tileWidth)) as [Hb|Hb]|].
      * apply (entryOK_weaken (0 + TILE_WIDTH)); [unfold TILE_WIDTH; lia|].
        apply Hin. unfold inLine. lia.
      * apply (entryOK_weaken (TILE_WIDTH * Z.of_nat k));
          [unfold TILE_WIDTH; lia|apply Hout1; unfold inLine; lia].
      * apply (entryOK_weaken (TILE_WIDTH * Z.of_nat k));
          [unfold TILE_WIDTH; lia|apply Hout1; unfold inLine; lia].
Qed.
End Accumulator.

Lemma range_snoc (k : nat) :
  range 0 (Z.of_nat (S k)) = range 0 (Z.of_nat k) ++ [Z.of_nat k].
Proof.
  unfold range, range_step. rewrite !Z.div_1_r.
  replace (Z.to_nat (Z.of_nat (S k) - 0 + 1 - 1)) with (S k) by lia.
  replace (Z.to_nat (Z.of_nat k - 0 + 1 - 1)) with k by lia.
  rewrite seq_S, map_app. simpl. do 2 f_equal. lia.
Qed.

(** The coordinate maps of a render send every source column into the tile
    and never step back to an earlier destination line. *)
Definition mapsInside (tileWidth tileHeight : Z) (sx sy : list Z) : Prop :=
  (forall x0, 0 <= x0 < TILE_WIDTH -> 0 <= zget sx x0 < tileWidth)
  /\ (forall i j, 0 <= i < j -> j < TILE_HEIGHT ->
                  0 <= zget sy i < tileHeight -> 0 <= zget sy j < tileHeight ->
                  zget sy i <= zget sy j).

Lemma downscale_lines stackWord (png : Z -> Z) (row column tileWidth tileHeight : Z)
    (sx sy : list Z) (values : list Z) (k : nat) :
  0 < tileWidth -> mapsInside tileWidth tileHeight sx sy ->
  (forall p, zget values p = 0) ->
  Z.of_nat k <= TILE_HEIGHT ->
  linesDone tileWidth tileHeight sy k
    (fold_left (downscaleRow stackWord png row column tileWidth tileHeight sx sy)
               (range 0 (Z.of_nat k)) values).
Proof.
  intros Hw [Hsx Hsy] Hzero. induction k as [|k IH]; intros Hk.
  - simpl. split.
    + intros p. rewrite Hzero. apply entryOK_zero. lia.
    + intros p _. apply Hzero.
  - rewrite range_snoc, fold_left_app. cbn [fold_left].
    apply downscaleRow_linesDone; try assumption; [lia|]. apply IH. lia.
Qed.

(** The maps that [downscale] computes for a render. *)
Definition renderMaps (g : Tiles) (tileWidth tileHeight row column : Z)
    (optimizing : bool) : list Z * list Z :=
  let '(fitWidth, fitHeight, glyphWidth, glyphHeight) :=
    glyphSize g tileWidth tileHeight row column optimizing in
  (scaledX (horizMaps g row column fitWidth glyphWidth),
   scaledY (vertStops g row column) (vertMaps g row column fitHeight glyphHeight)).

Lemma downscale_entries stackWord (g : Tiles) (tileWidth tileHeight row column : Z)
    (optimizing : bool) (p : Z) :
  0 < tileWidth ->
  (let '(sx, sy) := renderMaps g tileWidth tileHeight row column optimizing in
   mapsInside tileWidth tileHeight sx sy) ->
  entryOK MAX_SAMPLES
    (zget (downscale stackWord g tileWidth tileHeight row column optimizing
                     (blank tileWidth tileHeight)) p).
Proof.
  intros Hw Hmaps. unfold downscale, renderMaps in *.
  destruct (glyphSize g tileWidth tileHeight row column optimizing)
    as [[[fitWidth fitHeight] glyphWidth] glyphHeight].
  pose proof (downscale_lines stackWord (TilesPNG g) row column tileWidth tileHeight
                _ _ (blank tileWidth tileHeight) (Z.to_nat TILE_HEIGHT) Hw Hmaps) as H.
  change (Z.of_nat (Z.to_nat TILE_HEIGHT)) with TILE_HEIGHT in H.
  destruct H as [Hall _]; [intros q; apply zget_replicate|lia|].
  exact (Hall p).
Qed.

(** Floor dust and wall tops write entries with the count 1. *)
Lemma noise_entry (state : Z) : entryOK 1 (snd (noise state)).
Proof.
  pose proof (noise_lit state) as H.
  exists 1, (snd (noise state) - 2 ^ 32). repeat split; lia.
Qed.

Lemma put_noise_entries (n p : Z) (d : Dust) :
  1 <= n ->
  (forall q, entryOK n (zget (dust_values d) q)) ->
  forall q, entryOK n (zget (dust_values (put_noise p d)) q).
Proof.
  intros Hn Hall q. unfold put_noise.
  pose proof (noise_entry (dust_state d)) as Hlit.
  destruct (noise (dust_state d)) as [s v]. simpl in *.
  destruct (zget_zset (dust_values d) p q v) as [[-> _]| ->].
  - apply (entryOK_weaken 1); assumption.
  - apply Hall.
Qed.

Lemma put_noise_fold_entries (n : Z) (f : Z -> Z) (ks : list Z) (d : Dust) :
  1 <= n ->
  (forall q, entryOK n (zget (dust_values d) q)) ->
  forall q, entryOK n (zget (dust_values (fold_left (fun d k => put_noise (f k) d) ks d)) q).
Proof.
  intros Hn. revert d. induction ks as [|k ks IH]; intros d Hall; simpl; [exact Hall|].
  apply IH, put_noise_entries; assumption.
Qed.

Lemma floorDust_entries (n tileWidth tileHeight : Z) (values : list Z) :
  1 <= n ->
  (forall q, entryOK n (zget values q)) ->
  forall q, entryOK n (zget (floorDust tileWidth tileHeight values) q).
Proof.
  intros Hn Hall. unfold floorDust.
  set (e := stitchEdges _ _ _ _).
  assert (He : forall q, entryOK n (zget (dust_values e) q)).
  { subst e. unfold stitchEdges.
    repeat apply put_noise_fold_entries; try exact Hn. exact Hall. }
  destruct (shuffle _ _) as [state idx]. unfold fillCenter.
  generalize (mkDust state (dust_values e)) (He : forall q, entryOK n
    (zget (dust_values (mkDust state (dust_values e))) q)).
  induction idx as [|k idx IH]; intros d Hd; simpl; [exact Hd|].
  apply IH. unfold dustStep.
  destruct (isolated _ _ _); [apply put_noise_entries; assumption|exact Hd].
Qed.

Lemma wave_term (w : Z) :
  0 <= w <= 255 * 255 -> Z.lor w 0x100000000 = 2 ^ 32 + w.
Proof. intros Hw. apply lor_count_bit. lia. Qed.

Section WallTops.
Variable wave : Z -> Z -> Z -> Z -> Z -> Z -> Z.
Hypothesis wave_range : forall tw th nh nv x y, 0 <= wave tw th nh nv x y <= 255 * 255.

Lemma paintLine_entries (n tileWidth tileHeight nh nv y : Z) (values : list Z) :
  1 <= n ->
  (forall q, entryOK n (zget values q)) ->
  forall q, entryOK n (zget (paintLine wave tileWidth tileHeight nh nv y values) q).
Proof.
  intros Hn. unfold paintLine. generalize (range 0 tileWidth) as xs. intros xs.
  revert values. induction xs as [|x xs IH]; intros values Hall; simpl; [exact Hall|].
  apply IH. intros q.
  destruct (zget_zset values (y * tileWidth + x) q
              (Z.lor (wave tileWidth tileHeight nh nv x y) 0x100000000)) as [[-> _]| ->].
  - rewrite wave_term by apply wave_range.
    apply (entryOK_weaken 1); [exact Hn|].
    exists 1, (wave tileWidth tileHeight nh nv x y).
    pose proof (wave_range tileWidth tileHeight nh nv x y). repeat split; lia.
  - apply Hall.
Qed.

Lemma wallTops_entries (n tileWidth tileHeight nh nv row : Z) (ys : list Z)
    (values : list Z) :
  1 <= n ->
  (forall q, entryOK n (zget values q)) ->
  forall q, entryOK n
    (zget (wallTops_loop wave tileWidth tileHeight nh nv row ys values) q).
Proof.
  intros Hn. revert values. induction ys as [|y ys IH]; intros values Hall; simpl;
    [exact Hall|].
  destruct (negb (row =? 21) && _); [exact Hall|].
  apply IH, paintLine_entries; assumption.
Qed.
End WallTops.

(** The normalization of the older variant of the renderer, which tests the
    whole entry before it divides. *)
Definition average_entry (value : Z) : Z :=
  if negb (value =? 0) then Z.land value 0xffffffff ÷ Z.shiftr value 32 else 0.

(** In a render whose coordinate maps send every source column into the tile
    and never step back to an earlier destination line, every entry of the
    accumulator is a count with a sum of squares that does not reach it. *)
Lemma accumulator_entries_of_maps wave stackWord (g : Tiles)
    (tileWidth tileHeight row column : Z) (optimizing : bool) (p : Z) :
  0 < tileWidth ->
  (forall tw th nh nv x y, 0 <= wave tw th nh nv x y <= 255 * 255) ->
  (tileEmpty g row column = false ->
   let '(sx, sy) := renderMaps g tileWidth tileHeight row column optimizing in
   mapsInside tileWidth tileHeight sx sy) ->
  let e := zget (prepareValues wave stackWord g tileWidth tileHeight row column optimizing)
                p in
  let count := Z.shiftr e 32 in
  let sum := Z.land e 0xffffffff in
  e = count * 2 ^ 32 + sum
  /\ 0 <= count <= TILE_WIDTH * TILE_HEIGHT
  /\ 0 <= sum <= 255 * 255 * count
  /\ sum < 2 ^ 32
  /\ (e <> 0 -> 1 <= count)
  /\ average_entry e = average e.
Proof.
  intros Hw Hwave Hmaps e count sum.
  assert (He : entryOK MAX_SAMPLES e).
  { subst e. unfold prepareValues.
    assert (H1 : forall q, entryOK MAX_SAMPLES
                   (zget (if tileEmpty g row column then blank tileWidth tileHeight
                          else downscale stackWord g tileWidth tileHeight row column
                                         optimizing (blank tileWidth tileHeight)) q)).
    { intros q. destruct (tileEmpty g row column).
      - unfold blank. rewrite zget_replicate. apply entryOK_zero. by_compute.
      - apply downscale_entries; [exact Hw|apply Hmaps; reflexivity]. }
    assert (H2 : forall q, entryOK MAX_SAMPLES
                   (zget (if isFloor row column && tileEmpty g row column
                             && (tileWidth >? 2) && (tileHeight >? 2) && negb optimizing
                          then floorDust tileWidth tileHeight
                                 (if tileEmpty g row column then blank tileWidth tileHeight
                                  else downscale stackWord g tileWidth tileHeight row column
                                                 optimizing (blank tileWidth tileHeight))
                          else (if tileEmpty g row column then blank tileWidth tileHeight
                                else downscale stackWord g tileWidth tileHeight row column
                                               optimizing (blank tileWidth tileHeight))) q)).
    { intros q. destruct (isFloor row column && _ && _ && _ && _); [|apply H1].
      apply floorDust_entries; [by_compute|exact H1]. }
    destruct (isWallTop row column && negb optimizing); [|apply H2].
    apply wallTops_entries; [exact Hwave|by_compute|exact H2]. }
  clearbody e.
  destruct (entryOK_fields MAX_SAMPLES e (Z.le_refl _) He) as (Hc & Hs & Hlt & Heq).
  fold count in Hc, Hs, Heq. fold sum in Hs, Hlt, Heq.
  assert (Hlit : e <> 0 -> 1 <= count) by (intros Hne; lia).
  split; [exact Heq|]. split; [exact Hc|]. split; [exact Hs|]. split; [exact Hlt|].
  split; [exact Hlit|].
  unfold average_entry, average. fold count sum.
  destruct (Z.eqb_spec e 0) as [Hz|Hnz]; cbn [negb].
  - assert (Hc0 : count = 0) by (subst count; rewrite Hz; reflexivity).
    rewrite Hc0. reflexivity.
  - specialize (Hlit Hnz).
    destruct (Z.eqb_spec count 0); [lia|reflexivity].
Qed.

(** A decision procedure for [mapsInside], for renders given in full. *)
Definition mapsInsideb (tileWidth tileHeight : Z) (sx sy : list Z) : bool :=
  forallb (fun x0 => (0 <=? zget sx x0) && (zget sx x0 <? tileWidth))
          (range 0 TILE_WIDTH)
  && forallb (fun j =>
                forallb (fun i =>
                           implb ((0 <=? zget sy i) && (zget sy i <? tileHeight)
                                  && (0 <=? zget sy j) && (zget sy j <? tileHeight))
                                 (zget sy i <=? zget sy j))
                        (range 0 j))
             (range 0 TILE_HEIGHT).

Lemma mapsInsideb_sound (tileWidth tileHeight : Z) (sx sy : list Z) :
  mapsInsideb tileWidth tileHeight sx sy = true ->
  mapsInside tileWidth tileHeight sx sy.
Proof.
  unfold mapsInsideb, mapsInside. intros H.
  apply andb_true_iff in H as [Hx Hy].
  rewrite forallb_forall in Hx. rewrite forallb_forall in Hy. split.
  - intros x0 Hx0. specialize (Hx x0 (proj2 (in_range 0 TILE_WIDTH x0) Hx0)).
    apply andb_true_iff in Hx as [Ha Hb].
    apply Z.leb_le in Ha. apply Z.ltb_lt in Hb. lia.
  - intros i j Hij Hj Hi Hjr.
    specialize (Hy j (proj2 (in_range 0 TILE_HEIGHT j) ltac:(lia))).
    rewrite forallb_forall in Hy.
    specialize (Hy i (proj2 (in_range 0 j i) ltac:(lia))).
    replace ((0 <=? zget sy i) && (zget sy i <? tileHeight)
             && (0 <=? zget sy j) && (zget sy j <? tileHeight)) with true in Hy.
    + apply Z.leb_le. exact Hy.
    + symmetry. repeat (apply andb_true_iff; split);
        first [apply Z.leb_le; lia | apply Z.ltb_lt; lia].
Qed.


(** ** The coordinate maps *)

Lemma truncQ_mono (q1 q2 : Q) : (q1 <= q2)%Q -> truncQ q1 <= truncQ q2.
Proof.
  destruct q1 as [a b], q2 as [c d]. unfold Qle, truncQ. simpl. intros H.
  rewrite <- (Z.quot_mul_cancel_r a (Z.pos b) (Z.pos d)) by lia.
  rewrite <- (Z.quot_mul_cancel_r c (Z.pos d) (Z.pos b)) by lia.
  rewrite (Z.mul_comm (Z.pos d) (Z.pos b)).
  apply Z.quot_le_mono; lia.
Qed.

Lemma truncQ_iq (z : Z) : truncQ (iq z) = z.
Proof. unfold truncQ, iq. simpl. apply Z.quot_1_r. Qed.

Lemma truncQ_below (q : Q) (z : Z) : (0 <= q)%Q -> (q < iq z)%Q -> truncQ q < z.
Proof.
  destruct q as [a b]. unfold Qle, Qlt, truncQ, iq. simpl. intros H0 Hlt.
  rewrite Z.quot_div_nonneg by lia.
  apply Z.div_lt_upper_bound; lia.
Qed.

Lemma truncQ_inside (q : Q) (n : Z) :
  (0 <= q)%Q -> (q < iq n)%Q -> 0 <= truncQ q < n.
Proof.
  intros Hlo Hhi. split.
  - pose proof (truncQ_mono _ _ Hlo) as H0. exact H0.
  - apply truncQ_below; assumption.
Qed.

Lemma iq_nonzero (n : Z) : 0 < n -> ~ (iq n == 0)%Q.
Proof.
  intros Hn H. apply (Qlt_irrefl 0). rewrite <- H at 2.
  change 0%Q with (iq 0) at 1. apply iq_lt, Hn.
Qed.

Lemma iq_pos (n : Z) : 0 < n -> (0 < iq n)%Q.
Proof. intros H. change 0%Q with (iq 0). apply iq_lt, H. Qed.

Lemma iq_nonneg (n : Z) : 0 <= n -> (0 <= iq n)%Q.
Proof. intros H. change 0%Q with (iq 0). apply iq_le, H. Qed.

Lemma Qdiv_le_compat (x y d : Q) : (0 < d)%Q -> (x <= y)%Q -> (x / d <= y / d)%Q.
Proof.
  intros Hd H. unfold Qdiv. apply Qmult_le_compat_r; [exact H|].
  apply Qinv_le_0_compat. lra.
Qed.

(** *** The interpolation in doubles *)

(** With its ends in order, the interpolation rises with the position. *)
Lemma lerpD_mono (ma mb : Q) (sa sb i j : Z) :
  (ma <= mb)%Q -> sa < sb -> i <= j ->
  (lerpD ma mb sa sb i <= lerpD ma mb sa sb j)%Q.
Proof.
  intros Hm Hs Hij. unfold lerpD, dadd, ddiv, dmul, dsub.
  assert (HD : (0 <= rnd (mb - ma))%Q) by (apply rnd_nonneg; lra).
  set (D := rnd (mb - ma)) in *.
  apply rnd_mono, Qplus_le_r, rnd_mono, Qdiv_le_compat; [apply iq_pos; lia|].
  apply rnd_mono. rewrite !(Qmult_comm D).
  apply Qmult_le_compat_r; [apply iq_le; lia|exact HD].
Qed.

Lemma lerpD_start (ma mb : Q) (sa sb : Z) : dbl ma -> (lerpD ma mb sa sb sa == ma)%Q.
Proof.
  intros Ha. unfold lerpD, dadd, ddiv, dmul, dsub.
  rewrite Z.sub_diag. change (iq 0) with 0%Q.
  rewrite (rnd_zero (rnd (mb - ma) * 0)) by ring.
  rewrite (rnd_zero (0 / iq (sb - sa))) by (unfold Qdiv; ring).
  assert (E : (ma + 0 == ma)%Q) by ring. rewrite E. exact Ha.
Qed.

Lemma lerpD_lower (ma mb : Q) (sa sb i : Z) :
  dbl ma -> (ma <= mb)%Q -> sa < sb -> sa <= i -> (ma <= lerpD ma mb sa sb i)%Q.
Proof.
  intros Ha Hm Hs Hi. rewrite <- (lerpD_start ma mb sa sb Ha) at 1.
  apply lerpD_mono; assumption.
Qed.

(** Before the end of a segment of at most 256 positions, the interpolated
    offset, with the errors of its three roundings, stays a 512th of the
    length of the segment short of that length. *)
Lemma lerp_offset_short (delta : Q) (k d : Z) :
  (0 <= delta)%Q -> 0 <= k < d -> d <= 256 ->
  (0 <= rnd (rnd (rnd delta * iq k) / iq d))%Q
  /\ (rnd (rnd (rnd delta * iq k) / iq d) <= delta - delta * (1 # 512))%Q.
Proof.
  intros Hdelta Hk Hd. pose proof eps_val as He.
  assert (Pd : (0 < iq d)%Q) by (apply iq_pos; lia).
  assert (Pk : (0 <= iq k)%Q) by (apply iq_nonneg; lia).
  destruct (rnd_rel_pos delta Hdelta) as [_ UD].
  pose proof (rnd_nonneg delta Hdelta) as HD.
  set (D := rnd delta) in *.
  assert (HDk : (0 <= D * iq k)%Q) by (apply Qmult_le_0_compat; assumption).
  destruct (rnd_rel_pos (D * iq k) HDk) as [_ UP].
  pose proof (rnd_nonneg (D * iq k) HDk) as HP.
  set (P := rnd (D * iq k)) in *.
  assert (Hq : (0 <= P / iq d)%Q).
  { unfold Qdiv. apply Qmult_le_0_compat; [exact HP|]. apply Qinv_le_0_compat. lra. }
  destruct (rnd_rel_pos (P / iq d) Hq) as [_ UY].
  pose proof (rnd_nonneg (P / iq d) Hq) as HY.
  set (Y := rnd (P / iq d)) in *.
  (* the exact quotient *)
  assert (Hw : (D * iq k / iq d <= D * (255 # 256))%Q).
  { apply Qle_shift_div_r; [exact Pd|].
    assert (Hkd : (iq k <= (255 # 256) * iq d)%Q).
    { assert (H1 : (iq (256 * k) <= iq (255 * d))%Q) by (apply iq_le; lia).
      rewrite !iq_mult in H1. change (iq 256) with 256%Q in H1.
      change (iq 255) with 255%Q in H1. lra. }
    assert (H2 : (D * iq k <= D * ((255 # 256) * iq d))%Q).
    { rewrite !(Qmult_comm D). apply Qmult_le_compat_r; assumption. }
    assert (E : (D * (255 # 256) * iq d == D * ((255 # 256) * iq d))%Q) by ring.
    rewrite E. exact H2. }
  assert (Hq' : (P / iq d <= D * iq k / iq d + D * iq k / iq d * eps)%Q).
  { assert (E : (D * iq k / iq d + D * iq k / iq d * eps
                 == (D * iq k + D * iq k * eps) / iq d)%Q)
      by (field; apply iq_nonzero; lia).
    rewrite E. apply Qdiv_le_compat; assumption. }
  clearbody D P Y.
  set (w := (D * iq k / iq d)%Q) in *. set (q := (P / iq d)%Q) in *.
  clearbody w q. rewrite He in UD, Hq', UY. split; [exact HY|]. lra.
Qed.

Lemma lerpD_upper (ma mb : Q) (sa sb i : Z) :
  dbl mb -> (ma <= mb)%Q -> sa <= i < sb -> sb - sa <= 256 ->
  (lerpD ma mb sa sb i <= mb)%Q.
Proof.
  intros Hb Hm Hi Hd. unfold lerpD, dadd, ddiv, dmul, dsub.
  destruct (lerp_offset_short (mb - ma) (i - sa) (sb - sa)) as [L U]; [lra|lia|lia|].
  apply rnd_le; [exact Hb|]. lra.
Qed.

(** Where the ends are at least an eighth of a pixel apart, the
    interpolation stays below its upper end. *)
Lemma lerpD_strict (ma mb : Q) (sa sb i : Z) :
  (0 <= ma)%Q -> (ma + (1 # 8) <= mb)%Q -> (mb <= 4294967296)%Q ->
  sa <= i < sb -> sb - sa <= 256 ->
  (lerpD ma mb sa sb i < mb)%Q.
Proof.
  intros Ha Hm Hb Hi Hd. unfold lerpD, dadd, ddiv, dmul, dsub.
  destruct (lerp_offset_short (mb - ma) (i - sa) (sb - sa)) as [L U]; [lra|lia|lia|].
  set (Y := rnd (rnd (rnd (mb - ma) * iq (i - sa)) / iq (sb - sa))) in *.
  pose proof eps_val as He.
  destruct (rnd_abs 4294967296 (ma + Y)) as [_ U2]; [lra|lra|].
  rewrite He in U2. lra.
Qed.

(** Swapping the signs of the two ends mirrors an interpolation. *)
Lemma lerpD_opp (ma mb : Q) (sa sb i : Z) :
  (lerpD (- ma) (- mb) sa sb i == - lerpD ma mb sa sb i)%Q.
Proof.
  unfold lerpD, dadd, ddiv, dmul, dsub.
  assert (E1 : (- mb - - ma == - (mb - ma))%Q) by ring.
  rewrite E1, rnd_opp.
  assert (E2 : (- rnd (mb - ma) * iq (i - sa) == - (rnd (mb - ma) * iq (i - sa)))%Q) by ring.
  rewrite E2, rnd_opp.
  assert (E3 : (- rnd (rnd (mb - ma) * iq (i - sa)) / iq (sb - sa)
                == - (rnd (rnd (mb - ma) * iq (i - sa)) / iq (sb - sa)))%Q)
    by (unfold Qdiv; ring).
  rewrite E3, rnd_opp.
  set (Y := rnd (rnd (rnd (mb - ma) * iq (i - sa)) / iq (sb - sa))).
  assert (E4 : (- ma + - Y == - (ma + Y))%Q) by ring.
  rewrite E4, rnd_opp. reflexivity.
Qed.

(** An interpolation stays between its two ends, whichever is the larger. *)
Lemma lerpD_within (lo hi ma mb : Q) (sa sb i : Z) :
  dbl ma -> dbl mb -> sa <= i < sb -> sb - sa <= 256 ->
  (lo <= ma)%Q -> (lo <= mb)%Q -> (ma <= hi)%Q -> (mb <= hi)%Q ->
  (lo <= lerpD ma mb sa sb i)%Q /\ (lerpD ma mb sa sb i <= hi)%Q.
Proof.
  intros Da Db Hi Hd La Lb Ua Ub.
  destruct (Qlt_le_dec mb ma) as [Hlt|Hle].
  - pose proof (lerpD_opp ma mb sa sb i) as E.
    pose proof (lerpD_lower (- ma) (- mb) sa sb i (dbl_opp _ Da) ltac:(lra)
                  ltac:(lia) ltac:(lia)) as L.
    pose proof (lerpD_upper (- ma) (- mb) sa sb i (dbl_opp _ Db) ltac:(lra) Hi Hd) as U.
    split; lra.
  - pose proof (lerpD_lower ma mb sa sb i Da Hle ltac:(lia) ltac:(lia)) as L.
    pose proof (lerpD_upper ma mb sa sb i Db Hle Hi Hd) as U.
    split; lra.
Qed.

Lemma lerp_mono (ma mb : Q) (sa sb i j : Z) :
  (ma <= mb)%Q -> sa < sb -> i <= j -> lerp ma mb sa sb i <= lerp ma mb sa sb j.
Proof. intros. apply truncQ_mono, lerpD_mono; assumption. Qed.

Lemma lerp_lower (ma mb : Q) (sa sb i : Z) :
  dbl ma -> (ma <= mb)%Q -> sa < sb -> sa <= i -> truncQ ma <= lerp ma mb sa sb i.
Proof. intros. apply truncQ_mono, lerpD_lower; assumption. Qed.

Lemma lerp_upper (ma mb : Q) (sa sb i : Z) :
  dbl mb -> (ma <= mb)%Q -> sa <= i < sb -> sb - sa <= 256 ->
  lerp ma mb sa sb i <= truncQ mb.
Proof. intros. apply truncQ_mono, lerpD_upper; assumption. Qed.

(** ** Filling the arrays of the maps *)

Lemma length_fill (l : list Z) (a b : Z) (f : Z -> Z) : length (fill l a b f) = length l.
Proof.
  unfold fill. generalize (range a b). intros ks. revert l.
  induction ks as [|k ks IH]; intros l; simpl; [reflexivity|].
  rewrite IH. apply length_zset.
Qed.

Lemma zget_fill_out (l : list Z) (a b : Z) (f : Z -> Z) (i : Z) :
  ~ a <= i < b -> zget (fill l a b f) i = zget l i.
Proof.
  intros Hi. unfold fill.
  assert (Hks : forall k, In k (range a b) -> k <> i).
  { intros k Hk ->. apply in_range in Hk. tauto. }
  revert l Hks. generalize (range a b). intros ks.
  induction ks as [|k ks IH]; intros l Hks; simpl; [reflexivity|].
  rewrite IH by (intros k' Hk'; apply Hks; right; exact Hk').
  apply zget_zset_ne, Hks. left. reflexivity.
Qed.

Lemma zget_fill_in (l : list Z) (a b : Z) (f : Z -> Z) (i : Z) :
  a <= i < b -> 0 <= i < Z.of_nat (length l) -> zget (fill l a b f) i = f i.
Proof.
  intros Hi Hlen. unfold fill.
  assert (Hin : In i (range a b)) by (apply in_range; exact Hi).
  revert l Hlen Hin. generalize (range a b). intros ks.
  induction ks as [|k ks IH]; intros l Hlen Hin; simpl; [contradiction|].
  destruct (in_dec Z.eq_dec i ks) as [Hlater|Hlast].
  - apply IH; [rewrite length_zset; exact Hlen|exact Hlater].
  - destruct Hin as [->|Hin]; [|contradiction].
    assert (Hrest : forall l', zget (fold_left (fun l i => zset l i (f i)) ks l') i
                               = zget l' i).
    { clear IH Hlen. revert Hlast. induction ks as [|k ks IH]; intros Hlast l'; simpl;
        [reflexivity|].
      rewrite IH by (intros H; apply Hlast; right; exact H).
      apply zget_zset_ne. intros ->. apply Hlast. left. reflexivity. }
    rewrite Hrest. apply zget_zset_eq, Hlen.
Qed.

Definition ordered (s : Stops) : Prop :=
  0 <= stop0 s /\ stop0 s <= stop1 s /\ stop1 s <= stop2 s
  /\ stop2 s <= stop3 s /\ stop3 s <= stop4 s.

Definition sorted (m : Maps) : Prop :=
  (map0 m <= map1 m /\ map1 m <= map2 m /\ map2 m <= map3 m /\ map3 m <= map4 m)%Q.

(** The value that the four loops leave at [y], between the outer stops. *)
Definition segmentAt (s : Stops) (m : Maps) (y : Z) : Z :=
  if y <? stop1 s then lerp (map0 m) (map1 m) (stop0 s) (stop1 s) y
  else if y <? stop2 s then lerp (map1 m) (map2 m) (stop1 s) (stop2 s) y
  else if y <? stop3 s then lerp (map2 m) (map3 m) (stop2 s) (stop3 s) y
  else lerp (map3 m) (map4 m) (stop3 s) (stop4 s) y.

Lemma fillSegments_in (l : list Z) (s : Stops) (m : Maps) (y : Z) :
  ordered s -> stop0 s <= y < stop4 s -> y < Z.of_nat (length l) ->
  zget (fillSegments l s m) y = segmentAt s m y.
Proof.
  intros (H0 & H1 & H2 & H3 & H4) Hy Hlen. unfold fillSegments, segmentAt.
  destruct (Z.ltb_spec y (stop1 s)).
  { rewrite !zget_fill_out by lia. apply zget_fill_in; lia. }
  destruct (Z.ltb_spec y (stop2 s)).
  { rewrite !zget_fill_out by lia. apply zget_fill_in; [lia|].
    rewrite length_fill. lia. }
  destruct (Z.ltb_spec y (stop3 s)).
  { rewrite !zget_fill_out by lia. apply zget_fill_in; [lia|].
    rewrite !length_fill. lia. }
  apply zget_fill_in; [lia|]. rewrite !length_fill. lia.
Qed.

Lemma fillSegments_out (l : list Z) (s : Stops) (m : Maps) (y : Z) :
  ordered s -> ~ stop0 s <= y < stop4 s ->
  zget (fillSegments l s m) y = zget l y.
Proof.
  intros (H0 & H1 & H2 & H3 & H4) Hy. unfold fillSegments.
  rewrite !zget_fill_out by lia. reflexivity.
Qed.


(** The stops of a map are doubles; the stops of the source are at most 256
    positions apart. *)
Definition dblMaps (m : Maps) : Prop :=
  dbl (map0 m) /\ dbl (map1 m) /\ dbl (map2 m) /\ dbl (map3 m) /\ dbl (map4 m).

Definition narrow (s : Stops) : Prop := stop4 s - stop0 s <= 256.

Lemma sorted_trunc (m : Maps) :
  sorted m ->
  truncQ (map0 m) <= truncQ (map1 m) /\ truncQ (map1 m) <= truncQ (map2 m)
  /\ truncQ (map2 m) <= truncQ (map3 m) /\ truncQ (map3 m) <= truncQ (map4 m).
Proof. intros (H1 & H2 & H3 & H4). repeat split; apply truncQ_mono; assumption. Qed.

(** Between the outer stops, a sorted map sends the source lines to
    destination lines in order. *)
Lemma segmentAt_mono (s : Stops) (m : Maps) (y y' : Z) :
  ordered s -> narrow s -> dblMaps m -> sorted m ->
  stop0 s <= y -> y <= y' -> y' < stop4 s ->
  segmentAt s m y <= segmentAt s m y'.
Proof.
  intros (H0 & H1 & H2 & H3 & H4) Hn (D0 & D1 & D2 & D3 & D4) Hm Hy Hyy Hy'.
  unfold narrow in Hn.
  pose proof (sorted_trunc m Hm) as (T1 & T2 & T3 & T4).
  destruct Hm as (M1 & M2 & M3 & M4). unfold segmentAt.
  destruct (Z.ltb_spec y (stop1 s)); destruct (Z.ltb_spec y' (stop1 s)); try lia;
    [apply lerp_mono; [assumption|lia|lia]| |].
  - pose proof (lerp_upper _ _ (stop0 s) (stop1 s) y D1 M1 ltac:(lia) ltac:(lia)) as U.
    destruct (Z.ltb_spec y' (stop2 s)).
    { pose proof (lerp_lower _ _ (stop1 s) (stop2 s) y' D1 M2 ltac:(lia) ltac:(lia)). lia. }
    destruct (Z.ltb_spec y' (stop3 s)).
    { pose proof (lerp_lower _ _ (stop2 s) (stop3 s) y' D2 M3 ltac:(lia) ltac:(lia)). lia. }
    pose proof (lerp_lower _ _ (stop3 s) (stop4 s) y' D3 M4 ltac:(lia) ltac:(lia)). lia.
  - destruct (Z.ltb_spec y (stop2 s)); destruct (Z.ltb_spec y' (stop2 s)); try lia;
      [apply lerp_mono; [assumption|lia|lia]| |].
    + pose proof (lerp_upper _ _ (stop1 s) (stop2 s) y D2 M2 ltac:(lia) ltac:(lia)) as U.
      destruct (Z.ltb_spec y' (stop3 s)).
      { pose proof (lerp_lower _ _ (stop2 s) (stop3 s) y' D2 M3 ltac:(lia) ltac:(lia)). lia. }
      pose proof (lerp_lower _ _ (stop3 s) (stop4 s) y' D3 M4 ltac:(lia) ltac:(lia)). lia.
    + destruct (Z.ltb_spec y (stop3 s)); destruct (Z.ltb_spec y' (stop3 s)); try lia;
        [apply lerp_mono; [assumption|lia|lia]| |apply lerp_mono; [assumption|lia|lia]].
      pose proof (lerp_upper _ _ (stop2 s) (stop3 s) y D3 M3 ltac:(lia) ltac:(lia)) as U.
      pose proof (lerp_lower _ _ (stop3 s) (stop4 s) y' D3 M4 ltac:(lia) ltac:(lia)). lia.
Qed.

Lemma scaledY_at (s : Stops) (m : Maps) (y : Z) :
  ordered s -> stop4 s <= TILE_HEIGHT -> 0 <= y < TILE_HEIGHT ->
  zget (scaledY s m) y
  = if (stop0 s <=? y) && (y <? stop4 s) then segmentAt s m y else -1.
Proof.
  intros Hs H4 Hy. pose proof Hs as (H0 & S1 & S2 & S3 & S4). unfold scaledY.
  assert (Hlen : Z.of_nat (length (replicate (Z.to_nat TILE_HEIGHT) 0)) = TILE_HEIGHT)
    by (rewrite length_replicate; reflexivity).
  destruct (Z.leb_spec (stop0 s) y) as [Hlo|Hlo]; cbn [andb].
  - destruct (Z.ltb_spec y (stop4 s)) as [Hhi|Hhi].
    + rewrite zget_fill_out by lia.
      apply fillSegments_in; [exact Hs|lia|]. rewrite length_fill, Hlen. lia.
    + apply zget_fill_in; [lia|].
      unfold fillSegments. rewrite !length_fill, Hlen. lia.
  - rewrite zget_fill_out by lia.
    rewrite fillSegments_out by (exact Hs || lia).
    apply zget_fill_in; [lia|]. rewrite Hlen. lia.
Qed.


Lemma scaledY_monotone (s : Stops) (m : Maps) (tileHeight : Z) :
  ordered s -> stop4 s <= TILE_HEIGHT -> dblMaps m -> sorted m ->
  forall i j, 0 <= i < j -> j < TILE_HEIGHT ->
              0 <= zget (scaledY s m) i < tileHeight ->
              0 <= zget (scaledY s m) j < tileHeight ->
              zget (scaledY s m) i <= zget (scaledY s m) j.
Proof.
  intros Hs H4 Hd Hm i j Hij Hj.
  assert (Hn : narrow s).
  { unfold narrow. destruct Hs as (H0 & _). unfold TILE_HEIGHT in H4. lia. }
  rewrite !scaledY_at by (assumption || lia).
  destruct (Z.leb_spec (stop0 s) i), (Z.ltb_spec i (stop4 s)); cbn [andb]; try lia.
  destruct (Z.leb_spec (stop0 s) j), (Z.ltb_spec j (stop4 s)); cbn [andb]; try lia.
  intros _ _. apply segmentAt_mono; assumption || lia.
Qed.

(** A map whose stops lie in the tile, the inner ones an eighth of a pixel
    or more before its end, sends every source position into the tile, in
    whatever order the inner stops come. *)
Lemma segmentAt_inside (s : Stops) (m : Maps) (n y : Z) :
  ordered s -> narrow s -> dblMaps m ->
  ((0 <= map0 m)%Q /\ (0 <= map1 m)%Q /\ (0 <= map2 m)%Q /\ (0 <= map3 m)%Q) ->
  ((map0 m + (1 # 8) <= map4 m)%Q /\ (map1 m + (1 # 8) <= map4 m)%Q
   /\ (map2 m + (1 # 8) <= map4 m)%Q /\ (map3 m + (1 # 8) <= map4 m)%Q) ->
  (map4 m <= iq n)%Q -> (map4 m <= 4294967296)%Q ->
  stop0 s <= y < stop4 s ->
  0 <= segmentAt s m y < n.
Proof.
  intros (S0 & S1 & S2 & S3 & S4) Hn (D0 & D1 & D2 & D3 & D4)
         (L0 & L1 & L2 & L3) (U0 & U1 & U2 & U3) Hend Hbig Hy.
  unfold narrow in Hn. unfold segmentAt, lerp.
  destruct (Z.ltb_spec y (stop1 s)).
  { destruct (lerpD_within 0 (map4 m - (1 # 8)) (map0 m) (map1 m) (stop0 s) (stop1 s) y)
      as [L U]; try assumption; try lia; try lra.
    apply truncQ_inside; lra. }
  destruct (Z.ltb_spec y (stop2 s)).
  { destruct (lerpD_within 0 (map4 m - (1 # 8)) (map1 m) (map2 m) (stop1 s) (stop2 s) y)
      as [L U]; try assumption; try lia; try lra.
    apply truncQ_inside; lra. }
  destruct (Z.ltb_spec y (stop3 s)).
  { destruct (lerpD_within 0 (map4 m - (1 # 8)) (map2 m) (map3 m) (stop2 s) (stop3 s) y)
      as [L U]; try assumption; try lia; try lra.
    apply truncQ_inside; lra. }
  pose proof (lerpD_lower (map3 m) (map4 m) (stop3 s) (stop4 s) y D3 ltac:(lra)
                ltac:(lia) ltac:(lia)) as L.
  pose proof (lerpD_strict (map3 m) (map4 m) (stop3 s) (stop4 s) y L3 U3 Hbig
                ltac:(lia) ltac:(lia)) as U.
  apply truncQ_inside; lra.
Qed.

Lemma horizStops_ordered : ordered horizStops.
Proof. by_compute. Qed.

Lemma horizStops_narrow : narrow horizStops.
Proof. by_compute. Qed.

Lemma scaledX_inside (m : Maps) (tileWidth x0 : Z) :
  dblMaps m ->
  ((0 <= map0 m)%Q /\ (0 <= map1 m)%Q /\ (0 <= map2 m)%Q /\ (0 <= map3 m)%Q) ->
  ((map0 m + (1 # 8) <= map4 m)%Q /\ (map1 m + (1 # 8) <= map4 m)%Q
   /\ (map2 m + (1 # 8) <= map4 m)%Q /\ (map3 m + (1 # 8) <= map4 m)%Q) ->
  (map4 m <= iq tileWidth)%Q -> (map4 m <= 4294967296)%Q ->
  0 <= x0 < TILE_WIDTH ->
  0 <= zget (scaledX m) x0 < tileWidth.
Proof.
  intros Hd Hlo Hhi Hend Hbig Hx. unfold scaledX.
  rewrite fillSegments_in.
  - apply segmentAt_inside;
      first [assumption | apply horizStops_ordered | apply horizStops_narrow | exact Hx].
  - apply horizStops_ordered.
  - exact Hx.
  - rewrite length_replicate. unfold TILE_WIDTH in *. lia.
Qed.


(** ** The stops of a map, as doubles *)

(** A double-free form of the quotients by constants. *)
Lemma Qdiv_iq (x : Q) (n : Z) : 0 < n -> (x / iq n == x * (1 # Z.to_pos n))%Q.
Proof.
  intros Hn. unfold Qdiv. apply Qmult_comp; [reflexivity|].
  destruct n as [|p|p]; try lia. reflexivity.
Qed.

(** The term of a shift: [shifts[k] * 0.1]. *)
Lemma shift_zero : (dmul (iq 0) d0_1 == 0)%Q.
Proof.
  unfold dmul. rewrite (rnd_zero (iq 0 * d0_1)) by (change (iq 0) with 0%Q; ring).
  reflexivity.
Qed.

Lemma d0_1_near : ((1 # 10) - (1 # 10) * eps <= d0_1)%Q /\ (d0_1 <= (1 # 10) + (1 # 10) * eps)%Q.
Proof. unfold d0_1. apply rnd_rel_pos. lra. Qed.

(** A shift of an [int8_t] is its tenth, up to 2^-48. *)
Lemma shift_near (sh : Z) :
  -128 <= sh <= 127 ->
  (iq sh * (1 # 10) - (1 # 281474976710656) <= dmul (iq sh) d0_1)%Q
  /\ (dmul (iq sh) d0_1 <= iq sh * (1 # 10) + (1 # 281474976710656))%Q.
Proof.
  intros Hs. destruct d0_1_near as [L U]. pose proof eps_val as He.
  rewrite He in L, U.
  assert (H1 : (iq (-128) <= iq sh)%Q) by (apply iq_le; lia).
  assert (H2 : (iq sh <= iq 127)%Q) by (apply iq_le; lia).
  change (iq (-128)) with (- (128))%Q in H1. change (iq 127) with 127%Q in H2.
  set (S := iq sh) in *. set (c := d0_1) in *. clearbody S c.
  assert (Hprod : (S * (1 # 10) - (128 # 10) * (1 # 9007199254740992) <= S * c)%Q
                  /\ (S * c <= S * (1 # 10) + (128 # 10) * (1 # 9007199254740992))%Q).
  { destruct (Qlt_le_dec S 0) as [Hn|Hp].
    - assert (A1 : (S * ((1 # 10) + (1 # 10) * (1 # 9007199254740992)) <= S * c)%Q).
      { assert (A : (- S * c <= - S * ((1 # 10) + (1 # 10) * (1 # 9007199254740992)))%Q)
          by (rewrite !(Qmult_comm (- S)); apply Qmult_le_compat_r; lra).
        lra. }
      assert (A2 : (S * c <= S * ((1 # 10) - (1 # 10) * (1 # 9007199254740992)))%Q).
      { assert (A : (- S * ((1 # 10) - (1 # 10) * (1 # 9007199254740992)) <= - S * c)%Q)
          by (rewrite !(Qmult_comm (- S)); apply Qmult_le_compat_r; lra).
        lra. }
      split; lra.
    - assert (A1 : (S * ((1 # 10) - (1 # 10) * (1 # 9007199254740992)) <= S * c)%Q)
        by (rewrite !(Qmult_comm S); apply Qmult_le_compat_r; lra).
      assert (A2 : (S * c <= S * ((1 # 10) + (1 # 10) * (1 # 9007199254740992)))%Q)
        by (rewrite !(Qmult_comm S); apply Qmult_le_compat_r; lra).
      split; lra. }
  destruct Hprod as [PL PU]. unfold dmul.
  destruct (rnd_abs 16 (S * c)) as [RL RU]; [lra|lra|].
  rewrite He in RL, RU. split; lra.
Qed.

Section Stop.
(** The stop [map0 + glyph * (double)a / n] for [map0 = z0]. *)
Variables z0 g a n : Z.
Hypothesis z0_nonneg : 0 <= z0.
Hypothesis g_pos : 1 <= g.
Hypothesis size_int : z0 + g <= 2 ^ 31.
Hypothesis a_range : 0 <= a <= n.
Hypothesis n_range : 0 < n <= 232.

Definition propStop : Q := dadd (iq z0) (ddiv (dmul (iq g) (iq a)) (iq n)).

(** The exact share [glyph * a / n]. *)
Definition share : Q := (iq (g * a) / iq n)%Q.

Lemma share_range : (0 <= share)%Q /\ (share <= iq g)%Q.
Proof.
  unfold share. change 0%Q with (iq 0).
  apply quotient_bounds; [lia|]. split; nia.
Qed.

Lemma ddiv_share :
  (0 <= ddiv (dmul (iq g) (iq a)) (iq n))%Q
  /\ (ddiv (dmul (iq g) (iq a)) (iq n) <= iq g)%Q
  /\ (share - (1 # 4194304) <= ddiv (dmul (iq g) (iq a)) (iq n))%Q
  /\ (ddiv (dmul (iq g) (iq a)) (iq n) <= share + (1 # 4194304))%Q.
Proof.
  destruct share_range as [L U].
  assert (Hg : (iq g <= 2147483648)%Q)
    by (change 2147483648%Q with (iq (2 ^ 31)); apply iq_le; lia).
  rewrite dmul_iq by nia. fold share. unfold ddiv. fold share.
  split; [apply rnd_nonneg, L|].
  split; [apply rnd_le; [apply dbl_iq; lia|exact U]|].
  destruct (rnd_abs 2147483648 share) as [RL RU]; [lra|lra|].
  pose proof eps_val as He. rewrite He in RL, RU. split; lra.
Qed.

Lemma dbl_propStop : dbl propStop.
Proof. apply dbl_rnd. Qed.

Lemma propStop_range : (iq z0 <= propStop)%Q /\ (propStop <= iq (z0 + g))%Q.
Proof.
  destruct ddiv_share as (L & U & _). unfold propStop, dadd. split.
  - apply rnd_ge; [apply dbl_iq; lia|]. lra.
  - apply rnd_le; [apply dbl_iq; lia|]. rewrite iq_plus. lra.
Qed.

Lemma propStop_near :
  (iq z0 + share - (1 # 1048576) <= propStop)%Q
  /\ (propStop <= iq z0 + share + (1 # 1048576))%Q.
Proof.
  destruct ddiv_share as (L & U & NL & NU).
  assert (Hz : (iq z0 <= 2147483648)%Q)
    by (change 2147483648%Q with (iq (2 ^ 31)); apply iq_le; lia).
  assert (Hg : (iq g <= 2147483648)%Q)
    by (change 2147483648%Q with (iq (2 ^ 31)); apply iq_le; lia).
  pose proof (iq_nonneg z0 z0_nonneg) as Hz0.
  set (q := ddiv (dmul (iq g) (iq a)) (iq n)) in *.
  unfold propStop, dadd. fold q.
  destruct (rnd_abs 4294967296 (iq z0 + q)) as [RL RU]; [lra|lra|].
  pose proof eps_val as He. rewrite He in RL, RU. split; lra.
Qed.
End Stop.

(** The stops rise with the position in the source. *)
Lemma propStop_mono (z0 g a a' n : Z) :
  0 <= g -> 0 < n -> a <= a' -> (propStop z0 g a n <= propStop z0 g a' n)%Q.
Proof.
  intros Hg Hn Ha. unfold propStop, dadd, ddiv, dmul.
  apply rnd_mono, Qplus_le_r, rnd_mono, Qdiv_le_compat; [apply iq_pos, Hn|].
  apply rnd_mono. rewrite !(Qmult_comm (iq g)).
  apply Qmult_le_compat_r; [apply iq_le, Ha|apply iq_nonneg, Hg].
Qed.

(** A share between two fractions of the glyph. *)
Lemma share_between (g a n : Z) (lo hi : Q) :
  0 <= g -> 0 < n ->
  (lo * iq n <= iq a)%Q -> (iq a <= hi * iq n)%Q ->
  (iq g * lo <= share g a n)%Q /\ (share g a n <= iq g * hi)%Q.
Proof.
  intros Hg Hn L U. unfold share.
  pose proof (iq_pos n Hn) as Pn. pose proof (iq_nonneg g Hg) as Pg.
  rewrite iq_mult. split.
  - apply Qle_shift_div_l; [exact Pn|].
    assert (E : (iq g * lo * iq n == iq g * (lo * iq n))%Q) by ring.
    rewrite E, !(Qmult_comm (iq g)). apply Qmult_le_compat_r; assumption.
  - apply Qle_shift_div_r; [exact Pn|].
    assert (E : (iq g * hi * iq n == iq g * (hi * iq n))%Q) by ring.
    rewrite E, !(Qmult_comm (iq g)). apply Qmult_le_compat_r; assumption.
Qed.


(** ** The shifts that the optimizer leaves *)

(** A triple of shifts is the identity, or it belongs to a glyph size that
    the optimizer calibrates and lies in the windows of its searches: the
    two edge shifts in [-5, 5], the mid shift within 5 of a midpoint of two
    such shifts.  This holds at every moment of the optimizer's run. *)
Definition calibrated (minGlyph glyph : Z) (sh : Z -> Z) : Prop :=
  sh 0 = 0 /\ sh 1 = 0 /\ sh 2 = 0
  \/ minGlyph <= glyph /\ -5 <= sh 0 <= 5 /\ -5 <= sh 1 <= 5 /\ -10 <= sh 2 <= 10.

(** A horizontal stop with its shift: not before the tile, and an eighth of
    a pixel or more before the end of the glyph. *)
Lemma horizStop_inside (z0 g a sh : Z) :
  0 <= z0 -> 1 <= g -> z0 + g <= 2 ^ 31 ->
  a = 25 \/ a = 64 \/ a = 102 ->
  sh = 0 \/ 5 <= g /\ -10 <= sh <= 10 /\ (a <> 64 -> -5 <= sh <= 5) ->
  let v := dadd (propStop z0 g a 128) (dmul (iq sh) d0_1) in
  (0 <= v)%Q /\ (v + (1 # 8) <= iq (z0 + g))%Q.
Proof.
  intros Hz Hg Hs Ha Hsh v.
  destruct (propStop_near z0 g a 128 Hz Hg Hs ltac:(lia) ltac:(lia)) as [PL PU].
  destruct (propStop_range z0 g a 128 Hz Hg Hs ltac:(lia) ltac:(lia)) as [RL RU].
  assert (Es : (share g a 128 == iq g * (iq a * (1 # 128)))%Q).
  { unfold share. rewrite iq_mult. change (iq 128) with 128%Q. field. }
  rewrite Es in PL, PU. rewrite iq_plus in *.
  pose proof (iq_nonneg z0 Hz) as Qz.
  assert (Qg : (1 <= iq g)%Q) by (change 1%Q with (iq 1); apply iq_le, Hg).
  assert (Hd : dbl (iq z0 + iq g - (1 # 8))).
  { assert (E : (iq z0 + iq g - (1 # 8) == iq (8 * (z0 + g) - 1) * pow2 (-3))%Q).
    { replace (8 * (z0 + g) - 1) with (8 * z0 + 8 * g + -1) by lia.
      rewrite !iq_plus, !iq_mult. change (pow2 (-3)) with (1 # 8)%Q.
      change (iq 8) with 8%Q. change (iq (-1)) with (-1)%Q. ring. }
    rewrite E. apply dbl_dyadic. lia. }
  set (P := propStop z0 g a 128) in *. set (G := iq g) in *. set (Z0 := iq z0) in *.
  subst v. unfold dadd.
  destruct Hsh as [->|(H5 & H10 & Hedge)].
  - rewrite shift_zero.
    assert (E0 : (P + 0 == P)%Q) by ring. rewrite E0.
    split; [apply rnd_nonneg; lra|].
    assert (Hu : (P <= Z0 + G - (1 # 8))%Q).
    { destruct Ha as [->|[->| ->]];
        [change (iq 25) with 25%Q in PU|change (iq 64) with 64%Q in PU
         |change (iq 102) with 102%Q in PU]; lra. }
    pose proof (rnd_le _ _ Hd Hu). lra.
  - destruct (shift_near sh ltac:(lia)) as [SL SU].
    assert (Q5 : (5 <= G)%Q) by (change 5%Q with (iq 5); apply iq_le, H5).
    assert (S10 : (- (10) <= iq sh)%Q /\ (iq sh <= 10)%Q).
    { change (- (10))%Q with (iq (-10)). change 10%Q with (iq 10).
      split; apply iq_le; lia. }
    set (s := dmul (iq sh) d0_1) in *. set (S := iq sh) in *.
    destruct Ha as [->|[->| ->]].
    + assert (S5 : (- (5) <= S)%Q /\ (S <= 5)%Q).
      { change (- (5))%Q with (iq (-5)). change 5%Q with (iq 5).
        split; apply iq_le; lia. }
      change (iq 25) with 25%Q in *.
      split; [apply rnd_nonneg; lra|].
      assert (Hu : (P + s <= Z0 + G - (1 # 8))%Q) by lra.
      pose proof (rnd_le _ _ Hd Hu). lra.
    + change (iq 64) with 64%Q in *.
      split; [apply rnd_nonneg; lra|].
      assert (Hu : (P + s <= Z0 + G - (1 # 8))%Q) by lra.
      pose proof (rnd_le _ _ Hd Hu). lra.
    + assert (S5 : (- (5) <= S)%Q /\ (S <= 5)%Q).
      { change (- (5))%Q with (iq (-5)). change 5%Q with (iq 5).
        split; apply iq_le; lia. }
      change (iq 102) with 102%Q in *.
      split; [apply rnd_nonneg; lra|].
      assert (Hu : (P + s <= Z0 + G - (1 # 8))%Q) by lra.
      pose proof (rnd_le _ _ Hd Hu). lra.
Qed.

Lemma horizMaps_inside (g : Tiles) (row column fitWidth glyphWidth tileWidth : Z) :
  1 <= glyphWidth <= fitWidth -> fitWidth <= tileWidth -> tileWidth < 2 ^ 31 ->
  calibrated 5 glyphWidth (shiftsAt g row column 0 glyphWidth) ->
  let m := horizMaps g row column fitWidth glyphWidth in
  dblMaps m
  /\ ((0 <= map0 m)%Q /\ (0 <= map1 m)%Q /\ (0 <= map2 m)%Q /\ (0 <= map3 m)%Q)
  /\ ((map0 m + (1 # 8) <= map4 m)%Q /\ (map1 m + (1 # 8) <= map4 m)%Q
      /\ (map2 m + (1 # 8) <= map4 m)%Q /\ (map3 m + (1 # 8) <= map4 m)%Q)
  /\ (map4 m <= iq tileWidth)%Q /\ (map4 m <= 4294967296)%Q.
Proof.
  intros Hg Hfit Hint Hcal m.
  set (sh := shiftsAt g row column 0 glyphWidth) in *.
  set (z0 := (fitWidth - glyphWidth + (if sh 0 + sh 1 <? 0 then 1 else 0)) ÷ 2).
  assert (Hz0 : 0 <= z0 /\ z0 + glyphWidth <= fitWidth)
    by (subst z0; destruct (sh 0 + sh 1 <? 0); split; lia_div).
  assert (Hm : m = mkMaps (iq z0)
                          (dadd (propStop z0 glyphWidth 25 128) (dmul (iq (sh 0)) d0_1))
                          (dadd (propStop z0 glyphWidth 64 128) (dmul (iq (sh 2)) d0_1))
                          (dadd (propStop z0 glyphWidth 102 128) (dmul (iq (sh 1)) d0_1))
                          (dadd (iq z0) (iq glyphWidth))) by reflexivity.
  rewrite Hm. unfold dblMaps. cbn [map0 map1 map2 map3 map4]. clear Hm.
  assert (H4 : (dadd (iq z0) (iq glyphWidth) == iq (z0 + glyphWidth))%Q)
    by (apply dadd_iq; lia).
  assert (Hstop : forall a k, a = 25 \/ a = 64 \/ a = 102 ->
            (a = 25 -> k = 0) -> (a = 64 -> k = 2) -> (a = 102 -> k = 1) ->
            let v := dadd (propStop z0 glyphWidth a 128) (dmul (iq (sh k)) d0_1) in
            (0 <= v)%Q /\ (v + (1 # 8) <= iq (z0 + glyphWidth))%Q).
  { intros a k Ha K25 K64 K102. apply horizStop_inside; try lia.
    destruct Hcal as [(E0 & E1 & E2)|(Hmin & R0 & R1 & R2)].
    - left. destruct Ha as [->|[->| ->]];
        [rewrite (K25 eq_refl)|rewrite (K64 eq_refl)|rewrite (K102 eq_refl)]; assumption.
    - right. destruct Ha as [->|[->| ->]];
        [rewrite (K25 eq_refl)|rewrite (K64 eq_refl)|rewrite (K102 eq_refl)];
        repeat split; lia. }
  destruct (Hstop 25 0) as [L1 U1]; [auto|auto|intros; lia|intros; lia|].
  destruct (Hstop 64 2) as [L2 U2]; [auto|intros; lia|auto|intros; lia|].
  destruct (Hstop 102 1) as [L3 U3]; [auto|intros; lia|intros; lia|auto|].
  cbv zeta in L1, U1, L2, U2, L3, U3.
  assert (Qz : (0 <= iq z0)%Q) by (apply iq_nonneg; lia).
  assert (Qg : (1 <= iq glyphWidth)%Q) by (change 1%Q with (iq 1); apply iq_le; lia).
  assert (Qt : (iq (z0 + glyphWidth) <= iq tileWidth)%Q) by (apply iq_le; lia).
  assert (Qb : (iq tileWidth <= 4294967296)%Q)
    by (change 4294967296%Q with (iq (2 ^ 32)); apply iq_le; lia).
  rewrite H4.
  split; [|split; [|split; [|split]]].
  - repeat split; try apply dbl_rnd; apply dbl_iq; lia.
  - repeat split; assumption.
  - repeat split; try assumption. rewrite iq_plus. lra.
  - exact Qt.
  - lra.
Qed.


Lemma vertStops_ordered (g : Tiles) (row column : Z) :
  0 <= tilePadding g row column <= TILE_HEIGHT / 4 ->
  ordered (vertStops g row column) /\ stop4 (vertStops g row column) <= TILE_HEIGHT.
Proof.
  intros Hp. unfold vertStops, ordered.
  destruct (is_t (TileProcessing row column)); [by_compute|].
  cbn [stop0 stop1 stop2 stop3 stop4].
  set (p := tilePadding g row column) in *.
  unfold TILE_HEIGHT in *. change (232 / 4) with 58 in Hp.
  clearbody p. repeat split; lia_div.
Qed.

(** An integer inequality between multiples, read on the rationals. *)
Lemma iq_scaled_le (c d a b : Z) : c * a <= d * b -> (iq c * iq a <= iq d * iq b)%Q.
Proof. intros H. rewrite <- !iq_mult. apply iq_le, H. Qed.

Lemma vertMaps_sorted_plain (g : Tiles) (row column fitHeight glyphHeight : Z) :
  is_t (TileProcessing row column) = false ->
  0 <= tilePadding g row column <= TILE_HEIGHT / 4 ->
  1 <= glyphHeight <= fitHeight -> fitHeight < 2 ^ 31 ->
  calibrated 7 glyphHeight (shiftsAt g row column 1 glyphHeight) ->
  dblMaps (vertMaps g row column fitHeight glyphHeight)
  /\ sorted (vertMaps g row column fitHeight glyphHeight).
Proof.
  intros Ht Hp Hg Hint Hcal.
  set (sh := shiftsAt g row column 1 glyphHeight) in *.
  set (p := tilePadding g row column) in *.
  set (z0 := (fitHeight - glyphHeight) ÷ 2).
  set (n := TILE_HEIGHT - p - p).
  assert (Hn : 116 <= n <= 232)
    by (subst n; unfold TILE_HEIGHT in *; change (232 / 4) with 58 in Hp; lia).
  assert (Hz0 : 0 <= z0 /\ z0 + glyphHeight <= fitHeight) by (subst z0; split; lia_div).
  assert (Hm : vertMaps g row column fitHeight glyphHeight
               = mkMaps (iq z0)
                   (dadd (propStop z0 glyphHeight (p + n ÷ 5 - p) n) (dmul (iq (sh 0)) d0_1))
                   (dadd (propStop z0 glyphHeight (p + n ÷ 2 - p) n) (dmul (iq (sh 2)) d0_1))
                   (dadd (propStop z0 glyphHeight (p + n * 4 ÷ 5 - p) n)
                         (dmul (iq (sh 1)) d0_1))
                   (dadd (iq z0) (iq glyphHeight))).
  { unfold vertMaps, vertMapsAligned, vertStops. rewrite Ht. reflexivity. }
  rewrite Hm. clear Hm. unfold dblMaps, sorted. cbn [map0 map1 map2 map3 map4].
  replace (p + n ÷ 5 - p) with (n / 5) by lia_div.
  replace (p + n ÷ 2 - p) with (n / 2) by lia_div.
  replace (p + n * 4 ÷ 5 - p) with (n * 4 / 5) by lia_div.
  set (a1 := n / 5). set (a2 := n / 2). set (a3 := n * 4 / 5).
  assert (Ha : 5 * a1 <= n < 5 * a1 + 5 /\ 2 * a2 <= n < 2 * a2 + 2
               /\ 5 * a3 <= 4 * n < 5 * a3 + 5) by (subst a1 a2 a3; lia_div).
  destruct Ha as (A1 & A2 & A3).
  assert (H4 : (dadd (iq z0) (iq glyphHeight) == iq (z0 + glyphHeight))%Q)
    by (apply dadd_iq; lia).
  rewrite H4.
  split; [repeat split; try apply dbl_rnd; apply dbl_iq; lia|].
  destruct (propStop_range z0 glyphHeight a1 n) as [R1L R1U]; try lia.
  destruct (propStop_range z0 glyphHeight a3 n) as [R3L R3U]; try lia.
  pose proof (propStop_mono z0 glyphHeight a1 a2 n ltac:(lia) ltac:(lia) ltac:(lia)) as M12.
  pose proof (propStop_mono z0 glyphHeight a2 a3 n ltac:(lia) ltac:(lia) ltac:(lia)) as M23.
  assert (Dz : dbl (iq z0)) by (apply dbl_iq; lia).
  assert (De : dbl (iq (z0 + glyphHeight))) by (apply dbl_iq; lia).
  destruct Hcal as [(E0 & E1 & E2)|(Hmin & R0 & R1 & R2)].
  - rewrite E0, E1, E2. unfold dadd at 1 2 3 4 5 6. rewrite shift_zero.
    repeat split.
    + apply rnd_ge; [exact Dz|]. lra.
    + apply rnd_mono. lra.
    + apply rnd_mono. lra.
    + apply rnd_le; [exact De|]. lra.
  - destruct (propStop_near z0 glyphHeight a1 n) as [N1L N1U]; try lia.
    destruct (propStop_near z0 glyphHeight a2 n) as [N2L N2U]; try lia.
    destruct (propStop_near z0 glyphHeight a3 n) as [N3L N3U]; try lia.
    destruct (share_between glyphHeight a1 n (19 # 100) (1 # 5)) as [T1L T1U];
      try lia.
    { pose proof (iq_scaled_le 19 100 n a1 ltac:(lia)) as H.
      change (iq 19) with 19%Q in H. change (iq 100) with 100%Q in H. lra. }
    { pose proof (iq_scaled_le 5 1 a1 n ltac:(lia)) as H.
      change (iq 5) with 5%Q in H. change (iq 1) with 1%Q in H. lra. }
    destruct (share_between glyphHeight a2 n (49 # 100) (1 # 2)) as [T2L T2U];
      try lia.
    { pose proof (iq_scaled_le 49 100 n a2 ltac:(lia)) as H.
      change (iq 49) with 49%Q in H. change (iq 100) with 100%Q in H. lra. }
    { pose proof (iq_scaled_le 2 1 a2 n ltac:(lia)) as H.
      change (iq 2) with 2%Q in H. change (iq 1) with 1%Q in H. lra. }
    destruct (share_between glyphHeight a3 n (79 # 100) (4 # 5)) as [T3L T3U];
      try lia.
    { pose proof (iq_scaled_le 79 100 n a3 ltac:(lia)) as H.
      change (iq 79) with 79%Q in H. change (iq 100) with 100%Q in H. lra. }
    { pose proof (iq_scaled_le 5 4 a3 n ltac:(lia)) as H.
      change (iq 5) with 5%Q in H. change (iq 4) with 4%Q in H. lra. }
    destruct (shift_near (sh 0) ltac:(lia)) as [S0L S0U].
    destruct (shift_near (sh 1) ltac:(lia)) as [S1L S1U].
    destruct (shift_near (sh 2) ltac:(lia)) as [S2L S2U].
    assert (B0 : (- (5) <= iq (sh 0%Z))%Q /\ (iq (sh 0%Z) <= 5)%Q).
    { change (- (5))%Q with (iq (-5)). change 5%Q with (iq 5). split; apply iq_le; lia. }
    assert (B1 : (- (5) <= iq (sh 1%Z))%Q /\ (iq (sh 1%Z) <= 5)%Q).
    { change (- (5))%Q with (iq (-5)). change 5%Q with (iq 5). split; apply iq_le; lia. }
    assert (B2 : (- (10) <= iq (sh 2%Z))%Q /\ (iq (sh 2%Z) <= 10)%Q).
    { change (- (10))%Q with (iq (-10)). change 10%Q with (iq 10).
      split; apply iq_le; lia. }
    assert (Q7 : (7 <= iq glyphHeight)%Q) by (change 7%Q with (iq 7); apply iq_le, Hmin).
    rewrite iq_plus in *.
    set (G := iq glyphHeight) in *. set (Z0 := iq z0) in *.
    set (P1 := propStop z0 glyphHeight a1 n) in *.
    set (P2 := propStop z0 glyphHeight a2 n) in *.
    set (P3 := propStop z0 glyphHeight a3 n) in *.
    set (T1 := share glyphHeight a1 n) in *.
    set (T2 := share glyphHeight a2 n) in *.
    set (T3 := share glyphHeight a3 n) in *.
    set (s0 := dmul (iq (sh 0)) d0_1) in *.
    set (s1 := dmul (iq (sh 1)) d0_1) in *.
    set (s2 := dmul (iq (sh 2)) d0_1) in *.
    unfold dadd. repeat split.
    + apply rnd_ge; [exact Dz|]. lra.
    + apply rnd_mono. lra.
    + apply rnd_mono. lra.
    + apply rnd_le; [exact De|]. lra.
Qed.


(** The vertical shifts that the optimizer leaves for a 't' tile: it only
    searches the first one. *)
Definition calibratedText (glyph : Z) (sh : Z -> Z) : Prop :=
  sh 1 = 0 /\ sh 2 = 0 /\ (sh 0 = 0 \/ 7 <= glyph /\ -5 <= sh 0 <= 5).

Lemma vertMapsAligned_end (g : Tiles) (row column fitHeight glyphHeight : Z) :
  map4 (vertMapsAligned g row column fitHeight glyphHeight)
  = dadd (iq ((fitHeight - glyphHeight) ÷ 2)) (iq glyphHeight).
Proof.
  unfold vertMapsAligned. destruct (is_t (TileProcessing row column)); reflexivity.
Qed.

(** An integer and three eighths is a double. *)
Lemma dbl_eighths (z k : Z) : Z.abs (8 * z + k) <= 2 ^ 53 -> dbl (iq z + iq k * (1 # 8)).
Proof.
  intros H.
  assert (E : (iq z + iq k * (1 # 8) == iq (8 * z + k) * pow2 (-3))%Q).
  { rewrite iq_plus, iq_mult. change (pow2 (-3)) with (1 # 8)%Q.
    change (iq 8) with 8%Q. ring. }
  rewrite E. apply dbl_dyadic, H.
Qed.

(** The rows of the x-height and of the baseline of a text cell, inside the
    area of the glyph. *)
Lemma textRows_inside (fitHeight glyphHeight : Z) :
  1 <= glyphHeight <= fitHeight -> fitHeight < 2 ^ 31 ->
  let z0 := (fitHeight - glyphHeight) ÷ 2 in
  let x := xHeightRow fitHeight glyphHeight in
  let b := baselineRow fitHeight glyphHeight in
  z0 <= x /\ x + 1 <= b /\ b <= z0 + glyphHeight
  /\ (7 <= glyphHeight -> z0 + 3 <= x).
Proof.
  intros Hg Hint z0 x b.
  assert (Hz0 : 0 <= z0 /\ z0 + glyphHeight <= fitHeight) by (subst z0; split; lia_div).
  assert (Ex : x = roundQ (propStop z0 glyphHeight 86 232)) by reflexivity.
  assert (Eb : b = Z.max (roundQ (dadd (iq x) (iq 1)))
                         (roundQ (dadd (propStop z0 glyphHeight 186 232)
                                       (dsub (iq x) (propStop z0 glyphHeight 86 232)))))
    by reflexivity.
  destruct (propStop_range z0 glyphHeight 86 232) as [R2L R2U]; try lia.
  destruct (propStop_near z0 glyphHeight 86 232) as [N2L N2U]; try lia.
  destruct (propStop_near z0 glyphHeight 186 232) as [N3L N3U]; try lia.
  assert (F2 : ((86 # 232) * iq 232 <= iq 86)%Q /\ (iq 86 <= (86 # 232) * iq 232)%Q)
    by (split; vm_compute; discriminate).
  assert (F3 : ((186 # 232) * iq 232 <= iq 186)%Q /\ (iq 186 <= (186 # 232) * iq 232)%Q)
    by (split; vm_compute; discriminate).
  destruct (share_between glyphHeight 86 232 (86 # 232) (86 # 232)
              ltac:(lia) ltac:(lia) (proj1 F2) (proj2 F2)) as [T2L T2U].
  destruct (share_between glyphHeight 186 232 (186 # 232) (186 # 232)
              ltac:(lia) ltac:(lia) (proj1 F3) (proj2 F3)) as [T3L T3U].
  clear F2 F3.
  pose proof (roundQ_bounds (propStop z0 glyphHeight 86 232)) as [RL RU].
  rewrite <- Ex in RL, RU.
  assert (Q1 : (1 <= iq glyphHeight)%Q) by (change 1%Q with (iq 1); apply iq_le; lia).
  assert (Hzx : z0 <= x) by (rewrite Ex; apply roundQ_ge, R2L).
  assert (Hxe : x + 1 <= z0 + glyphHeight).
  { assert (x <= z0 + glyphHeight - 1); [|lia]. rewrite Ex. apply roundQ_lt_half.
    replace (z0 + glyphHeight - 1) with (z0 + glyphHeight + -1) by lia.
    rewrite !iq_plus. change (iq (-1)) with (- (1))%Q.
    set (P2 := propStop z0 glyphHeight 86 232) in *.
    set (T2 := share glyphHeight 86 232) in *.
    set (G := iq glyphHeight) in *. lra. }
  assert (E1 : roundQ (dadd (iq x) (iq 1)) = x + 1).
  { rewrite dadd_iq by lia. apply roundQ_iq. }
  rewrite E1 in Eb.
  split; [exact Hzx|]. split; [lia|]. split.
  - rewrite Eb. apply Z.max_lub; [exact Hxe|].
    apply roundQ_lt_half.
    assert (Hd : (dsub (iq x) (propStop z0 glyphHeight 86 232) <= 1 # 2)%Q).
    { unfold dsub. apply rnd_le.
      - change (1 # 2)%Q with (iq 1 * pow2 (-1))%Q. apply dbl_dyadic. lia.
      - lra. }
    assert (Hs : (dadd (propStop z0 glyphHeight 186 232)
                       (dsub (iq x) (propStop z0 glyphHeight 86 232))
                  <= iq (z0 + glyphHeight) + iq 3 * (1 # 8))%Q).
    { unfold dadd. apply rnd_le; [apply dbl_eighths; lia|].
      rewrite iq_plus. change (iq 3) with 3%Q.
      set (P3 := propStop z0 glyphHeight 186 232) in *.
      set (T3 := share glyphHeight 186 232) in *.
      set (d := dsub (iq x) (propStop z0 glyphHeight 86 232)) in *.
      set (G := iq glyphHeight) in *. lra. }
    change (iq 3) with 3%Q in Hs. lra.
  - intros H7. rewrite Ex. apply roundQ_ge_half.
    + apply Qle_trans with (iq z0); [|exact R2L].
      change 0%Q with (iq 0). apply iq_le. lia.
    + assert (Q7 : (7 <= iq glyphHeight)%Q) by (change 7%Q with (iq 7); apply iq_le, H7).
      rewrite iq_plus. change (iq 3) with 3%Q.
      set (P2 := propStop z0 glyphHeight 86 232) in *.
      set (T2 := share glyphHeight 86 232) in *.
      set (G := iq glyphHeight) in *. lra.
Qed.

Lemma vertMaps_sorted_text (g : Tiles) (row column fitHeight glyphHeight : Z) :
  is_t (TileProcessing row column) = true ->
  1 <= glyphHeight <= fitHeight -> fitHeight < 2 ^ 31 ->
  calibratedText glyphHeight (shiftsAt g row column 1 glyphHeight) ->
  dblMaps (vertMaps g row column fitHeight glyphHeight)
  /\ sorted (vertMaps g row column fitHeight glyphHeight).
Proof.
  intros Ht Hg Hint (E1 & E2 & H0).
  destruct (vertMapsAligned_text g row column fitHeight glyphHeight Ht)
    as (A0 & A2 & A3 & A1).
  pose proof (vertMapsAligned_end g row column fitHeight glyphHeight) as A4.
  destruct (textRows_inside fitHeight glyphHeight Hg Hint) as (Hzx & Hxb & Hbe & H3).
  pose proof (dbl_xHeightRow fitHeight glyphHeight) as DX.
  pose proof (dbl_baselineRow fitHeight glyphHeight) as DB.
  set (sh := shiftsAt g row column 1 glyphHeight) in *.
  set (z0 := (fitHeight - glyphHeight) ÷ 2) in *.
  set (X := xHeightRow fitHeight glyphHeight) in *.
  set (B := baselineRow fitHeight glyphHeight) in *.
  assert (Hz0 : 0 <= z0 /\ z0 + glyphHeight <= fitHeight) by (subst z0; split; lia_div).
  assert (Dz : dbl (iq z0)) by (apply dbl_iq; lia).
  assert (M0 : map0 (vertMaps g row column fitHeight glyphHeight) = iq z0)
    by (unfold vertMaps; cbn [map0]; exact A0).
  assert (M4 : (map4 (vertMaps g row column fitHeight glyphHeight)
                == iq (z0 + glyphHeight))%Q).
  { unfold vertMaps. cbn [map4]. rewrite A4. apply dadd_iq. lia. }
  assert (M2 : (map2 (vertMaps g row column fitHeight glyphHeight) == iq X)%Q).
  { unfold vertMaps. cbn [map2]. fold sh. rewrite A2, E2. apply dadd_zero_shift, DX. }
  assert (M3 : (map3 (vertMaps g row column fitHeight glyphHeight) == iq B)%Q).
  { unfold vertMaps. cbn [map3]. fold sh. rewrite E1. unfold dadd. rewrite A3.
    apply dadd_zero_shift, DB. }
  assert (M1 : map1 (vertMaps g row column fitHeight glyphHeight)
               = dadd (dadd (iq z0) (ddiv (dsub (iq X) (iq z0)) 3))
                      (dmul (iq (sh 0)) d0_1)).
  { unfold vertMaps. cbn [map1]. fold sh. rewrite A1, A0, A2. reflexivity. }
  assert (R1 : (iq z0 <= map1 (vertMaps g row column fitHeight glyphHeight))%Q
               /\ (map1 (vertMaps g row column fitHeight glyphHeight) <= iq X)%Q).
  { rewrite M1.
    pose proof (third_accuracy z0 X ltac:(lia) ltac:(lia)) as Hacc.
    apply Qabs_Qle_condition in Hacc. destruct Hacc as [AL AU].
    set (a := dadd (iq z0) (ddiv (dsub (iq X) (iq z0)) 3)) in *.
    assert (Ed : (iq X - iq z0 == iq (X - z0))%Q).
    { replace (X - z0) with (X + - z0) by lia. rewrite iq_plus.
      unfold iq. rewrite inject_Z_opp. ring. }
    assert (E3 : ((iq X - iq z0) / 3 == iq (X - z0) * (1 # 3))%Q)
      by (rewrite Ed; field).
    rewrite E3 in AL, AU.
    assert (Hd0 : (0 <= iq (X - z0))%Q) by (change 0%Q with (iq 0); apply iq_le; lia).
    destruct H0 as [H0|[H7 H5]].
    - rewrite H0. rewrite dadd_zero_shift by apply dbl_rnd.
      subst a. rewrite dsub_iq by lia. unfold dadd, ddiv. split.
      + apply rnd_ge; [exact Dz|].
        assert (0 <= rnd (iq (X - z0) / 3))%Q; [|lra].
        apply rnd_ge; [apply dbl_iq; lia|].
        assert (E : (iq (X - z0) / 3 == iq (X - z0) * (1 # 3))%Q) by field.
        rewrite E. change (iq 0) with 0%Q. lra.
      + apply rnd_le; [exact DX|].
        assert (rnd (iq (X - z0) / 3) <= iq (X - z0))%Q; [|lra].
        apply rnd_le; [apply dbl_iq; lia|].
        assert (E : (iq (X - z0) / 3 == iq (X - z0) * (1 # 3))%Q) by field.
        rewrite E. lra.
    - destruct (shift_near (sh 0) ltac:(lia)) as [S0L S0U].
      assert (B0 : (- (5) <= iq (sh 0%Z))%Q /\ (iq (sh 0%Z) <= 5)%Q).
      { change (- (5))%Q with (iq (-5)). change 5%Q with (iq 5).
        split; apply iq_le; lia. }
      assert (Hd3 : (3 <= iq (X - z0))%Q).
      { change 3%Q with (iq 3). apply iq_le. specialize (H3 H7). lia. }
      set (s0 := dmul (iq (sh 0)) d0_1) in *.
      set (D := iq (X - z0)) in *.
      unfold dadd. split.
      + apply rnd_ge; [exact Dz|]. lra.
      + apply rnd_le; [exact DX|]. lra. }
  split.
  - unfold dblMaps. rewrite M0, M1. unfold vertMaps. cbn [map2 map3 map4].
    rewrite A4. repeat split; try apply dbl_rnd. exact Dz.
  - unfold sorted. rewrite M2, M3, M4. rewrite M0 at 1. destruct R1 as [R1L R1U].
    repeat split; try assumption; apply iq_le; lia.
Qed.


(** ** Renders of a calibrated state stay inside their tile *)

(** The shifts of a tile are the identity or within the optimizer's
    windows, for every glyph size. *)
Definition tableCalibrated (g : Tiles) (row column : Z) : Prop :=
  forall glyph, 1 <= glyph ->
    calibrated 5 glyph (shiftsAt g row column 0 glyph)
    /\ (if is_t (TileProcessing row column)
        then calibratedText glyph (shiftsAt g row column 1 glyph)
        else calibrated 7 glyph (shiftsAt g row column 1 glyph)).

(** The tile is at least as large as the area the glyph must fit into: the
    tile is stretched, or its size is the base size or one pixel more. *)
Definition tileFits (g : Tiles) (tileWidth row column : Z) (optimizing : bool) : Prop :=
  is_s (TileProcessing row column) || optimizing = true
  \/ Z.max 1 (baseTileWidth g) <= tileWidth.

Lemma glyphSize_facts (g : Tiles) (tileWidth tileHeight row column : Z)
    (optimizing : bool) :
  0 < tileWidth -> 0 < tileHeight -> tileFits g tileWidth row column optimizing ->
  let '(fitWidth, fitHeight, glyphWidth, glyphHeight) :=
    glyphSize g tileWidth tileHeight row column optimizing in
  1 <= glyphWidth <= fitWidth /\ fitWidth <= tileWidth
  /\ 1 <= glyphHeight <= fitHeight
  /\ fitHeight <= Z.max tileHeight (baseTileHeight g).
Proof.
  intros Hw Hh Hfit. unfold glyphSize, tileFits in *.
  destruct (is_s (TileProcessing row column) || optimizing) eqn:Hs.
  - repeat split; lia.
  - destruct Hfit as [Hfit|Hfit]; [discriminate|].
    destruct (is_f (TileProcessing row column)); [|repeat split; lia].
    cbv zeta. destruct (TILE_HEIGHT - 2 * tilePadding g row column =? 0);
      repeat match goal with
             | |- context [roundQ ?q] => generalize (roundQ q); intro
             end; repeat split; lia.
Qed.

(** The sizes are values of type [int]. *)
Lemma renderMaps_inside (g : Tiles) (tileWidth tileHeight row column : Z)
    (optimizing : bool) :
  0 < tileWidth < 2 ^ 31 -> 0 < tileHeight < 2 ^ 31 -> baseTileHeight g < 2 ^ 31 ->
  0 <= tilePadding g row column <= TILE_HEIGHT / 4 ->
  tileFits g tileWidth row column optimizing ->
  tableCalibrated g row column ->
  let '(sx, sy) := renderMaps g tileWidth tileHeight row column optimizing in
  mapsInside tileWidth tileHeight sx sy.
Proof.
  intros Hw Hh Hb Hp Hfit Hcal.
  pose proof (glyphSize_facts g tileWidth tileHeight row column optimizing
                ltac:(lia) ltac:(lia) Hfit) as Hglyph.
  unfold renderMaps.
  destruct (glyphSize g tileWidth tileHeight row column optimizing)
    as [[[fitWidth fitHeight] glyphWidth] glyphHeight].
  destruct Hglyph as (Hgw & Hfw & Hgh & Hfh).
  destruct (vertStops_ordered g row column Hp) as [Hord Hend].
  split.
  - intros x0 Hx0.
    destruct (horizMaps_inside g row column fitWidth glyphWidth tileWidth Hgw Hfw
                ltac:(lia) (proj1 (Hcal glyphWidth ltac:(lia))))
      as (Hd & Hlo & Hhi & Hlast & Hbig).
    apply scaledX_inside; assumption.
  - pose proof (proj2 (Hcal glyphHeight ltac:(lia))) as Hv.
    destruct (is_t (TileProcessing row column)) eqn:Ht.
    + destruct (vertMaps_sorted_text g row column fitHeight glyphHeight Ht Hgh
                  ltac:(lia) Hv) as [Hd Hs].
      apply scaledY_monotone; assumption.
    + destruct (vertMaps_sorted_plain g row column fitHeight glyphHeight Ht Hp Hgh
                  ltac:(lia) Hv) as [Hd Hs].
      apply scaledY_monotone; assumption.
Qed.


(** ** The optimizer keeps the shifts within its windows *)

Lemma fold_left_preserves {A B} (P : A -> Prop) (f : A -> B -> A) (l : list B) (a : A) :
  (forall a x, In x l -> P a -> P (f a x)) -> P a -> P (fold_left f l a).
Proof.
  revert a. induction l as [|x l IH]; intros a Hf Ha; simpl; [exact Ha|].
  apply IH.
  - intros a' y Hy. apply Hf. right. exact Hy.
  - apply Hf; [left; reflexivity|exact Ha].
Qed.

(** The smallest glyph size that the optimizer calibrates on an axis. *)
Definition minGlyph (axis : Z) : Z := if axis =? 0 then 5 else 7.

(** A triple of shifts within the windows of the searches; zero for the
    sizes that are not calibrated; for a 't' tile, the vertical triple has
    its first shift only. *)
Definition windowOK (text : bool) (axis size : Z) (s : Z -> Z) : Prop :=
  (-5 <= s 0 <= 5 /\ -5 <= s 1 <= 5 /\ -10 <= s 2 <= 10)
  /\ (size + 1 < minGlyph axis -> s 0 = 0 /\ s 1 = 0 /\ s 2 = 0)
  /\ (text = true -> axis = 1 -> s 1 = 0 /\ s 2 = 0).

Definition blockWindowed (text : bool) (block : list Z) : Prop :=
  forall axis size, slotOK axis size ->
    windowOK text axis size (fun k => zget block (slotIndex axis size k)).

Definition tableWindowed (g : Tiles) : Prop :=
  length (tileShifts g) = TILE_COUNT
  /\ forall row column, 0 <= row < TILE_ROWS -> 0 <= column < TILE_COLS ->
    cellOK (tileShifts g) row column
    /\ blockWindowed (is_t (TileProcessing row column))
                     (cellBlock (tileShifts g) row column).

Lemma slotIndex_apart (axis size k axis' size' k' : Z) :
  slotOK axis size -> slotOK axis' size' -> 0 <= k < 3 -> 0 <= k' < 3 ->
  slotIndex axis size k = slotIndex axis' size' k' ->
  axis = axis' /\ size = size' /\ k = k'.
Proof.
  unfold slotOK, slotIndex, MAX_TILE_SIZE. intros [Ha Hs] [Ha' Hs'] Hk Hk' H. lia.
Qed.

(** The entries of a block after a trial. *)
Lemma zget_tryBlock_other (derive : bool) (axis size idx v : Z) (block : list Z)
    (axis' size' k : Z) :
  slotOK axis size -> slotOK axis' size' -> 0 <= idx < 3 -> 0 <= k < 3 ->
  (axis, size) <> (axis', size') ->
  zget (tryBlock derive axis size idx v block) (slotIndex axis' size' k)
  = zget block (slotIndex axis' size' k).
Proof.
  intros Hs Hs' Hidx Hk Hne. unfold tryBlock.
  assert (Hapart : forall j, 0 <= j < 3 ->
            slotIndex axis size j <> slotIndex axis' size' k).
  { intros j Hj H. apply slotIndex_apart in H as (-> & -> & _); try assumption.
    apply Hne. reflexivity. }
  destruct derive; rewrite ?zget_zset_ne by (apply Hapart; lia); reflexivity.
Qed.

Lemma zget_tryBlock_plain (axis size idx v : Z) (block : list Z) (k : Z) :
  length block = BLOCK_SIZE -> slotOK axis size -> 0 <= idx < 3 -> 0 <= k < 3 ->
  zget (tryBlock false axis size idx v block) (slotIndex axis size k)
  = if k =? idx then v else zget block (slotIndex axis size k).
Proof.
  intros Hlen Hs Hidx Hk. unfold tryBlock.
  pose proof (slotIndex_bounds axis size idx Hs Hidx) as Hb.
  destruct (Z.eqb_spec k idx) as [->|Hne].
  - apply zget_zset_eq. rewrite Hlen. exact Hb.
  - apply zget_zset_ne. intros H. apply slotIndex_inj in H. lia.
Qed.

Lemma zget_tryBlock_derive (axis size idx v : Z) (block : list Z) (k : Z) :
  length block = BLOCK_SIZE -> slotOK axis size -> idx = 0 \/ idx = 1 -> 0 <= k < 3 ->
  zget (tryBlock true axis size idx v block) (slotIndex axis size k)
  = let s0 := if idx =? 0 then v else zget block (slotIndex axis size 0) in
    let s1 := if idx =? 1 then v else zget block (slotIndex axis size 1) in
    if k =? 0 then s0 else if k =? 1 then s1 else (s0 + s1) ÷ 2.
Proof.
  intros Hlen Hs Hidx Hk.
  assert (Hplain : forall j, 0 <= j < 3 ->
            zget (zset block (slotIndex axis size idx) v) (slotIndex axis size j)
            = if j =? idx then v else zget block (slotIndex axis size j)).
  { intros j Hj. apply (zget_tryBlock_plain axis size idx v block j); try assumption. lia. }
  unfold tryBlock. cbn zeta.
  rewrite (Hplain 0), (Hplain 1) by lia.
  pose proof (slotIndex_bounds axis size 2 Hs ltac:(lia)) as Hb.
  assert (Hk3 : k = 0 \/ k = 1 \/ k = 2) by lia.
  destruct Hk3 as [Hk0|[Hk1|Hk2]]; subst k; cbn [Z.eqb Pos.eqb].
  - rewrite zget_zset_ne by (intros H; apply slotIndex_inj in H; lia).
    rewrite (Hplain 0) by lia. destruct Hidx as [Hi|Hi]; subst idx; reflexivity.
  - rewrite zget_zset_ne by (intros H; apply slotIndex_inj in H; lia).
    rewrite (Hplain 1) by lia. destruct Hidx as [Hi|Hi]; subst idx; reflexivity.
  - rewrite zget_zset_eq by (rewrite length_zset, Hlen; exact Hb).
    destruct Hidx as [Hi|Hi]; subst idx; reflexivity.
Qed.

(** The values that a search may try for the parameter [idx]. *)
Definition shiftBound (idx v : Z) : Prop :=
  if idx =? 2 then -10 <= v <= 10 else -5 <= v <= 5.

Lemma tryBlock_windowed (text derive : bool) (axis size idx v : Z) (block : list Z) :
  length block = BLOCK_SIZE -> slotOK axis size -> minGlyph axis <= size + 1 ->
  0 <= idx < 3 -> (derive = true -> idx = 0 \/ idx = 1) -> shiftBound idx v ->
  (text = true -> axis = 1 -> idx = 0 /\ derive = false) ->
  blockWindowed text block ->
  blockWindowed text (tryBlock derive axis size idx v block).
Proof.
  intros Hlen Hs Hmin Hidx Hder Hv Htext Hblock axis' size' Hs'.
  specialize (Hblock axis' size' Hs'). unfold windowOK in *. cbn beta in *.
  destruct (Z.eq_dec axis axis') as [Ea|Na]; [destruct (Z.eq_dec size size') as [Es|Ns]|].
  - subst axis' size'.
    destruct Hblock as ((B0 & B1 & B2) & _ & Bt).
    assert (Hidx3 : idx = 0 \/ idx = 1 \/ idx = 2) by lia.
    unfold shiftBound in Hv.
    destruct derive.
    + rewrite !zget_tryBlock_derive by (auto; lia). cbn zeta. cbn [Z.eqb Pos.eqb].
      assert (Hnot : text = true -> axis = 1 -> False)
        by (intros T A; destruct (Htext T A); discriminate).
      destruct (Hder eq_refl) as [E|E]; subst idx; cbn [Z.eqb Pos.eqb] in *;
        (split; [repeat split; lia_div|]); (split; [lia|]);
        intros T A; destruct (Hnot T A).
    + rewrite !zget_tryBlock_plain by (auto; lia).
      destruct Hidx3 as [E|[E|E]]; subst idx; cbn [Z.eqb Pos.eqb] in *;
        (split; [repeat split; lia|]); (split; [lia|]);
        intros T A; destruct (Htext T A) as [E _]; try discriminate E;
        apply Bt; assumption.
  - rewrite !zget_tryBlock_other by (auto; try lia; congruence). exact Hblock.
  - rewrite !zget_tryBlock_other by (auto; try lia; congruence). exact Hblock.
Qed.

Lemma tryShift_windowed (derive : bool) (g : Tiles) (row column axis size idx v : Z) :
  0 <= row < TILE_ROWS -> 0 <= column < TILE_COLS ->
  slotOK axis size -> minGlyph axis <= size + 1 ->
  0 <= idx < 3 -> (derive = true -> idx = 0 \/ idx = 1) -> shiftBound idx v ->
  (is_t (TileProcessing row column) = true -> axis = 1 -> idx = 0 /\ derive = false) ->
  tableWindowed g ->
  tableWindowed (tryShift derive g row column axis size idx v).
Proof.
  intros Hr Hc Hs Hmin Hidx Hder Hv Htext [Hcount Hg].
  destruct (Hg row column Hr Hc) as [[Hcell Hlen] Hblock].
  unfold tableWindowed. rewrite tryShift_table by exact Hcell.
  split; [rewrite length_insert; exact Hcount|].
  intros row' column' Hr' Hc'.
  destruct (Hg row' column' Hr' Hc') as [[Hcell' Hlen'] Hblock'].
  destruct (Z.eq_dec (cellIndex row column) (cellIndex row' column')) as [E|N].
  - apply cellIndex_inj in E as [-> ->]; try assumption.
    unfold cellOK. rewrite length_insert, cellBlock_insert by exact Hcell.
    rewrite length_tryBlock.
    split; [split; assumption|]. apply tryBlock_windowed; assumption.
  - unfold cellOK. rewrite length_insert, cellBlock_insert_ne by lia.
    split; [split; assumption|exact Hblock'].
Qed.

Lemma set_base_windowed (g : Tiles) (w h : Z) :
  tableWindowed g -> tableWindowed (set_base g w h).
Proof. intros H. exact H. Qed.

Section Windows.
Variable calibrate : Tiles -> Z -> Z -> Z -> Z -> Q.
Variables (derive : bool) (row column axis size : Z).
Hypothesis row_ok : 0 <= row < TILE_ROWS.
Hypothesis column_ok : 0 <= column < TILE_COLS.
Hypothesis slot_ok : slotOK axis size.
Hypothesis size_ok : minGlyph axis <= size + 1.

Section Step.
Variable idx : Z.
Hypothesis idx_ok : 0 <= idx < 3.
Hypothesis derive_ok : derive = true -> idx = 0 \/ idx = 1.
Hypothesis text_ok :
  is_t (TileProcessing row column) = true -> axis = 1 -> idx = 0 /\ derive = false.

Lemma trials_windowed (W : list Z) (acc : Tiles * Q * Z) :
  (forall w, In w W -> shiftBound idx w) ->
  tableWindowed (fst (fst acc)) -> shiftBound idx (snd acc) ->
  tableWindowed (fst (fst (fold_left (trial calibrate derive row column axis size idx)
                                     W acc)))
  /\ shiftBound idx (snd (fold_left (trial calibrate derive row column axis size idx)
                                    W acc)).
Proof.
  revert acc. induction W as [|w W IH]; intros [[g br] bs] HW Hg Hb; cbn [fold_left].
  - split; assumption.
  - cbn [fst snd] in Hg, Hb.
    assert (Hw : shiftBound idx w) by (apply HW; left; reflexivity).
    assert (Hnext : tableWindowed (tryShift derive g row column axis size idx w))
      by (apply tryShift_windowed; assumption).
    apply IH.
    + intros w' Hw'. apply HW. right. exact Hw'.
    + unfold trial. destruct (negb _); exact Hnext.
    + unfold trial. destruct (negb _); assumption.
Qed.

Lemma searchStep_windowed (g : Tiles) :
  tableWindowed g ->
  tableWindowed (searchStep calibrate derive g row column axis size idx).
Proof.
  intros Hg. unfold searchStep.
  set (mid := if idx =? 2 then midOf (tileShifts g) row column axis size else 0).
  assert (Hmid : forall w, In w (range (mid - 5) (mid + 5 + 1)) -> shiftBound idx w).
  { intros w Hw. apply in_range in Hw. unfold shiftBound. subst mid.
    destruct (idx =? 2); [|lia].
    destruct (proj2 Hg row column row_ok column_ok) as [_ Hblock].
    destruct (Hblock axis size slot_ok) as ((B0 & B1 & _) & _). cbn beta in *.
    unfold midOf, getShift in Hw.
    revert Hw. generalize (zget (cellBlock (tileShifts g) row column) (slotIndex axis size 0))
               (zget (cellBlock (tileShifts g) row column) (slotIndex axis size 1)) B0 B1.
    intros a b Ha Hb Hw. lia_div. }
  assert (H0 : shiftBound idx 0) by (unfold shiftBound; destruct (idx =? 2); lia).
  pose proof (trials_windowed (range (mid - 5) (mid + 5 + 1)) (g, bestResult0, 0)
                Hmid Hg H0) as [Hend Hbest].
  destruct (fold_left _ _ _) as [[g' br] bs]. cbn [fst snd] in *.
  apply tryShift_windowed; assumption.
Qed.
End Step.

Lemma searchShifts_windowed (params : Z) (g : Tiles) :
  params <= 3 -> (derive = true -> params <= 2) ->
  (is_t (TileProcessing row column) = true -> axis = 1 -> params <= 1 /\ derive = false) ->
  tableWindowed g ->
  tableWindowed (searchShifts calibrate derive params g row column axis size).
Proof.
  intros Hp Hder Htext Hg. unfold searchShifts.
  apply fold_left_preserves; [|exact Hg]. intros g1 _ _ Hg1.
  apply fold_left_preserves; [|exact Hg1]. intros g2 idx Hidx Hg2.
  apply in_range in Hidx.
  apply searchStep_windowed; [lia| | |exact Hg2].
  - intros D. specialize (Hder D). lia.
  - intros T A. destruct (Htext T A) as [P D]. split; [lia|exact D].
Qed.
End Windows.

Lemma optimizeTile_windowed calibrate (g : Tiles) (row column : Z) :
  0 <= row < TILE_ROWS -> 0 <= column < TILE_COLS ->
  tableWindowed g -> tableWindowed (optimizeTile calibrate g row column).
Proof.
  intros Hr Hc Hg. unfold optimizeTile. destruct (tileEmpty g row column); [exact Hg|].
  unfold optimizeVert, optimizeHoriz.
  apply set_base_windowed, fold_left_preserves.
  { intros g1 h Hh Hg1. apply in_range in Hh. unfold MAX_TILE_SIZE in Hh.
    apply searchShifts_windowed; try assumption.
    - unfold slotOK, MAX_TILE_SIZE. lia.
    - unfold minGlyph. destruct (1 =? 0); lia.
    - destruct (is_t _); lia.
    - discriminate.
    - intros -> _. split; [lia|reflexivity]. }
  apply set_base_windowed, set_base_windowed, fold_left_preserves.
  { intros g1 w Hw Hg1. apply in_range in Hw. unfold MAX_TILE_SIZE in Hw.
    apply searchShifts_windowed; try assumption.
    - unfold slotOK, MAX_TILE_SIZE. lia.
    - unfold minGlyph. cbn [Z.eqb]. lia.
    - destruct (textLike _); lia.
    - intros ->. lia.
    - intros _ A. discriminate A. }
  apply set_base_windowed, Hg.
Qed.

(** Every state that the optimizer leaves has its shifts within the windows
    of the searches. *)
Lemma optimizeTiles_windowed calibrate (g : Tiles) :
  tableWindowed g -> tableWindowed (optimizeTiles calibrate g).
Proof.
  intros Hg. unfold optimizeTiles.
  apply fold_left_preserves; [|exact Hg]. intros g1 row Hrow Hg1.
  apply fold_left_preserves; [|exact Hg1]. intros g2 column Hcol Hg2.
  apply in_range in Hrow, Hcol.
  apply optimizeTile_windowed; assumption.
Qed.

Lemma zeroTable_windowed (g : Tiles) :
  tileShifts g = replicate 384 (replicate 384 0) -> tableWindowed g.
Proof.
  intros Ht. unfold tableWindowed. rewrite Ht. split; [reflexivity|].
  intros row column Hr Hc.
  assert (Hcell : 0 <= cellIndex row column < 384)
    by (unfold cellIndex, TILE_ROWS, TILE_COLS in *; lia).
  assert (Hblock : cellBlock (replicate 384 (replicate 384 0)) row column = replicate 384 0).
  { unfold cellBlock. destruct (Z.ltb_spec (cellIndex row column) 0); [lia|].
    rewrite lookup_replicate_2 by lia. reflexivity. }
  unfold cellOK. rewrite Hblock, !length_replicate.
  split; [split; [lia|reflexivity]|].
  intros axis size _. unfold windowOK. cbn beta. rewrite !zget_replicate.
  repeat split; lia.
Qed.

(** Shifts within the windows make every render's maps well-formed. *)
Lemma tableWindowed_calibrated (g : Tiles) (row column : Z) :
  0 <= row < TILE_ROWS -> 0 <= column < TILE_COLS ->
  tableWindowed g -> tableCalibrated g row column.
Proof.
  intros Hr Hc Hg glyph Hglyph.
  destruct (proj2 Hg row column Hr Hc) as [_ Hblock].
  unfold calibrated, calibratedText, shiftsAt.
  destruct (Z.gtb_spec glyph MAX_TILE_SIZE) as [Hbig|Hsmall].
  { split; [|destruct (is_t _)]; auto. }
  assert (Hslot : forall axis, 0 <= axis < 2 -> slotOK axis (glyph - 1))
    by (intros axis Ha; unfold slotOK; lia).
  pose proof (Hblock 0 (glyph - 1) (Hslot 0 ltac:(lia))) as (H0 & Z0 & _).
  pose proof (Hblock 1 (glyph - 1) (Hslot 1 ltac:(lia))) as (H1 & Z1 & T1).
  cbn beta in *. unfold minGlyph in *. cbn [Z.eqb] in *. unfold getShift.
  split.
  - destruct (Z_lt_dec glyph 5) as [Hlt|Hge]; [left; apply Z0; lia|right; split; [lia|exact H0]].
  - destruct (is_t (TileProcessing row column)).
    + destruct (T1 eq_refl eq_refl) as [E1 E2]. split; [exact E1|]. split; [exact E2|].
      destruct (Z_lt_dec glyph 7) as [Hlt|Hge]; [left; apply Z1; lia|right; lia].
    + destruct (Z_lt_dec glyph 7) as [Hlt|Hge];
        [left; apply Z1; lia|right; split; [lia|exact H1]].
Qed.

(** The table that the optimizer computes from scratch is calibrated. *)
Lemma optimizeTiles_calibrated calibrate (g : Tiles) (row column : Z) :
  tileShifts g = replicate 384 (replicate 384 0) ->
  0 <= row < TILE_ROWS -> 0 <= column < TILE_COLS ->
  tableCalibrated (optimizeTiles calibrate g) row column.
Proof.
  intros Ht Hr Hc.
  apply tableWindowed_calibrated; [exact Hr|exact Hc|].
  apply optimizeTiles_windowed, zeroTable_windowed, Ht.
Qed.

(** The optimizer writes the shifts only: the measures of the atlas stay. *)
Definition sameMeasures (g0 g : Tiles) : Prop :=
  TilesPNG g = TilesPNG g0 /\ tilePadding g = tilePadding g0 /\ tileEmpty g = tileEmpty g0.

Lemma tryShift_sameMeasures (g0 : Tiles) derive (g : Tiles) (row column axis size idx v : Z) :
  sameMeasures g0 g -> sameMeasures g0 (tryShift derive g row column axis size idx v).
Proof. intros H. exact H. Qed.

Lemma searchStep_sameMeasures calibrate (g0 : Tiles) derive (g : Tiles)
    (row column axis size idx : Z) :
  sameMeasures g0 g ->
  sameMeasures g0 (searchStep calibrate derive g row column axis size idx).
Proof.
  intros Hg. unfold searchStep.
  match goal with
  | |- context [fold_left ?f ?W ?acc] =>
      assert (H : sameMeasures g0 (fst (fst (fold_left f W acc))));
      [|destruct (fold_left f W acc) as [[g' br] bs]; exact H]
  end.
  apply (fold_left_preserves (fun acc => sameMeasures g0 (fst (fst acc)))); [|exact Hg].
  intros [[g1 br] bs] w _ H1. unfold trial. destruct (negb _); exact H1.
Qed.

Lemma set_base_sameMeasures (g0 g : Tiles) (w h : Z) :
  sameMeasures g0 g -> sameMeasures g0 (set_base g w h).
Proof. intros H. exact H. Qed.

Lemma searchShifts_sameMeasures calibrate (g0 : Tiles) derive params (g : Tiles)
    (row column axis size : Z) :
  sameMeasures g0 g ->
  sameMeasures g0 (searchShifts calibrate derive params g row column axis size).
Proof.
  intros Hg. unfold searchShifts.
  apply (fold_left_preserves (sameMeasures g0)); [|exact Hg]. intros g1 _ _ Hg1.
  apply (fold_left_preserves (sameMeasures g0)); [|exact Hg1]. intros g2 idx _ Hg2.
  apply searchStep_sameMeasures, Hg2.
Qed.

Lemma optimizeTile_sameMeasures calibrate (g0 g : Tiles) (row column : Z) :
  sameMeasures g0 g -> sameMeasures g0 (optimizeTile calibrate g row column).
Proof.
  intros Hg. unfold optimizeTile. destruct (tileEmpty g row column); [exact Hg|].
  unfold optimizeVert, optimizeHoriz.
  apply set_base_sameMeasures, (fold_left_preserves (sameMeasures g0)).
  { intros g1 h _ Hg1. apply searchShifts_sameMeasures, set_base_sameMeasures, Hg1. }
  apply set_base_sameMeasures, set_base_sameMeasures,
    (fold_left_preserves (sameMeasures g0)).
  { intros g1 w _ Hg1. apply searchShifts_sameMeasures, set_base_sameMeasures, Hg1. }
  apply set_base_sameMeasures, Hg.
Qed.

Lemma sameMeasures_refl (g : Tiles) : sameMeasures g g.
Proof. repeat split. Qed.

Lemma optimizeTiles_sameMeasures calibrate (g : Tiles) :
  sameMeasures g (optimizeTiles calibrate g).
Proof.
  unfold optimizeTiles.
  apply (fold_left_preserves (sameMeasures g)); [|apply sameMeasures_refl].
  intros g1 row _ Hg1.
  apply (fold_left_preserves (sameMeasures g)); [|exact Hg1]. intros g2 column _ Hg2.
  apply optimizeTile_sameMeasures, Hg2.
Qed.

Lemma measure_padding (png : Z -> Z) (row column : Z) :
  0 <= tilePadding (measure png) row column <= TILE_HEIGHT / 4.
Proof.
  unfold measure. cbn [tilePadding].
  destruct (is_f (TileProcessing row column)); [|by_compute].
  unfold getPadding.
  destruct (getPadding_loop_spec png row column (Z.to_nat (TILE_HEIGHT / 4)) 0)
    as (Hr & _).
  rewrite Z2Nat.id in Hr by by_compute. lia.
Qed.

(** When there is no cache file, [init] leaves a state in which every tile
    has its padding within the cap and its shifts within the windows: the
    state that the renders of the first run start from. *)
Lemma init_fresh_wellformed calibrate (png : Z -> Z) (row column : Z) :
  0 <= row < TILE_ROWS -> 0 <= column < TILE_COLS ->
  let g := fst (init calibrate png None) in
  0 <= tilePadding g row column <= TILE_HEIGHT / 4
  /\ tableCalibrated g row column.
Proof.
  intros Hr Hc g. subst g. unfold init, loadShifts. cbn [fst]. split.
  - destruct (optimizeTiles_sameMeasures calibrate (measure png)) as (_ & -> & _).
    apply measure_padding.
  - apply optimizeTiles_calibrated; [reflexivity|exact Hr|exact Hc].
Qed.

(** Shifts within the windows fit the [int8_t] entries of the table. *)
Lemma tableWindowed_shiftTable (g : Tiles) : tableWindowed g -> shiftTable (tileShifts g).
Proof.
  intros [Hcount Hg]. split; [exact Hcount|].
  apply Forall_lookup_2. intros i block Hi.
  pose proof (lookup_lt_Some _ _ _ Hi) as Hlt. rewrite Hcount in Hlt.
  assert (Hi384 : (i < 384)%nat) by exact Hlt.
  set (row := Z.of_nat i / 16). set (column := Z.of_nat i mod 16).
  assert (Hrc : 0 <= row < TILE_ROWS /\ 0 <= column < TILE_COLS
                /\ cellIndex row column = Z.of_nat i).
  { subst row column. unfold cellIndex, TILE_ROWS, TILE_COLS. lia_div. }
  destruct Hrc as (Hr & Hc & Hcell).
  destruct (Hg row column Hr Hc) as [[_ Hlen] Hblock].
  assert (Hb : cellBlock (tileShifts g) row column = block).
  { unfold cellBlock. rewrite Hcell.
    destruct (Z.ltb_spec (Z.of_nat i) 0); [lia|].
    rewrite Nat2Z.id, Hi. reflexivity. }
  rewrite Hb in Hlen, Hblock. split; [exact Hlen|].
  apply Forall_lookup_2. intros j v Hj.
  pose proof (lookup_lt_Some _ _ _ Hj) as Hjlt. rewrite Hlen in Hjlt.
  assert (Hj384 : (j < 384)%nat) by exact Hjlt.
  set (axis := Z.of_nat j / 192). set (size := Z.of_nat j / 3 mod 64).
  set (k := Z.of_nat j mod 3).
  assert (Hslot : slotOK axis size /\ 0 <= k < 3 /\ slotIndex axis size k = Z.of_nat j).
  { subst axis size k. unfold slotOK, slotIndex, MAX_TILE_SIZE. lia_div. }
  destruct Hslot as (Hs & Hk & Hidx).
  destruct (Hblock axis size Hs) as ((B0 & B1 & B2) & _). cbn beta in *.
  assert (Hv : zget block (slotIndex axis size k) = v).
  { rewrite Hidx. unfold zget. destruct (Z.ltb_spec (Z.of_nat j) 0); [lia|].
    rewrite Nat2Z.id, Hj. reflexivity. }
  unfold int8. rewrite <- Hv.
  assert (Hk3 : k = 0 \/ k = 1 \/ k = 2) by lia.
  destruct Hk3 as [E|[E|E]]; rewrite E; lia.
Qed.

Lemma tableCalibrated_shifts (g g' : Tiles) (row column : Z) :
  tileShifts g' = tileShifts g ->
  tableCalibrated g row column -> tableCalibrated g' row column.
Proof.
  intros Ht H glyph Hglyph. specialize (H glyph Hglyph).
  unfold shiftsAt in *. rewrite Ht. exact H.
Qed.

(** A start that reads the cache file written by an earlier start, which
    had no file, begins its renders in a state as well-formed as the first. *)
Lemma init_cached_wellformed calibrate (png : Z -> Z) (row column : Z) :
  0 <= row < TILE_ROWS -> 0 <= column < TILE_COLS ->
  let file := snd (init calibrate png None) in
  let g := fst (init calibrate png file) in
  0 <= tilePadding g row column <= TILE_HEIGHT / 4
  /\ tableCalibrated g row column.
Proof.
  intros Hr Hc file g. split; [apply measure_padding|].
  assert (Hw : tableWindowed (optimizeTiles calibrate (measure png)))
    by (apply optimizeTiles_windowed, zeroTable_windowed; reflexivity).
  apply (tableCalibrated_shifts (optimizeTiles calibrate (measure png))).
  - pose proof (loadShifts_second_start (optimizeTiles calibrate) (measure png)
                  (measure png) (tableWindowed_shiftTable _ Hw) zeroTable_ok) as H.
    exact H.
  - apply tableWindowed_calibrated; assumption.
Qed.

(** The renders that [loadTiles] asks for have the sizes of the four
    texture variants, which are the base size or one pixel more. *)
Lemma variant_tileFits (g : Tiles) (i row column : Z) :
  1 <= baseTileWidth g -> 1 <= baseTileHeight g ->
  0 < variantTileWidth g i /\ 0 < variantTileHeight g i
  /\ tileFits g (variantTileWidth g i) row column false.
Proof.
  intros Hw Hh. unfold variantTileWidth, variantTileHeight, tileFits.
  destruct ((i =? 1) || (i =? 3)), ((i =? 2) || (i =? 3));
    (split; [lia|]); (split; [lia|]); right; lia.
Qed.

Lemma roundQ_sign (q : Q) : (0 <= q)%Q -> 0 <= roundQ q.
Proof. intros Hq. apply roundQ_ge. exact Hq. Qed.

(** An [int] product that does not leave the type is not wrapped. *)
Lemma i32_small (z : Z) : - 2 ^ 31 <= z < 2 ^ 31 -> i32 z = z.
Proof. intros H. unfold i32. lia_div. Qed.

(** The window fits the [int] products of the aspect ratio. *)
Definition windowFits (COLS ROWS outputWidth outputHeight : Z) : Prop :=
  0 <= outputWidth /\ 0 <= outputHeight
  /\ outputWidth * ROWS < 2 ^ 31 /\ outputHeight * COLS < 2 ^ 31.

(** The aspect ratio of such a window and the two sizes derived from it. *)
Lemma aspectRatio_facts (COLS ROWS outputWidth outputHeight : Z) :
  0 < COLS -> 0 < ROWS -> windowFits COLS ROWS outputWidth outputHeight ->
  let ratio := ddiv (iq (i32 (outputWidth * ROWS))) (iq (i32 (outputHeight * COLS))) in
  let w1 := roundQ (dmul (iq TILE_HEIGHT) ratio) in
  let h2 := roundQ (ddiv (iq TILE_WIDTH) ratio) in
  0 <= w1 /\ 0 <= h2
  /\ (MAX_TILE_SIZE <= w1 -> h2 <= 472)
  /\ (MAX_TILE_SIZE <= outputWidth ÷ COLS -> outputHeight ÷ ROWS < MAX_TILE_SIZE ->
      h2 <= TILE_WIDTH).
Proof.
  intros HC HR (Hw & Hh & Fw & Fh) ratio w1 h2.
  assert (Ha : 0 <= outputWidth * ROWS) by nia.
  assert (Hb : 0 <= outputHeight * COLS) by nia.
  subst ratio w1 h2. rewrite !i32_small by lia.
  set (a := outputWidth * ROWS) in *. set (b := outputHeight * COLS) in *.
  assert (Qa : (0 <= iq a)%Q) by (change 0%Q with (iq 0); apply iq_le, Ha).
  assert (Qb : (0 <= iq b)%Q) by (change 0%Q with (iq 0); apply iq_le, Hb).
  assert (Hq : (0 <= iq a / iq b)%Q).
  { unfold Qdiv. apply Qmult_le_0_compat; [exact Qa|]. apply Qinv_le_0_compat, Qb. }
  assert (Hratio : (0 <= ddiv (iq a) (iq b))%Q) by (apply rnd_nonneg, Hq).
  set (ratio := ddiv (iq a) (iq b)) in *.
  assert (Hinv : (0 <= iq TILE_WIDTH / ratio)%Q).
  { unfold Qdiv. apply Qmult_le_0_compat; [discriminate|].
    apply Qinv_le_0_compat, Hratio. }
  change (iq TILE_HEIGHT) with 232%Q. change (iq TILE_WIDTH) with 128%Q in *.
  unfold MAX_TILE_SIZE, TILE_WIDTH.
  split; [|split; [|split]].
  - apply roundQ_sign. unfold dmul. apply rnd_nonneg. lra.
  - apply roundQ_sign. unfold ddiv. apply rnd_nonneg, Hinv.
  - intros H64.
    assert (Hr : (63 # 232 <= ratio)%Q).
    { destruct (Qlt_le_dec ratio (63 # 232)) as [Hlt|Hge]; [|exact Hge].
      exfalso.
      assert (roundQ (dmul 232 ratio) <= 63); [|lia].
      apply roundQ_le. unfold dmul. apply rnd_le; [apply dbl_iq; lia|].
      change (iq 63) with 63%Q. lra. }
    apply roundQ_le. unfold ddiv. apply rnd_le; [apply dbl_iq; lia|].
    change (iq 472) with 472%Q.
    apply Qle_shift_div_r; lra.
  - intros Gw Lh.
    destruct (Z.eq_dec b 0) as [Eb|Nb].
    + assert (E0 : ratio = 0%Q).
      { subst ratio. unfold ddiv. rewrite Eb. apply rnd_zero.
        unfold Qdiv. change (/ iq 0)%Q with 0%Q. ring. }
      rewrite E0. vm_compute. discriminate.
    + assert (Pb : (0 < iq b)%Q) by (change 0%Q with (iq 0); apply iq_lt; lia).
      assert (Hab : b <= a).
      { subst a b.
        rewrite Z.quot_div_nonneg in Gw, Lh by lia.
        pose proof (Z.mul_div_le outputWidth COLS HC).
        pose proof (Z.mul_succ_div_gt outputHeight ROWS HR).
        assert (64 * COLS <= outputWidth) by nia.
        assert (outputHeight < 64 * ROWS) by nia. nia. }
      assert (Hr : (1 <= ratio)%Q).
      { subst ratio. unfold ddiv.
        apply rnd_ge; [change 1%Q with (iq 1); apply dbl_iq; lia|].
        apply Qle_shift_div_l; [exact Pb|].
        assert (iq b <= iq a)%Q by (apply iq_le, Hab). lra. }
      apply roundQ_le. unfold ddiv. apply rnd_le; [apply dbl_iq; lia|].
      change (iq 128) with 128%Q. apply Qle_shift_div_r; lra.
Qed.

(** On a window that fits, [loadTiles] chooses a base size of at least one
    pixel each way, of at most 128 by 472. *)
Lemma chooseTileSize_positive (COLS ROWS outputWidth outputHeight : Z) :
  0 < COLS -> 0 < ROWS -> windowFits COLS ROWS outputWidth outputHeight ->
  1 <= fst (chooseTileSize COLS ROWS outputWidth outputHeight) <= TILE_WIDTH
  /\ 1 <= snd (chooseTileSize COLS ROWS outputWidth outputHeight) <= 472.
Proof.
  intros HC HR Hfit.
  destruct (aspectRatio_facts COLS ROWS outputWidth outputHeight HC HR Hfit)
    as (H1 & H2 & B1 & B2).
  destruct Hfit as (Hw & Hh & _ & _).
  unfold chooseTileSize.
  assert (H3 : 0 <= outputWidth ÷ COLS) by (apply Z.quot_pos; lia).
  assert (H4 : 0 <= outputHeight ÷ ROWS) by (apply Z.quot_pos; lia).
  set (ratio := ddiv (iq (i32 (outputWidth * ROWS))) (iq (i32 (outputHeight * COLS))))
    in *.
  set (w1 := roundQ (dmul (iq TILE_HEIGHT) ratio)) in *.
  set (h2 := roundQ (ddiv (iq TILE_WIDTH) ratio)) in *.
  set (w0 := outputWidth ÷ COLS) in *. set (h0 := outputHeight ÷ ROWS) in *.
  unfold MAX_TILE_SIZE, TILE_WIDTH, TILE_HEIGHT in *.
  destruct (Z.geb_spec h0 64) as [G1|G1].
  - destruct (Z.geb_spec w1 64) as [G2|G2]; cbn [fst snd];
      repeat match goal with
             | |- context [?x =? 0] => destruct (Z.eqb_spec x 0)
             end; lia.
  - destruct (Z.geb_spec w0 64) as [G2|G2]; cbn [fst snd];
      repeat match goal with
             | |- context [?x =? 0] => destruct (Z.eqb_spec x 0)
             end; lia.
Qed.

Lemma loadTiles_base_positive (COLS ROWS : Z) (g : Tiles) (outputWidth outputHeight : Z) :
  0 < COLS -> 0 < ROWS -> windowFits COLS ROWS outputWidth outputHeight ->
  1 <= baseTileWidth (loadTiles COLS ROWS g outputWidth outputHeight) <= TILE_WIDTH
  /\ 1 <= baseTileHeight (loadTiles COLS ROWS g outputWidth outputHeight) <= 472.
Proof.
  intros HC HR Hfit.
  pose proof (chooseTileSize_positive COLS ROWS outputWidth outputHeight HC HR Hfit)
    as [P1 P2].
  unfold loadTiles.
  destruct (chooseTileSize COLS ROWS outputWidth outputHeight) as [w h].
  cbn [fst snd] in *.
  destruct (Z.eqb_spec (baseTileWidth g) w), (Z.eqb_spec (baseTileHeight g) h);
    cbn [andb]; try (split; assumption).
  split; lia.
Qed.

(** ** The states of the examples *)

Lemma isTileEmpty_spec (png : Z -> Z) (row column : Z) :
  isTileEmpty png row column = true
  <-> forall x y, 0 <= x < TILE_WIDTH -> 0 <= y < TILE_HEIGHT ->
                  tilePixel png row column x y = 0.
Proof.
  unfold isTileEmpty. rewrite forallb_forall. split.
  - intros H x y Hx Hy.
    specialize (H y (proj2 (in_range 0 TILE_HEIGHT y) Hy)).
    rewrite forallb_forall in H.
    apply Z.eqb_eq, H, in_range, Hx.
  - intros H y Hy. apply in_range in Hy. apply forallb_forall. intros x Hx.
    apply in_range in Hx. apply Z.eqb_eq, H; assumption.
Qed.

(** The atlas index of a pixel of a tile lies in that tile only. *)
Lemma tilePixelOf_index (r c row column x y : Z) :
  0 <= row -> 0 <= column < TILE_COLS -> 0 <= x < TILE_WIDTH -> 0 <= y < TILE_HEIGHT ->
  tilePixelOf r c ((x + column * TILE_WIDTH) + (y + row * TILE_HEIGHT) * PNG_WIDTH)
  = (column =? c) && (row =? r).
Proof.
  unfold tilePixelOf, TILE_COLS, TILE_WIDTH, TILE_HEIGHT, PNG_WIDTH.
  intros Hr Hc Hx Hy. cbn zeta.
  assert (Hmod : (x + column * 128 + (y + row * 232) * 2048) mod 2048 = x + column * 128)
    by (rewrite Z.mod_add by lia; apply Z.mod_small; lia).
  assert (Hdiv : (x + column * 128 + (y + row * 232) * 2048) / 2048 = y + row * 232)
    by (rewrite Z.div_add by lia; rewrite Z.div_small by lia; lia).
  rewrite Hmod, Hdiv.
  destruct (Z.eqb_spec column c), (Z.eqb_spec row r),
    (Z.leb_spec (c * 128) (x + column * 128)),
    (Z.ltb_spec (x + column * 128) ((c + 1) * 128)),
    (Z.leb_spec (r * 232) (y + row * 232)),
    (Z.ltb_spec (y + row * 232) ((r + 1) * 232)); cbn [andb]; lia.
Qed.

(** The flags of [stretchAtlas] are those that [init] measures on its
    pixels: the tile at row 16, column 2 has ink, the others are empty. *)
Lemma stretchAtlas_flags (row column : Z) :
  0 <= row < TILE_ROWS -> 0 <= column < TILE_COLS ->
  tileEmpty stretchAtlas row column = isTileEmpty (TilesPNG stretchAtlas) row column.
Proof.
  intros Hr Hc. cbn [stretchAtlas tileEmpty TilesPNG].
  assert (Hpix : forall x y, 0 <= x < TILE_WIDTH -> 0 <= y < TILE_HEIGHT ->
            tilePixel (fun i => if tilePixelOf 16 2 i then 0xffffffff else 0xff000000)
                      row column x y
            = if (column =? 2) && (row =? 16) then 255 else 0).
  { intros x y Hx Hy. unfold tilePixel.
    rewrite tilePixelOf_index by (assumption || lia).
    destruct ((column =? 2) && (row =? 16)); reflexivity. }
  destruct ((row =? 16) && (column =? 2)) eqn:E; cbn [negb]; symmetry.
  - apply not_true_is_false. intros H.
    rewrite isTileEmpty_spec in H.
    specialize (H 0 0 ltac:(by_compute) ltac:(by_compute)).
    rewrite Hpix in H by by_compute.
    rewrite andb_comm, E in H. discriminate H.
  - apply isTileEmpty_spec. intros x y Hx Hy.
    rewrite Hpix by assumption. rewrite andb_comm, E. reflexivity.
Qed.

(** An atlas without ink has empty tiles only. *)
Lemma blankAtlas_flags (row column : Z) :
  tileEmpty blankAtlas row column = isTileEmpty (TilesPNG blankAtlas) row column.
Proof.
  symmetry. apply isTileEmpty_spec. intros x y _ _. reflexivity.
Qed.

(** On empty wall-top cells, too, a render is not transparent: with the
    value 16256 that the wave pattern has at the origin, where its sine is
    zero, the first pixel of each of the three cells comes out with alpha
    127. *)
Lemma prepareTile_empty_walltops_lit :
  let alphaAt row column :=
    alphaChannel
      (zget (surf_pixels (fst (prepareTile (fun _ _ _ _ _ _ => 16256) (fun _ => 0%Q) 0
                                 blankAtlas smallSurface 3 3 row column false)))
            (pixelIndex 48 3 3 row column 0 0)) in
  alphaAt 16 2 = 127 /\ alphaAt 21 1 = 127 /\ alphaAt 22 4 = 127.
Proof. vm_compute. repeat split. Qed.

(** X9. In the states that the optimizer leaves, the map used for
    downsampling keeps the x-height stop and the baseline stop of a text cell
    on integer rows: for such a cell the vertical search moves the first stop
    only. *)
Lemma text_rows_integer_optimized calibrate (g0 : Tiles)
    (row column fitHeight glyphHeight : Z) :
  tileShifts g0 = replicate 384 (replicate 384 0) ->
  0 <= row < TILE_ROWS -> 0 <= column < TILE_COLS ->
  is_t (TileProcessing row column) = true -> 1 <= glyphHeight ->
  let m := vertMaps (optimizeTiles calibrate g0) row column fitHeight glyphHeight in
  map2 m == iq (xHeightRow fitHeight glyphHeight)
  /\ map3 m == iq (baselineRow fitHeight glyphHeight).
Proof.
  intros Ht Hr Hc Htext Hg m.
  pose proof (optimizeTiles_calibrated calibrate g0 row column Ht Hr Hc glyphHeight Hg)
    as [_ Hv].
  rewrite Htext in Hv. destruct Hv as (E1 & E2 & _).
  destruct (vertMapsAligned_text (optimizeTiles calibrate g0) row column
              fitHeight glyphHeight Htext) as (_ & A2 & A3 & _).
  subst m. unfold vertMaps. cbn [map2 map3].
  rewrite E1, E2. split.
  - rewrite A2. apply dadd_zero_shift, dbl_xHeightRow.
  - unfold dadd. rewrite A3. apply dadd_zero_shift, dbl_baselineRow.
Qed.

(** An atlas in which one text tile (row 2, column 1) has ink. *)
Definition textAtlas : Tiles :=
  mkTiles (fun i => if tilePixelOf 2 1 i then 0xffffffff else 0xff000000)
          (fun _ _ => 0) (replicate 384 (replicate 384 0))
          (fun row column => negb ((row =? 2) && (column =? 1))) (-1) (-1) 0.

(** The vertical search of a text tile does move the first stop: with a
    constant blur it keeps the first shift of its window, and at height 20
    the top-of-ascender stop then lies near 11/6, as close as the doubles
    come, while the x-height stop is at row 7 and the baseline stop at
    row 16. *)
Lemma optimizeTiles_moves_ascender :
  let g := optimizeTiles (fun _ _ _ _ _ => 0%Q) textAtlas in
  let m := vertMaps g 2 1 20 20 in
  getShift (tileShifts g) 2 1 1 19 0 = -5
  /\ getShift (tileShifts g) 2 1 1 19 1 = 0
  /\ getShift (tileShifts g) 2 1 1 19 2 = 0
  /\ (Qabs (map1 m - (11 # 6)) <= 1 # 1000000000000)%Q /\ map2 m == 7 /\ map3 m == 16.
Proof. vm_compute. repeat split; discriminate. Qed.

Lemma text_rows_integer_optimized_witness :
  let m := vertMaps (optimizeTiles (fun _ _ _ _ _ => 0%Q) textAtlas) 2 1 20 20 in
  map2 m == iq (xHeightRow 20 20) /\ map3 m == iq (baselineRow 20 20).
Proof.
  apply (text_rows_integer_optimized (fun _ _ _ _ _ => 0%Q) textAtlas 2 1 20 20);
    by_compute.
Defined.

(** [loadTiles] leaves the tables of [init] alone. *)
Lemma loadTiles_tables (COLS ROWS : Z) (g : Tiles) (outputWidth outputHeight : Z) :
  tilePadding (loadTiles COLS ROWS g outputWidth outputHeight) = tilePadding g
  /\ tileShifts (loadTiles COLS ROWS g outputWidth outputHeight) = tileShifts g.
Proof.
  unfold loadTiles.
  destruct (chooseTileSize COLS ROWS outputWidth outputHeight) as [w h].
  destruct (_ && _); split; reflexivity.
Qed.





(** The renders of a first run: after [init] has found no cache file and
    [loadTiles] has chosen the base size for a window, every render that
    [loadTiles] asks for, of any cell in any of the four texture variants,
    leaves well-formed entries in its accumulator. *)
Lemma loadTiles_renders_wellformed wave stackWord calibrate (COLS ROWS : Z)
    (png : Z -> Z) (outputWidth outputHeight i row column p : Z) :
  0 < COLS -> 0 < ROWS -> windowFits COLS ROWS outputWidth outputHeight ->
  (forall tw th nh nv x y, 0 <= wave tw th nh nv x y <= 255 * 255) ->
  0 <= row < TILE_ROWS -> 0 <= column < TILE_COLS ->
  let g := loadTiles COLS ROWS (fst (init calibrate png None)) outputWidth outputHeight in
  let e := zget (prepareValues wave stackWord g (variantTileWidth g i)
                               (variantTileHeight g i) row column false) p in
  e = Z.shiftr e 32 * 2 ^ 32 + Z.land e 0xffffffff
  /\ 0 <= Z.land e 0xffffffff <= 255 * 255 * Z.shiftr e 32
  /\ Z.land e 0xffffffff < 2 ^ 32
  /\ (e <> 0 -> 1 <= Z.shiftr e 32).
Proof.
  intros HC HR Hwin Hwave Hr Hc g e.
  destruct (loadTiles_base_positive COLS ROWS (fst (init calibrate png None))
              outputWidth outputHeight HC HR Hwin) as [Bw Bh].
  fold g in Bw, Bh.
  destruct (variant_tileFits g i row column ltac:(lia) ltac:(lia)) as (Pw & Ph & Hfit).
  assert (Uw : variantTileWidth g i <= TILE_WIDTH + 1 /\ variantTileHeight g i <= 473).
  { unfold variantTileWidth, variantTileHeight.
    destruct ((i =? 1) || (i =? 3)), ((i =? 2) || (i =? 3)); lia. }
  destruct (init_fresh_wellformed calibrate png row column Hr Hc) as [Hpad Hcal].
  destruct (loadTiles_tables COLS ROWS (fst (init calibrate png None))
              outputWidth outputHeight) as [Epad Eshifts].
  fold g in Epad, Eshifts.
  assert (Hmaps : let '(sx, sy) := renderMaps g (variantTileWidth g i)
                                              (variantTileHeight g i) row column false in
                  mapsInside (variantTileWidth g i) (variantTileHeight g i) sx sy).
  { apply renderMaps_inside; try assumption.
    - unfold TILE_WIDTH in Uw. lia.
    - lia.
    - lia.
    - rewrite Epad. exact Hpad.
    - apply (tableCalibrated_shifts (fst (init calibrate png None))); assumption. }
  destruct (accumulator_entries_of_maps wave stackWord g (variantTileWidth g i)
              (variantTileHeight g i) row column false p Pw Hwave (fun _ => Hmaps))
    as (H1 & _ & H3 & H4 & H5 & _).
  repeat split; first [exact H1 | apply H3 | exact H4 | exact H5].
Qed.


(** The state of a screen with 8 x 8 tiles on the inked atlas. *)
Definition inked8 : Tiles := set_numTextures (set_base inkedAtlas 8 8) 4.





(** ** The doubles at work *)

(** An atlas with ink everywhere whose tiles all have the given padding, on
    a screen with the given base size. *)
Definition paddedAtlas (padding w h : Z) : Tiles :=
  mkTiles (fun _ => 0xffffffff) (fun _ _ => padding)
          (replicate 384 (replicate 384 0)) (fun _ _ => false) w h 4.

(** For a fitted tile with padding 46 on a base of 24 by 36 pixels the glyph
    height is the rounding of 1.2 * 24 * 140 / 128: the product of the
    doubles is just below 31.5, and the height is 31. *)
Lemma glyphSize_rounds_down :
  glyphSize (paddedAtlas 46 24 36) 24 36 0 0 false = (24, 36, 24, 31).
Proof. vm_compute. reflexivity. Qed.

(** With padding 39 on a base of 12 by 14 pixels the source line 61 lies
    at 0x1.fffffffffffffp+0, the double just below 2, and goes to the
    destination line 1. *)
Lemma scaledY_below_two :
  let g := paddedAtlas 39 12 14 in
  let m := vertMaps g 0 0 14 14 in
  (lerpD (map0 m) (map1 m) 39 69 61 == 9007199254740991 # 4503599627370496)%Q
  /\ zget (snd (renderMaps g 12 14 0 0 false)) 61 = 1.
Proof. vm_compute. split; reflexivity. Qed.

(** * Further properties of the renderer *)

(** ** Atlas analysis *)

(** X1. A tile without ink gets the largest padding: when [isTileEmpty]
    finds no pixel that is not transparent, the scan of [getPadding] runs to
    its cap, a quarter of the tile's height; so a padding below the cap tells
    that the tile has ink. *)
Theorem getPadding_empty_tile (png : Z -> Z) (row column : Z) :
  isTileEmpty png row column = true ->
  getPadding png row column = TILE_HEIGHT / 4.
Proof.
  intros He. unfold getPadding.
  destruct (getPadding_loop_spec png row column (Z.to_nat (TILE_HEIGHT / 4)) 0)
    as (Hr & _ & Hat).
  set (p := getPadding_loop png row column (Z.to_nat (TILE_HEIGHT / 4)) 0) in *.
  rewrite Z2Nat.id in Hr, Hat by by_compute.
  change (TILE_HEIGHT / 4) with 58 in *.
  destruct (Z_lt_dec p (0 + 58)) as [Hlt|Hge]; [exfalso|lia].
  specialize (Hat Hlt). apply inkAt_spec in Hat.
  assert (Hdark : forall y, 0 <= y < TILE_HEIGHT -> ~ lineHasInk png row column y).
  { intros y Hy (x & Hx & Hink). apply Hink.
    apply (proj1 (isTileEmpty_spec png row column) He); assumption. }
  unfold TILE_HEIGHT in *.
  destruct Hat as [H|H];
    [apply (Hdark p); [lia|exact H]|apply (Hdark (232 - p - 1)); [lia|exact H]].
Qed.

Lemma getPadding_empty_tile_witness :
  getPadding (TilesPNG blankAtlas) 0 0 = 58.
Proof.
  apply (getPadding_empty_tile (TilesPNG blankAtlas) 0 0).
  symmetry. apply blankAtlas_flags.
Defined.

(** ** The pseudo-random generator *)

Lemma lxor_below (a b n : Z) :
  0 < n -> 0 <= a < 2 ^ n -> 0 <= b < 2 ^ n -> 0 <= Z.lxor a b < 2 ^ n.
Proof.
  intros Hn Ha Hb.
  assert (Hnn : 0 <= Z.lxor a b) by (apply Z.lxor_nonneg; lia).
  split; [exact Hnn|].
  destruct (Z.eq_dec (Z.lxor a b) 0) as [E|Hne]; [rewrite E; lia|].
  assert (Hlog : forall c, 0 <= c < 2 ^ n -> Z.log2 c < n).
  { intros c Hc. destruct (Z.eq_dec c 0) as [E|Hz]; [rewrite E; simpl; lia|].
    apply Z.log2_lt_pow2; lia. }
  pose proof (Z.log2_lxor a b ltac:(lia) ltac:(lia)) as Hl.
  pose proof (Hlog a Ha). pose proof (Hlog b Hb).
  apply Z.log2_lt_pow2; lia.
Qed.

Lemma lxor_shiftr_nonzero (x k : Z) : 0 < x -> 0 < k -> Z.lxor x (Z.shiftr x k) <> 0.
Proof.
  intros Hx Hk H. apply Z.lxor_eq in H.
  rewrite Z.shiftr_div_pow2 in H by lia.
  assert (Hp : 2 <= 2 ^ k).
  { change 2 with (2 ^ 1) at 1. apply Z.pow_le_mono_r; lia. }
  assert (Hlt : x / 2 ^ k < x) by (apply Z.div_lt; lia).
  lia.
Qed.

Lemma lxor_shiftl_nonzero (x : Z) :
  0 < x < 2 ^ 64 -> Z.lxor x (u64 (Z.shiftl x 25)) <> 0.
Proof.
  intros Hx H. apply Z.lxor_eq in H. unfold u64 in H.
  rewrite Z.shiftl_mul_pow2 in H by lia.
  assert (Hdiv : (2 ^ 64 | x * (2 ^ 25 - 1))).
  { exists ((x * 2 ^ 25) / 2 ^ 64).
    pose proof (Z.div_mod (x * 2 ^ 25) (2 ^ 64) ltac:(lia)). lia. }
  rewrite Z.mul_comm in Hdiv. apply Z.gauss in Hdiv.
  - apply Z.divide_pos_le in Hdiv; lia.
  - reflexivity.
Qed.

Lemma shiftr_below (x k : Z) : 0 <= k -> 0 <= x < 2 ^ 64 -> 0 <= Z.shiftr x k < 2 ^ 64.
Proof.
  intros Hk Hx. rewrite Z.shiftr_div_pow2 by exact Hk.
  assert (Hp : 0 < 2 ^ k) by (apply Z.pow_pos_nonneg; lia).
  split; [apply Z.div_pos; lia|].
  apply (Z.le_lt_trans _ x); [apply Z.div_le_upper_bound; nia|lia].
Qed.

(** X2. The generator never falls into the state zero, from which it could
    not leave, and never returns zero: from a state that is a 64-bit word
    other than zero, [xorshift64s] moves to such a state again and returns
    such a word. *)
Theorem xorshift64s_nonzero (state : Z) :
  0 < state < 2 ^ 64 ->
  0 < fst (xorshift64s state) < 2 ^ 64 /\ 0 < snd (xorshift64s state) < 2 ^ 64.
Proof.
  intros Hs. unfold xorshift64s. cbn zeta. cbn [fst snd].
  set (x1 := Z.lxor state (Z.shiftr state 12)).
  assert (H1 : 0 < x1 < 2 ^ 64).
  { pose proof (lxor_below state (Z.shiftr state 12) 64 ltac:(lia) ltac:(lia)
                  (shiftr_below state 12 ltac:(lia) ltac:(lia))) as Hb.
    pose proof (lxor_shiftr_nonzero state 12 ltac:(lia) ltac:(lia)) as Hn.
    fold x1 in Hb, Hn. lia. }
  set (x2 := Z.lxor x1 (u64 (Z.shiftl x1 25))).
  assert (H2 : 0 < x2 < 2 ^ 64).
  { assert (Hu : 0 <= u64 (Z.shiftl x1 25) < 2 ^ 64)
      by (unfold u64; apply Z.mod_pos_bound; lia).
    pose proof (lxor_below x1 (u64 (Z.shiftl x1 25)) 64 ltac:(lia) ltac:(lia) Hu) as Hb.
    pose proof (lxor_shiftl_nonzero x1 H1) as Hn.
    fold x2 in Hb, Hn. lia. }
  set (x3 := Z.lxor x2 (Z.shiftr x2 27)).
  assert (H3 : 0 < x3 < 2 ^ 64).
  { pose proof (lxor_below x2 (Z.shiftr x2 27) 64 ltac:(lia) ltac:(lia)
                  (shiftr_below x2 27 ltac:(lia) ltac:(lia))) as Hb.
    pose proof (lxor_shiftr_nonzero x2 27 ltac:(lia) ltac:(lia)) as Hn.
    fold x3 in Hb, Hn. lia. }
  split; [exact H3|].
  assert (Hu : 0 <= u64 (x3 * 0x2545f4914f6cdd1d) < 2 ^ 64)
    by (unfold u64; apply Z.mod_pos_bound; lia).
  assert (Hn : u64 (x3 * 0x2545f4914f6cdd1d) <> 0).
  { unfold u64. intros H. apply Z.mod_divide in H; [|lia].
    rewrite Z.mul_comm in H. apply Z.gauss in H.
    - apply Z.divide_pos_le in H; lia.
    - reflexivity. }
  lia.
Qed.

Lemma xorshift64s_nonzero_witness :
  0 < fst (xorshift64s 1234567) < 2 ^ 64 /\ 0 < snd (xorshift64s 1234567) < 2 ^ 64.
Proof. apply (xorshift64s_nonzero 1234567). lia. Defined.

(** ** The shuffle of the floor dust *)

(** The exchange of the entries at [i] and [j], as [shuffleStep] writes it. *)
Lemma swap_lookup (l : list Z) (i j k : nat) :
  (i < length l)%nat -> (j < length l)%nat ->
  <[j := default 0 (l !! i)]> (<[i := default 0 (l !! j)]> l) !! k
  = l !! (if decide (k = j) then i else if decide (k = i) then j else k).
Proof.
  intros Hi Hj.
  destruct (lookup_lt_is_Some_2 l i Hi) as [x Hx].
  destruct (lookup_lt_is_Some_2 l j Hj) as [y Hy].
  rewrite Hx, Hy. cbn [default].
  destruct (decide (k = j)) as [->|Hkj].
  - rewrite list_lookup_insert_eq by (rewrite length_insert; exact Hj).
    symmetry. exact Hx.
  - rewrite list_lookup_insert_ne by congruence.
    destruct (decide (k = i)) as [->|Hki].
    + rewrite list_lookup_insert_eq by exact Hi. symmetry. exact Hy.
    + rewrite list_lookup_insert_ne by congruence. reflexivity.
Qed.

Lemma swap_elem_of (l : list Z) (i j : nat) (v : Z) :
  (i < length l)%nat -> (j < length l)%nat ->
  v ∈ <[j := default 0 (l !! i)]> (<[i := default 0 (l !! j)]> l) <-> v ∈ l.
Proof.
  intros Hi Hj. rewrite !list_elem_of_lookup. split.
  - intros (k & Hk). rewrite swap_lookup in Hk by assumption. eauto.
  - intros (k & Hk).
    exists (if decide (k = i) then j else if decide (k = j) then i else k).
    rewrite swap_lookup by assumption.
    destruct (decide (k = i)) as [->|Hki].
    + destruct (decide (j = j)); [exact Hk|congruence].
    + destruct (decide (k = j)) as [->|Hkj].
      * destruct (decide (i = j)); [congruence|].
        destruct (decide (i = i)); [exact Hk|congruence].
      * destruct (decide (k = j)); [congruence|].
        destruct (decide (k = i)); [congruence|exact Hk].
Qed.

Lemma swap_NoDup (l : list Z) (i j : nat) :
  (i < length l)%nat -> (j < length l)%nat -> NoDup l ->
  NoDup (<[j := default 0 (l !! i)]> (<[i := default 0 (l !! j)]> l)).
Proof.
  intros Hi Hj Hl. apply NoDup_alt. intros a b x Ha Hb.
  rewrite swap_lookup in Ha, Hb by assumption.
  pose proof (proj1 (NoDup_alt l) Hl _ _ _ Ha Hb) as E.
  destruct (decide (a = j)), (decide (a = i)), (decide (b = j)), (decide (b = i));
    congruence.
Qed.

Lemma NoDup_range (a b : Z) : NoDup (range a b).
Proof.
  unfold range, range_step.
  assert (Hinj : Inj (=) (=) (fun k : nat => a + 1 * Z.of_nat k))
    by (intros x y H; lia).
  apply (NoDup_fmap_2 _), NoDup_seq.
Qed.

(** What the shuffle keeps: the array holds each index below [n] once. *)
Definition indexArray (n : Z) (idx : list Z) : Prop :=
  Z.of_nat (length idx) = Z.max 0 n /\ NoDup idx /\ forall v, v ∈ idx <-> 0 <= v < n.

Lemma shuffleStep_indexArray (n : Z) (state : Z) (idx : list Z) (i : Z) :
  0 <= i < n - 1 -> indexArray n idx ->
  indexArray n (snd (shuffleStep n (state, idx) i)).
Proof.
  intros Hi (Hlen & Hnd & Hin). unfold shuffleStep.
  destruct (xorshift64s state) as [state' r]. cbn [snd].
  set (j := r mod (n - i) + i).
  assert (Hj : i <= j < n).
  { subst j. pose proof (Z.mod_pos_bound r (n - i) ltac:(lia)). lia. }
  assert (Hswap : zset (zset idx i (zget idx j)) j (zget idx i)
                  = <[Z.to_nat j := default 0 (idx !! Z.to_nat i)]>
                      (<[Z.to_nat i := default 0 (idx !! Z.to_nat j)]> idx)).
  { unfold zset, zget.
    destruct (Z.ltb_spec i 0); [lia|]. destruct (Z.ltb_spec j 0); [lia|].
    reflexivity. }
  rewrite Hswap.
  assert (Li : (Z.to_nat i < length idx)%nat) by lia.
  assert (Lj : (Z.to_nat j < length idx)%nat) by lia.
  split; [rewrite !length_insert; exact Hlen|].
  split; [apply swap_NoDup; assumption|].
  intros v. rewrite swap_elem_of by assumption. apply Hin.
Qed.

Lemma shuffle_indexArray (n state : Z) : indexArray n (snd (shuffle n state)).
Proof.
  unfold shuffle.
  assert (Hstart : indexArray n (range 0 n)).
  { split; [rewrite length_range; lia|]. split; [apply NoDup_range|].
    intros v. rewrite list_elem_of_In. apply in_range. }
  assert (Hfold : forall l acc, (forall i, In i l -> 0 <= i < n - 1) ->
            indexArray n (snd acc) ->
            indexArray n (snd (fold_left (shuffleStep n) l acc))).
  { induction l as [|i l IH]; intros [s idx] Hl Hacc; cbn [fold_left]; [exact Hacc|].
    apply IH; [intros i' Hi'; apply Hl; right; exact Hi'|].
    apply shuffleStep_indexArray; [apply Hl; left; reflexivity|exact Hacc]. }
  apply Hfold; [intros i Hi; apply in_range in Hi; exact Hi|exact Hstart].
Qed.

(** X3. The Fisher-Yates shuffle of the floor dust leaves a permutation of
    the indexes 0 .. n - 1, whatever the state of the generator: every
    interior position comes up once in the loop that lights the specks. *)
Theorem shuffle_permutation (n state : Z) :
  Permutation (snd (shuffle n state)) (range 0 n)
  /\ forall k, 0 <= k < n -> In k (snd (shuffle n state)).
Proof.
  destruct (shuffle_indexArray n state) as (Hlen & Hnd & Hin).
  split.
  - apply NoDup_Permutation; [exact Hnd|apply NoDup_range|].
    intros v. rewrite Hin, list_elem_of_In. symmetry. apply in_range.
  - intros k Hk. apply list_elem_of_In, Hin, Hk.
Qed.

(** ** The floor dust is dense *)

Lemma length_put_noise (p : Z) (d : Dust) :
  length (dust_values (put_noise p d)) = length (dust_values d).
Proof.
  unfold put_noise. destruct (noise (dust_state d)) as [s n]. apply length_zset.
Qed.

Lemma length_put_noise_fold (f : Z -> Z) (ks : list Z) (d : Dust) :
  length (dust_values (fold_left (fun d k => put_noise (f k) d) ks d))
  = length (dust_values d).
Proof.
  revert d. induction ks as [|k ks IH]; intros d; simpl; [reflexivity|].
  rewrite IH. apply length_put_noise.
Qed.

Lemma length_stitchEdges (tileWidth w h : Z) (d : Dust) :
  length (dust_values (stitchEdges tileWidth w h d)) = length (dust_values d).
Proof.
  unfold stitchEdges.
  rewrite (length_put_noise_fold (fun y => y * tileWidth + (w + 1))),
    (length_put_noise_fold (fun x => (h + 1) * tileWidth + x)),
    (length_put_noise_fold (fun y => y * tileWidth)),
    (length_put_noise_fold (fun x => x)).
  reflexivity.
Qed.

Lemma length_dustStep (tileWidth w : Z) (d : Dust) (k : Z) :
  length (dust_values (dustStep tileWidth w d k)) = length (dust_values d).
Proof.
  unfold dustStep. destruct (isolated _ _ _); [apply length_put_noise|reflexivity].
Qed.

(** A pixel that is lit stays lit. *)
Lemma dustStep_keeps_lit (tileWidth w : Z) (d : Dust) (k q : Z) :
  zget (dust_values d) q <> 0 ->
  zget (dust_values (dustStep tileWidth w d k)) q <> 0.
Proof.
  intros Hq. unfold dustStep. destruct (isolated _ _ _); [|exact Hq].
  unfold put_noise. pose proof (noise_nonzero (dust_state d)) as Hn.
  destruct (noise (dust_state d)) as [s n]. cbn [dust_values snd] in *.
  destruct (zget_zset (dust_values d) (1 + k mod w + (1 + k / w) * tileWidth) q n)
    as [[-> _]| ->]; assumption.
Qed.

Lemma fillCenter_keeps_lit (tileWidth w : Z) (idx : list Z) (d : Dust) (q : Z) :
  zget (dust_values d) q <> 0 ->
  zget (dust_values (fillCenter tileWidth w idx d)) q <> 0.
Proof.
  unfold fillCenter. revert d.
  induction idx as [|k idx IH]; intros d Hq; simpl; [exact Hq|].
  apply IH, dustStep_keeps_lit, Hq.
Qed.

Lemma isolated_false (tileWidth : Z) (values : list Z) (p : Z) :
  isolated tileWidth values p = false ->
  exists d, In d (neighbours tileWidth) /\ zget values (p + d) <> 0.
Proof.
  unfold isolated. generalize (neighbours tileWidth). intros ds.
  induction ds as [|d ds IH]; simpl; [discriminate|].
  destruct (Z.eqb_spec (zget values (p + d)) 0) as [Hz|Hnz]; simpl.
  - intros H. destruct (IH H) as (d' & Hin & Hd'). exists d'. split; [right|]; assumption.
  - intros _. exists d. split; [left; reflexivity|exact Hnz].
Qed.

Lemma neighbour_coords (tileWidth d : Z) :
  In d (neighbours tileWidth) ->
  exists dx dy, -1 <= dx <= 1 /\ -1 <= dy <= 1 /\ d = dx + dy * tileWidth.
Proof.
  unfold neighbours. simpl.
  intros [<-|[<-|[<-|[<-|[<-|[<-|[<-|[<-|[]]]]]]]]].
  - exists 1, 0. lia.
  - exists (-1), 0. lia.
  - exists 0, 1. lia.
  - exists 1, 1. lia.
  - exists (-1), 1. lia.
  - exists 0, (-1). lia.
  - exists 1, (-1). lia.
  - exists (-1), (-1). lia.
Qed.

(** The visit of a position lights it or finds a lit neighbour. *)
Lemma dustStep_covers (tileWidth w : Z) (d : Dust) (k : Z) :
  let p := 1 + k mod w + (1 + k / w) * tileWidth in
  0 <= p < Z.of_nat (length (dust_values d)) ->
  zget (dust_values (dustStep tileWidth w d k)) p <> 0
  \/ exists o, In o (neighbours tileWidth)
               /\ zget (dust_values (dustStep tileWidth w d k)) (p + o) <> 0.
Proof.
  intros p Hp. unfold dustStep. fold p.
  destruct (isolated tileWidth (dust_values d) p) eqn:Hiso.
  - left. unfold put_noise. pose proof (noise_nonzero (dust_state d)) as Hn.
    destruct (noise (dust_state d)) as [s n]. cbn [dust_values snd] in *.
    rewrite zget_zset_eq by exact Hp. exact Hn.
  - right. apply isolated_false, Hiso.
Qed.

Lemma length_fillCenter (tileWidth w : Z) (idx : list Z) (d : Dust) :
  length (dust_values (fillCenter tileWidth w idx d)) = length (dust_values d).
Proof.
  unfold fillCenter. revert d.
  induction idx as [|k idx IH]; intros d; simpl; [reflexivity|].
  rewrite IH. apply length_dustStep.
Qed.

(** X4. The floor dust is dense: after the fill of the blank floor tile,
    every interior pixel is lit or touches a lit pixel, since the loop visits
    every interior position, lights it unless a neighbour is lit, and never
    puts a pixel out.  With the isolation of the specks this makes the lit
    pixels a maximal set of pixels that do not touch. *)
Theorem floorDust_dense (tileWidth tileHeight x y : Z) :
  2 < tileWidth -> 2 < tileHeight ->
  1 <= x <= tileWidth - 2 -> 1 <= y <= tileHeight - 2 ->
  exists dx dy, -1 <= dx <= 1 /\ -1 <= dy <= 1
    /\ zget (floorDust tileWidth tileHeight (blank tileWidth tileHeight))
            ((x + dx) + (y + dy) * tileWidth) <> 0.
Proof.
  intros Hw Hh Hx Hy. unfold floorDust.
  set (w := tileWidth - 2). set (h := tileHeight - 2).
  set (e := stitchEdges tileWidth w h (mkDust 1234567 (blank tileWidth tileHeight))).
  pose proof (shuffle_indexArray (w * h) (dust_state e)) as (_ & _ & Hin).
  destruct (shuffle (w * h) (dust_state e)) as [state idx]. cbn [snd] in Hin.
  set (k := (x - 1) + (y - 1) * w).
  assert (Hk : 0 <= k < w * h) by (subst k w h; nia).
  assert (Hmod : k mod w = x - 1)
    by (subst k; rewrite Z.mod_add by lia; apply Z.mod_small; lia).
  assert (Hdiv : k / w = y - 1)
    by (subst k; rewrite Z.div_add by lia; rewrite Z.div_small by lia; lia).
  apply Hin, list_elem_of_In, in_split in Hk as (l1 & l2 & ->).
  unfold fillCenter. rewrite fold_left_app. cbn [fold_left].
  fold (fillCenter tileWidth w l1 (mkDust state (dust_values e))).
  set (d1 := fillCenter tileWidth w l1 (mkDust state (dust_values e))).
  fold (fillCenter tileWidth w l2 (dustStep tileWidth w d1 k)).
  assert (Hlen : length (dust_values d1) = Z.to_nat (tileWidth * tileHeight)).
  { subst d1 e. rewrite length_fillCenter. cbn [dust_values].
    rewrite length_stitchEdges. cbn [dust_values]. apply length_replicate. }
  pose proof (dustStep_covers tileWidth w d1 k) as Hcov. cbn zeta in Hcov.
  rewrite Hmod, Hdiv in Hcov.
  replace (1 + (x - 1) + (1 + (y - 1)) * tileWidth) with (x + y * tileWidth) in Hcov by lia.
  destruct Hcov as [Hlit|(o & Ho & Hlit)]; [rewrite Hlen; nia| |].
  - exists 0, 0. split; [lia|]. split; [lia|].
    replace (x + 0 + (y + 0) * tileWidth) with (x + y * tileWidth) by lia.
    apply fillCenter_keeps_lit, Hlit.
  - destruct (neighbour_coords tileWidth o Ho) as (dx & dy & Hdx & Hdy & ->).
    exists dx, dy. split; [exact Hdx|]. split; [exact Hdy|].
    replace (x + dx + (y + dy) * tileWidth)
      with (x + y * tileWidth + (dx + dy * tileWidth)) by lia.
    apply fillCenter_keeps_lit, Hlit.
Qed.

Lemma floorDust_dense_witness :
  exists dx dy, -1 <= dx <= 1 /\ -1 <= dy <= 1
    /\ zget (floorDust 5 5 (blank 5 5)) ((2 + dx) + (2 + dy) * 5) <> 0.
Proof. apply (floorDust_dense 5 5 2 2); lia. Defined.

(** ** The brightness of the floor dust *)

Lemma floorDust_each (P : Z -> Prop) (tileWidth tileHeight : Z) (values : list Z) :
  (forall s, P (snd (noise s))) ->
  (forall q, P (zget values q)) ->
  forall q, P (zget (floorDust tileWidth tileHeight values) q).
Proof.
  intros Hnoise Hall.
  assert (Hput : forall p d, (forall q, P (zget (dust_values d) q)) ->
                             forall q, P (zget (dust_values (put_noise p d)) q)).
  { intros p d Hd q. unfold put_noise. specialize (Hnoise (dust_state d)).
    destruct (noise (dust_state d)) as [s v]. cbn [dust_values snd] in *.
    destruct (zget_zset (dust_values d) p q v) as [[-> _]| ->]; [exact Hnoise|apply Hd]. }
  assert (Hfold : forall (f : Z -> Z) ks d, (forall q, P (zget (dust_values d) q)) ->
            forall q, P (zget (dust_values
                                 (fold_left (fun d k => put_noise (f k) d) ks d)) q)).
  { intros f ks. induction ks as [|k ks IH]; intros d Hd; simpl; [exact Hd|].
    apply IH, Hput, Hd. }
  unfold floorDust.
  set (e := stitchEdges _ _ _ _).
  assert (He : forall q, P (zget (dust_values e) q)).
  { subst e. unfold stitchEdges. repeat apply Hfold. exact Hall. }
  destruct (shuffle _ _) as [state idx]. unfold fillCenter.
  generalize (mkDust state (dust_values e))
             (He : forall q, P (zget (dust_values (mkDust state (dust_values e))) q)).
  induction idx as [|k idx IH]; intros d Hd; simpl; [exact Hd|].
  apply IH. unfold dustStep. destruct (isolated _ _ _); [apply Hput, Hd|exact Hd].
Qed.

Lemma alphaChannel_pixelWord (processing : ascii) (entry : Z) :
  alphaChannel (pixelWord processing entry) = alphaOf processing entry.
Proof.
  unfold alphaChannel, pixelWord.
  rewrite Z.shiftr_lor, Z.shiftr_shiftl_l by lia.
  rewrite Z.sub_diag, Z.shiftl_0_r. change (Z.shiftr 0xffffff 24) with 0.
  apply Z.lor_0_r.
Qed.

Lemma roundSqrt_bounds (v lo hi : Z) :
  0 <= lo -> lo <= v <= hi -> Z.sqrt lo <= roundSqrt v <= Z.sqrt hi + 1.
Proof.
  intros Hlo Hv. unfold roundSqrt.
  pose proof (Z.sqrt_le_mono lo v ltac:(lia)).
  pose proof (Z.sqrt_le_mono v hi ltac:(lia)).
  destruct (_ <? _); lia.
Qed.

(** The alpha of a speck of dust. *)
Lemma alphaOf_noise (e : Z) :
  0x100000280 <= e < 0x100000680 -> 25 <= alphaOf "s" e <= 41.
Proof.
  intros He. unfold alphaOf, average.
  assert (Hc : Z.shiftr e 32 = 1).
  { rewrite Z.shiftr_div_pow2 by lia. change (2 ^ 32) with 4294967296. lia_div. }
  assert (Hs : Z.land e 0xffffffff = e - 2 ^ 32).
  { change 0xffffffff with (Z.ones 32). rewrite Z.land_ones by lia.
    change (2 ^ 32) with 4294967296. lia_div. }
  rewrite Hc, Hs. cbn [Z.eqb negb]. rewrite Z.quot_1_r.
  change (thin "s" (e - 2 ^ 32)) with (e - 2 ^ 32). unfold opacity.
  change (2 ^ 32) with 4294967296.
  destruct (Z.eqb_spec (e - 4294967296) 0); [lia|].
  destruct (Z.gtb_spec (e - 4294967296) 64770); [lia|].
  pose proof (roundSqrt_bounds (e - 4294967296) 640 1663 ltac:(lia) ltac:(lia)) as Hr.
  change (Z.sqrt 640) with 25 in Hr. change (Z.sqrt 1663) with 40 in Hr. lia.
Qed.

(** X5. The dust of the floor is faint: in a render of the blank floor cell
    every pixel is transparent or has an alpha between 25 and 41 of 255, the
    rounded square roots of the values 640 .. 1663 that [noise] returns. *)
Theorem floor_alpha_range wave blurTerm stackWord (g : Tiles) (surface : Surface)
    (tileWidth tileHeight x y : Z) :
  tileEmpty g 20 2 = true -> 2 < tileWidth -> 2 < tileHeight ->
  0 <= x < tileWidth -> 0 <= y < tileHeight ->
  tileWidth <= surf_w surface ->
  0 <= pixelIndex (surf_w surface) tileWidth tileHeight 20 2 x y
    < Z.of_nat (length (surf_pixels surface)) ->
  let alpha :=
    alphaChannel
      (zget (surf_pixels (fst (prepareTile wave blurTerm stackWord g surface
                                 tileWidth tileHeight 20 2 false)))
            (pixelIndex (surf_w surface) tileWidth tileHeight 20 2 x y)) in
  alpha = 0 \/ 25 <= alpha <= 41.
Proof.
  intros He Hw Hh Hx Hy Hsw Hj alpha. subst alpha.
  rewrite prepareTile_floor_pixel by assumption.
  rewrite alphaChannel_pixelWord.
  pose proof (floorDust_each (fun e => e = 0 \/ 0x100000280 <= e < 0x100000680)
                tileWidth tileHeight (blank tileWidth tileHeight)) as Hdust.
  cbv beta in Hdust.
  destruct (Hdust (fun s => or_intror (noise_lit s))
                  (fun q => or_introl (zget_replicate _ q)) (y * tileWidth + x))
    as [->|Hlit].
  - left. reflexivity.
  - right. apply alphaOf_noise, Hlit.
Qed.

Lemma floor_alpha_range_witness :
  let alpha :=
    alphaChannel
      (zget (surf_pixels (fst (prepareTile (fun _ _ _ _ _ _ => 0) (fun _ => 0%Q) 0
                                 blankAtlas smallSurface 3 3 20 2 false)))
            (pixelIndex 48 3 3 20 2 0 0)) in
  alpha = 0 \/ 25 <= alpha <= 41.
Proof.
  apply (floor_alpha_range (fun _ _ _ _ _ _ => 0) (fun _ => 0%Q) 0
           blankAtlas smallSurface 3 3 0 0); by_compute.
Defined.

(** ** The table that the optimizer computes *)

(** X6. Run on the table of zeros, as [init] runs it, the optimizer leaves
    every shift within the windows of its searches: the two edge shifts of a
    triple within [-5, 5] and the mid shift within [-10, 10]; the triples of
    the sizes it does not calibrate (widths below 5, heights below 7) stay
    zero; the vertical triple of a 't' tile has its first shift only.  So no
    shift ever leaves [int8_t], and the table stays one of the C type. *)
Theorem optimizeTiles_shifts_bounded (calibrate : Tiles -> Z -> Z -> Z -> Z -> Q)
    (g : Tiles) (row column axis size : Z) :
  tileShifts g = replicate TILE_COUNT (replicate BLOCK_SIZE 0) ->
  0 <= row < TILE_ROWS -> 0 <= column < TILE_COLS ->
  0 <= axis < 2 -> 0 <= size < MAX_TILE_SIZE ->
  let s k := getShift (tileShifts (optimizeTiles calibrate g)) row column axis size k in
  (-5 <= s 0 <= 5 /\ -5 <= s 1 <= 5 /\ -10 <= s 2 <= 10)
  /\ (size + 1 < (if axis =? 0 then 5 else 7) -> s 0 = 0 /\ s 1 = 0 /\ s 2 = 0)
  /\ (is_t (TileProcessing row column) = true -> axis = 1 -> s 1 = 0 /\ s 2 = 0)
  /\ shiftTable (tileShifts (optimizeTiles calibrate g)).
Proof.
  intros Hzero Hr Hc Ha Hs s.
  assert (Hw : tableWindowed (optimizeTiles calibrate g))
    by (apply optimizeTiles_windowed, zeroTable_windowed, Hzero).
  destruct (proj2 Hw row column Hr Hc) as [_ Hblock].
  destruct (Hblock axis size (conj Ha Hs)) as (Hb & Hsmall & Htext).
  split; [exact Hb|]. split; [exact Hsmall|]. split; [exact Htext|].
  apply tableWindowed_shiftTable, Hw.
Qed.

Lemma optimizeTiles_shifts_bounded_witness :
  let s k := getShift (tileShifts (optimizeTiles landscape inkedAtlas)) 0 0 0 4 k in
  -5 <= s 0 <= 5 /\ -5 <= s 1 <= 5 /\ -10 <= s 2 <= 10.
Proof.
  intros s.
  destruct (optimizeTiles_shifts_bounded landscape inkedAtlas 0 0 0 4) as (Hb & _);
    [reflexivity|by_compute|by_compute|lia|by_compute|].
  exact Hb.
Defined.

(** X7. A start that finds the cache file of an earlier start, which had
    none, gets the very shifts that the earlier start computed, and leaves
    the file as it is; the measures of the atlas are the same in both. *)
Theorem init_second_start (calibrate : Tiles -> Z -> Z -> Z -> Z -> Q) (png : Z -> Z) :
  let first := init calibrate png None in
  let second := init calibrate png (snd first) in
  tileShifts (fst second) = tileShifts (fst first)
  /\ snd second = snd first
  /\ tilePadding (fst second) = tilePadding (fst first)
  /\ tileEmpty (fst second) = tileEmpty (fst first).
Proof.
  intros first second.
  assert (Hw : tableWindowed (optimizeTiles calibrate (measure png)))
    by (apply optimizeTiles_windowed, zeroTable_windowed; reflexivity).
  pose proof (loadShifts_second_start (optimizeTiles calibrate) (measure png)
                (measure png) (tableWindowed_shiftTable _ Hw) zeroTable_ok) as Hs.
  destruct (optimizeTiles_sameMeasures calibrate (measure png)) as (_ & Hp & He).
  subst first second. unfold init. cbn [loadShifts fst snd] in *.
  split; [exact Hs|]. split; [reflexivity|].
  cbn [set_tileShifts tilePadding tileEmpty].
  split; [symmetry; exact Hp|symmetry; exact He].
Qed.

(** ** Reading a cache file of any length *)

Lemma concat_chunk (n count : nat) (l : list Z) :
  length l = (count * n)%nat -> concat (chunk n count l) = l.
Proof.
  revert l. induction count as [|count IH]; intros l Hl; simpl.
  - destruct l; [reflexivity|discriminate].
  - rewrite IH by (rewrite length_drop; lia). apply take_drop.
Qed.

Lemma chunk_blocks (n count : nat) (l : list Z) :
  length l = (count * n)%nat ->
  length (chunk n count l) = count
  /\ Forall (fun block => length block = n) (chunk n count l).
Proof.
  revert l. induction count as [|count IH]; intros l Hl; simpl.
  - split; [reflexivity|constructor].
  - destruct (IH (drop n l)) as [Hc Hb]; [rewrite length_drop; lia|].
    split; [rewrite Hc; reflexivity|].
    constructor; [rewrite length_take; lia|exact Hb].
Qed.

Lemma toInt8_range (b : Z) : 0 <= b < 256 -> int8 (toInt8 b).
Proof. unfold int8, toInt8. intros Hb. destruct (Z.ltb_spec b 128); lia. Qed.

(** X8. The cache file has no header and no length: whatever its length,
    reading it leaves a table of the C type.  The bytes of the file, up to
    the size of the table, replace the first entries, in memory order, each
    read as a signed byte; the entries past the end of a short file keep
    their values; the bytes of a long file past the size of the table are
    not read. *)
Theorem freadShifts_any_file (t0 : list (list Z)) (file : list Z) :
  shiftTable t0 -> Forall (fun b => 0 <= b < 256) file ->
  shiftTable (freadShifts t0 file)
  /\ concat (freadShifts t0 file)
     = map toInt8 (take (TILE_COUNT * BLOCK_SIZE) file) ++ drop (length file) (concat t0).
Proof.
  intros Ht0 Hfile.
  pose proof (shiftTable_blocks t0 Ht0) as Hb0.
  pose proof (length_concat_blocks BLOCK_SIZE t0 Hb0) as Hmem.
  assert (Hcount : length t0 = TILE_COUNT) by apply Ht0.
  rewrite Hcount in Hmem.
  unfold freadShifts. rewrite Hmem, Hcount.
  set (N := (TILE_COUNT * BLOCK_SIZE)%nat) in *.
  set (got := take N file).
  assert (Hgot : length got = Nat.min N (length file)) by apply length_take.
  assert (Hdrop : drop (length got) (concat t0) = drop (length file) (concat t0)).
  { rewrite Hgot. destruct (Nat.le_gt_cases N (length file)) as [Hle|Hgt].
    - rewrite Nat.min_l by exact Hle.
      rewrite !drop_ge by lia. reflexivity.
    - rewrite Nat.min_r by lia. reflexivity. }
  set (l := map toInt8 got ++ drop (length got) (concat t0)).
  assert (Hl : length l = (TILE_COUNT * BLOCK_SIZE)%nat).
  { subst l. rewrite length_app, length_map, length_drop, Hmem, Hgot. fold N. lia. }
  destruct (chunk_blocks BLOCK_SIZE TILE_COUNT l Hl) as [Hc Hb].
  assert (Hcat : concat (chunk BLOCK_SIZE TILE_COUNT l) = l) by (apply concat_chunk, Hl).
  split.
  - split; [exact Hc|].
    assert (Hall : Forall int8 l).
    { subst l. apply Forall_app. split.
      - apply Forall_fmap. eapply Forall_impl; [apply Forall_take, Hfile|].
        intros b Hbyte. apply toInt8_range, Hbyte.
      - apply Forall_drop, Forall_int8_concat, Ht0. }
    rewrite <- Hcat in Hall.
    clear - Hb Hall. induction Hb as [|block t Hblock _ IH]; [constructor|].
    simpl in Hall. apply Forall_app in Hall as [H1 H2].
    constructor; [split; assumption|apply IH, H2].
  - rewrite Hcat. subst l. rewrite Hdrop. reflexivity.
Qed.

Lemma freadShifts_any_file_witness :
  let t := freadShifts (replicate 384 (replicate 384 0)) [255; 3] in
  shiftTable t /\ take 3 (concat t) = [-1; 3; 0].
Proof.
  intros t.
  destruct (freadShifts_any_file (replicate 384 (replicate 384 0)) [255; 3] zeroTable_ok)
    as [Hshape Hcat].
  - repeat constructor; lia.
  - split; [exact Hshape|]. subst t. rewrite Hcat. reflexivity.
Defined.

(** ** The renders of a first run stay inside their buffers *)



(** ** The base size that [loadTiles] chooses *)

(** X12. For a window of a size that is not negative and whose two products
    with the grid fit an [int], [loadTiles] chooses a base size of at least
    one pixel each way.  The base width is below [MAX_TILE_SIZE] or it is the
    width of the atlas tiles, 128; when it is below, the base height is below
    [MAX_TILE_SIZE] or it is the height of the atlas tiles, 232.  When both
    integer quotients of the window by the grid are below [MAX_TILE_SIZE],
    the base size is these quotients, with 1 in the place of 0. *)
Theorem chooseTileSize_cases (COLS ROWS outputWidth outputHeight : Z) :
  0 < COLS -> 0 < ROWS -> 0 <= outputWidth -> 0 <= outputHeight ->
  outputWidth * ROWS < 2 ^ 31 -> outputHeight * COLS < 2 ^ 31 ->
  let w := fst (chooseTileSize COLS ROWS outputWidth outputHeight) in
  let h := snd (chooseTileSize COLS ROWS outputWidth outputHeight) in
  1 <= w /\ 1 <= h
  /\ (w < MAX_TILE_SIZE \/ w = TILE_WIDTH)
  /\ (w < MAX_TILE_SIZE -> h < MAX_TILE_SIZE \/ h = TILE_HEIGHT)
  /\ (w < MAX_TILE_SIZE -> h < MAX_TILE_SIZE ->
      w = Z.max 1 (outputWidth ÷ COLS) /\ h = Z.max 1 (outputHeight ÷ ROWS)).
Proof.
  intros HC HR Hw Hh Fw Fh w h. subst w h.
  destruct (aspectRatio_facts COLS ROWS outputWidth outputHeight HC HR
              (conj Hw (conj Hh (conj Fw Fh)))) as (H1 & H2 & _ & _).
  unfold chooseTileSize.
  assert (H3 : 0 <= outputWidth ÷ COLS) by (apply Z.quot_pos; lia).
  assert (H4 : 0 <= outputHeight ÷ ROWS) by (apply Z.quot_pos; lia).
  set (ratio := ddiv (iq (i32 (outputWidth * ROWS))) (iq (i32 (outputHeight * COLS))))
    in *.
  set (w0 := outputWidth ÷ COLS) in *. set (h0 := outputHeight ÷ ROWS) in *.
  set (w1 := roundQ (dmul (iq TILE_HEIGHT) ratio)) in *.
  set (h2 := roundQ (ddiv (iq TILE_WIDTH) ratio)) in *.
  unfold MAX_TILE_SIZE, TILE_WIDTH, TILE_HEIGHT in *.
  destruct (Z.geb_spec h0 64) as [G1|G1].
  - destruct (Z.geb_spec w1 64) as [G2|G2]; cbn [fst snd];
      repeat match goal with
             | |- context [?x =? 0] => destruct (Z.eqb_spec x 0)
             end; repeat split; intros; lia.
  - destruct (Z.geb_spec w0 64) as [G2|G2]; cbn [fst snd];
      repeat match goal with
             | |- context [?x =? 0] => destruct (Z.eqb_spec x 0)
             end; repeat split; intros; lia.
Qed.

Lemma chooseTileSize_cases_witness :
  fst (chooseTileSize 100 34 1000 680) = Z.max 1 (1000 ÷ 100)
  /\ snd (chooseTileSize 100 34 1000 680) = Z.max 1 (680 ÷ 34).
Proof.
  destruct (chooseTileSize_cases 100 34 1000 680) as (_ & _ & _ & _ & H);
    try lia.
  apply H; by_compute.
Defined.

(** On a tall window of 775 by 3944 pixels and a grid of 100 by 34 the ratio
    of the doubles is just below 26350 / 394400, and 232 times it just below
    15.5: the base size is 15 by 232. *)
Lemma chooseTileSize_tall_window : chooseTileSize 100 34 775 3944 = (15, 232).
Proof. vm_compute. reflexivity. Qed.

(** Where the products leave [int] the ratio can be negative: for a window
    of 70000000 by 3000 pixels the chosen width is negative. *)
Lemma chooseTileSize_wide_window : chooseTileSize 100 34 70000000 3000 = (-1480908, 232).
Proof. vm_compute. reflexivity. Qed.

(** ** The first [loadTiles] after [init] *)

Lemma searchStep_base calibrate derive (g : Tiles) (row column axis size idx : Z) :
  baseTileWidth (searchStep calibrate derive g row column axis size idx) = baseTileWidth g
  /\ baseTileHeight (searchStep calibrate derive g row column axis size idx)
     = baseTileHeight g.
Proof.
  unfold searchStep.
  match goal with
  | |- context [fold_left ?f ?W ?acc] =>
      assert (H : baseTileWidth (fst (fst (fold_left f W acc))) = baseTileWidth g
                  /\ baseTileHeight (fst (fst (fold_left f W acc))) = baseTileHeight g);
      [|destruct (fold_left f W acc) as [[g' br] bs]; exact H]
  end.
  apply (fold_left_preserves
           (fun acc => baseTileWidth (fst (fst acc)) = baseTileWidth g
                       /\ baseTileHeight (fst (fst acc)) = baseTileHeight g));
    [|split; reflexivity].
  intros [[g1 br] bs] w _ H1. unfold trial. destruct (negb _); exact H1.
Qed.

Lemma searchShifts_base calibrate derive params (g : Tiles) (row column axis size : Z) :
  baseTileWidth (searchShifts calibrate derive params g row column axis size)
  = baseTileWidth g
  /\ baseTileHeight (searchShifts calibrate derive params g row column axis size)
     = baseTileHeight g.
Proof.
  unfold searchShifts.
  apply (fold_left_preserves
           (fun g' => baseTileWidth g' = baseTileWidth g
                      /\ baseTileHeight g' = baseTileHeight g)); [|split; reflexivity].
  intros g1 _ _ H1.
  apply (fold_left_preserves
           (fun g' => baseTileWidth g' = baseTileWidth g
                      /\ baseTileHeight g' = baseTileHeight g)); [|exact H1].
  intros g2 idx _ [Hw Hh].
  destruct (searchStep_base calibrate derive g2 row column axis size idx) as [-> ->].
  split; assumption.
Qed.

Lemma base_set_base (g : Tiles) (w h : Z) :
  baseTileWidth (set_base g w h) = w /\ baseTileHeight (set_base g w h) = h.
Proof. split; reflexivity. Qed.

(** The base size that the work on a tile leaves: the exit values of its two
    loops over the sizes. *)
Lemma optimizeTile_base calibrate (g : Tiles) (row column : Z) :
  tileEmpty g row column = false ->
  baseTileWidth (optimizeTile calibrate g row column) = MAX_TILE_SIZE
  /\ baseTileHeight (optimizeTile calibrate g row column) = MAX_TILE_SIZE + 1.
Proof.
  intros He. unfold optimizeTile. rewrite He. unfold optimizeVert.
  generalize (optimizeHoriz calibrate g row column). intros g1.
  match goal with
  | |- context [fold_left ?f ?l ?a] =>
      assert (Hloop : baseTileWidth (fold_left f l a) = MAX_TILE_SIZE);
      [|generalize dependent (fold_left f l a)]
  end.
  - apply (fold_left_preserves (fun g' => baseTileWidth g' = MAX_TILE_SIZE)).
    + intros g2 h _ Hg2.
      destruct (searchShifts_base calibrate false
                  (if is_t (TileProcessing row column) then 1 else 3)
                  (set_base g2 (baseTileWidth g2) h) row column 1 (h - 1)) as [E _].
      rewrite E. rewrite (proj1 (base_set_base g2 (baseTileWidth g2) h)). exact Hg2.
    + apply base_set_base.
  - intros g3 Hg3.
    rewrite (proj1 (base_set_base g3 (baseTileWidth g3) (MAX_TILE_SIZE + 1))),
      (proj2 (base_set_base g3 (baseTileWidth g3) (MAX_TILE_SIZE + 1))).
    split; [exact Hg3|reflexivity].
Qed.

Lemma optimizeTiles_base calibrate (g : Tiles) :
  baseTileWidth (optimizeTiles calibrate g) = baseTileWidth g
  /\ baseTileHeight (optimizeTiles calibrate g) = baseTileHeight g
  \/ baseTileWidth (optimizeTiles calibrate g) = MAX_TILE_SIZE.
Proof.
  unfold optimizeTiles.
  apply (fold_left_preserves
           (fun g' => baseTileWidth g' = baseTileWidth g
                      /\ baseTileHeight g' = baseTileHeight g
                      \/ baseTileWidth g' = MAX_TILE_SIZE));
    [|left; split; reflexivity].
  intros g1 row _ H1.
  apply (fold_left_preserves
           (fun g' => baseTileWidth g' = baseTileWidth g
                      /\ baseTileHeight g' = baseTileHeight g
                      \/ baseTileWidth g' = MAX_TILE_SIZE)); [|exact H1].
  intros g2 column _ H2.
  destruct (tileEmpty g2 row column) eqn:He.
  - unfold optimizeTile. rewrite He. exact H2.
  - right. apply optimizeTile_base, He.
Qed.

Lemma chooseTileSize_width_free (COLS ROWS outputWidth outputHeight : Z) :
  fst (chooseTileSize COLS ROWS outputWidth outputHeight) <> MAX_TILE_SIZE.
Proof.
  unfold chooseTileSize.
  destruct (_ >=? MAX_TILE_SIZE);
    match goal with
    | |- context [?w >=? MAX_TILE_SIZE] => destruct (Z.geb_spec w MAX_TILE_SIZE)
    end; cbn [fst];
    match goal with
    | |- context [?x =? 0] => destruct (Z.eqb_spec x 0)
    end; unfold MAX_TILE_SIZE, TILE_WIDTH in *; lia.
Qed.

(** A chosen width below 1 comes from the aspect ratio of a window whose
    products have left [int], and it comes with the height of the atlas
    tiles. *)
Lemma chooseTileSize_low_width (COLS ROWS outputWidth outputHeight : Z) :
  0 < COLS -> 0 <= outputWidth ->
  fst (chooseTileSize COLS ROWS outputWidth outputHeight) < 1 ->
  snd (chooseTileSize COLS ROWS outputWidth outputHeight) = TILE_HEIGHT.
Proof.
  intros HC Hw. unfold chooseTileSize.
  assert (H3 : 0 <= outputWidth ÷ COLS) by (apply Z.quot_pos; lia).
  set (w0 := outputWidth ÷ COLS) in *.
  destruct (_ >=? MAX_TILE_SIZE);
    match goal with
    | |- context [?w >=? MAX_TILE_SIZE] => destruct (Z.geb_spec w MAX_TILE_SIZE)
    end; cbn [fst snd];
    repeat match goal with
           | |- context [?x =? 0] => destruct (Z.eqb_spec x 0)
           end; unfold MAX_TILE_SIZE, TILE_WIDTH, TILE_HEIGHT in *; intros; lia.
Qed.

(** X13. Whether [init] has computed the shifts or read them from the cache
    file, the first [loadTiles] after it, for a window of a size that is not
    negative, never takes the early return for an unchanged size: it installs
    the chosen base size and sets the number of textures to 1 or to 4, so
    textures exist before the first frame is drawn. *)
Theorem first_loadTiles_installs (calibrate : Tiles -> Z -> Z -> Z -> Z -> Q)
    (COLS ROWS : Z) (png : Z -> Z) (file : option (list Z))
    (outputWidth outputHeight : Z) :
  0 < COLS -> 0 < ROWS -> 0 <= outputWidth -> 0 <= outputHeight ->
  let g := loadTiles COLS ROWS (fst (init calibrate png file)) outputWidth outputHeight in
  let w := fst (chooseTileSize COLS ROWS outputWidth outputHeight) in
  let h := snd (chooseTileSize COLS ROWS outputWidth outputHeight) in
  baseTileWidth g = w /\ baseTileHeight g = h
  /\ numTextures g = (if (w >=? MAX_TILE_SIZE) || (h >=? MAX_TILE_SIZE) then 1 else 4).
Proof.
  intros HC HR Hw Hh g w h.
  assert (Hbase : baseTileWidth (fst (init calibrate png file)) = -1
                  /\ baseTileHeight (fst (init calibrate png file)) = -1
                  \/ baseTileWidth (fst (init calibrate png file)) = MAX_TILE_SIZE).
  { unfold init, loadShifts. destruct file as [bytes|]; cbn [fst].
    - left. split; reflexivity.
    - destruct (optimizeTiles_base calibrate (measure png)) as [E|E];
        [left|right]; exact E. }
  pose proof (chooseTileSize_low_width COLS ROWS outputWidth outputHeight HC Hw) as P1.
  pose proof (chooseTileSize_width_free COLS ROWS outputWidth outputHeight) as P2.
  subst g w h. unfold loadTiles.
  generalize dependent (fst (init calibrate png file)). intros g0 Hbase.
  destruct (chooseTileSize COLS ROWS outputWidth outputHeight) as [w h].
  cbn [fst snd] in *.
  destruct (Z.eqb_spec (baseTileWidth g0) w) as [E|_]; cbn [andb];
    [|repeat split].
  destruct (Z.eqb_spec (baseTileHeight g0) h) as [E'|_]; [|repeat split].
  exfalso. unfold MAX_TILE_SIZE, TILE_HEIGHT in *. lia.
Qed.

Lemma first_loadTiles_installs_witness :
  let g := loadTiles 100 34 (fst (init (fun _ _ _ _ _ => 0%Q) (fun _ => 0xff000000) None))
                     1000 680 in
  baseTileWidth g = 10 /\ baseTileHeight g = 20 /\ numTextures g = 4.
Proof.
  exact (first_loadTiles_installs (fun _ _ _ _ _ => 0%Q) 100 34 (fun _ => 0xff000000) None
           1000 680 ltac:(lia) ltac:(lia) ltac:(lia) ltac:(lia)).
Defined.

(** ** The compositor finds a texture of the size of each cell *)

(** X14. In a state in which [loadTiles] has installed the base size for the
    current window and built the four textures, every cell of the grid that
    [updateScreen] draws, that is every cell whose width and height are not
    zero, is drawn from the texture variant whose tiles have exactly the
    width and the height of the cell: the source rectangle has the size of
    the destination rectangle and nothing is scaled. *)
Theorem updateScreen_variant_exact (COLS ROWS : Z) (g : Tiles)
    (outputWidth outputHeight x y : Z) :
  0 < COLS -> 0 < ROWS -> 0 <= outputWidth -> 0 <= outputHeight -> 0 <= x -> 0 <= y ->
  baseTileWidth g = fst (chooseTileSize COLS ROWS outputWidth outputHeight) ->
  baseTileHeight g = snd (chooseTileSize COLS ROWS outputWidth outputHeight) ->
  baseTileWidth g < MAX_TILE_SIZE -> baseTileHeight g < MAX_TILE_SIZE ->
  numTextures g = 4 ->
  let tileWidth := cellWidth COLS outputWidth x in
  let tileHeight := cellHeight ROWS outputHeight y in
  tileWidth <> 0 -> tileHeight <> 0 ->
  let i := fst (fst (selectTexture g tileWidth tileHeight)) in
  0 <= i < 4
  /\ selectTexture g tileWidth tileHeight = (i, tileWidth, tileHeight)
  /\ variantTileWidth g i = tileWidth /\ variantTileHeight g i = tileHeight.
Proof.
  intros HC HR Hw Hh Hx Hy Ebw Ebh Lw Lh Hn tileWidth tileHeight Nw Nh i.
  assert (Hsize : baseTileWidth g = Z.max 1 (outputWidth ÷ COLS)
                  /\ baseTileHeight g = Z.max 1 (outputHeight ÷ ROWS)).
  { rewrite Ebw, Ebh in *. revert Lw Lh. unfold chooseTileSize.
    assert (H3 : 0 <= outputWidth ÷ COLS) by (apply Z.quot_pos; lia).
    assert (H4 : 0 <= outputHeight ÷ ROWS) by (apply Z.quot_pos; lia).
    unfold MAX_TILE_SIZE, TILE_WIDTH, TILE_HEIGHT.
    destruct (Z.geb_spec (outputHeight ÷ ROWS) 64);
      match goal with
      | |- context [?w >=? 64] => destruct (Z.geb_spec w 64)
      end; cbn [fst snd];
      repeat match goal with
             | |- context [?v =? 0] => destruct (Z.eqb_spec v 0)
             end; intros; lia. }
  destruct Hsize as [Sw Sh].
  pose proof (cellWidth_base COLS outputWidth x HC Hw Hx) as Cw.
  pose proof (cellWidth_base ROWS outputHeight y HR Hh Hy) as Ch.
  change (cellWidth ROWS outputHeight y) with (cellHeight ROWS outputHeight y) in Ch.
  fold tileWidth in Cw. fold tileHeight in Ch.
  assert (Pw : 0 <= outputWidth ÷ COLS) by (apply Z.quot_pos; lia).
  assert (Ph : 0 <= outputHeight ÷ ROWS) by (apply Z.quot_pos; lia).
  assert (Tw : tileWidth = baseTileWidth g \/ tileWidth = baseTileWidth g + 1) by lia.
  assert (Th : tileHeight = baseTileHeight g \/ tileHeight = baseTileHeight g + 1) by lia.
  subst i. unfold selectTexture. rewrite Hn. cbn [Z.eqb Pos.eqb fst].
  unfold getTexture, variantTileWidth, variantTileHeight.
  destruct Tw as [Tw|Tw], Th as [Th|Th]; rewrite Tw, Th;
    repeat match goal with
           | |- context [?a >? ?b] => destruct (Z.gtb_spec a b); try lia
           end;
    change (0 + 0) with 0; change (1 + 0) with 1; change (0 + 2) with 2;
    change (1 + 2) with 3; cbn [Z.eqb Pos.eqb orb fst snd];
    repeat split; lia.
Qed.

Lemma updateScreen_variant_exact_witness :
  let g := set_numTextures (set_base blankAtlas 10 20) 4 in
  selectTexture g (cellWidth 100 1005 99) (cellHeight 34 680 0) = (1, 11, 20)
  /\ variantTileWidth g 1 = 11.
Proof.
  intros g.
  pose proof (updateScreen_variant_exact 100 34 g 1005 680 99 0
                ltac:(lia) ltac:(lia) ltac:(lia) ltac:(lia) ltac:(lia) ltac:(lia)
                ltac:(by_compute) ltac:(by_compute) ltac:(by_compute) ltac:(by_compute)
                ltac:(by_compute) ltac:(by_compute) ltac:(by_compute))
    as (_ & Hs & Hv & _).
  split; [exact Hs|exact Hv].
Defined.

(** ** From the average to the alpha *)

(** [round(sqrt(v))] is the integer square root of [4 v], plus one, halved. *)
Lemma roundSqrt_alt (v : Z) : 0 <= v -> roundSqrt v = (Z.sqrt (4 * v) + 1) / 2.
Proof.
  intros Hv. unfold roundSqrt.
  pose proof (Z.sqrt_spec v Hv) as Hr. pose proof (Z.sqrt_nonneg v) as Hr0.
  pose proof (Z.sqrt_spec (4 * v) ltac:(lia)) as Hs.
  pose proof (Z.sqrt_nonneg (4 * v)) as Hs0.
  set (r := Z.sqrt v) in *. set (s := Z.sqrt (4 * v)) in *.
  cbv zeta in Hr, Hs. unfold Z.succ in *.
  assert (Hlo : 2 * r <= s) by nia.
  assert (Hhi : s <= 2 * r + 1) by nia.
  destruct (Z.ltb_spec (r * r + r) v) as [Hup|Hdown].
  - assert (s = 2 * r + 1) by nia. lia_div.
  - assert (s = 2 * r) by nia. lia_div.
Qed.

Lemma roundSqrt_mono (a b : Z) : 0 <= a <= b -> roundSqrt a <= roundSqrt b.
Proof.
  intros H. rewrite !roundSqrt_alt by lia.
  apply Z.div_le_mono; [lia|].
  pose proof (Z.sqrt_le_mono (4 * a) (4 * b) ltac:(lia)). lia.
Qed.

Lemma opacity_range (v : Z) : 0 <= v -> 0 <= opacity v <= 255.
Proof.
  intros Hv. unfold opacity.
  destruct (Z.eqb_spec v 0); [lia|].
  destruct (Z.gtb_spec v 64770); [lia|].
  pose proof (roundSqrt_mono 0 v ltac:(lia)) as Hlo.
  pose proof (roundSqrt_mono v 64770 ltac:(lia)) as Hhi.
  change (roundSqrt 0) with 0 in Hlo. change (roundSqrt 64770) with 254 in Hhi. lia.
Qed.

Lemma opacity_mono (a b : Z) : 0 <= a <= b -> opacity a <= opacity b.
Proof.
  intros H. pose proof (opacity_range a ltac:(lia)) as Ha.
  pose proof (opacity_range b ltac:(lia)) as Hb. unfold opacity in *.
  destruct (Z.eqb_spec a 0); [lia|].
  destruct (Z.eqb_spec b 0); [lia|].
  destruct (Z.gtb_spec b 64770); [lia|].
  destruct (Z.gtb_spec a 64770); [lia|].
  apply roundSqrt_mono. lia.
Qed.

(** The thinning of text never wraps around and keeps the order. *)
Lemma thin_mono (processing : ascii) (a b : Z) :
  0 <= a <= b -> b <= 255 * 255 ->
  0 <= thin processing a <= thin processing b /\ thin processing b <= 255 * 255.
Proof.
  intros Hab Hb. unfold thin.
  destruct (is_t processing || is_hash processing); [|lia].
  change (255 * 255 ÷ 2) with 32512. change (255 * 255) with 65025 in *.
  assert (Hu : forall v, 32512 <= v <= 65025 -> u64 (v * 3 ÷ 2 - 32512) = v * 3 ÷ 2 - 32512).
  { intros v Hv. unfold u64. apply Z.mod_small. change (2 ^ 64) with 18446744073709551616.
    lia_div. }
  destruct (Z.ltb_spec a 32512), (Z.ltb_spec b 32512); try lia;
    rewrite ?Hu by lia; lia_div.
Qed.

(** X15. The conversion of an average brightness to an alpha keeps the
    order and the range: for averages between 0 and 255 * 255, a brighter
    average never gives a smaller alpha, the alpha lies in 0 .. 255, the
    average 0 gives alpha 0 and the average 255 * 255 gives alpha 255, with
    or without the thinning of text, whose unsigned subtraction never wraps
    around. *)
Theorem alpha_monotone (processing : ascii) (a b : Z) :
  0 <= a <= b -> b <= 255 * 255 ->
  0 <= opacity (thin processing a) <= opacity (thin processing b)
  /\ opacity (thin processing b) <= 255
  /\ opacity (thin processing 0) = 0
  /\ opacity (thin processing (255 * 255)) = 255.
Proof.
  intros Hab Hb.
  destruct (thin_mono processing a b Hab Hb) as [Hm Hmax].
  pose proof (opacity_range (thin processing a) ltac:(lia)) as Ra.
  pose proof (opacity_range (thin processing b) ltac:(lia)) as Rb.
  pose proof (opacity_mono _ _ Hm) as Ho.
  split; [lia|]. split; [lia|].
  unfold thin. destruct (is_t processing || is_hash processing); split; reflexivity.
Qed.

Lemma alpha_monotone_witness :
  0 <= opacity (thin "t" 30000) <= opacity (thin "t" 40000).
Proof. apply (alpha_monotone "t" 30000 40000); lia. Defined.

(** ** The wave pattern of the wall tops *)

Lemma length_fold_zset {A} (f : list Z -> A -> list Z) (ks : list A) (l : list Z) :
  (forall l k, length (f l k) = length l) ->
  length (fold_left f ks l) = length l.
Proof.
  intros Hf. revert l. induction ks as [|k ks IH]; intros l; simpl; [reflexivity|].
  rewrite IH. apply Hf.
Qed.

Lemma length_downscale stackWord (g : Tiles) (tileWidth tileHeight row column : Z)
    (optimizing : bool) (values : list Z) :
  length (downscale stackWord g tileWidth tileHeight row column optimizing values)
  = length values.
Proof.
  unfold downscale.
  destruct (glyphSize g tileWidth tileHeight row column optimizing)
    as [[[fitWidth fitHeight] glyphWidth] glyphHeight].
  apply length_fold_zset. intros l y0. unfold downscaleRow.
  destruct (_ || _); [reflexivity|].
  assert (Hacc : forall sx y1 v, length (accumulate (TilesPNG g) row column tileWidth sx
                                                    y0 y1 v) = length v).
  { intros sx y1 v. unfold accumulate. apply length_fold_zset.
    intros l' x0. apply length_zset. }
  destruct (_ && _); [|apply Hacc].
  unfold interpolate. rewrite length_fold_zset by (intros l' x1; apply length_zset).
  apply Hacc.
Qed.

Lemma length_floorDust (tileWidth tileHeight : Z) (values : list Z) :
  length (floorDust tileWidth tileHeight values) = length values.
Proof.
  unfold floorDust.
  set (e := stitchEdges _ _ _ _).
  assert (He : length (dust_values e) = length values)
    by (subst e; apply length_stitchEdges).
  destruct (shuffle _ _) as [state idx].
  rewrite length_fillCenter. exact He.
Qed.

Lemma length_paintLine wave (tileWidth tileHeight nh nv y : Z) (values : list Z) :
  length (paintLine wave tileWidth tileHeight nh nv y values) = length values.
Proof.
  unfold paintLine. apply length_fold_zset. intros l x. apply length_zset.
Qed.

(** One painted line: the entries of the line carry the wave, the others
    are kept. *)
Lemma paintLine_at wave (tileWidth tileHeight nh nv y : Z) (values : list Z) (x y' : Z) :
  0 <= x < tileWidth ->
  0 <= y' * tileWidth + x < Z.of_nat (length values) ->
  zget (paintLine wave tileWidth tileHeight nh nv y values) (y' * tileWidth + x)
  = if y =? y' then Z.lor (wave tileWidth tileHeight nh nv x y) 0x100000000
    else zget values (y' * tileWidth + x).
Proof.
  intros Hx Hq. unfold paintLine.
  assert (Hgen : forall xs l,
            Z.of_nat (length l) = Z.of_nat (length values) ->
            (forall k, In k xs -> 0 <= k < tileWidth) ->
            zget (fold_left (fun l k => zset l (y * tileWidth + k)
                               (Z.lor (wave tileWidth tileHeight nh nv k y) 0x100000000))
                            xs l) (y' * tileWidth + x)
            = if (y =? y') && (if in_dec Z.eq_dec x xs then true else false)
              then Z.lor (wave tileWidth tileHeight nh nv x y) 0x100000000
              else zget l (y' * tileWidth + x)).
  { induction xs as [|k xs IH]; intros l Hl Hxs.
    - simpl. rewrite andb_false_r. reflexivity.
    - cbn [fold_left]. rewrite IH;
        [|rewrite length_zset; exact Hl|intros k' Hk'; apply Hxs; right; exact Hk'].
      pose proof (Hxs k (or_introl eq_refl)) as Hk.
      destruct (Z.eqb_spec y y') as [->|Hy]; cbn [andb].
      + destruct (in_dec Z.eq_dec x xs) as [Hin|Hnin].
        * destruct (in_dec Z.eq_dec x (k :: xs)) as [_|Hn]; [reflexivity|].
          exfalso. apply Hn. right. exact Hin.
        * destruct (Z.eq_dec k x) as [->|Hkx].
          -- destruct (in_dec Z.eq_dec x (x :: xs)) as [_|Hn];
               [|exfalso; apply Hn; left; reflexivity].
             apply zget_zset_eq. lia.
          -- destruct (in_dec Z.eq_dec x (k :: xs)) as [[E|Hin]|_];
               [congruence|contradiction|].
             apply zget_zset_ne. lia.
      + apply zget_zset_ne.
        destruct (Z.lt_trichotomy y y') as [Hlt|[Heq|Hgt]]; [nia|congruence|nia]. }
  rewrite Hgen; [|reflexivity|intros k Hk; apply in_range in Hk; exact Hk].
  destruct (in_dec Z.eq_dec x (range 0 tileWidth)) as [_|Hn];
    [rewrite andb_true_r; reflexivity|].
  exfalso. apply Hn, in_range, Hx.
Qed.

(** The loop of the tile at row 21 has no [break]: it paints every line. *)
Lemma wallTops_every_line wave (tileWidth tileHeight nh nv : Z) (ys : list Z)
    (values : list Z) (x y : Z) :
  0 <= x < tileWidth ->
  0 <= y * tileWidth + x < Z.of_nat (length values) ->
  zget (wallTops_loop wave tileWidth tileHeight nh nv 21 ys values) (y * tileWidth + x)
  = if in_dec Z.eq_dec y ys
    then Z.lor (wave tileWidth tileHeight nh nv x y) 0x100000000
    else zget values (y * tileWidth + x).
Proof.
  intros Hx. revert values. induction ys as [|y0 ys IH]; intros values Hq.
  - reflexivity.
  - cbn [wallTops_loop]. change (negb (21 =? 21)) with false. cbn [andb].
    rewrite IH by (rewrite length_paintLine; exact Hq).
    rewrite paintLine_at by assumption.
    destruct (in_dec Z.eq_dec y ys) as [Hin|Hnin].
    + destruct (in_dec Z.eq_dec y (y0 :: ys)) as [_|Hn]; [reflexivity|].
      exfalso. apply Hn. right. exact Hin.
    + destruct (Z.eqb_spec y0 y) as [->|Hne].
      * destruct (in_dec Z.eq_dec y (y :: ys)) as [_|Hn]; [reflexivity|].
        exfalso. apply Hn. left. reflexivity.
      * destruct (in_dec Z.eq_dec y (y0 :: ys)) as [[E|Hin]|_];
          [congruence|contradiction|reflexivity].
Qed.

(** The accumulator before the wall tops are painted. *)
Lemma length_before_wallTops stackWord (g : Tiles) (tileWidth tileHeight row column : Z) :
  length (if isFloor row column && tileEmpty g row column
             && (tileWidth >? 2) && (tileHeight >? 2) && negb false
          then floorDust tileWidth tileHeight
                 (if tileEmpty g row column then blank tileWidth tileHeight
                  else downscale stackWord g tileWidth tileHeight row column false
                                 (blank tileWidth tileHeight))
          else if tileEmpty g row column then blank tileWidth tileHeight
               else downscale stackWord g tileWidth tileHeight row column false
                              (blank tileWidth tileHeight))
  = Z.to_nat (tileWidth * tileHeight).
Proof.
  destruct (_ && _ && _ && _ && _); rewrite ?length_floorDust;
    destruct (tileEmpty g row column); rewrite ?length_downscale;
    apply length_replicate.
Qed.

(** X16. The wall top at row 21, column 1 is all wave: in a render that is
    not a calibration, every entry of its accumulator holds the wave
    brightness of its pixel with the count 1, whatever the atlas shows in
    that tile. *)
Theorem wallTop_fills_tile wave stackWord (g : Tiles) (tileWidth tileHeight x y : Z) :
  0 <= x < tileWidth -> 0 <= y < tileHeight ->
  let numHorizWaves :=
    Z.max 2 (Z.min 6 (roundQ (iq (Z.max 1 (baseTileWidth g)) * (25 # 100)))) in
  let numVertWaves :=
    Z.max 2 (Z.min 11 (roundQ (iq (Z.max 1 (baseTileHeight g)) * (25 # 100)))) in
  zget (prepareValues wave stackWord g tileWidth tileHeight 21 1 false)
       (y * tileWidth + x)
  = Z.lor (wave tileWidth tileHeight numHorizWaves numVertWaves x y) 0x100000000.
Proof.
  intros Hx Hy nh nv. unfold prepareValues.
  change (isWallTop 21 1 && negb false) with true. cbv iota.
  rewrite wallTops_every_line;
    [|exact Hx|rewrite length_before_wallTops; nia].
  destruct (in_dec Z.eq_dec y (range 0 tileHeight)) as [_|Hn]; [reflexivity|].
  exfalso. apply Hn, in_range, Hy.
Qed.

Lemma wallTop_fills_tile_witness :
  zget (prepareValues (fun _ _ _ _ x y => x + y) 0 inkedAtlas 4 4 21 1 false) (2 * 4 + 1)
  = Z.lor 3 0x100000000.
Proof.
  apply (wallTop_fills_tile (fun _ _ _ _ x y => x + y) 0 inkedAtlas 4 4 1 2); lia.
Defined.

(** The other wall tops stop at the middle of the tile. *)
Lemma wallTops_lower_half wave (tileWidth tileHeight nh nv row : Z) (ys : list Z)
    (values : list Z) (x y : Z) :
  row <> 21 -> 0 <= x < tileWidth -> tileHeight ÷ 2 < y ->
  0 <= y * tileWidth + x < Z.of_nat (length values) ->
  zget (wallTops_loop wave tileWidth tileHeight nh nv row ys values) (y * tileWidth + x)
  = zget values (y * tileWidth + x).
Proof.
  intros Hrow Hx Hy. revert values. induction ys as [|y0 ys IH]; intros values Hq.
  - reflexivity.
  - cbn [wallTops_loop].
    destruct (Z.eqb_spec row 21) as [E|_]; [contradiction|]. cbn [negb andb].
    destruct (Z.gtb_spec y0 (tileHeight ÷ 2)) as [Hlow|Hup]; cbn [orb]; [reflexivity|].
    destruct (negb _); [reflexivity|].
    rewrite IH by (rewrite length_paintLine; exact Hq).
    rewrite paintLine_at by assumption.
    destruct (Z.eqb_spec y0 y); [lia|reflexivity].
Qed.

(** X17. The wave of the wall tops at row 16, column 2 and at row 22, column
    4 stays in the upper half: on every line below the middle line
    [tileHeight / 2], the accumulator holds what the downscaling of the
    tile left there (nothing, when the tile is empty). *)
Theorem wallTops_keep_lower_half wave stackWord (g : Tiles)
    (tileWidth tileHeight row column x y : Z) :
  row = 16 /\ column = 2 \/ row = 22 /\ column = 4 ->
  0 <= x < tileWidth -> tileHeight ÷ 2 < y < tileHeight ->
  zget (prepareValues wave stackWord g tileWidth tileHeight row column false)
       (y * tileWidth + x)
  = if tileEmpty g row column then 0
    else zget (downscale stackWord g tileWidth tileHeight row column false
                         (blank tileWidth tileHeight)) (y * tileWidth + x).
Proof.
  intros Hcell Hx Hy. unfold prepareValues.
  assert (Hwall : isWallTop row column = true)
    by (destruct Hcell as [[-> ->]|[-> ->]]; reflexivity).
  assert (Hfloor : isFloor row column = false)
    by (destruct Hcell as [[-> ->]|[-> ->]]; reflexivity).
  assert (Hrow : row <> 21) by lia.
  rewrite Hwall, Hfloor. cbn [andb negb].
  rewrite wallTops_lower_half; try assumption; try lia.
  - destruct (tileEmpty g row column); [apply zget_replicate|reflexivity].
  - assert (Hlen : length (if tileEmpty g row column then blank tileWidth tileHeight
                           else downscale stackWord g tileWidth tileHeight row column false
                                          (blank tileWidth tileHeight))
                   = Z.to_nat (tileWidth * tileHeight)).
    { destruct (tileEmpty g row column); rewrite ?length_downscale;
        apply length_replicate. }
    rewrite Hlen. assert (0 <= y) by lia_div. nia.
Qed.

Lemma wallTops_keep_lower_half_witness :
  zget (prepareValues (fun _ _ _ _ _ _ => 65025) 0 blankAtlas 4 4 16 2 false) (3 * 4 + 1)
  = 0.
Proof.
  apply (wallTops_keep_lower_half (fun _ _ _ _ _ _ => 65025) 0 blankAtlas 4 4 16 2 1 3).
  - left. split; reflexivity.
  - lia.
  - split; [by_compute|lia].
Defined.

(** ** The surfaces of the textures *)

Lemma growSize_some (fuel : nat) (size target k : Z) :
  0 <= k -> size = 2 ^ k -> size = 1 \/ size < 2 * target ->
  target <= size * 2 ^ Z.of_nat fuel ->
  exists j, k <= j <= k + Z.of_nat fuel
            /\ growSize (S fuel) size target = Some (2 ^ j)
            /\ target <= 2 ^ j /\ (2 ^ j = 1 \/ 2 ^ j < 2 * target).
Proof.
  revert size k. induction fuel as [|fuel IH]; intros size k Hk Hsize Hinv Hfuel.
  - exists k. cbn [growSize]. change (2 ^ Z.of_nat 0) with 1 in Hfuel.
    destruct (Z.ltb_spec size target); [lia|]. subst size.
    repeat split; try lia; try reflexivity; exact Hinv.
  - cbn [growSize]. destruct (Z.ltb_spec size target) as [Hlt|Hge].
    + destruct (IH (size * 2) (k + 1)) as (j & Hj & Hrun & Hle & Hmin).
      * lia.
      * rewrite Z.pow_add_r by lia. subst size. reflexivity.
      * right. lia.
      * rewrite Nat2Z.inj_succ, Z.pow_succ_r in Hfuel by lia. lia.
      * exists j. split; [lia|]. split; [exact Hrun|]. split; assumption.
    + exists k. subst size. repeat split; try lia; try reflexivity; exact Hinv.
Qed.

Lemma growSize_none (fuel : nat) (size target : Z) :
  0 < size ->
  (fuel <> O -> size * 2 ^ (Z.of_nat fuel - 1) < target) ->
  growSize fuel size target = None.
Proof.
  revert size. induction fuel as [|fuel IH]; intros size Hpos Hlarge; [reflexivity|].
  cbn [growSize]. specialize (Hlarge ltac:(discriminate)).
  replace (Z.of_nat (S fuel) - 1) with (Z.of_nat fuel) in Hlarge by lia.
  assert (Hp : 1 <= 2 ^ Z.of_nat fuel) by (apply Z.pow_le_mono_r with (b := 0); lia).
  destruct (Z.ltb_spec size target) as [_|Hge]; [|nia].
  apply IH; [lia|]. intros Hne.
  replace (Z.of_nat fuel) with (Z.succ (Z.of_nat fuel - 1)) in Hlarge by lia.
  rewrite Z.pow_succ_r in Hlarge by lia. lia.
Qed.

(** X18. The two [while] loops of [loadTiles] give a surface side that is
    the least power of two not below the side of the 16 x 24 tiles: for a
    target of at most 2^30 the loop ends with 2^k, the target is at most
    2^k, and 2^k is 1 or less than twice the target.  For a larger target
    the doubling would leave the range of [int]; the model has no result
    there. *)
Theorem surfaceSize_spec (target : Z) :
  (target <= 2 ^ 30 ->
   exists k, 0 <= k <= 30 /\ surfaceSize target = Some (2 ^ k)
             /\ target <= 2 ^ k /\ (2 ^ k = 1 \/ 2 ^ k < 2 * target))
  /\ (2 ^ 30 < target -> surfaceSize target = None).
Proof.
  unfold surfaceSize. split.
  - intros Hsmall.
    destruct (growSize_some 30 1 target 0) as (j & Hj & Hrun & Hle & Hmin);
      [lia|reflexivity|left; reflexivity|exact Hsmall|].
    exists j. split; [lia|]. split; [exact Hrun|]. split; assumption.
  - intros Hlarge. apply growSize_none; [lia|]. intros _. exact Hlarge.
Qed.

Lemma surfaceSize_spec_witness :
  exists k, 0 <= k <= 30 /\ surfaceSize (10 * TILE_COLS) = Some (2 ^ k)
            /\ 10 * TILE_COLS <= 2 ^ k /\ (2 ^ k = 1 \/ 2 ^ k < 2 * (10 * TILE_COLS)).
Proof. apply (proj1 (surfaceSize_spec (10 * TILE_COLS))). by_compute. Defined.

(** ** The texture atlas that [loadTiles] renders *)

(** A render leaves the pixels of the other tiles alone. *)
Lemma prepareTile_frame wave blurTerm stackWord (g : Tiles) (surface : Surface)
    (tileWidth tileHeight row column : Z) (optimizing : bool) (j : Z) :
  (forall x y, 0 <= x < tileWidth -> 0 <= y < tileHeight ->
               pixelIndex (surf_w surface) tileWidth tileHeight row column x y <> j) ->
  zget (surf_pixels (fst (prepareTile wave blurTerm stackWord g surface
                            tileWidth tileHeight row column optimizing))) j
  = zget (surf_pixels surface) j.
Proof.
  intros Hfree.
  pose proof (prepareTile_surface_shape wave blurTerm stackWord g surface
                tileWidth tileHeight row column optimizing) as [_ Hlen].
  destruct (Z_lt_dec j 0) as [Hneg|Hpos];
    [rewrite !zget_outside by (left; exact Hneg); reflexivity|].
  destruct (Z_lt_dec j (Z.of_nat (length (surf_pixels surface)))) as [Hin|Hout];
    [|rewrite !zget_outside by (right; lia); reflexivity].
  clear Hlen. unfold prepareTile, convert.
  set (values := prepareValues wave stackWord g tileWidth tileHeight row column optimizing).
  destruct (fold_left _ (range 0 tileHeight) (surf_pixels surface, 0%Q))
    as [pixels blur] eqn:E.
  change pixels with (fst (pixels, blur)). rewrite <- E. simpl fst at 1.
  apply convert_lines.
  - simpl. lia.
  - intros x y Hx Hy Heq. apply in_range in Hx, Hy.
    exfalso. exact (Hfree x y Hx Hy Heq).
  - left. reflexivity.
Qed.

(** The rectangles of two tiles in a surface wide enough for 16 tiles share
    no pixel. *)
Lemma pixelIndex_cells (sw tw th row column x y row' column' x' y' : Z) :
  TILE_COLS * tw <= sw ->
  0 <= column < TILE_COLS -> 0 <= column' < TILE_COLS ->
  0 <= x < tw -> 0 <= x' < tw -> 0 <= y < th -> 0 <= y' < th ->
  pixelIndex sw tw th row' column' x' y' = pixelIndex sw tw th row column x y ->
  row' = row /\ column' = column /\ x' = x /\ y' = y.
Proof.
  unfold pixelIndex, TILE_COLS. intros Hsw Hc Hc' Hx Hx' Hy Hy' Heq.
  assert (Ha : 0 <= column * tw + x < sw) by nia.
  assert (Ha' : 0 <= column' * tw + x' < sw) by nia.
  assert (Hline : row' * th + y' = row * th + y).
  { destruct (Z.lt_trichotomy (row' * th + y') (row * th + y)) as [H|[H|H]];
      [nia|exact H|nia]. }
  assert (Hcol : column' * tw + x' = column * tw + x) by nia.
  assert (Hr : row' = row).
  { destruct (Z.lt_trichotomy row' row) as [H|[H|H]]; [nia|exact H|nia]. }
  assert (Hcc : column' = column).
  { destruct (Z.lt_trichotomy column' column) as [H|[H|H]]; [nia|exact H|nia]. }
  subst. repeat split; lia.
Qed.

(** The word that a render writes for the pixel [(x, y)] of a tile. *)
Definition tileWord wave stackWord (g : Tiles) (tileWidth tileHeight row column x y : Z)
  : Z :=
  pixelWord (TileProcessing row column)
            (zget (prepareValues wave stackWord g tileWidth tileHeight row column false)
                  (y * tileWidth + x)).

(** The renders of a list of tiles, one after the other. *)
Definition renderCells wave blurTerm stackWord (g : Tiles) (tileWidth tileHeight : Z)
    (cells : list (Z * Z)) (surface : Surface) : Surface :=
  fold_left (fun s cell =>
               fst (prepareTile wave blurTerm stackWord g s tileWidth tileHeight
                                (fst cell) (snd cell) false))
            cells surface.

Lemma renderTiles_cells wave blurTerm stackWord (g : Tiles) (surface : Surface)
    (tileWidth tileHeight : Z) :
  renderTiles wave blurTerm stackWord g surface tileWidth tileHeight
  = renderCells wave blurTerm stackWord g tileWidth tileHeight
      (flat_map (fun row => map (pair row) (range 0 TILE_COLS)) (range 0 TILE_ROWS))
      surface.
Proof.
  unfold renderTiles, renderCells.
  generalize (range 0 TILE_ROWS) as rows. generalize (range 0 TILE_COLS) as cols.
  intros cols rows. revert surface.
  induction rows as [|row rows IH]; intros surface; [reflexivity|].
  cbn [fold_left flat_map]. rewrite fold_left_app, <- IH. f_equal.
  clear IH. revert surface.
  induction cols as [|column cols IH]; intros surface; [reflexivity|].
  cbn [fold_left map]. apply IH.
Qed.

Lemma renderCells_shape wave blurTerm stackWord (g : Tiles) (tileWidth tileHeight : Z)
    (cells : list (Z * Z)) (surface : Surface) :
  surf_w (renderCells wave blurTerm stackWord g tileWidth tileHeight cells surface)
  = surf_w surface
  /\ length (surf_pixels (renderCells wave blurTerm stackWord g tileWidth tileHeight
                                      cells surface))
     = length (surf_pixels surface).
Proof.
  unfold renderCells. revert surface.
  induction cells as [|cell cells IH]; intros surface; [split; reflexivity|].
  cbn [fold_left].
  destruct (IH (fst (prepareTile wave blurTerm stackWord g surface tileWidth tileHeight
                                 (fst cell) (snd cell) false))) as [Hw Hl].
  destruct (prepareTile_surface_shape wave blurTerm stackWord g surface tileWidth tileHeight
              (fst cell) (snd cell) false) as [Hw' Hl'].
  split; congruence.
Qed.

(** After the renders of a list of tiles, a pixel of a tile of the list
    holds the word of its own render; a pixel of another tile is as before. *)
Lemma renderCells_pixel wave blurTerm stackWord (g : Tiles) (tileWidth tileHeight : Z)
    (cells : list (Z * Z)) (surface : Surface) (row column x y : Z) :
  TILE_COLS * tileWidth <= surf_w surface ->
  (forall cell, In cell cells -> 0 <= snd cell < TILE_COLS) ->
  0 <= column < TILE_COLS -> 0 <= x < tileWidth -> 0 <= y < tileHeight ->
  0 <= pixelIndex (surf_w surface) tileWidth tileHeight row column x y
    < Z.of_nat (length (surf_pixels surface)) ->
  zget (surf_pixels (renderCells wave blurTerm stackWord g tileWidth tileHeight
                                 cells surface))
       (pixelIndex (surf_w surface) tileWidth tileHeight row column x y)
  = if existsb (fun cell => (fst cell =? row) && (snd cell =? column)) cells
    then tileWord wave stackWord g tileWidth tileHeight row column x y
    else zget (surf_pixels surface)
              (pixelIndex (surf_w surface) tileWidth tileHeight row column x y).
Proof.
  intros Hsw Hcells Hc Hx Hy. unfold renderCells. revert surface Hsw.
  induction cells as [|cell cells IH]; intros surface Hsw Hj; [reflexivity|].
  cbn [fold_left existsb].
  set (s1 := fst (prepareTile wave blurTerm stackWord g surface tileWidth tileHeight
                              (fst cell) (snd cell) false)).
  destruct (prepareTile_surface_shape wave blurTerm stackWord g surface tileWidth tileHeight
              (fst cell) (snd cell) false) as [Hw1 Hl1].
  fold s1 in Hw1, Hl1.
  assert (Hcell : 0 <= snd cell < TILE_COLS) by (apply Hcells; left; reflexivity).
  assert (Htw : tileWidth <= surf_w surface) by (unfold TILE_COLS in Hsw; lia).
  specialize (IH (fun c Hin => Hcells c (or_intror Hin)) s1).
  rewrite Hw1, Hl1 in IH. rewrite (IH Hsw Hj). clear IH.
  destruct (existsb _ cells); [rewrite orb_true_r; reflexivity|]. rewrite orb_false_r.
  destruct (Z.eqb_spec (fst cell) row) as [Er|Nr]; cbn [andb];
    [destruct (Z.eqb_spec (snd cell) column) as [Ec|Nc]|].
  - subst s1. rewrite Er, Ec. apply prepareTile_pixel; assumption.
  - subst s1. apply prepareTile_frame. intros x' y' Hx' Hy' Heq.
    apply pixelIndex_cells in Heq as (_ & E & _); try assumption. exact (Nc E).
  - subst s1. apply prepareTile_frame. intros x' y' Hx' Hy' Heq.
    apply pixelIndex_cells in Heq as (E & _); try assumption. exact (Nr E).
Qed.

Lemma renderCells_frame wave blurTerm stackWord (g : Tiles) (tileWidth tileHeight : Z)
    (cells : list (Z * Z)) (surface : Surface) (j : Z) :
  (forall cell x y, In cell cells -> 0 <= x < tileWidth -> 0 <= y < tileHeight ->
     pixelIndex (surf_w surface) tileWidth tileHeight (fst cell) (snd cell) x y <> j) ->
  zget (surf_pixels (renderCells wave blurTerm stackWord g tileWidth tileHeight
                                 cells surface)) j
  = zget (surf_pixels surface) j.
Proof.
  unfold renderCells. revert surface.
  induction cells as [|cell cells IH]; intros surface Hfree; [reflexivity|].
  cbn [fold_left].
  destruct (prepareTile_surface_shape wave blurTerm stackWord g surface tileWidth tileHeight
              (fst cell) (snd cell) false) as [Hw1 _].
  rewrite IH.
  - apply prepareTile_frame. intros x y Hx Hy.
    apply Hfree; [left; reflexivity|exact Hx|exact Hy].
  - rewrite Hw1. intros c x y Hin. apply Hfree. right. exact Hin.
Qed.

Lemma in_all_cells (row column : Z) :
  In (row, column)
     (flat_map (fun row => map (pair row) (range 0 TILE_COLS)) (range 0 TILE_ROWS))
  <-> 0 <= row < TILE_ROWS /\ 0 <= column < TILE_COLS.
Proof.
  rewrite in_flat_map. split.
  - intros (r & Hr & Hin). apply in_map_iff in Hin as (c & E & Hc).
    inversion E; subst. apply in_range in Hr, Hc. split; assumption.
  - intros [Hr Hc]. exists row. split; [apply in_range, Hr|].
    apply in_map, in_range, Hc.
Qed.

Lemma surfaceSize_fits (target : Z) :
  target <= 2 ^ 30 -> exists s, surfaceSize target = Some s /\ target <= s /\ 1 <= s.
Proof.
  intros Hsmall. unfold surfaceSize.
  destruct (growSize_some 30 1 target 0) as (j & Hj & Hrun & Hle & _);
    [lia|reflexivity|left; reflexivity|exact Hsmall|].
  exists (2 ^ j). split; [exact Hrun|]. split; [exact Hle|].
  apply (Z.pow_le_mono_r 2 0 j); lia.
Qed.

(** X19. The surface from which [loadTiles] makes a texture is an atlas of
    the 16 x 24 rendered tiles: for tiles of a size whose 16-fold width and
    24-fold height do not exceed 2^30, the surface exists and is wide enough
    for 16 tiles; the rectangle of every tile lies inside the buffer of its
    pixels and holds, pixel by pixel, the words of that tile's render, which
    the later renders of the other tiles have not touched; and a pixel
    outside all the rectangles is still the zero that the surface was created
    with. *)
Theorem textureSurface_tiles wave blurTerm stackWord (g : Tiles) (i : Z) :
  let tileWidth := variantTileWidth g i in
  let tileHeight := variantTileHeight g i in
  0 < tileWidth -> 0 < tileHeight ->
  tileWidth * TILE_COLS <= 2 ^ 30 -> tileHeight * TILE_ROWS <= 2 ^ 30 ->
  exists s,
    textureSurface wave blurTerm stackWord g i = Some s
    /\ TILE_COLS * tileWidth <= surf_w s
    /\ (forall row column x y,
          0 <= row < TILE_ROWS -> 0 <= column < TILE_COLS ->
          0 <= x < tileWidth -> 0 <= y < tileHeight ->
          0 <= pixelIndex (surf_w s) tileWidth tileHeight row column x y
            < Z.of_nat (length (surf_pixels s))
          /\ zget (surf_pixels s)
                  (pixelIndex (surf_w s) tileWidth tileHeight row column x y)
             = tileWord wave stackWord g tileWidth tileHeight row column x y)
    /\ (forall j,
          (forall row column x y,
             0 <= row < TILE_ROWS -> 0 <= column < TILE_COLS ->
             0 <= x < tileWidth -> 0 <= y < tileHeight ->
             pixelIndex (surf_w s) tileWidth tileHeight row column x y <> j) ->
          zget (surf_pixels s) j = 0).
Proof.
  intros tileWidth tileHeight Hw Hh Hsw Hsh.
  destruct (surfaceSize_fits (tileWidth * TILE_COLS) Hsw) as (W & EW & HW & PW).
  destruct (surfaceSize_fits (tileHeight * TILE_ROWS) Hsh) as (H & EH & HH & PH).
  unfold textureSurface, createSurface. fold tileWidth tileHeight. rewrite EW, EH.
  set (s0 := mkSurface W (replicate (Z.to_nat (W * H)) 0)).
  set (cells := flat_map (fun row => map (pair row) (range 0 TILE_COLS))
                         (range 0 TILE_ROWS)).
  exists (renderTiles wave blurTerm stackWord g s0 tileWidth tileHeight).
  split; [reflexivity|]. rewrite renderTiles_cells. fold cells.
  destruct (renderCells_shape wave blurTerm stackWord g tileWidth tileHeight cells s0)
    as [Ew El].
  rewrite Ew, El. cbn [s0 surf_w surf_pixels]. rewrite length_replicate.
  split; [lia|]. split.
  - intros row column x y Hr Hc Hx Hy.
    assert (Hj : 0 <= pixelIndex W tileWidth tileHeight row column x y
                 < Z.of_nat (Z.to_nat (W * H))).
    { unfold pixelIndex, TILE_ROWS, TILE_COLS in *.
      assert (0 <= column * tileWidth + x < W) by nia.
      assert (0 <= row * tileHeight + y < H) by nia. nia. }
    split; [exact Hj|].
    pose proof (renderCells_pixel wave blurTerm stackWord g tileWidth tileHeight cells s0
                  row column x y) as Hpix.
    cbn [s0 surf_w surf_pixels] in Hpix. rewrite length_replicate in Hpix.
    rewrite Hpix; try assumption; try lia.
    + assert (Hex : existsb (fun cell => (fst cell =? row) && (snd cell =? column)) cells
                    = true).
      { apply existsb_exists. exists (row, column).
        split; [apply in_all_cells; split; assumption|].
        cbn [fst snd]. rewrite !Z.eqb_refl. reflexivity. }
      rewrite Hex. reflexivity.
    + intros [r c] Hin. apply in_all_cells in Hin. apply Hin.
  - intros j Hfree.
    rewrite renderCells_frame.
    + cbn [s0 surf_pixels]. apply zget_replicate.
    + intros [r c] x y Hin Hx Hy. apply in_all_cells in Hin as [Hr Hc].
      cbn [s0 surf_w fst snd]. apply Hfree; assumption.
Qed.

Lemma textureSurface_tiles_witness :
  exists s,
    textureSurface (fun _ _ _ _ _ _ => 0) (fun _ => 0%Q) 0 blankAtlas 0 = Some s
    /\ TILE_COLS * 3 <= surf_w s.
Proof.
  destruct (textureSurface_tiles (fun _ _ _ _ _ _ => 0) (fun _ => 0%Q) 0 blankAtlas 0
              ltac:(by_compute) ltac:(by_compute) ltac:(by_compute) ltac:(by_compute))
    as (s & Hs & Hw & _).
  exists s. split; [exact Hs|exact Hw].
Defined.

(** ** The cache file that [init] writes *)

Lemma toByte_small (v : Z) :
  -10 <= v <= 10 -> 0 <= toByte v <= 10 \/ 246 <= toByte v <= 255.
Proof.
  intros Hv. unfold toByte.
  destruct (Z_le_dec 0 v) as [Hpos|Hneg].
  - left. rewrite Z.mod_small by lia. lia.
  - right. replace v with (v + 256 + -1 * 256) by lia.
    rewrite Z.mod_add by lia. rewrite Z.mod_small by lia. lia.
Qed.

Lemma init_fresh_file calibrate (png : Z -> Z) :
  snd (init calibrate png None)
  = Some (fwriteShifts (tileShifts (optimizeTiles calibrate (measure png)))).
Proof. reflexivity. Qed.

Lemma table_bytes : Z.of_nat (TILE_COUNT * BLOCK_SIZE) = 147456.
Proof. by_compute. Qed.

Lemma windowed_bytes (g : Tiles) :
  tableWindowed g ->
  Forall (fun b => 0 <= b <= 10 \/ 246 <= b <= 255) (fwriteShifts (tileShifts g)).
Proof.
  intros [Hcount Hcells].
  unfold fwriteShifts. apply Forall_fmap, Forall_concat.
  apply Forall_lookup_2. intros i block Hi.
  pose proof (lookup_lt_Some _ _ _ Hi) as Hlt. rewrite Hcount in Hlt.
  assert (Hi384 : (i < 384)%nat) by exact Hlt.
  set (row := Z.of_nat i / 16). set (column := Z.of_nat i mod 16).
  assert (Hrc : 0 <= row < TILE_ROWS /\ 0 <= column < TILE_COLS
                /\ cellIndex row column = Z.of_nat i).
  { subst row column. unfold cellIndex, TILE_ROWS, TILE_COLS. lia_div. }
  destruct Hrc as (Hr & Hc & Hcell).
  destruct (Hcells row column Hr Hc) as [[_ Hlen] Hblock].
  assert (Hb : cellBlock (tileShifts g) row column = block).
  { unfold cellBlock. rewrite Hcell.
    destruct (Z.ltb_spec (Z.of_nat i) 0); [lia|].
    rewrite Nat2Z.id, Hi. reflexivity. }
  rewrite Hb in Hlen, Hblock.
  apply Forall_lookup_2. intros j v Hj.
  pose proof (lookup_lt_Some _ _ _ Hj) as Hjlt. rewrite Hlen in Hjlt.
  assert (Hj384 : (j < 384)%nat) by exact Hjlt.
  set (axis := Z.of_nat j / 192). set (size := Z.of_nat j / 3 mod 64).
  set (k := Z.of_nat j mod 3).
  assert (Hslot : slotOK axis size /\ 0 <= k < 3 /\ slotIndex axis size k = Z.of_nat j).
  { subst axis size k. unfold slotOK, slotIndex, MAX_TILE_SIZE. lia_div. }
  destruct Hslot as (Hs & Hk & Hidx).
  destruct (Hblock axis size Hs) as ((B0 & B1 & B2) & _). cbn beta in *.
  assert (Hv : zget block (slotIndex axis size k) = v).
  { rewrite Hidx. unfold zget. destruct (Z.ltb_spec (Z.of_nat j) 0); [lia|].
    rewrite Nat2Z.id, Hj. reflexivity. }
  assert (Hrange : -10 <= v <= 10).
  { rewrite <- Hv. assert (Hk3 : k = 0 \/ k = 1 \/ k = 2) by lia.
    destruct Hk3 as [E|[E|E]]; rewrite E; lia. }
  apply toByte_small, Hrange.
Qed.

(** X20. When [init] finds no cache file, the file that it writes holds one
    byte for each shift of the table, 24 * 16 * 2 * 64 * 3 = 147456 bytes,
    each the two's complement byte of a shift between -10 and 10. *)
Theorem init_writes_whole_table (calibrate : Tiles -> Z -> Z -> Z -> Z -> Q)
    (png : Z -> Z) :
  exists bytes,
    snd (init calibrate png None) = Some bytes
    /\ Z.of_nat (length bytes) = 147456
    /\ Forall (fun b => 0 <= b <= 10 \/ 246 <= b <= 255) bytes.
Proof.
  assert (Hw : tableWindowed (optimizeTiles calibrate (measure png)))
    by (apply optimizeTiles_windowed, zeroTable_windowed; reflexivity).
  rewrite init_fresh_file.
  generalize dependent (optimizeTiles calibrate (measure png)). intros g Hw.
  exists (fwriteShifts (tileShifts g)).
  split; [reflexivity|].
  split; [|apply windowed_bytes, Hw].
  rewrite (length_fwriteShifts _ (tableWindowed_shiftTable _ Hw)). apply table_bytes.
Qed.

(** ** The padding never cuts ink *)

(** X21. With the padding that [init] measures, the vertical stops of a
    render enclose every line of the source tile that has ink: the lines
    above the first stop and from the last stop on, which the render maps
    nowhere, are transparent in the atlas. *)
Theorem padding_keeps_ink (png : Z -> Z) (row column y : Z) :
  0 <= y < TILE_HEIGHT -> lineHasInk png row column y ->
  stop0 (vertStops (measure png) row column) <= y
  /\ y < stop4 (vertStops (measure png) row column).
Proof.
  intros Hy Hink. unfold vertStops, measure. cbn [tilePadding].
  destruct (is_t (TileProcessing row column)); [exact Hy|].
  cbn [stop0 stop4].
  destruct (is_f (TileProcessing row column)); [|unfold TILE_HEIGHT in *; lia].
  unfold getPadding.
  destruct (getPadding_loop_spec png row column (Z.to_nat (TILE_HEIGHT / 4)) 0)
    as (Hr & Hbefore & _).
  set (p := getPadding_loop png row column (Z.to_nat (TILE_HEIGHT / 4)) 0) in *.
  assert (Hclear : forall q, 0 <= q < p ->
            ~ lineHasInk png row column q
            /\ ~ lineHasInk png row column (TILE_HEIGHT - q - 1)).
  { intros q Hq. specialize (Hbefore q Hq).
    split; intros H.
    - pose proof (proj2 (inkAt_spec png row column q) (or_introl H)). congruence.
    - pose proof (proj2 (inkAt_spec png row column q) (or_intror H)). congruence. }
  split.
  - destruct (Z_le_dec p y) as [Hle|Hgt]; [exact Hle|].
    exfalso. apply (proj1 (Hclear y ltac:(lia))). exact Hink.
  - destruct (Z_lt_dec y (TILE_HEIGHT - p)) as [Hlt|Hge]; [exact Hlt|].
    exfalso. apply (proj2 (Hclear (TILE_HEIGHT - y - 1) ltac:(lia))).
    replace (TILE_HEIGHT - (TILE_HEIGHT - y - 1) - 1) with y by lia. exact Hink.
Qed.

Lemma padding_keeps_ink_witness :
  stop0 (vertStops (measure (fun _ => 0xffffffff)) 0 0) <= 100
  /\ 100 < stop4 (vertStops (measure (fun _ => 0xffffffff)) 0 0).
Proof.
  apply (padding_keeps_ink (fun _ => 0xffffffff) 0 0 100); [by_compute|].
  exists 0. split; [by_compute|]. vm_compute. discriminate.
Defined.

(** ** The word before the array of the lines *)

Lemma fold_left_ext_in {A B} (f h : A -> B -> A) (l : list B) (a : A) :
  (forall a x, In x l -> f a x = h a x) -> fold_left f l a = fold_left h l a.
Proof.
  revert a. induction l as [|x l IH]; intros a Hext; [reflexivity|].
  cbn [fold_left]. rewrite (Hext a x (or_introl eq_refl)).
  apply IH. intros a' x' Hx'. apply Hext. right. exact Hx'.
Qed.

(** X22. For the first line of the source tile the test for a skipped line
    reads [scaledY[-1]], the word before the array.  That word has no part
    in the result when the first source line is mapped to one of the first
    two lines of the tile or to no line of the tile (it lies in the padding,
    or below the tile): then the accumulator is the same for every value of
    the word. *)
Theorem render_ignores_stray_word wave (stackWord stackWord' : Z) (g : Tiles)
    (tileWidth tileHeight row column : Z) (optimizing : bool) :
  let sy := snd (renderMaps g tileWidth tileHeight row column optimizing) in
  zget sy 0 < 2 \/ tileHeight <= zget sy 0 ->
  prepareValues wave stackWord g tileWidth tileHeight row column optimizing
  = prepareValues wave stackWord' g tileWidth tileHeight row column optimizing.
Proof.
  intros sy Hfirst.
  assert (Hdown : forall values,
            downscale stackWord g tileWidth tileHeight row column optimizing values
            = downscale stackWord' g tileWidth tileHeight row column optimizing values).
  { intros values. subst sy. unfold renderMaps in Hfirst. unfold downscale.
    destruct (glyphSize g tileWidth tileHeight row column optimizing)
      as [[[fitWidth fitHeight] glyphWidth] glyphHeight].
    cbn [snd] in Hfirst.
    apply fold_left_ext_in. intros v y0 _. unfold downscaleRow, previousY.
    destruct (Z.eqb_spec y0 0) as [->|Hne]; [|reflexivity].
    set (y1 := zget (scaledY (vertStops g row column)
                             (vertMaps g row column fitHeight glyphHeight)) 0) in *.
    clearbody y1.
    destruct (Z.ltb_spec y1 0); cbn [orb]; [reflexivity|].
    destruct (Z.geb_spec y1 tileHeight); cbn [orb]; [reflexivity|].
    destruct (Z.geb_spec y1 2); cbn [andb]; [lia|reflexivity]. }
  unfold prepareValues. rewrite Hdown. reflexivity.
Qed.

Lemma render_ignores_stray_word_witness :
  prepareValues (fun _ _ _ _ _ _ => 0) 0 inked8 9 8 0 0 false
  = prepareValues (fun _ _ _ _ _ _ => 0) 7 inked8 9 8 0 0 false.
Proof.
  apply (render_ignores_stray_word (fun _ _ _ _ _ _ => 0) 0 7 inked8 9 8 0 0 false).
  left. by_compute.
Defined.

(** Where the first source line is mapped further down, the word decides
    whether a line is interpolated: for the text tile at row 2, column 1 and
    the base size 5 x 20 the first source line goes to line 3; with the word
    1 the render copies it to line 2, which is else left transparent. *)
Lemma render_depends_on_stray_word :
  let g := set_base inkedAtlas 5 20 in
  zget (snd (renderMaps g 5 20 2 1 false)) 0 = 3
  /\ zget (prepareValues (fun _ _ _ _ _ _ => 0) 0 g 5 20 2 1 false) (2 * 5 + 0) = 0
  /\ alphaOf "t" (zget (prepareValues (fun _ _ _ _ _ _ => 0) 1 g 5 20 2 1 false)
                       (2 * 5 + 0)) = 255.
Proof. vm_compute. repeat split. Qed.
